(* ===== verification/_CoqProject ===== *)
-Q . S2P
Prelude.v
GoStrings.v
Json.v
Marshal.v
Configs.v
Errs.v
Notifs.v
Broker.v
Effects.v
LbsEntry.v
Options.v
Requeue.v
Streams.v
Reader.v
Reconcile.v
Server.v
RefServer.v
Recorder.v
Rescue.v
Conserve.v
Settled.v
Topology.v
ForEach.v
Relay.v
ClientApi.v
LoadBalancing.v
