(* ===== verification/Prelude.v ===== *)
(** * A verification library for redis-stream-client-go

    redis-stream-client-go distributes data streams to consumers through Redis.
    Producers add one entry per data stream to a load-balancer stream (LBS);
    the consumers of a service share a consumer group on it. A consumer that is
    handed an entry locks the entry's key, tells its application (StreamAdded),
    keeps the lock alive with a heartbeat, and finally acknowledges and deletes
    the entry and unlocks. When a consumer dies its lock expires; the entry stays
    pending, and other consumers recover it, either on the application's demand
    after an expiry notification ([Claim]) or in a periodic reconciliation scan:
    they acknowledge the entry and add it again as a new one (XACK, then XADD),
    or move it to a dead-letter stream (DLQ) when it was retried too often or
    cannot be parsed.

    ** The parts, and the file that models each

    - GoStrings.v, Json.v, Marshal.v: what the sources use of Go's strings,
      strconv, sort and encoding/json (decoding into and encoding of
      LBSInputMessage), on byte strings.
    - Configs.v: configs/consts.go. Errs.v: types/errs/, errors.Is and Unwrap.
    - Notifs.v: notifs/lbsmsg.go and relredisnotif.go: stream identities, lock
      keys, notifications, the decoding of keyspace events.
    - Broker.v: notifs/broker.go as a concurrent state machine, one action per
      channel operation, for any number of [Send] and [Close] calls.
    - Effects.v: the language of the client's functions (below), and
      metrics/recorder.go as the metrics they record.
    - LbsEntry.v: impl/lbsentry.go. Options.v: impl/opts.go,
      impl/recovery_config.go and NewRedisStreamClient.
    - Requeue.v: impl/requeue.go and [Claim] of impl/relredis.go.
    - Streams.v: processLBSMessages and startExtendingKey of impl/init.go,
      DoneStream and Done of impl/relredis.go, the lock map and cleanup of
      impl/helpers.go, closeAll of impl/oss.go.
    - Reader.v: readLBSStream and listenKsp of impl/init.go.
    - Reconcile.v: reconcileLBS and runReconciliationLoop of impl/init.go,
      nextReconciliationDelay of impl/requeue.go.
    - Server.v: what recovery relies on of Redis, as a class of laws, and
      recovery by many clients at once. RefServer.v: an executable server that
      satisfies the laws. Conserve.v and Rescue.v: recovery against it, under
      interleaving and failures, and a whole pass of the scan.
    - Settled.v: impl/settled.go. Topology.v: keyspace configuration and
      subscriptions (impl/init.go, impl/oss.go), Init and ReinitTopology of
      impl/relredis.go. ForEach.v: the callbacks on all nodes at once. Relay.v:
      fanInPubSub and the channel it feeds.
    - ClientApi.v: the interface of types/types.go. Recorder.v: the interface of
      metrics/recorder.go, metrics/noop_recorder.go and
      examples/prometheus/recorder.go.
    - LoadBalancing.v: examples/load-balancing/main.go, an application.

    ** How the code is modelled

    A function of the client that talks to its surroundings is a [prog]
    (Effects.v): a tree of calls, each answered by the environment. Redis
    commands, redsync locks, the context, time, randomness, the lock map (one
    call per critical section), channels, goroutine starts and metrics are such
    calls; an answer is any value of its Go type, errors included. Definitions
    keep the names, branches and order of calls of the source. A Go error is an
    [option error], a pair of a value and an error a [result]; Go's int, int64
    and time.Duration are integers with 64-bit wrap-around written out. Four
    notions state properties: [wp] (every complete run), [always] (every prefix
    of every run), [run] (a run against a concrete environment), and
    [pool_step] (programs interleaved call by call).

    Loops that run until something happens (the reader, the listener, the
    heartbeat, the reconciliation loop) take the number of iterations they are
    observed for, and report [Running] (or [None]) after that many; their
    theorems hold for every number, and [reader_gives_up] bounds how long a
    failing reader runs. All other loops are structural, so every program ends.

    ** What the theorems show

    - Recovery (Requeue.v, Server.v, RefServer.v): one recovery acknowledges
      before it adds, respects a live owner, preserves the payload, counts
      retries, and reports truthfully what it did; any number of concurrent
      recoveries add the task at most once, at most one [Claim] succeeds, and
      none re-adds a task its owner is finishing; against the reference server
      a recovery is one step of a specification on server states.
    - Conservation and progress (Conserve.v, Rescue.v): however recoverers
      interleave and whatever fails, a pending task stays pending or is won by a
      recoverer that ends with a copy of it or with a failed XADD; an
      undisturbed pass of the scan leaves no pending entry without an owner.
    - A stream's life (Streams.v): the reader and recovery agree on what an entry
      says; a stream is announced only while locked, once per message and in
      order; the heartbeat disowns exactly when it lost the lock; the lock is
      released last; [Done] tears the client down only after all streams are
      finished.
    - Background loops (Reader.v, Reconcile.v, Relay.v): backoff, giving up, the
      final notification, expiry notifications, complete scans with true
      totals, the period with its float64 jitter, the bounded channel.
    - Broker.v: order and exactly-once delivery, orderly shutdown, termination.
    - Configuration and topology (Options.v, Settled.v, Topology.v, ForEach.v): which
      clients can be constructed and what holds of them; when a cluster counts
      as settled; that re-initialisation touches only a settled cluster and
      rebuilds subscriptions without leaks; that Init starts all or nothing;
      that callbacks interleaved on the nodes have the outcomes of sequential
      ones.
    - Metrics (Recorder.v): the client never makes the Prometheus recorder
      panic; the scan's counters equal the per-entry ones; durations are those
      between matched starts and ends.
    - The application (LoadBalancing.v): what the producer encodes the client
      decodes; a task is followed from production to completion; the consumer
      process shuts its client down after the signal or exits early; every
      notification is acted on once.
    - Some theorems show defects: [broker_send_close_race],
      [heartbeat_disowns_successor], [requeue_retry_overflow],
      [reconciliation_panics], [done_aborts_on_finished_stream],
      [prometheus_startup_counts_locks], [prometheus_end_before_start],
      [count_lost_update]; [lost_race_unrecorded] differs from the
      documentation of the metrics.

    ** What is not modelled

    Logging; go-redis, redsync and Prometheus' client_golang themselves (calls,
    with [RedisLaws] and [op_ok] for what is relied on); math/rand and the
    formatting of the time (calls); the text of encoding/json's errors (a
    parameter); the help texts and bucket limits of the Prometheus collectors;
    the recorders and log handlers under test/, which only tests use.

    ** Further work

    Conservation over the life of a task with its readers and owners next to
    the recoverers, and with crashes that stop a program for good; a
    reconciliation pass interleaved with the readers that take up what it
    re-queues.

    This file holds what all others share: tactics, 64-bit integers, counting,
    and invariants of step relations. *)

From Stdlib Require Import ZArith Lia.
From stdpp Require Import base gmap strings list numbers relations.

#[global] Open Scope Z_scope.

(** ** Tactics *)

(** Case analysis on every boolean integer comparison of goal and context. *)
Ltac zbool :=
  repeat match goal with
  | H : context [Z.ltb ?a ?b] |- _ => destruct (Z.ltb_spec a b)
  | H : context [Z.leb ?a ?b] |- _ => destruct (Z.leb_spec a b)
  | H : context [Z.eqb ?a ?b] |- _ => destruct (Z.eqb_spec a b)
  | |- context [Z.ltb ?a ?b] => destruct (Z.ltb_spec a b)
  | |- context [Z.leb ?a ?b] => destruct (Z.leb_spec a b)
  | |- context [Z.eqb ?a ?b] => destruct (Z.eqb_spec a b)
  end.

(** ** Machine integers: Go's [int], [int64] and [time.Duration] are 64-bit *)

Definition min_int64 : Z := - 2 ^ 63.
Definition max_int64 : Z := 2 ^ 63 - 1.

Definition in_int64 (z : Z) : Prop := min_int64 <= z <= max_int64.

#[export] Instance in_int64_dec z : Decision (in_int64 z).
Proof. unfold in_int64. apply _. Defined.

(** Two's complement wrap-around of an exact result. *)
Definition wrap64 (z : Z) : Z := (z + 2 ^ 63) mod 2 ^ 64 - 2 ^ 63.

Definition add64 (a b : Z) : Z := wrap64 (a + b).
Definition mul64 (a b : Z) : Z := wrap64 (a * b).

Lemma wrap64_range z : in_int64 (wrap64 z).
Proof.
  unfold in_int64, wrap64, min_int64, max_int64.
  pose proof (Z.mod_pos_bound (z + 2 ^ 63) (2 ^ 64) ltac:(lia)). lia.
Qed.

Lemma wrap64_id z : in_int64 z -> wrap64 z = z.
Proof.
  unfold in_int64, wrap64, min_int64, max_int64. intros.
  rewrite Z.mod_small; lia.
Qed.

Lemma add64_id a b : in_int64 (a + b) -> add64 a b = a + b.
Proof. apply wrap64_id. Qed.

Lemma mul64_id a b : in_int64 (a * b) -> mul64 a b = a * b.
Proof. apply wrap64_id. Qed.

(** ** Hint databases *)

Create HintDb redis.
#[export] Hint Resolve wrap64_range : redis.

(** ** Counting the elements of a list that satisfy a boolean test *)

Section count.
Context {A : Type}.
Implicit Types (f g : A -> bool) (l : list A).

Fixpoint count f l : nat :=
  match l with
  | [] => 0
  | x :: l' => (if f x then 1 else 0) + count f l'
  end.

Lemma count_app f l1 l2 : count f (l1 ++ l2) = (count f l1 + count f l2)%nat.
Proof. induction l1; simpl; lia. Qed.

Lemma count_pos_elem f l : (0 < count f l)%nat <-> exists x, x ∈ l /\ f x = true.
Proof.
  induction l as [|x l IH]; simpl.
  - split; [lia|]. intros (y & Hy & _). by apply elem_of_nil in Hy.
  - setoid_rewrite elem_of_cons. destruct (f x) eqn:E.
    + split; [|lia]. intros _. exists x. auto.
    + rewrite IH. split.
      * intros (y & ? & ?). eauto.
      * intros (y & [->|?] & ?); [congruence|eauto].
Qed.

Lemma count_0 f l : count f l = 0%nat <-> forall x, x ∈ l -> f x = false.
Proof.
  destruct (count f l) as [|n] eqn:E; split; try done.
  - intros _ x Hx. apply not_true_is_false. intros Hf.
    assert (0 < count f l)%nat by (apply count_pos_elem; eauto). lia.
  - intros Hall. assert (0 < count f l)%nat as Hpos by lia.
    apply count_pos_elem in Hpos as (x & Hx & Hf). rewrite Hall in Hf; done.
Qed.

End count.

(** ** Executions: an invariant of the steps holds at the end of a run *)

Lemma rtc_invariant {A} (R : relation A) (P : A -> Prop) x y :
  (forall a b, R a b -> P a -> P b) -> P x -> rtc R x y -> P y.
Proof. intros HR Hx Hr. induction Hr as [|a b c Hab _ IH]; eauto. Qed.
