(* ===== verification/GoStrings.v ===== *)
(** * Go strings

    The functions of Go's [strings], [strconv] and [sort] packages that the
    sources call, on byte strings ([String.string]; an [ascii] is a byte):
    [HasPrefix], [CutPrefix], [Contains], [Split], [StrJoin], [Fields],
    [TrimSpace], [Itoa], [Atoi] and the byte order [sort.Strings] uses. *)

From Stdlib Require Import ZArith Lia Ascii String DecimalString DecimalN DecimalZ.
From stdpp Require Import base strings list numbers sorting.
From S2P Require Import Prelude.

#[local] Open Scope string_scope.

(** The empty string, spelt out because it occurs often. *)
Notation "'ε'" := EmptyString : string_scope.

(** Let [simpl] compute appends of literals. *)
#[global] Arguments String.append !_ _ / : assert.

Definition byte (n : nat) : ascii := ascii_of_nat n.

Definition newline : string := String (byte 10) ε.

(** ** Prefixes and substrings *)

Fixpoint HasPrefix (s p : string) {struct p} : bool :=
  match p, s with
  | ε, _ => true
  | String a p', String b s' => if ascii_dec a b then HasPrefix s' p' else false
  | _, ε => false
  end.

(** [strings.CutPrefix s p]: what follows the prefix, if it is there. *)
Fixpoint CutPrefix (s p : string) {struct p} : option string :=
  match p, s with
  | ε, _ => Some s
  | String a p', String b s' => if ascii_dec a b then CutPrefix s' p' else None
  | _, ε => None
  end.

Fixpoint Contains (s sub : string) : bool :=
  HasPrefix s sub ||
  match s with
  | ε => false
  | String _ s' => Contains s' sub
  end.

(** Does the byte occur in the string? *)
Fixpoint has_byte (c : ascii) (s : string) : bool :=
  match s with
  | ε => false
  | String a s' => if ascii_dec a c then true else has_byte c s'
  end.

(** ** [strings.Split] for a non-empty separator

    Leftmost, non-overlapping occurrences. [skip] counts the bytes of a
    separator that has been matched and not yet passed. *)

Fixpoint split_skip (sep s : string) (skip : nat) : list string :=
  match s with
  | ε => [ε]
  | String c s' =>
    match skip with
    | S k => split_skip sep s' k
    | O =>
      if HasPrefix s sep then ε :: split_skip sep s' (String.length sep - 1)
      else match split_skip sep s' 0 with
           | [] => [String c ε]
           | h :: t => String c h :: t
           end
    end
  end.

Definition Split (s sep : string) : list string := split_skip sep s 0.

Fixpoint StrJoin (elems : list string) (sep : string) : string :=
  match elems with
  | [] => ε
  | [x] => x
  | x :: rest => x +:+ sep +:+ StrJoin rest sep
  end.

(** ** White space: [unicode.IsSpace] on UTF-8

    [space_len s] is the number of bytes of the white-space rune [s] starts
    with, 0 when it starts with another rune. The lead bytes C2, E1, E2 and E3
    never occur inside another valid rune, so matching bytes is matching
    runes. *)

Definition space_runes : list string :=
  let u l := fold_right (fun n s => String (byte n) s) ε l in
  [u [9]%nat; u [10]%nat; u [11]%nat; u [12]%nat; u [13]%nat; u [32]%nat;
   u [194; 133]%nat; u [194; 160]%nat; u [225; 154; 128]%nat;
   u [226; 128; 128]%nat; u [226; 128; 129]%nat; u [226; 128; 130]%nat; u [226; 128; 131]%nat;
   u [226; 128; 132]%nat; u [226; 128; 133]%nat; u [226; 128; 134]%nat; u [226; 128; 135]%nat;
   u [226; 128; 136]%nat; u [226; 128; 137]%nat; u [226; 128; 138]%nat;
   u [226; 128; 168]%nat; u [226; 128; 169]%nat; u [226; 128; 175]%nat;
   u [226; 129; 159]%nat; u [227; 128; 128]%nat].

Definition space_len (s : string) : nat :=
  match list_find (fun r => HasPrefix s r = true) space_runes with
  | Some (_, r) => String.length r
  | None => 0
  end.

(** [strings.Fields]: the maximal runs of non-white-space bytes. [skip] counts
    the bytes of a white-space rune not yet passed; the result's first element
    is the field being read (empty between fields). *)
Fixpoint fields_skip (s : string) (skip : nat) : string * list string :=
  match s with
  | ε => (ε, [])
  | String c s' =>
    match skip with
    | S k => fields_skip s' k
    | O =>
      match space_len s with
      | S k => let '(cur, rest) := fields_skip s' k in
               (ε, if String.eqb cur ε then rest else cur :: rest)
      | O => let '(cur, rest) := fields_skip s' 0 in (String c cur, rest)
      end
    end
  end.

Definition Fields (s : string) : list string :=
  let '(cur, rest) := fields_skip s 0 in
  if String.eqb cur ε then rest else cur :: rest.

(** [strings.TrimSpace]: drop white-space runes at both ends. *)
Fixpoint trim_left_skip (s : string) (skip : nat) : string :=
  match s with
  | ε => ε
  | String _ s' =>
    match skip with
    | S k => trim_left_skip s' k
    | O => match space_len s with
           | S k => trim_left_skip s' k
           | O => s
           end
    end
  end.

(** Is the whole string a sequence of white-space runes? *)
Fixpoint all_space_skip (s : string) (skip : nat) : bool :=
  match s with
  | ε => match skip with O => true | S _ => false end
  | String _ s' =>
    match skip with
    | S k => all_space_skip s' k
    | O => match space_len s with
           | S k => all_space_skip s' k
           | O => false
           end
    end
  end.

Fixpoint trim_right (s : string) : string :=
  if all_space_skip s 0 then ε
  else match s with
       | ε => ε
       | String c s' => String c (trim_right s')
       end.

Definition TrimSpace (s : string) : string := trim_right (trim_left_skip s 0).

(** ** [strconv] *)

(** [strconv.Itoa]. *)
Definition Itoa (z : Z) : string :=
  if (z <? 0)%Z then String (byte 45) (NilEmpty.string_of_uint (N.to_uint (Z.to_N (- z))))
  else NilEmpty.string_of_uint (N.to_uint (Z.to_N z)).

(** The value of a non-empty string of decimal digits. *)
Definition parse_digits (s : string) : option Z :=
  match s with
  | ε => None
  | _ => match NilEmpty.uint_of_string s with
         | Some u => Some (Z.of_N (N.of_uint u))
         | None => None
         end
  end.

(** [strconv.Atoi]: an optional sign, then digits; [None] on a syntax or range
    error. *)
Definition Atoi (s : string) : option Z :=
  let '(neg, d) :=
    match s with
    | String c s' =>
      if ascii_dec c (byte 45) then (true, s')
      else if ascii_dec c (byte 43) then (false, s')
      else (false, s)
    | ε => (false, ε)
    end in
  match parse_digits d with
  | None => None
  | Some n =>
    let v := if (neg : bool) then (- n)%Z else n in
    if ((min_int64 <=? v) && (v <=? max_int64))%Z then Some v else None
  end.

(** ** The byte order and [sort.Strings] *)

(** stdpp's [String.le] is the lexicographic order on bytes, a total order. *)
Definition sort_strings (l : list string) : list string := merge_sort String.le l.

(** ** Lemmas: append, prefixes *)

Lemma append_assoc a b c : (a +:+ b) +:+ c = a +:+ b +:+ c.
Proof. induction a; simpl; congruence. Qed.

Lemma length_append a b : String.length (a +:+ b) = (String.length a + String.length b)%nat.
Proof. induction a; simpl; lia. Qed.

Lemma CutPrefix_Some s p r : CutPrefix s p = Some r <-> s = p +:+ r.
Proof.
  revert s. induction p as [|a p IH]; intros s; simpl; [split; congruence|].
  destruct s as [|b s]; [done|]. destruct (ascii_dec a b) as [->|Hne].
  - rewrite IH. split; [by intros ->|congruence].
  - split; [done|congruence].
Qed.

Lemma HasPrefix_CutPrefix s p : HasPrefix s p = true <-> is_Some (CutPrefix s p).
Proof.
  revert s. induction p as [|a p IH]; intros s; simpl; [done|].
  destruct s as [|b s]; [split; [done|by intros []]|].
  destruct (ascii_dec a b); [apply IH|]. split; [done|by intros []].
Qed.

Lemma HasPrefix_spec s p : HasPrefix s p = true <-> exists r, s = p +:+ r.
Proof.
  rewrite HasPrefix_CutPrefix. unfold is_Some. by setoid_rewrite CutPrefix_Some.
Qed.

Lemma HasPrefix_app p r : HasPrefix (p +:+ r) p = true.
Proof. apply HasPrefix_spec. eauto. Qed.

(** A pattern without the byte [c] is matched before the first [c]. *)
Lemma HasPrefix_before c a r p :
  has_byte c p = false -> HasPrefix (a +:+ String c r) p = HasPrefix a p.
Proof.
  revert a. induction p as [|x p IH]; intros a Hp; simpl in *; [by destruct a|].
  destruct (ascii_dec x c); [done|]. destruct a as [|y a]; simpl.
  - destruct (ascii_dec x c); done.
  - destruct (ascii_dec x y); [by apply IH|done].
Qed.

Lemma has_byte_app c a b : has_byte c (a +:+ b) = has_byte c a || has_byte c b.
Proof. induction a as [|x a IH]; simpl; [done|]. by destruct (ascii_dec x c). Qed.

(** The last occurrence of a byte determines the two sides. *)
Lemma last_byte_inj c a b u v :
  has_byte c u = false -> has_byte c v = false ->
  a +:+ String c u = b +:+ String c v -> a = b /\ u = v.
Proof.
  intros Hu Hv. revert b. induction a as [|x a IH]; intros [|y b]; simpl; intros Heq.
  - by simplify_eq.
  - simplify_eq. rewrite has_byte_app in Hu. simpl in Hu.
    destruct (ascii_dec y y); [|done]. by rewrite orb_true_r in Hu.
  - simplify_eq. rewrite has_byte_app in Hv. simpl in Hv.
    destruct (ascii_dec c c); [|done]. by rewrite orb_true_r in Hv.
  - injection Heq as -> Heq. by destruct (IH b Heq) as [-> ->].
Qed.

(** ** Lemmas: [Split] and [StrJoin] *)

Lemma split_skip_app sep x y : split_skip sep (x +:+ y) (String.length x) = Split y sep.
Proof. induction x; simpl; [done|]. destruct x; simpl in *; done. Qed.

Lemma split_skip_not_nil sep s n : split_skip sep s n <> [].
Proof.
  revert n. induction s as [|c s IH]; intros n; simpl; [done|].
  destruct n; [|apply IH]. case_match; [done|]. by case_match.
Qed.

Section unbordered.
Context (c : ascii) (t : string) (Hc : has_byte c t = false).
Let sep := String c t.

Lemma split_absent a : Contains a sep = false -> Split a sep = [a].
Proof.
  unfold Split. induction a as [|x a IH]; [done|]. cbn [Contains split_skip].
  intros [-> Ha]%orb_false_elim. by rewrite (IH Ha).
Qed.

Lemma split_first a b : Contains a sep = false -> Split (a +:+ sep +:+ b) sep = a :: Split b sep.
Proof.
  unfold Split. induction a as [|x a IH].
  - intros _. change (ε +:+ sep +:+ b) with (String c (t +:+ b)). cbn [split_skip].
    rewrite (HasPrefix_app sep b : HasPrefix (String c (t +:+ b)) sep = true). f_equal.
    replace (String.length sep - 1)%nat with (String.length t) by (simpl; lia).
    apply split_skip_app.
  - cbn [Contains]. intros [Hp Ha]%orb_false_elim.
    change (String x a +:+ sep +:+ b) with (String x (a +:+ sep +:+ b)). cbn [split_skip].
    rewrite (IH Ha).
    assert (HasPrefix (String x (a +:+ sep +:+ b)) sep = false) as ->; [|done].
    rewrite <-Hp. simpl. destruct (ascii_dec c x); [|done].
    by apply (HasPrefix_before c).
Qed.

(** The first occurrence of the separator. *)
Lemma Contains_first a :
  Contains a sep = true -> exists p q, a = p +:+ sep +:+ q /\ Contains p sep = false.
Proof.
  induction a as [|x a IH]; [done|]. cbn [Contains].
  destruct (HasPrefix (String x a) sep) eqn:E.
  - intros _. apply HasPrefix_spec in E as [q ->]. by exists ε, q.
  - intros (p & q & -> & Hp)%IH. exists (String x p), q. split; [done|].
    cbn [Contains]. rewrite Hp, orb_false_r. apply not_true_is_false.
    intros [r Hr]%HasPrefix_spec.
    assert (HasPrefix (String x p +:+ sep +:+ q) sep = true) as Ht;
      [|exact (diff_true_false (eq_trans (eq_sym Ht) E))].
    rewrite Hr, append_assoc. apply HasPrefix_app.
Qed.

Lemma split_app a b : Split (a +:+ sep +:+ b) sep = (Split a sep ++ Split b sep)%list.
Proof.
  remember (String.length a) as n eqn:Hn. revert a Hn.
  induction (lt_wf n) as [n _ IH]. intros a ->.
  destruct (Contains a sep) eqn:E; [|by rewrite split_first, (split_absent a)].
  apply Contains_first in E as (p & q & -> & Hp).
  rewrite !append_assoc, (split_first p (q +:+ sep +:+ b)), (split_first p q) by done.
  rewrite <-app_comm_cons. f_equal.
  apply (IH (String.length q)); [|done]. rewrite !length_append. simpl. lia.
Qed.

Lemma split_length_absent a : length (Split a sep) = 1%nat <-> Contains a sep = false.
Proof.
  split; [|by intros ?; rewrite split_absent].
  intros Hl. apply not_true_is_false. intros (p & q & -> & Hp)%Contains_first.
  rewrite split_first in Hl by done. simpl in Hl.
  destruct (Split q sep) eqn:E; [by apply split_skip_not_nil in E|done].
Qed.
End unbordered.

Lemma StrJoin_cons x l sep : l <> [] -> StrJoin (x :: l) sep = x +:+ sep +:+ StrJoin l sep.
Proof. by destruct l. Qed.

(** Splitting a joined list of pieces that do not contain the separator's
    first byte gives the pieces back. *)
Lemma Contains_has_byte c t s : has_byte c s = false -> Contains s (String c t) = false.
Proof.
  induction s as [|x s IH]; [done|]. cbn [Contains has_byte]. intros Hs.
  destruct (ascii_dec x c); [done|]. rewrite (IH Hs), orb_false_r. simpl.
  by destruct (ascii_dec c x).
Qed.

Lemma Split_StrJoin c t l :
  has_byte c t = false -> l <> [] -> Forall (fun s => has_byte c s = false) l ->
  Split (StrJoin l (String c t)) (String c t) = l.
Proof.
  intros Ht Hne Hl. induction Hl as [|x l Hx Hl IH]; [done|].
  destruct l as [|y l]; [by apply split_absent, Contains_has_byte|].
  rewrite StrJoin_cons by done.
  rewrite split_first by (done || by apply Contains_has_byte). by rewrite IH.
Qed.

Lemma StrJoin_inj c t l1 l2 :
  has_byte c t = false -> l1 <> [] -> l2 <> [] ->
  Forall (fun s => has_byte c s = false) l1 -> Forall (fun s => has_byte c s = false) l2 ->
  StrJoin l1 (String c t) = StrJoin l2 (String c t) -> l1 = l2.
Proof.
  intros Ht H1 H2 Hl1 Hl2 Heq.
  by rewrite <-(Split_StrJoin c t l1), <-(Split_StrJoin c t l2), Heq by done.
Qed.

(** The pieces of a split at a single byte do not contain it. *)
Lemma Split_pieces c s : Forall (fun x => has_byte c x = false) (Split s (String c ε)).
Proof.
  unfold Split. induction s as [|x s IH]; [by repeat constructor|]. cbn [split_skip HasPrefix].
  destruct (ascii_dec c x) as [->|Hne]; [constructor; [done|exact IH]|].
  destruct (split_skip (String c ε) s 0) as [|h t]; inversion IH; subst; constructor; try done;
    simpl; by destruct (ascii_dec x c).
Qed.

(** A byte of a field is a byte of the string. *)
Lemma fields_skip_bytes c s n :
  has_byte c s = false ->
  has_byte c (fields_skip s n).1 = false /\ Forall (fun x => has_byte c x = false) (fields_skip s n).2.
Proof.
  revert n. induction s as [|x s IH]; intros n; [done|]. cbn [has_byte]. destruct (ascii_dec x c) as [|Hne]; [done|].
  intros Hs. cbn [fields_skip]. destruct n as [|n]; [|by apply IH].
  destruct (space_len (String x s)) as [|k].
  - destruct (IH 0%nat Hs) as [H1 H2]. destruct (fields_skip s 0) as [cur rest]. simpl in *.
    by destruct (ascii_dec x c).
  - destruct (IH k Hs) as [H1 H2]. destruct (fields_skip s k) as [cur rest]. simpl in *.
    split; [done|]. destruct (String.eqb cur ε); [done|by constructor].
Qed.

Lemma Fields_bytes c s : has_byte c s = false -> Forall (fun x => has_byte c x = false) (Fields s).
Proof.
  intros Hs. destruct (fields_skip_bytes c s 0 Hs) as [H1 H2]. unfold Fields.
  destruct (fields_skip s 0) as [cur rest]. simpl in *. destruct (String.eqb cur ε); [done|by constructor].
Qed.

Lemma StrJoin_bytes c l sep :
  has_byte c sep = false -> Forall (fun x => has_byte c x = false) l -> has_byte c (StrJoin l sep) = false.
Proof.
  intros Hs Hl. induction Hl as [|x l Hx Hl IH]; [done|]. destruct l as [|y l]; [done|].
  rewrite StrJoin_cons, !has_byte_app, Hx, Hs, IH by done. done.
Qed.

(** ** Lemmas: [strconv] *)

Lemma string_of_uint_not_nil n : NilEmpty.string_of_uint (N.to_uint n) <> ε.
Proof.
  intros Hnil. assert (NilEmpty.uint_of_string (NilEmpty.string_of_uint (N.to_uint n)) = Some Decimal.Nil)
    as Hu by (by rewrite Hnil).
  rewrite NilEmpty.usu in Hu. injection Hu as Hu.
  pose proof (Unsigned.of_to n) as Hn. rewrite Hu in Hn. simpl in Hn. subst n. discriminate Hu.
Qed.

Lemma parse_digits_print n : parse_digits (NilEmpty.string_of_uint (N.to_uint n)) = Some (Z.of_N n).
Proof.
  unfold parse_digits. pose proof (string_of_uint_not_nil n).
  case_match eqn:E; [done|]. rewrite <-E, NilEmpty.usu. by rewrite Unsigned.of_to.
Qed.

(** The first byte of a printed natural number is a digit. *)
Lemma string_of_uint_head c s u :
  NilEmpty.string_of_uint u = String c s -> c <> byte 45 /\ c <> byte 43.
Proof. destruct u; simpl; intros; simplify_eq; split; discriminate. Qed.

(** Printing a 64-bit integer and parsing it back. *)
Lemma Atoi_Itoa z : in_int64 z -> Atoi (Itoa z) = Some z.
Proof.
  intros Hz. unfold Atoi, Itoa. destruct (Z.ltb_spec z 0) as [Hneg|Hpos].
  - destruct (ascii_dec (byte 45) (byte 45)); [|done]. rewrite parse_digits_print.
    destruct Hz. rewrite Z2N.id by lia.
    replace (- - z) with z by lia. zbool; try lia. done.
  - destruct (NilEmpty.string_of_uint (N.to_uint (Z.to_N z))) as [|c s] eqn:E;
      [by apply string_of_uint_not_nil in E|].
    destruct (string_of_uint_head _ _ _ E).
    destruct (ascii_dec c (byte 45)); [done|]. destruct (ascii_dec c (byte 43)); [done|].
    rewrite <-E, parse_digits_print, Z2N.id by lia. destruct Hz. zbool; try lia. done.
Qed.

(** ** Lemmas: sorting *)

Lemma sort_strings_perm l : sort_strings l ≡ₚ l.
Proof. apply merge_sort_Permutation. Qed.

(** The sorted list depends on the multiset of strings only. *)
Lemma sort_strings_unique l1 l2 : l1 ≡ₚ l2 -> sort_strings l1 = sort_strings l2.
Proof.
  intros Hp. apply (Sorted_unique String.le); [apply Sorted_merge_sort; apply _..|].
  by rewrite !sort_strings_perm.
Qed.

#[export] Instance sort_strings_proper : Proper ((≡ₚ) ==> (=)) sort_strings.
Proof. intros l1 l2. apply sort_strings_unique. Qed.
