(* ===== verification/Json.v ===== *)
(** * encoding/json, as far as the sources use it

    [json.Unmarshal] into [notifs.LBSInputMessage], a struct with the fields
    [DataStreamName string] and [Info map[string]interface{}]. The decoder is
    the composition of a lexer (structural on the input bytes), a push-down
    parser (structural on the tokens, with the package's nesting limit) and
    the struct decoding rules: exact or case-folded field names, unknown fields
    skipped, [null] leaving a string alone and clearing a map, repeated [Info]
    objects merged, any type mismatch an error. *)

From Stdlib Require Import ZArith NArith Ascii String.
From stdpp Require Import base gmap strings list.
From S2P Require Import Prelude GoStrings.

#[local] Open Scope string_scope.

(** ** Bytes *)

Definition code (c : ascii) : N := N_of_ascii c.
Definition eqc (n : N) (c : ascii) : bool := N.eqb (code c) n.
Definition between (lo hi : N) (c : ascii) : bool := N.leb lo (code c) && N.leb (code c) hi.
Definition chr (n : N) : ascii := ascii_of_N n.

Definition is_digit := between 48 57.
Definition is_json_space (c : ascii) : bool := eqc 32 c || eqc 9 c || eqc 10 c || eqc 13 c.
Definition is_number_byte (c : ascii) : bool :=
  is_digit c || eqc 43 c || eqc 45 c || eqc 46 c || eqc 69 c || eqc 101 c.
Definition is_lower := between 97 122.

(** ** UTF-8 *)

Definition cont := between 128 191.

(** The length of the valid UTF-8 sequence a byte list starts with, 0 if the
    first byte starts none ([utf8.DecodeRune]). *)
Definition rune_len (s : list ascii) : nat :=
  match s with
  | [] => 0
  | a :: s1 =>
    if N.ltb (code a) 128 then 1
    else match s1 with
    | [] => 0
    | b :: s2 =>
      if between 194 223 a then (if cont b then 2 else 0)
      else match s2 with
      | [] => 0
      | c :: s3 =>
        if between 224 239 a then
          let lo := if eqc 224 a then 160%N else 128%N in
          let hi := if eqc 237 a then 159%N else 191%N in
          if between lo hi b && cont c then 3 else 0
        else match s3 with
        | [] => 0
        | d :: _ =>
          if between 240 244 a then
            let lo := if eqc 240 a then 144%N else 128%N in
            let hi := if eqc 244 a then 143%N else 191%N in
            if between lo hi b && cont c && cont d then 4 else 0
          else 0
        end
      end
    end
  end%nat.

(** U+FFFD, the replacement character. *)
Definition replacement : list ascii := [chr 239; chr 191; chr 189].

(** [utf8.AppendRune] of a code point that is not a surrogate. *)
Definition encode_rune (r : N) : list ascii :=
  if N.ltb r 128 then [chr r]
  else if N.ltb r 2048 then [chr (192 + r / 64); chr (128 + r mod 64)]
  else if N.ltb r 65536 then
    [chr (224 + r / 4096); chr (128 + (r / 64) mod 64); chr (128 + r mod 64)]
  else [chr (240 + r / 262144); chr (128 + (r / 4096) mod 64);
        chr (128 + (r / 64) mod 64); chr (128 + r mod 64)].

(** ** String literals *)

Definition hex_digit (c : ascii) : option N :=
  if is_digit c then Some (code c - 48)%N
  else if between 97 102 c then Some (code c - 87)%N
  else if between 65 70 c then Some (code c - 55)%N
  else None.

Definition hex4 (a b c d : ascii) : option N :=
  match hex_digit a, hex_digit b, hex_digit c, hex_digit d with
  | Some w, Some x, Some y, Some z => Some (((w * 16 + x) * 16 + y) * 16 + z)%N
  | _, _, _, _ => None
  end.

Definition is_surrogate (r : N) : bool := N.leb 55296 r && N.ltb r 57344.

(** [utf16.DecodeRune] of a high and a low surrogate. *)
Definition decode_surrogates (hi lo : N) : option N :=
  if (N.leb 55296 hi && N.ltb hi 56320 && N.leb 56320 lo && N.ltb lo 57344)%bool
  then Some ((hi - 55296) * 1024 + (lo - 56320) + 65536)%N
  else None.

(** One-byte escapes: the byte after the backslash and what it stands for. *)
Definition simple_escape (c : ascii) : option ascii :=
  if eqc 34 c || eqc 92 c || eqc 47 c then Some c
  else if eqc 98 c then Some (chr 8)
  else if eqc 102 c then Some (chr 12)
  else if eqc 110 c then Some (chr 10)
  else if eqc 114 c then Some (chr 13)
  else if eqc 116 c then Some (chr 9)
  else None.

(** The text between the quotes, unquoted; [None] on a malformed escape or a
    control byte. [keep] counts the bytes of a valid rune still to be copied. *)
Fixpoint unquote (s : list ascii) (keep : nat) : option (list ascii) :=
  match s with
  | [] => Some []
  | x :: s1 =>
    match keep with
    | S k => cons x <$> unquote s1 k
    | O =>
      if eqc 92 x then
        match s1 with
        | u :: s2 =>
          if eqc 117 u then
            match s2 with
            | a :: b :: c :: d :: s6 =>
              match hex4 a b c d with
              | None => None
              | Some r =>
                if is_surrogate r then
                  let lone := app replacement <$> unquote s6 0 in
                  match s6 with
                  | bs :: v :: a' :: b' :: c' :: d' :: s12 =>
                    match (if eqc 92 bs && eqc 117 v then hex4 a' b' c' d' else None) with
                    | Some r' =>
                      match decode_surrogates r r' with
                      | Some p => app (encode_rune p) <$> unquote s12 0
                      | None => lone
                      end
                    | None => lone
                    end
                  | _ => lone
                  end
                else app (encode_rune r) <$> unquote s6 0
              end
            | _ => None
            end
          else match simple_escape u with
               | Some c => cons c <$> unquote s2 0
               | None => None
               end
        | [] => None
        end
      else if N.ltb (code x) 32 then None
      else match rune_len s with
           | O => app replacement <$> unquote s1 0
           | S k => cons x <$> unquote s1 k
           end
    end
  end.

(** ** Number literals *)

Fixpoint skip_digits (s : string) : string :=
  match s with
  | String c s' => if is_digit c then skip_digits s' else s
  | ε => ε
  end.

(** At least one digit, then the rest. *)
Definition digits1 (s : string) : option string :=
  match s with
  | String c s' => if is_digit c then Some (skip_digits s') else None
  | ε => None
  end.

Definition valid_number (s : string) : bool :=
  let s1 := match s with String c s' => if eqc 45 c then s' else s | ε => ε end in
  match (match s1 with
         | String c s' => if eqc 48 c then Some s' else digits1 s1
         | ε => None
         end) with
  | None => false
  | Some s2 =>
    match (match s2 with
           | String c s' => if eqc 46 c then digits1 s' else Some s2
           | ε => Some ε
           end) with
    | None => false
    | Some s3 =>
      match s3 with
      | ε => true
      | String c s' =>
        if eqc 101 c || eqc 69 c then
          let s4 := match s' with
                    | String d s'' => if eqc 43 d || eqc 45 d then s'' else s'
                    | ε => ε
                    end in
          match digits1 s4 with Some ε => true | _ => false end
        else false
      end
    end
  end.

(** The mantissa and decimal exponent [strconv.ParseFloat] reads: a number is
    [mant * 10 ^ exp]. The explicit exponent saturates once it reaches 10000. *)
Fixpoint read_float (s : string) (mant exp : Z) (frac : bool) : Z * Z :=
  match s with
  | ε => (mant, exp)
  | String c s' =>
    if is_digit c then
      read_float s' (mant * 10 + Z.of_N (code c - 48)) (if frac then exp - 1 else exp) frac
    else if eqc 46 c then read_float s' mant exp true
    else if eqc 45 c then read_float s' mant exp frac
    else
      let '(neg, ds) := match s' with
                        | String d s'' =>
                          if eqc 45 d then (true, s'') else if eqc 43 d then (false, s'') else (false, s')
                        | ε => (false, ε)
                        end in
      let e := (fix go (t : string) (acc : Z) : Z :=
                  match t with
                  | String d t' =>
                    go t' (if (acc <? 10000)%Z then (acc * 10 + Z.of_N (code d - 48))%Z else acc)
                  | ε => acc
                  end) ds 0%Z in
      (mant, if (neg : bool) then (exp - e)%Z else (exp + e)%Z)
  end%Z.

(** Does the literal round to an infinity in binary64 ([convertNumber]'s range
    error)? *)
Definition float_overflows (s : string) : bool :=
  let '(m, e) := read_float s 0 0 false in
  let limit := (2 ^ 1024 - 2 ^ 970)%Z in
  if (m =? 0)%Z then false
  else if (400 <=? e)%Z then true
  else if (e <? 0)%Z then (limit * 10 ^ (- e) <=? m)%Z
  else (limit <=? m * 10 ^ e)%Z.

(** ** Lexer *)

Inductive token :=
| TObjBegin | TObjEnd | TArrBegin | TArrEnd | TColon | TComma
| TString (s : string) | TNumber (lit : string) | TTrue | TFalse | TNull.

Inductive mode :=
| MIdle
| MString (rev : list ascii) (escaped : bool)
| MNumber (rev : list ascii)
| MWord (rev : list ascii).

Definition of_bytes (l : list ascii) : string := string_of_list_ascii l.

(** The token a finished number or word stands for. *)
Definition close_mode (m : mode) : option (list token) :=
  match m with
  | MIdle => Some []
  | MString _ _ => None
  | MNumber r => let s := of_bytes (rev r) in
                 if valid_number s then Some [TNumber s] else None
  | MWord r => let s := of_bytes (rev r) in
               if String.eqb s "true" then Some [TTrue]
               else if String.eqb s "false" then Some [TFalse]
               else if String.eqb s "null" then Some [TNull] else None
  end.

(** What a byte does between tokens: the tokens it is and the next mode. *)
Definition idle_byte (c : ascii) : option (list token * mode) :=
  if is_json_space c then Some ([], MIdle)
  else if eqc 123 c then Some ([TObjBegin], MIdle)
  else if eqc 125 c then Some ([TObjEnd], MIdle)
  else if eqc 91 c then Some ([TArrBegin], MIdle)
  else if eqc 93 c then Some ([TArrEnd], MIdle)
  else if eqc 58 c then Some ([TColon], MIdle)
  else if eqc 44 c then Some ([TComma], MIdle)
  else if eqc 34 c then Some ([], MString [] false)
  else if is_digit c || eqc 45 c then Some ([], MNumber [c])
  else if is_lower c then Some ([], MWord [c])
  else None.

Fixpoint lex (s : string) (m : mode) : option (list token) :=
  match s with
  | ε => close_mode m
  | String c s' =>
    match m with
    | MString r true => lex s' (MString (c :: r) false)
    | MString r false =>
      if eqc 34 c then
        match unquote (rev r) 0 with
        | Some u => cons (TString (of_bytes u)) <$> lex s' MIdle
        | None => None
        end
      else lex s' (MString (c :: r) (eqc 92 c))
    | _ =>
      let continue := match m with
                      | MNumber r => if is_number_byte c then Some (MNumber (c :: r)) else None
                      | MWord r => if is_lower c then Some (MWord (c :: r)) else None
                      | _ => None
                      end in
      match continue with
      | Some m' => lex s' m'
      | None =>
        match close_mode m, idle_byte c with
        | Some t1, Some (t2, m') => app (t1 ++ t2) <$> lex s' m'
        | _, _ => None
        end
      end
    end
  end.

(** ** Parser *)

Inductive json :=
| JNull
| JBool (b : bool)
| JNumber (lit : string)
| JString (s : string)
| JArray (l : list json)
| JObject (l : list (string * json)).

(** An open array or object: the values read so far, in reverse. *)
Inductive frame :=
| FArr (acc : list json)
| FObj (acc : list (string * json)) (key : string).

Inductive expect :=
| EValue            (* a value *)
| EValueOrEnd       (* a value or the end of an empty array *)
| EKey              (* a key *)
| EKeyOrEnd         (* a key or the end of an empty object *)
| EColon (key : string)
| ECommaOrEnd
| EDone (v : json).

(** Give a finished value to the innermost open array or object. *)
Definition deliver (v : json) (st : list frame) : expect * list frame :=
  match st with
  | [] => (EDone v, [])
  | FArr acc :: st' => (ECommaOrEnd, FArr (v :: acc) :: st')
  | FObj acc k :: st' => (ECommaOrEnd, FObj ((k, v) :: acc) k :: st')
  end.

Definition max_nesting_depth : Z := 10000.

Definition push (f : frame) (e : expect) (st : list frame) : option (expect * list frame) :=
  if (Z.of_nat (length st) <? max_nesting_depth)%Z then Some (e, f :: st) else None.

Definition parse_scalar (t : token) : option json :=
  match t with
  | TString s => Some (JString s)
  | TNumber n => Some (JNumber n)
  | TTrue => Some (JBool true)
  | TFalse => Some (JBool false)
  | TNull => Some JNull
  | _ => None
  end.

Definition parse_value (t : token) (st : list frame) : option (expect * list frame) :=
  match t with
  | TArrBegin => push (FArr []) EValueOrEnd st
  | TObjBegin => push (FObj [] ε) EKeyOrEnd st
  | _ => match parse_scalar t with
         | Some v => Some (deliver v st)
         | None => None
         end
  end.

Definition parse_token (t : token) (e : expect) (st : list frame) : option (expect * list frame) :=
  match e, t, st with
  | EDone _, _, _ => None
  | EValueOrEnd, TArrEnd, FArr acc :: st' => Some (deliver (JArray (rev acc)) st')
  | (EValue | EValueOrEnd), _, _ => parse_value t st
  | EKeyOrEnd, TObjEnd, FObj acc _ :: st' => Some (deliver (JObject (rev acc)) st')
  | (EKey | EKeyOrEnd), TString k, _ => Some (EColon k, st)
  | EColon k, TColon, FObj acc _ :: st' => Some (EValue, FObj acc k :: st')
  | ECommaOrEnd, TComma, FArr _ :: _ => Some (EValue, st)
  | ECommaOrEnd, TComma, FObj _ _ :: _ => Some (EKey, st)
  | ECommaOrEnd, TArrEnd, FArr acc :: st' => Some (deliver (JArray (rev acc)) st')
  | ECommaOrEnd, TObjEnd, FObj acc _ :: st' => Some (deliver (JObject (rev acc)) st')
  | _, _, _ => None
  end.

Fixpoint parse_tokens (ts : list token) (e : expect) (st : list frame) : option json :=
  match ts with
  | [] => match e with EDone v => Some v | _ => None end
  | t :: ts' => match parse_token t e st with
                | Some (e', st') => parse_tokens ts' e' st'
                | None => None
                end
  end.

Definition parse_json (s : string) : option json :=
  match lex s MIdle with
  | Some ts => parse_tokens ts EValue []
  | None => None
  end.

(** ** Decoding into Go values *)

(** A value of type [any] as [encoding/json] makes it. [ANumber lit] is the
    [float64] nearest to the literal. *)
Inductive any :=
| ANil
| ABool (b : bool)
| ANumber (lit : string)
| AString (s : string)
| ASlice (l : list any)
| AMap (m : gmap string any).

(** The value, and whether no number in it is out of range. *)
Fixpoint to_any (j : json) : any :=
  match j with
  | JNull => ANil
  | JBool b => ABool b
  | JNumber n => ANumber n
  | JString s => AString s
  | JArray l => ASlice ((fix go (l : list json) := match l with [] => [] | x :: l' => to_any x :: go l' end) l)
  | JObject l =>
    AMap ((fix go (l : list (string * json)) (m : gmap string any) :=
             match l with [] => m | (k, x) :: l' => go l' (<[k := to_any x]> m) end) l ∅)
  end.

Fixpoint in_range (j : json) : bool :=
  match j with
  | JNumber n => negb (float_overflows n)
  | JArray l => (fix go (l : list json) := match l with [] => true | x :: l' => in_range x && go l' end) l
  | JObject l =>
    (fix go (l : list (string * json)) := match l with [] => true | (_, x) :: l' => in_range x && go l' end) l
  | _ => true
  end.

(** Field names match up to case folding; besides ASCII letters, U+017F folds
    to S and U+212A to K. *)
Fixpoint fold_name (s : list ascii) : list ascii :=
  match s with
  | [] => []
  | a :: s1 =>
    if is_lower a then chr (code a - 32) :: fold_name s1
    else match s1 with
    | b :: s2 =>
      if eqc 197 a && eqc 191 b then chr 83 :: fold_name s2
      else match s2 with
      | c :: s3 =>
        if eqc 226 a && eqc 132 b && eqc 170 c then chr 75 :: fold_name s3
        else a :: fold_name s1
      | [] => a :: fold_name s1
      end
    | [] => a :: fold_name s1
    end
  end.

Definition name_matches (key folded : string) : bool :=
  String.eqb (of_bytes (fold_name (list_ascii_of_string key))) folded.

(** notifs/relredisnotif.go: [LBSInputMessage]. *)
Record LBSInputMessage := mkLBSInputMessage {
  DataStreamName : string;
  Info : option (gmap string any)
}.

Definition zero_message : LBSInputMessage := mkLBSInputMessage ε None.

Definition decode_field (m : LBSInputMessage) (kv : string * json) : option LBSInputMessage :=
  let '(k, v) := kv in
  if name_matches k "DATASTREAMNAME" then
    match v with
    | JString s => Some (mkLBSInputMessage s (Info m))
    | JNull => Some m
    | _ => None
    end
  else if name_matches k "INFO" then
    match v with
    | JNull => Some (mkLBSInputMessage (DataStreamName m) None)
    | JObject l =>
      if in_range v then
        Some (mkLBSInputMessage (DataStreamName m)
                (Some (fold_left (fun acc '(k', x) => <[k' := to_any x]> acc) l (default ∅ (Info m)))))
      else None
    | _ => None
    end
  else Some m.

Fixpoint decode_fields (l : list (string * json)) (m : LBSInputMessage) : option LBSInputMessage :=
  match l with
  | [] => Some m
  | kv :: l' => match decode_field m kv with
                | Some m' => decode_fields l' m'
                | None => None
                end
  end.

Definition decode_message (j : json) : option LBSInputMessage :=
  match j with
  | JNull => Some zero_message
  | JObject l => decode_fields l zero_message
  | _ => None
  end.

(** [json.Unmarshal([]byte(s), &msg)] on a zero [msg]: the message, or [None]
    when it returns an error (both callers then drop the message). *)
Definition Unmarshal (s : string) : option LBSInputMessage :=
  match parse_json s with
  | Some j => decode_message j
  | None => None
  end.

(** ** Messages as a producer writes them

    [json.Marshal(LBSInputMessage{DataStreamName: name})] for a name made of
    ASCII bytes the encoder writes as they are. *)

Definition plain_byte (c : ascii) : bool :=
  between 32 126 c && negb (eqc 34 c || eqc 92 c || eqc 60 c || eqc 62 c || eqc 38 c).

Definition quoted (s : string) : string := String (chr 34) (s +:+ String (chr 34) ε).

Definition marshal_name (name : string) : string :=
  "{" +:+ quoted "DataStreamName" +:+ ":" +:+ quoted name +:+ "," +:+
  quoted "Info" +:+ ":null}".

Definition plain (s : string) : bool := forallb plain_byte (list_ascii_of_string s).

Lemma plain_byte_facts c :
  plain_byte c = true ->
  eqc 34 c = false /\ eqc 92 c = false /\ N.ltb (code c) 32 = false /\ N.ltb (code c) 128 = true.
Proof.
  unfold plain_byte, between. intros H.
  rewrite !andb_true_iff, negb_true_iff, !orb_false_iff, !N.leb_le in H.
  destruct H as [[? ?] [[[[? ?] ?] ?] ?]]. rewrite N.ltb_ge, N.ltb_lt. repeat split; try done; lia.
Qed.

Lemma unquote_plain l : forallb plain_byte l = true -> unquote l 0 = Some l.
Proof.
  induction l as [|c l IH]; [done|]. simpl. intros [Hc Hl]%andb_true_iff.
  apply plain_byte_facts in Hc as (_ & -> & -> & Hlt).
  unfold rune_len. rewrite Hlt. by rewrite (IH Hl).
Qed.

Lemma lex_plain s r rest :
  plain s = true ->
  lex (s +:+ String (chr 34) rest) (MString r false) =
  match unquote (rev r ++ list_ascii_of_string s) 0 with
  | Some u => cons (TString (of_bytes u)) <$> lex rest MIdle
  | None => None
  end.
Proof.
  revert r. induction s as [|c s IH]; intros r.
  - intros _. simpl. by rewrite app_nil_r.
  - unfold plain. simpl. intros [Hc Hs]%andb_true_iff.
    apply plain_byte_facts in Hc as (-> & -> & _ & _).
    rewrite (IH _ Hs). simpl. by rewrite <-app_assoc.
Qed.

Lemma lex_quoted s rest :
  plain s = true ->
  lex (quoted s +:+ rest) MIdle = cons (TString s) <$> lex rest MIdle.
Proof.
  intros Hs. unfold quoted. simpl. rewrite append_assoc. simpl.
  rewrite (lex_plain _ [] _ Hs). simpl. rewrite unquote_plain by done.
  unfold of_bytes. rewrite string_of_list_ascii_of_string.
  by destruct (lex rest MIdle).
Qed.

(** Decoding what a producer encodes gives the name back, with no info. *)
Lemma Unmarshal_marshal_name name :
  plain name = true -> Unmarshal (marshal_name name) = Some (mkLBSInputMessage name None).
Proof.
  intros Hn. unfold Unmarshal, parse_json, marshal_name.
  change (lex ("{" +:+ ?s) MIdle) with (app [TObjBegin] <$> lex s MIdle).
  rewrite lex_quoted by done.
  change (lex (":" +:+ ?s) MIdle) with (app [TColon] <$> lex s MIdle).
  rewrite lex_quoted by done.
  change (lex ("," +:+ ?s) MIdle) with (app [TComma] <$> lex s MIdle).
  rewrite lex_quoted by done. reflexivity.
Qed.
