(* ===== verification/Marshal.v ===== *)
(** * encoding/json: the encoder a producer uses

    [json.Marshal] of an [LBSInputMessage] whose info holds strings and whole
    numbers, as examples/load-balancing/main.go makes them: Go's string escaping
    (HTML characters, control bytes, invalid UTF-8, U+2028 and U+2029), map keys
    in sorted order, a float64 with an integral value printed as its digits.
    Decoding with [Unmarshal] (Json.v) gives the message back. *)

From Stdlib Require Import ZArith NArith Ascii String Lia DecimalFacts DecimalN DecimalString.
From stdpp Require Import base gmap strings list sorting.
From S2P Require Import Prelude GoStrings Json.

#[local] Open Scope string_scope.
#[local] Open Scope list_scope.

(** ** Strings *)

Definition hex_char (n : N) : ascii := chr (if N.ltb n 10 then 48 + n else 87 + n).

(** What the encoder writes for an ASCII byte: [htmlSafeSet] bytes as they are. *)
Definition escape_ascii (c : ascii) : list ascii :=
  if eqc 34 c || eqc 92 c then [chr 92; c]
  else if eqc 8 c then [chr 92; chr 98]
  else if eqc 12 c then [chr 92; chr 102]
  else if eqc 10 c then [chr 92; chr 110]
  else if eqc 13 c then [chr 92; chr 114]
  else if eqc 9 c then [chr 92; chr 116]
  else if N.ltb (code c) 32 || eqc 38 c || eqc 60 c || eqc 62 c
  then [chr 92; chr 117; chr 48; chr 48; hex_char (code c / 16); hex_char (code c mod 16)]
  else [c].

Definition is_line_separator (s : list ascii) : bool :=
  match s with a :: b :: c :: _ => eqc 226 a && eqc 128 b && (eqc 168 c || eqc 169 c) | _ => false end.

(** [appendString]: [keep] bytes of a rune are still to be copied. *)
Fixpoint escape (s : list ascii) (keep : nat) : list ascii :=
  match s with
  | [] => []
  | x :: s1 =>
    match keep with
    | S k => x :: escape s1 k
    | O =>
      if N.ltb (code x) 128 then escape_ascii x ++ escape s1 0
      else match s1 with
      | _ :: c :: s3 =>
        if is_line_separator s then
          [chr 92; chr 117; chr 50; chr 48; chr 50; hex_char (code c mod 16)] ++ escape s3 0
        else match rune_len s with
             | O => [chr 92; chr 117; chr 102; chr 102; chr 102; chr 100] ++ escape s1 0
             | S k => x :: escape s1 k
             end
      | _ => match rune_len s with
             | O => [chr 92; chr 117; chr 102; chr 102; chr 102; chr 100] ++ escape s1 0
             | S k => x :: escape s1 k
             end
      end
    end
  end.

Definition quote_string (s : string) : string :=
  String (chr 34) (of_bytes (escape (list_ascii_of_string s) 0) +:+ String (chr 34) ε).

(** ** Messages *)

(** A value of the info map: a string, or a float64 with an integral value
    below [10^21]. *)
Inductive scalar := SString (s : string) | SInt (z : Z).

Definition marshal_scalar (v : scalar) : string :=
  match v with SString s => quote_string s | SInt z => Itoa z end.

(** The members of an object, from the first one's key. *)
Fixpoint marshal_members (l : list (string * scalar)) : string :=
  match l with
  | [] => ε
  | (k, v) :: l' =>
    quote_string k +:+ ":" +:+ marshal_scalar v +:+ match l' with [] => ε | _ => "," +:+ marshal_members l' end
  end.

(** The map's members in the order of their keys. *)
Definition sorted_members (m : gmap string scalar) : list (string * scalar) :=
  omap (fun k => (fun v => (k, v)) <$> m !! k) (sort_strings (map_to_list m).*1).

Definition Marshal (name : string) (info : gmap string scalar) : string :=
  "{" +:+ quote_string "DataStreamName" +:+ ":" +:+ quote_string name +:+ "," +:+
  quote_string "Info" +:+ ":{" +:+ marshal_members (sorted_members info) +:+ "}}".

(** What a scalar is decoded to. *)
Definition scalar_any (v : scalar) : any :=
  match v with SString s => AString s | SInt z => ANumber (Itoa z) end.

(** ** Escaped strings: unquoting *)

(** Valid UTF-8. *)
Fixpoint valid_utf8 (s : list ascii) (keep : nat) : bool :=
  match s with
  | [] => match keep with O => true | S _ => false end
  | x :: s1 =>
    match keep with
    | S k => valid_utf8 s1 k
    | O => match rune_len s with O => false | S k => valid_utf8 s1 k end
    end
  end.

Definition valid_string (s : string) : bool := valid_utf8 (list_ascii_of_string s) 0.

(** Every ASCII byte is unquoted to itself. *)
Lemma unquote_escape_ascii x s :
  N.ltb (code x) 128 = true -> unquote (escape_ascii x ++ s) 0 = cons x <$> unquote s 0.
Proof. destruct x as [[] [] [] [] [] [] [] []]; try (discriminate 1); intros _; reflexivity. Qed.

(** A rune copied byte by byte is still that rune. *)
Lemma rune_len_copied x s k : rune_len (x :: s) = S k -> rune_len (x :: escape s k) = S k.
Proof.
  unfold rune_len. destruct (N.ltb (code x) 128); [done|].
  destruct s as [|b s]; [done|].
  destruct (between 194 223 x); [destruct (cont b) eqn:Eb; [|done]; intros [= <-]; simpl; by rewrite Eb|].
  destruct s as [|c s]; [done|].
  destruct (between 224 239 x); [destruct (_ && _) eqn:Eb; [|done]; intros [= <-]; simpl; by rewrite Eb|].
  destruct s as [|d s]; [done|].
  destruct (between 240 244 x); [|done]. destruct (_ && _) eqn:Eb; [|done]. intros [= <-]. simpl. by rewrite Eb.
Qed.

(** The lead byte of a longer rune is neither a backslash nor a control byte. *)
Lemma high_byte x : N.ltb (code x) 128 = false -> eqc 34 x = false /\ eqc 92 x = false /\ N.ltb (code x) 32 = false.
Proof. unfold eqc. rewrite !N.ltb_ge, !N.eqb_neq. lia. Qed.

Lemma eqc_code n x : eqc n x = true -> (n < 256)%N -> x = chr n.
Proof. unfold eqc, code, chr. intros <-%N.eqb_eq _. by rewrite ascii_N_embedding. Qed.

(** The two line separators. *)
Lemma unquote_line_separator x b c s :
  is_line_separator (x :: b :: c :: s) = true ->
  (forall t, unquote ([chr 92; chr 117; chr 50; chr 48; chr 50; hex_char (code c mod 16)] ++ t) 0 =
    app [x; b; c] <$> unquote t 0) /\ rune_len (x :: b :: c :: s) = 3%nat.
Proof.
  unfold is_line_separator. rewrite !andb_true_iff, orb_true_iff.
  intros [[->%eqc_code ->%eqc_code] [->%eqc_code| ->%eqc_code]]; done.
Qed.

(** Unquoting an escaped string gives it back. *)
Lemma unquote_escape s : forall k, valid_utf8 s k = true -> unquote (escape s k) k = Some s.
Proof.
  induction s as [s IH] using (induction_ltof1 _ (@length ascii)). unfold ltof in IH.
  destruct s as [|x s1]; [by intros [|k]|]. intros [|k].
  2: { simpl. intros Hv. rewrite IH by (simpl; lia || done). done. }
  intros Hv. destruct (rune_len (x :: s1)) as [|k] eqn:Hr; [simpl in Hv, Hr; by rewrite Hr in Hv|].
  assert (valid_utf8 s1 k = true) as Hv1 by (simpl in Hv, Hr; by rewrite Hr in Hv).
  destruct (N.ltb (code x) 128) eqn:Hx.
  - assert (k = 0%nat) as -> by (simpl in Hr; rewrite Hx in Hr; lia).
    simpl. rewrite Hx, unquote_escape_ascii, IH by (simpl; lia || done). done.
  - destruct (high_byte x Hx) as (_ & H92 & H32).
    assert (unquote (x :: escape s1 k) 0 = Some (x :: s1)) as Hcopy.
    { pose proof (rune_len_copied _ _ _ Hr) as Hr'. cbn [unquote]. rewrite H92, H32, Hr'.
      rewrite IH by (simpl; lia || done). done. }
    cbn [escape]. rewrite Hx, Hr. destruct s1 as [|b [|c s3]]; [done..|].
    destruct (is_line_separator _) eqn:Hl; [|done].
    destruct (unquote_line_separator _ _ _ _ Hl) as [Hu Hr3]. rewrite Hu.
    rewrite Hr in Hr3. injection Hr3 as ->. simpl in Hv1. by rewrite IH by (simpl; lia || done).
Qed.

(** ** Escaped strings: lexing *)

(** No unescaped quote, and no backslash left open at the end. *)
Fixpoint closed (l : list ascii) (escaped : bool) : bool :=
  match l with
  | [] => negb escaped
  | c :: l' => if escaped then closed l' false else negb (eqc 34 c) && closed l' (eqc 92 c)
  end.

Lemma closed_app l1 l2 b : closed l1 b = true -> closed l2 false = true -> closed (l1 ++ l2) b = true.
Proof.
  revert b. induction l1 as [|c l1 IH]; intros b; simpl; [by destruct b|].
  destruct b; [auto|]. rewrite !andb_true_iff. naive_solver.
Qed.

Lemma closed_escape_ascii x : N.ltb (code x) 128 = true -> closed (escape_ascii x) false = true.
Proof. destruct x as [[] [] [] [] [] [] [] []]; try (discriminate 1); done. Qed.

(** Bytes being copied belong to a longer rune. *)
Fixpoint high_prefix (s : list ascii) (k : nat) {struct k} : bool :=
  match k, s with
  | S k', x :: s' => negb (N.ltb (code x) 128) && high_prefix s' k'
  | _, _ => true
  end.

Lemma cont_high x : cont x = true -> N.ltb (code x) 128 = false.
Proof. unfold cont, between. rewrite andb_true_iff, !N.leb_le, N.ltb_ge. lia. Qed.

Lemma rune_len_high x s k : rune_len (x :: s) = S k -> high_prefix s k = true.
Proof.
  unfold rune_len. destruct (N.ltb (code x) 128); [by intros [= <-]|].
  destruct s as [|b s]; [done|].
  destruct (between 194 223 x); [destruct (cont b) eqn:Eb; [|done]; intros [= <-]; simpl; by rewrite cont_high|].
  destruct s as [|c s]; [done|].
  assert (forall lo hi, between (if lo : bool then 160%N else 128%N) (if hi : bool then 159%N else 191%N) b = true -> N.ltb (code b) 128 = false).
  { intros [] []; unfold between; rewrite andb_true_iff, !N.leb_le, N.ltb_ge; lia. }
  assert (forall lo hi, between (if lo : bool then 144%N else 128%N) (if hi : bool then 143%N else 191%N) b = true -> N.ltb (code b) 128 = false).
  { intros [] []; unfold between; rewrite andb_true_iff, !N.leb_le, N.ltb_ge; lia. }
  destruct (between 224 239 x).
  { destruct (_ && _) eqn:Eb; [|done]. intros [= <-]. apply andb_true_iff in Eb as [Hb Hc]. simpl.
    by rewrite (cont_high _ Hc), (H _ _ Hb). }
  destruct s as [|d s]; [done|]. destruct (between 240 244 x); [|done].
  destruct (_ && _) eqn:Eb; [|done]. intros [= <-]. rewrite !andb_true_iff in Eb. destruct Eb as [[Hb Hc] Hd]. simpl.
  by rewrite (cont_high _ Hc), (cont_high _ Hd), (H0 _ _ Hb).
Qed.

Lemma hex_char_closed n l : closed l false = true -> (n < 16)%N -> closed (hex_char n :: l) false = true.
Proof.
  intros Hl Hn. assert (n ∈ [0;1;2;3;4;5;6;7;8;9;10;11;12;13;14;15]%N) as Hin by (rewrite !elem_of_cons; lia).
  repeat (apply elem_of_cons in Hin as [->|Hin]; [done|]). by apply elem_of_nil in Hin.
Qed.

Lemma closed_escape s : forall k, high_prefix s k = true -> closed (escape s k) false = true.
Proof.
  induction s as [s IH] using (induction_ltof1 _ (@length ascii)). unfold ltof in IH.
  destruct s as [|x s1]; [by intros [|k]|]. intros [|k].
  2: { simpl. rewrite andb_true_iff, negb_true_iff. intros [Hx Hs].
       destruct (high_byte x Hx) as (-> & -> & _). simpl. apply IH; [simpl; lia|done]. }
  intros _. destruct (N.ltb (code x) 128) eqn:Hx.
  { simpl. rewrite Hx. apply closed_app; [by apply closed_escape_ascii|]. apply IH; [simpl; lia|done]. }
  destruct (high_byte x Hx) as (H34 & H92 & _).
  assert (forall k, rune_len (x :: s1) = S k -> closed (x :: escape s1 k) false = true) as Hcopy.
  { intros k Hr. simpl. rewrite H34, H92. simpl. apply IH; [simpl; lia|]. by eapply rune_len_high. }
  assert (closed ([chr 92; chr 117; chr 102; chr 102; chr 102; chr 100] ++ escape s1 0) false = true) as Hbad
    by (apply closed_app; [done|]; apply IH; [simpl; lia|done]).
  cbn [escape]. rewrite Hx. destruct (rune_len (x :: s1)) as [|k] eqn:Hr.
  - destruct s1 as [|b [|c s3]]; [done..|]. destruct (is_line_separator _) eqn:Hl; [|done].
    apply unquote_line_separator in Hl as [_ Hl]. congruence.
  - specialize (Hcopy _ eq_refl). destruct s1 as [|b [|c s3]]; [done..|].
    destruct (is_line_separator _); [|done].
    assert (closed (hex_char (code c mod 16) :: escape s3 0) false = true); [|done].
    apply hex_char_closed; [|by apply N.mod_lt]. apply IH; [simpl; lia|done].
Qed.

Lemma lex_closed l : forall r b rest, closed l b = true ->
  lex (of_bytes l +:+ String (chr 34) rest) (MString r b) =
  match unquote (rev r ++ l) 0 with
  | Some u => cons (TString (of_bytes u)) <$> lex rest MIdle
  | None => None
  end.
Proof.
  induction l as [|c l IH]; intros r b rest; simpl.
  - intros ->%negb_true_iff. simpl. by rewrite app_nil_r.
  - destruct b.
    + intros Hl. rewrite IH by done. simpl. by rewrite <-app_assoc.
    + intros [H34%negb_true_iff Hl]%andb_true_iff. rewrite H34, IH by done. simpl. by rewrite <-app_assoc.
Qed.

(** A quoted valid string is lexed to itself. *)
Lemma lex_quote_string s rest :
  valid_string s = true -> lex (quote_string s +:+ rest) MIdle = cons (TString s) <$> lex rest MIdle.
Proof.
  intros Hs. unfold quote_string. simpl. rewrite append_assoc. simpl.
  rewrite lex_closed by (by apply closed_escape). simpl. rewrite unquote_escape by done.
  unfold of_bytes. rewrite string_of_list_ascii_of_string. by destruct (lex rest MIdle).
Qed.

(** ** Numbers *)

Fixpoint all_digits (s : string) : bool :=
  match s with ε => true | String c s' => is_digit c && all_digits s' end.

Lemma string_of_uint_digits u : all_digits (NilEmpty.string_of_uint u) = true.
Proof. induction u; simpl; by rewrite ?IHu. Qed.

(** Printed natural numbers have no leading zero. *)
Lemma to_uint_head n u : N.to_uint n = Decimal.D0 u -> u = Decimal.Nil.
Proof.
  intros Hn. assert (N.to_uint n = Decimal.unorm (N.to_uint n)) as Hu.
  { rewrite <-Unsigned.to_of. by rewrite Unsigned.of_to. }
  rewrite Hn in Hu. unfold Decimal.unorm in Hu. simpl in Hu.
  destruct (Decimal.nzhead u) eqn:E; [by injection Hu|..]; try discriminate Hu.
  by apply nzhead_invol in E || (exfalso; eapply nzhead_nonzero; eauto).
Qed.

Lemma skip_all_digits s : all_digits s = true -> skip_digits s = ε.
Proof. induction s as [|c s IH]; simpl; [done|]. intros [-> Hs]%andb_true_iff. auto. Qed.

Lemma valid_digits n : valid_number (NilEmpty.string_of_uint (N.to_uint n)) = true.
Proof.
  pose proof (string_of_uint_digits (N.to_uint n)) as Hd. pose proof (string_of_uint_not_nil n) as Hne.
  destruct (N.to_uint n) as [|u|u|u|u|u|u|u|u|u|u] eqn:E; [done|..]; simpl in *; unfold valid_number; simpl;
    [apply to_uint_head in E as ->; done|..]; by rewrite skip_all_digits.
Qed.

Lemma valid_Itoa z : valid_number (Itoa z) = true.
Proof.
  unfold Itoa. destruct (z <? 0)%Z; [|apply valid_digits].
  pose proof (valid_digits (Z.to_N (- z))) as Hv.
  destruct (N.to_uint (Z.to_N (- z))) eqn:E; try exact Hv.
Qed.

(** A number is read up to the first byte that cannot continue it. *)
Lemma lex_number_rest l : forall r c rest,
  forallb is_number_byte l = true -> is_number_byte c = false -> valid_number (of_bytes (rev r ++ l)) = true ->
  lex (of_bytes l +:+ String c rest) (MNumber r) =
  cons (TNumber (of_bytes (rev r ++ l))) <$> lex (String c rest) MIdle.
Proof.
  induction l as [|d l IH]; intros r c rest Hl Hc Hv; simpl.
  - rewrite app_nil_r in *. rewrite Hc, Hv. destruct (idle_byte c) as [[t m]|]; [|done]. by destruct (lex rest m).
  - simpl in Hl. apply andb_true_iff in Hl as [-> Hl]. rewrite IH; simpl; rewrite <-?app_assoc; done.
Qed.

Lemma digit_number c : is_digit c = true -> is_number_byte c = true.
Proof. unfold is_number_byte. by intros ->. Qed.

Lemma all_digits_number s : all_digits s = true -> forallb is_number_byte (list_ascii_of_string s) = true.
Proof. induction s as [|c s IH]; simpl; [done|]. intros [Hc Hs]%andb_true_iff. by rewrite digit_number, IH. Qed.

Lemma Itoa_bytes z : exists c s, Itoa z = String c s /\ forallb is_number_byte (list_ascii_of_string s) = true /\
  idle_byte c = Some ([], MNumber [c]).
Proof.
  unfold Itoa. destruct (z <? 0)%Z.
  - eexists _, _. split; [done|]. split; [apply all_digits_number, string_of_uint_digits|done].
  - pose proof (string_of_uint_not_nil (Z.to_N z)). pose proof (string_of_uint_digits (N.to_uint (Z.to_N z))) as Hd.
    destruct (N.to_uint (Z.to_N z)); [done|..]; simpl in *; eexists _, _; (split; [done|]);
      (split; [by apply all_digits_number|done]).
Qed.

Lemma lex_Itoa z c rest :
  is_number_byte c = false ->
  lex (Itoa z +:+ String c rest) MIdle = cons (TNumber (Itoa z)) <$> lex (String c rest) MIdle.
Proof.
  intros Hc. pose proof (valid_Itoa z) as Hv. destruct (Itoa_bytes z) as (d & s & E & Hs & Hd). rewrite E in *.
  transitivity (app [] <$> lex (s +:+ String c rest) (MNumber [d])); [simpl; by rewrite Hd|].
  rewrite <-(string_of_list_ascii_of_string s) in Hv |- *.
  rewrite (lex_number_rest _ [d]) by done. by destruct (lex (String c rest) MIdle).
Qed.

(** The value [strconv.ParseFloat] reads from printed digits. *)
Lemma read_digits u : forall acc,
  read_float (NilEmpty.string_of_uint u) (Z.pos acc) 0 false = (Z.pos (Pos.of_uint_acc u acc), 0%Z).
Proof. induction u; intros acc; simpl; [done|..]; rewrite <-IHu; f_equal; lia. Qed.

Lemma read_nat u : read_float (NilEmpty.string_of_uint u) 0 0 false = (Z.of_N (N.of_uint u), 0%Z).
Proof. unfold N.of_uint. induction u; simpl; [done|exact IHu|..]; apply read_digits. Qed.

Lemma Itoa_in_range z : in_int64 z -> float_overflows (Itoa z) = false.
Proof.
  intros Hz. assert (read_float (Itoa z) 0 0 false = (Z.abs z, 0%Z)) as Hr.
  { unfold Itoa. destruct (Z.ltb_spec z 0) as [Hn|Hn].
    - simpl. rewrite read_nat, Unsigned.of_to. f_equal. lia.
    - rewrite read_nat, Unsigned.of_to. f_equal. lia. }
  unfold float_overflows. rewrite Hr. destruct (Z.abs z =? 0)%Z; [done|].
  change (400 <=? 0)%Z with false. change (0 <? 0)%Z with false. simpl.
  apply Z.leb_gt. rewrite Z.mul_1_r. unfold in_int64, min_int64, max_int64 in Hz.
  assert (2 ^ 64 < 2 ^ 1024 - 2 ^ 970)%Z by (vm_compute; reflexivity). lia.
Qed.

(** ** Objects *)

Definition scalar_token (v : scalar) : token :=
  match v with SString s => TString s | SInt z => TNumber (Itoa z) end.

Definition scalar_json (v : scalar) : json :=
  match v with SString s => JString s | SInt z => JNumber (Itoa z) end.

(** A scalar the encoder writes without loss. *)
Definition scalar_ok (v : scalar) : Prop :=
  match v with SString s => valid_string s = true | SInt z => in_int64 z end.

Definition member_ok (kv : string * scalar) : Prop := valid_string kv.1 = true /\ scalar_ok kv.2.

Fixpoint member_tokens (l : list (string * scalar)) : list token :=
  match l with
  | [] => []
  | (k, v) :: l' =>
    TString k :: TColon :: scalar_token v :: match l' with [] => [] | _ => TComma :: member_tokens l' end
  end.

Lemma lex_scalar v c rest :
  scalar_ok v -> is_number_byte c = false ->
  lex (marshal_scalar v +:+ String c rest) MIdle = cons (scalar_token v) <$> lex (String c rest) MIdle.
Proof. destruct v; simpl; intros Hv Hc; [by apply lex_quote_string|by apply lex_Itoa]. Qed.

Lemma lex_members l rest :
  Forall member_ok l ->
  lex (marshal_members l +:+ String (chr 125) rest) MIdle = app (member_tokens l) <$> lex (String (chr 125) rest) MIdle.
Proof.
  induction l as [|[k v] l IH]; intros Hl;
    [change (marshal_members [] +:+ ?s) with s; by destruct (lex (String (chr 125) rest) MIdle)|].
  apply Forall_cons in Hl as [[Hk Hv] Hl]. simpl in Hk, Hv. specialize (IH Hl).
  cbn [marshal_members member_tokens]. rewrite append_assoc, lex_quote_string by done.
  rewrite !append_assoc. change (lex (":" +:+ ?s) MIdle) with (app [TColon] <$> lex s MIdle).
  destruct l as [|kv l].
  - change (ε +:+ ?s) with s. rewrite lex_scalar by done. by destruct (lex (String (chr 125) rest) MIdle).
  - rewrite !append_assoc. change ("," +:+ ?s) with (String (chr 44) s). rewrite lex_scalar by done.
    change (lex (String (chr 44) ?s) MIdle) with (app [TComma] <$> lex s MIdle).
    rewrite IH. by destruct (lex (String (chr 125) rest) MIdle).
Qed.

Definition member_json (kv : string * scalar) : string * json := (kv.1, scalar_json kv.2).

Lemma parse_scalar_token v st : parse_value (scalar_token v) st = Some (deliver (scalar_json v) st).
Proof. by destruct v. Qed.

(** The members of an object, then its end. *)
Lemma parse_members l acc k0 st ts e :
  (e = EKeyOrEnd \/ e = EKey /\ l <> []) ->
  parse_tokens (member_tokens l ++ TObjEnd :: ts) e (FObj acc k0 :: st) =
  let '(e', st') := deliver (JObject (rev acc ++ (member_json <$> l))) st in parse_tokens ts e' st'.
Proof.
  revert acc k0 e. induction l as [|[k v] l IH]; intros acc k0 e He.
  - destruct He as [->|[_ ?]]; [|done]. simpl. rewrite app_nil_r. by destruct (deliver _ st).
  - cbn [member_tokens].
    transitivity (parse_tokens (match l with [] => [] | _ => TComma :: member_tokens l end ++ TObjEnd :: ts)
      ECommaOrEnd (FObj ((k, scalar_json v) :: acc) k :: st)).
    { destruct He as [->|[-> _]]; simpl; rewrite parse_scalar_token; done. }
    destruct l as [|kv l].
    + simpl. by destruct (deliver _ st).
    + transitivity (parse_tokens (member_tokens (kv :: l) ++ TObjEnd :: ts) EKey (FObj ((k, scalar_json v) :: acc) k :: st));
        [done|]. rewrite IH by (right; done). simpl. by rewrite <-app_assoc.
Qed.

Lemma scalar_in_range v : scalar_ok v -> in_range (scalar_json v) = true.
Proof. destruct v; simpl; [done|]. intros Hz. by rewrite Itoa_in_range. Qed.

Lemma members_in_range l : Forall member_ok l -> in_range (JObject (member_json <$> l)) = true.
Proof.
  induction l as [|[k v] l IH]; [done|]. intros [[_ Hv] Hl]%Forall_cons.
  simpl. rewrite scalar_in_range by done. exact (IH Hl).
Qed.

Lemma to_any_scalar v : to_any (scalar_json v) = scalar_any v.
Proof. by destruct v. Qed.

(** Decoding the members of an object rebuilds the map. *)
Lemma decode_members l (m : gmap string any) :
  NoDup l.*1 -> (forall k, k ∈ l.*1 -> m !! k = None) ->
  fold_left (fun acc '(k, x) => <[k := to_any x]> acc) (member_json <$> l) m =
  (scalar_any <$> list_to_map l) ∪ m.
Proof.
  revert m. induction l as [|[k v] l IH]; intros m Hd Hm.
  - simpl. by rewrite fmap_empty, (left_id_L ∅ (∪)).
  - apply NoDup_cons in Hd as [Hk Hd]. simpl. rewrite to_any_scalar.
    assert ((scalar_any <$> (list_to_map l : gmap string scalar)) !! k = None) as Hn
      by (rewrite lookup_fmap, not_elem_of_list_to_map_1; done).
    rewrite IH; [|done|].
    + rewrite fmap_insert, <-insert_union_r, insert_union_l by done. done.
    + intros k' Hk'. rewrite lookup_insert_ne by (by intros ->). apply Hm. csimpl. set_solver.
Qed.

Lemma sorted_members_keys m : (sorted_members m).*1 = sort_strings (map_to_list m).*1.
Proof.
  unfold sorted_members.
  assert (forall k, k ∈ sort_strings (map_to_list m).*1 -> is_Some (m !! k)) as Hin.
  { intros k. rewrite sort_strings_perm. intros ([k' v] & -> & Hkv)%list_elem_of_fmap.
    apply elem_of_map_to_list in Hkv. eauto. }
  induction (sort_strings _) as [|k l IH]; [done|]. csimpl.
  destruct (Hin k) as [v ->]; [set_solver|]. csimpl. f_equal. apply IH. set_solver.
Qed.

Lemma sorted_members_elem m k v : (k, v) ∈ sorted_members m -> m !! k = Some v.
Proof.
  unfold sorted_members. intros (k' & _ & Hk)%list_elem_of_omap.
  destruct (m !! k') eqn:E; simplify_eq/=. done.
Qed.

Lemma sorted_members_map m : list_to_map (sorted_members m) = m.
Proof.
  assert (NoDup (sorted_members m).*1) as Hd
    by (rewrite sorted_members_keys, sort_strings_perm; apply NoDup_fst_map_to_list).
  apply map_eq. intros k. destruct (m !! k) as [v|] eqn:E.
  - apply elem_of_list_to_map; [done|]. unfold sorted_members. apply list_elem_of_omap. exists k.
    rewrite E. split; [|done]. rewrite sort_strings_perm. apply list_elem_of_fmap. exists (k, v).
    split; [done|]. by apply elem_of_map_to_list.
  - apply not_elem_of_list_to_map_1. rewrite sorted_members_keys, sort_strings_perm.
    intros ([k' v] & -> & Hkv)%list_elem_of_fmap. apply elem_of_map_to_list in Hkv. simpl in E. congruence.
Qed.

(** A message whose strings are valid UTF-8 and whose numbers are 64-bit. *)
Definition message_ok (name : string) (info : gmap string scalar) : Prop :=
  valid_string name = true /\ forall k v, info !! k = Some v -> valid_string k = true /\ scalar_ok v.

#[local] Arguments in_range : simpl never.

(** Decoding what [Marshal] writes gives the message back. *)
Lemma Unmarshal_Marshal_ok name info :
  message_ok name info ->
  Unmarshal (Marshal name info) = Some (mkLBSInputMessage name (Some (scalar_any <$> info))).
Proof.
  intros [Hn Hi]. assert (Forall member_ok (sorted_members info)) as Hl.
  { apply Forall_forall. intros [k v] Hkv%sorted_members_elem. by apply Hi. }
  unfold Unmarshal, parse_json, Marshal. rewrite <-(sorted_members_map info) at 2.
  assert (NoDup (sorted_members info).*1) as Hd
    by (rewrite sorted_members_keys, sort_strings_perm; apply NoDup_fst_map_to_list).
  revert Hl Hd. generalize (sorted_members info). intros l Hl Hd.
  change (lex ("{" +:+ ?s) MIdle) with (app [TObjBegin] <$> lex s MIdle).
  rewrite lex_quote_string by done.
  change (lex (":" +:+ ?s) MIdle) with (app [TColon] <$> lex s MIdle).
  rewrite lex_quote_string by done.
  change (lex ("," +:+ ?s) MIdle) with (app [TComma] <$> lex s MIdle).
  rewrite lex_quote_string by done.
  change (lex (":{" +:+ ?s) MIdle) with (app [TColon] <$> (app [TObjBegin] <$> lex s MIdle)).
  change "}}" with (String (chr 125) "}"). rewrite lex_members by done. simpl.
  rewrite parse_members by auto. simpl. rewrite (members_in_range l Hl).
  rewrite decode_members; [|done|intros; apply lookup_empty]. by rewrite (right_id_L ∅ (∪)).
Qed.
