(* ===== verification/Configs.v ===== *)
(** * configs/consts.go: names, separators and tunable defaults

    Durations are [time.Duration] values: nanoseconds as a 64-bit integer. *)

From Stdlib Require Import ZArith String.
From stdpp Require Import base strings.
From S2P Require Import Prelude GoStrings.

#[local] Open Scope string_scope.

(** ** Go's duration units (package [time]) *)

Definition Millisecond : Z := 1000000.
Definition Second : Z := 1000 * Millisecond.
Definition Minute : Z := 60 * Second.

(** ** Names *)

Definition GroupSuffix : string := "-group".
Definition InputSuffix : string := "-input".
Definition PendingMsgID : string := ">".
Definition StartFromNow : string := "$".
Definition MinimalRangeID : string := "-".
Definition MaximalRangeID : string := "+".
Definition StartID : string := "0".
Definition StartIDPair : string := "0-0".
Definition KeySpacePrefix : string := "__keyspace@0__:".
Definition ExpiredPayload : string := "expired".
Definition MutexKeySep : string := "<MUTEX_KEY_SEP>".
Definition MutexKeySpacePattern : string := KeySpacePrefix +:+ "*" +:+ MutexKeySep +:+ "*".
Definition NotifyKeyspaceEventsCmd : string := "notify-keyspace-events".
Definition KeyspacePatternForExpiredEvents : string := "KEx".
Definition RedisConsumerPrefix : string := "redis-consumer-".
Definition PodName : string := "POD_NAME".
Definition PodIP : string := "POD_IP".
Definition LBSInput : string := "lbs-input".

(** ** Defaults *)

Definition DefaultHBInterval : Z := 2 * Second.
Definition DefaultLBSIdleTime : Z := 20 * DefaultHBInterval.
Definition DefaultLBSRecoveryCount : Z := 1000.
Definition DefaultKspChanSize : Z := 500.
Definition DefaultKspChanTimeout : Z := 10 * Minute.
Definition DefaultOutputChanSize : Z := 500.
Definition DefaultMaxRetries : Z := 5.
Definition DefaultInitialRetryDelay : Z := 100 * Millisecond.
Definition DefaultMaxRetryDelay : Z := 30 * Second.

(** ** Recovery: stream fields, DLQ markers, tunables *)

Definition RetryCountField : string := "_retry_count".
Definition DLQReasonField : string := "_dlq_reason".
Definition DLQReasonMaxRetries : string := "max_retries_exceeded".
Definition DLQReasonUnparseable : string := "unparseable".
Definition DLQSuffix : string := "-dlq".

Definition DefaultReconciliationInterval : Z := 60 * Second.
Definition DefaultMinIdleTime : Z := 30 * Second.
Definition DefaultReconciliationBatchSize : Z := 50.
Definition DefaultMaxReQueueRetries : Z := 3.
Definition DefaultDLQMaxLen : Z := 10000.

(** 0.1 as a float64: [DefaultJitterFraction_num / 2^55]. *)
Definition DefaultJitterFraction_num : Z := 3602879701896397.
Definition DefaultJitterFraction_exp : Z := 55.

(** ** The mutex-key separator has no border: its first byte occurs once *)

Definition sep_head : Ascii.ascii := byte 60.
Definition sep_tail : string := "MUTEX_KEY_SEP>".

Lemma MutexKeySep_eq : MutexKeySep = String sep_head sep_tail.
Proof. reflexivity. Qed.

Lemma sep_unbordered : has_byte sep_head sep_tail = false.
Proof. reflexivity. Qed.

#[export] Hint Resolve sep_unbordered : redis.
