(* ===== verification/Errs.v ===== *)
(** * types/errs: the errors of the library

    Go errors are values; [errors.Is] compares identities along the [Unwrap]
    chain. A [sentinel] is an identity ([errors.New] at package level); an [error] is a sentinel, one of the
    three wrapper types of types/errs, an [fmt.Errorf] with or without [%w],
    or an error of a third-party package. *)

From Stdlib Require Import String.
From stdpp Require Import base strings list.
From S2P Require Import Prelude GoStrings.

#[local] Open Scope string_scope.

(** ** sentinels.go *)

Inductive sentinel :=
(* Config validation *)
| ErrInvalidIdleTime
| ErrInvalidRecoveryCount
| ErrInvalidKspChanSize
| ErrInvalidKspChanTimeout
| ErrInvalidOutputChanSize
| ErrPodConfigMissing
| ErrInvalidRecoveryConfig
| ErrClusterClientRequired
| ErrKeyspaceNotifsAllMastersFailed
(* Input validation *)
| ErrInvalidKeyForLBSMessage
| ErrInvalidLBSMessage
| ErrNoDatastreamInLBSMessage
(* Internal state *)
| ErrAlreadyClaimed
| ErrDataStreamNotFound
| ErrExistingConfigWithoutOverride
| ErrClusterNotSettled.

#[export] Instance sentinel_eq_dec : EqDecision sentinel.
Proof. solve_decision. Defined.

(** What [errors.Is] can be asked about: a sentinel of the library, the
    standard library's [context.Canceled], redsync's [ErrLockAlreadyExpired]. *)
Inductive ident :=
| Own (s : sentinel)
| ContextCanceled
| ErrLockAlreadyExpired.
Coercion Own : sentinel >-> ident.

#[export] Instance ident_eq_dec : EqDecision ident.
Proof. solve_decision. Defined.

(** [context.Canceled.Error()]. *)
Definition ContextCanceled_Error : string := "context canceled".

Definition sentinel_Error (s : sentinel) : string :=
  match s with
  | ErrInvalidIdleTime => "invalid heartbeat interval value: must be >0 and <2*heartbeat interval"
  | ErrInvalidRecoveryCount => "invalid recovery count: must be non-zero positive integer"
  | ErrInvalidKspChanSize => "invalid ksp chan size: must be non-zero positive integer"
  | ErrInvalidKspChanTimeout => "invalid ksp chan timeout: must be >= 1 min"
  | ErrInvalidOutputChanSize => "invalid output chan size: must be non-zero positive integer"
  | ErrPodConfigMissing => "pod name or pod IP is missing"
  | ErrInvalidRecoveryConfig => "invalid recovery config"
  | ErrClusterClientRequired => "ClusterModeOSS requires a *redis.ClusterClient"
  | ErrKeyspaceNotifsAllMastersFailed => "failed to enable keyspace notifications on every master"
  | ErrInvalidKeyForLBSMessage => "invalid key for LBS; must be `lbs-input`"
  | ErrInvalidLBSMessage => "invalid or malformed LBS message"
  | ErrNoDatastreamInLBSMessage => "lbs message does not have data stream name"
  | ErrAlreadyClaimed => "already claimed"
  | ErrDataStreamNotFound => "data stream not found"
  | ErrExistingConfigWithoutOverride => "existing configuration detected without force override option"
  | ErrClusterNotSettled => "redis cluster is not settled"
  end.

(** ** Operations: rediserr.go, mutexerr.go, encodingerr.go *)

Definition OpEnableKeyspaceNotification := "enabling keyspace notifications".
Definition OpGetUnackedMessages := "getting unacked messages from LBS".
Definition OpProcessLBSMessages := "processing LBS messages".
Definition OpCreateLBSStream := "creating LBS stream".
Definition OpClaimStream := "claiming stream".
Definition OpReadClaimedStream := "reading result from claimed stream".
Definition OpAckStream := "acknowledging stream".
Definition OpDelStream := "deleting stream".
Definition OpClosePubSub := "closing redis pubsub".
Definition OpReconcile := "reconciling pending LBS messages".
Definition OpXPending := "reading pending LBS messages".
Definition OpReQueue := "re-queuing LBS message".
Definition OpRouteDLQ := "routing message to DLQ".
Definition OpReinitTopology := "reinitializing for cluster topology".
Definition OpUnmarshalLBSMessage := "unmarshalling LBS message".
Definition OpLockMutex := "locking mutex".
Definition OpExtendMutex := "extending mutex lock".
Definition OpUnlockMutex := "unlocking mutex".

(** ** Errors

    [EJson input] is the error [json.Unmarshal] returns on [input].
    [EExt msg is_also cause] is an error of a third-party package: its
    [Error()] text, the identities it matches by itself, and what its
    [Unwrap] returns. The cause of a [MutexErr] may be Go's [nil]. *)

Inductive error :=
| ESentinel (s : sentinel)
| ERedisErr (op : string) (cause : error)
| EMutexErr (op : string) (lockName : string) (cause : option error)
| EEncodingErr (op : string) (cause : error)
| EErrorfW (pre : string) (cause : error) (post : string)
| EErrorf (text : string)
| EJson (input : string)
| EExt (msg : string) (is_also : list ident) (cause : option error).

Definition NewRedisError (op : string) (err : error) : error := ERedisErr op err.
Definition NewMutexError (op : string) (err : option error) : error := EMutexErr op ε err.
Definition NewEncodingError (op : string) (err : error) : error := EEncodingErr op err.

(** The [Unwrap] methods, as [errors.Unwrap] sees them. *)
Definition Unwrap (e : error) : option error :=
  match e with
  | ERedisErr _ c | EEncodingErr _ c | EErrorfW _ c _ => Some c
  | EMutexErr _ _ c | EExt _ _ c => c
  | ESentinel _ | EErrorf _ | EJson _ => None
  end.

(** [errors.Is err target]. *)
Fixpoint errors_Is (e : error) (t : ident) : bool :=
  match e with
  | ESentinel s => bool_decide (Own s = t)
  | ERedisErr _ c | EEncodingErr _ c | EErrorfW _ c _ => errors_Is c t
  | EMutexErr _ _ c => match c with Some c' => errors_Is c' t | None => false end
  | EExt _ also c => bool_decide (t ∈ also) || match c with Some c' => errors_Is c' t | None => false end
  | EErrorf _ | EJson _ => false
  end.

(** The text of encoding/json's errors is not modelled: it is a parameter. *)
Class JsonText := json_Error : string -> string.

(** The [Error()] methods; a nil error prints as [<nil>]. *)
Fixpoint Error `{JsonText} (e : error) : string :=
  match e with
  | ESentinel s => sentinel_Error s
  | ERedisErr op c => "redis error during operation [" +:+ op +:+ "]: " +:+ Error c
  | EMutexErr op lock c =>
    let cause := match c with Some c' => Error c' | None => "<nil>" end in
    if String.eqb lock ε then "mutex error on operation [" +:+ op +:+ "]: " +:+ cause
    else "mutex error for lock [" +:+ lock +:+ "] on operation [" +:+ op +:+ "]: " +:+ cause
  | EEncodingErr op c => "encoding error on operation [" +:+ op +:+ "]: " +:+ Error c
  | EErrorfW pre c post => pre +:+ Error c +:+ post
  | EErrorf text => text
  | EJson input => json_Error input
  | EExt msg _ _ => msg
  end.

(** [errors.Is] of a possibly nil error. *)
Definition errors_Is_opt (e : option error) (t : ident) : bool :=
  match e with Some e' => errors_Is e' t | None => false end.

(** ** A Go function's [(T, error)] result *)

Inductive result (A : Type) :=
| Ok (a : A)
| Err (e : error).
Arguments Ok {A} a.
Arguments Err {A} e.

Definition is_ok {A} (r : result A) : bool := match r with Ok _ => true | Err _ => false end.

(** ** Lemmas *)

(** Following one [Unwrap] never loses a match. *)
Lemma errors_Is_Unwrap e c t : Unwrap e = Some c -> errors_Is c t = true -> errors_Is e t = true.
Proof.
  destruct e as [s|? c'|? ? [c'|]|? c'|? c' ?|?|?|? also [c'|]]; simpl; intros; simplify_eq; try done.
  by rewrite orb_true_iff; right.
Qed.

#[export] Hint Resolve errors_Is_Unwrap : redis.
