(* ===== verification/Notifs.v ===== *)
(** * notifs/lbsmsg.go and notifs/relredisnotif.go

    The identity of a data stream in the load-balancer stream ([LBSInfo]), its
    distributed-lock key, and the notifications sent to the client. *)

From Stdlib Require Import ZArith String Ascii.
From stdpp Require Import base gmap strings list.
From S2P Require Import Prelude GoStrings Json Configs Errs.

#[local] Open Scope string_scope.

(** ** lbsmsg.go *)

Record LBSInfo := mkLBSInfo {
  info_DataStreamName : string;
  IDInLBS : string
}.

#[export] Instance LBSInfo_eq_dec : EqDecision LBSInfo.
Proof. solve_decision. Defined.

Definition zero_LBSInfo : LBSInfo := mkLBSInfo ε ε.

Definition FormMutexKey (l : LBSInfo) : string :=
  StrJoin [info_DataStreamName l; IDInLBS l] MutexKeySep.

Definition CreateByKspNotification (streamName payload : string) : result LBSInfo :=
  if String.eqb payload ExpiredPayload then
    match Split streamName MutexKeySep with
    | [name; id] => Ok (mkLBSInfo name id)
    | _ => Err (EErrorf "invalid ksp format: must be datastream_name<MUTEX_KEY_SEP>message_id_in_lbs")
    end
  else
    Err (EErrorf ("ignoring non-expired event for key " +:+ streamName +:+ " with payload " +:+ payload)).

Definition CreateByParts (dataStreamName idInLBS : string) : result LBSInfo :=
  if Nat.eqb (String.length dataStreamName) 0 || Nat.eqb (String.length idInLBS) 0
  then Err (EErrorf "malformed or incomplete LBS message")
  else Ok (mkLBSInfo dataStreamName idInLBS).

(** ** relredisnotif.go *)

Inductive NotificationType :=
| Unknown
| StreamAdded
| StreamDisowned
| StreamExpired
| StreamTerminated.

#[export] Instance NotificationType_eq_dec : EqDecision NotificationType.
Proof. solve_decision. Defined.

Record RecoverableRedisNotification := mkNotification {
  Type_ : NotificationType;
  Payload : LBSInfo;
  AdditionalInfo : option (gmap string any)
}.

Definition IsZero (n : RecoverableRedisNotification) : bool :=
  bool_decide (Type_ n = Unknown).

Definition Make (notifType : NotificationType) (lbsInfo : LBSInfo)
    (additionalInfo : option (gmap string any)) : RecoverableRedisNotification :=
  mkNotification notifType lbsInfo additionalInfo.

Definition MakeStreamTerminatedNotif (info : string) : RecoverableRedisNotification :=
  mkNotification StreamTerminated zero_LBSInfo (Some {["info" := AString info]}).

(** ** helpers.go: the stream name of a keyspace channel *)

Definition extractStreamnameFromKspChannel (kspChannelString : string) : result string :=
  match CutPrefix kspChannelString KeySpacePrefix with
  | Some streamName => Ok streamName
  | None => Err (EErrorf "invalid ksp channel payload")
  end.

(** What [listenKsp] does with a pub/sub message: channel, then payload. *)
Definition decode_ksp (channel payload : string) : result LBSInfo :=
  match extractStreamnameFromKspChannel channel with
  | Ok streamName => CreateByKspNotification streamName payload
  | Err e => Err e
  end.

(** ** Properties *)

(** The channel on which Redis announces the expiry of a stream's lock. *)
Definition expiry_channel (l : LBSInfo) : string := KeySpacePrefix +:+ FormMutexKey l.

Lemma FormMutexKey_eq l :
  FormMutexKey l = info_DataStreamName l +:+ MutexKeySep +:+ IDInLBS l.
Proof. done. Qed.

(** The lock keys of two entries are equal only if the entries are the same,
    for any stream names, when the IDs have no [<] (Redis IDs are
    [digits-digits]). *)
Lemma FormMutexKey_inj l1 l2 :
  has_byte sep_head (IDInLBS l1) = false -> has_byte sep_head (IDInLBS l2) = false ->
  FormMutexKey l1 = FormMutexKey l2 -> l1 = l2.
Proof.
  intros H1 H2. rewrite !FormMutexKey_eq, !MutexKeySep_eq.
  change (?n +:+ String sep_head sep_tail +:+ ?i) with (n +:+ String sep_head (sep_tail +:+ i)).
  intros Heq. apply last_byte_inj in Heq as [Hn Hi].
  - apply (inj (String.app sep_tail)) in Hi. destruct l1, l2; simpl in *; congruence.
  - by rewrite has_byte_app, sep_unbordered.
  - by rewrite has_byte_app, sep_unbordered.
Qed.

Lemma Split_key_parts l :
  Split (FormMutexKey l) MutexKeySep =
  (Split (info_DataStreamName l) MutexKeySep ++ Split (IDInLBS l) MutexKeySep)%list.
Proof. rewrite FormMutexKey_eq, MutexKeySep_eq. apply split_app, sep_unbordered. Qed.

Lemma decode_ksp_split l :
  decode_ksp (expiry_channel l) ExpiredPayload = CreateByKspNotification (FormMutexKey l) ExpiredPayload.
Proof.
  unfold decode_ksp, extractStreamnameFromKspChannel.
  assert (CutPrefix (expiry_channel l) KeySpacePrefix = Some (FormMutexKey l)) as ->; [|done].
  by apply CutPrefix_Some.
Qed.

(** C24: the expiry of a lock identifies the entry it protected. The keyspace
    channel of an entry's lock key, with payload [expired], is decoded to
    exactly that entry if neither the stream name nor the ID contains the
    separator, and is rejected (so the fast recovery path ignores the expiry)
    otherwise. *)
Theorem ksp_roundtrip l :
  if Contains (info_DataStreamName l) MutexKeySep || Contains (IDInLBS l) MutexKeySep
  then exists e, decode_ksp (expiry_channel l) ExpiredPayload = Err e
  else decode_ksp (expiry_channel l) ExpiredPayload = Ok l.
Proof.
  rewrite decode_ksp_split. unfold CreateByKspNotification. rewrite Split_key_parts.
  assert (forall a, length (Split a MutexKeySep) = 1%nat <-> Contains a MutexKeySep = false) as Hlen
    by apply (split_length_absent _ _ sep_unbordered).
  assert (forall a, Split a MutexKeySep <> []) as Hne by (intros; apply split_skip_not_nil).
  destruct (Contains (info_DataStreamName l) MutexKeySep) eqn:En; simpl.
  - pose proof (proj1 (Hlen (info_DataStreamName l))) as H1. rewrite En in H1.
    destruct (Split (info_DataStreamName l) MutexKeySep) as [|x [|y tl]] eqn:E;
      [by apply Hne in E|by discriminate H1|].
    destruct tl; simpl; [|eauto].
    destruct (Split (IDInLBS l) MutexKeySep) eqn:E2; [by apply Hne in E2|eauto].
  - rewrite (split_absent sep_head sep_tail (info_DataStreamName l) En : Split _ MutexKeySep = _).
    destruct (Contains (IDInLBS l) MutexKeySep) eqn:Ei.
    + pose proof (proj1 (Hlen (IDInLBS l))) as H1. rewrite Ei in H1.
      destruct (Split (IDInLBS l) MutexKeySep) as [|x [|y tl]] eqn:E;
        [by apply Hne in E|by discriminate H1|]. simpl. eauto.
    + rewrite (split_absent sep_head sep_tail (IDInLBS l) Ei : Split _ MutexKeySep = _).
      by destruct l.
Qed.
