(* ===== verification/Broker.v ===== *)
(** * notifs/broker.go: the notification broker as a concurrent state machine

    The broker owns a buffered [input] channel and one relay goroutine
    ([run]); any number of goroutines call [Send] and [Close] concurrently and
    the client receives from [output]. Every channel operation, atomic load,
    compare-and-swap and [close] of the source is one action; [bstep] executes
    an action, and the step relation is its graph. Channels have Go's
    semantics: a send needs room in the buffer, a send on a closed channel and
    a second [close] panic, a [select] may take any ready case (a send on a
    closed channel counts as ready). Both channels are buffered, as every
    caller makes them. *)

From Stdlib Require Import Lia.
From stdpp Require Import base strings list relations.
From S2P Require Import Prelude GoStrings Notifs.

Section broker.

Abbreviation msg := RecoverableRedisNotification.

(** ** Program counters *)

(** [Send]: before the [closed] check, in the [select], returned. *)
Inductive sender :=
| SStart (m : msg)
| SSelect (m : msg)
| SRet (m : msg) (ok : bool).

(** [run]: in the outer [select]; relaying a message (from the drain loop or
    not); in the drain [select]; about to close [input]; returned. *)
Inductive runner :=
| RSelect
| RHold (m : msg) (draining : bool)
| RDrain
| RClosing
| RDone.

(** [Close]: before the compare-and-swap, before [close(quit)], in [wg.Wait],
    before [close(output)], returned. *)
Inductive closer :=
| CStart
| CQuit
| CWait
| COut
| CRet.

(** ** State *)

Record NotificationBroker := mkBroker {
  input : list msg;
  icap : nat;
  input_closed : bool;
  output : list msg;
  ocap : nat;
  output_closed : bool;
  closed : bool;
  quit : bool;
  ctx_done : bool;
  run_pc : runner;
  senders : list sender;
  closers : list closer;
  consumed : list msg;   (* what the client has received *)
  accepted : list msg;   (* what Send has put into [input], in order *)
  panicked : bool
}.

Definition NewNotificationBroker (outputCap bufferSize : nat) : NotificationBroker :=
  mkBroker [] bufferSize false [] outputCap false false false false RSelect [] [] [] [] false.

(** ** Field updates *)

Definition set_input (l : list msg) (b : NotificationBroker) : NotificationBroker :=
  mkBroker l (icap b) (input_closed b) (output b) (ocap b) (output_closed b) (closed b) (quit b)
    (ctx_done b) (run_pc b) (senders b) (closers b) (consumed b) (accepted b) (panicked b).
Definition set_input_closed (b : NotificationBroker) : NotificationBroker :=
  mkBroker (input b) (icap b) true (output b) (ocap b) (output_closed b) (closed b) (quit b)
    (ctx_done b) (run_pc b) (senders b) (closers b) (consumed b) (accepted b) (panicked b).
Definition set_output (l : list msg) (b : NotificationBroker) : NotificationBroker :=
  mkBroker (input b) (icap b) (input_closed b) l (ocap b) (output_closed b) (closed b) (quit b)
    (ctx_done b) (run_pc b) (senders b) (closers b) (consumed b) (accepted b) (panicked b).
Definition set_output_closed (b : NotificationBroker) : NotificationBroker :=
  mkBroker (input b) (icap b) (input_closed b) (output b) (ocap b) true (closed b) (quit b)
    (ctx_done b) (run_pc b) (senders b) (closers b) (consumed b) (accepted b) (panicked b).
Definition set_closed (b : NotificationBroker) : NotificationBroker :=
  mkBroker (input b) (icap b) (input_closed b) (output b) (ocap b) (output_closed b) true (quit b)
    (ctx_done b) (run_pc b) (senders b) (closers b) (consumed b) (accepted b) (panicked b).
Definition set_quit (b : NotificationBroker) : NotificationBroker :=
  mkBroker (input b) (icap b) (input_closed b) (output b) (ocap b) (output_closed b) (closed b) true
    (ctx_done b) (run_pc b) (senders b) (closers b) (consumed b) (accepted b) (panicked b).
Definition set_ctx_done (b : NotificationBroker) : NotificationBroker :=
  mkBroker (input b) (icap b) (input_closed b) (output b) (ocap b) (output_closed b) (closed b) (quit b)
    true (run_pc b) (senders b) (closers b) (consumed b) (accepted b) (panicked b).
Definition set_run (r : runner) (b : NotificationBroker) : NotificationBroker :=
  mkBroker (input b) (icap b) (input_closed b) (output b) (ocap b) (output_closed b) (closed b) (quit b)
    (ctx_done b) r (senders b) (closers b) (consumed b) (accepted b) (panicked b).
Definition set_senders (l : list sender) (b : NotificationBroker) : NotificationBroker :=
  mkBroker (input b) (icap b) (input_closed b) (output b) (ocap b) (output_closed b) (closed b) (quit b)
    (ctx_done b) (run_pc b) l (closers b) (consumed b) (accepted b) (panicked b).
Definition set_closers (l : list closer) (b : NotificationBroker) : NotificationBroker :=
  mkBroker (input b) (icap b) (input_closed b) (output b) (ocap b) (output_closed b) (closed b) (quit b)
    (ctx_done b) (run_pc b) (senders b) l (consumed b) (accepted b) (panicked b).
Definition set_consumed (l : list msg) (b : NotificationBroker) : NotificationBroker :=
  mkBroker (input b) (icap b) (input_closed b) (output b) (ocap b) (output_closed b) (closed b) (quit b)
    (ctx_done b) (run_pc b) (senders b) (closers b) l (accepted b) (panicked b).
Definition set_accepted (l : list msg) (b : NotificationBroker) : NotificationBroker :=
  mkBroker (input b) (icap b) (input_closed b) (output b) (ocap b) (output_closed b) (closed b) (quit b)
    (ctx_done b) (run_pc b) (senders b) (closers b) (consumed b) l (panicked b).
Definition set_panicked (b : NotificationBroker) : NotificationBroker :=
  mkBroker (input b) (icap b) (input_closed b) (output b) (ocap b) (output_closed b) (closed b) (quit b)
    (ctx_done b) (run_pc b) (senders b) (closers b) (consumed b) (accepted b) true.

(** ** Actions *)

Inductive action :=
(* a goroutine calls Send(ctx, m) or Close(); the context is cancelled *)
| ACallSend (m : msg)
| ACallClose
| ACancelCtx
(* the n-th Send: its closed check; a case of its select *)
| ASendCheck (n : nat)
| ASendCtxDone (n : nat)
| ASendQuit (n : nat)
| ASendInput (n : nat)
(* run *)
| ARunQuit
| ARunRecv
| ARunRelay
| ARunDrainRecv
| ARunDrainDefault
| ARunCloseInput
(* the n-th Close *)
| ACloseCas (n : nat)
| ACloseQuit (n : nat)
| ACloseWait (n : nat)
| ACloseOutput (n : nat)
(* the client receives from output *)
| AConsume.

(** [Send], from the [closed] check to its result. *)
Definition Send_step (a : action) (b : NotificationBroker) : option NotificationBroker :=
  match a with
  | ASendCheck n =>
    match senders b !! n with
    | Some (SStart m) =>
      Some (set_senders (<[n := if closed b then SRet m false else SSelect m]> (senders b)) b)
    | _ => None
    end
  | ASendCtxDone n =>
    match senders b !! n with
    | Some (SSelect m) =>
      if ctx_done b then Some (set_senders (<[n := SRet m false]> (senders b)) b) else None
    | _ => None
    end
  | ASendQuit n =>
    match senders b !! n with
    | Some (SSelect m) =>
      if quit b then Some (set_senders (<[n := SRet m false]> (senders b)) b) else None
    | _ => None
    end
  | ASendInput n =>
    match senders b !! n with
    | Some (SSelect m) =>
      if input_closed b then Some (set_panicked b)
      else if decide (length (input b) < icap b)%nat then
        Some (set_accepted (accepted b ++ [m]) (set_input (input b ++ [m])
               (set_senders (<[n := SRet m true]> (senders b)) b)))
      else None
    | _ => None
    end
  | _ => None
  end.

(** [run]. *)
Definition run_step (a : action) (b : NotificationBroker) : option NotificationBroker :=
  match a, run_pc b with
  | ARunQuit, RSelect => if quit b then Some (set_run RDrain b) else None
  | ARunRecv, RSelect =>
    match input b with
    | m :: rest => Some (set_run (RHold m false) (set_input rest b))
    | [] => None
    end
  | ARunDrainRecv, RDrain =>
    match input b with
    | m :: rest => Some (set_run (RHold m true) (set_input rest b))
    | [] => None
    end
  | ARunDrainDefault, RDrain =>
    match input b with
    | [] => Some (set_run RClosing b)
    | _ => None
    end
  | ARunRelay, RHold m draining =>
    if output_closed b then Some (set_panicked b)
    else if decide (length (output b) < ocap b)%nat then
      Some (set_run (if draining then RDrain else RSelect) (set_output (output b ++ [m]) b))
    else None
  | ARunCloseInput, RClosing => Some (set_run RDone (set_input_closed b))
  | _, _ => None
  end.

(** [Close]. *)
Definition Close_step (a : action) (b : NotificationBroker) : option NotificationBroker :=
  match a with
  | ACloseCas n =>
    match closers b !! n with
    | Some CStart =>
      if closed b then Some (set_closers (<[n := CWait]> (closers b)) b)
      else Some (set_closed (set_closers (<[n := CQuit]> (closers b)) b))
    | _ => None
    end
  | ACloseQuit n =>
    match closers b !! n with
    | Some CQuit => Some (set_quit (set_closers (<[n := CWait]> (closers b)) b))
    | _ => None
    end
  | ACloseWait n =>
    match closers b !! n, run_pc b with
    | Some CWait, RDone => Some (set_closers (<[n := COut]> (closers b)) b)
    | _, _ => None
    end
  | ACloseOutput n =>
    match closers b !! n with
    | Some COut =>
      if output_closed b then Some (set_panicked b)
      else Some (set_output_closed (set_closers (<[n := CRet]> (closers b)) b))
    | _ => None
    end
  | _ => None
  end.

(** Calls and the client. *)
Definition env_step (a : action) (b : NotificationBroker) : option NotificationBroker :=
  match a with
  | ACallSend m => Some (set_senders (senders b ++ [SStart m]) b)
  | ACallClose => Some (set_closers (closers b ++ [CStart]) b)
  | ACancelCtx => Some (set_ctx_done b)
  | AConsume =>
    match output b with
    | m :: rest => Some (set_consumed (consumed b ++ [m]) (set_output rest b))
    | [] => None
    end
  | _ => None
  end.

(** A panic stops the process. *)
Definition bstep (a : action) (b : NotificationBroker) : option NotificationBroker :=
  if panicked b then None
  else match a with
  | ACallSend _ | ACallClose | ACancelCtx | AConsume => env_step a b
  | ASendCheck _ | ASendCtxDone _ | ASendQuit _ | ASendInput _ => Send_step a b
  | ACloseCas _ | ACloseQuit _ | ACloseWait _ | ACloseOutput _ => Close_step a b
  | _ => run_step a b
  end.

Fixpoint bexec (l : list action) (b : NotificationBroker) : option NotificationBroker :=
  match l with
  | [] => Some b
  | a :: l' => match bstep a b with Some b' => bexec l' b' | None => None end
  end.

Inductive broker_step (b b' : NotificationBroker) : Prop :=
| broker_step_intro a : bstep a b = Some b' -> broker_step b b'.

Definition reachable (oc ic : nat) (b : NotificationBroker) : Prop :=
  rtc broker_step (NewNotificationBroker oc ic) b.

Lemma bexec_rtc l b b' : bexec l b = Some b' -> rtc broker_step b b'.
Proof.
  revert b. induction l as [|a l IH]; simpl; intros b H; [by simplify_eq|].
  destruct (bstep a b) as [b1|] eqn:E; [|done].
  eapply rtc_l; [by econstructor|auto].
Qed.

(** ** The invariant *)

(** The message the relay goroutine holds. *)
Definition held (b : NotificationBroker) : list msg :=
  match run_pc b with RHold m _ => [m] | _ => [] end.

(** Has the relay goroutine left its outer loop? *)
Definition draining (r : runner) : bool :=
  match r with RSelect | RHold _ false => false | _ => true end.

(** The message of a [Send] that returned true. *)
Definition sent_ok (s : sender) : option msg :=
  match s with SRet m true => Some m | _ => None end.

Record broker_inv (b : NotificationBroker) : Prop := {
  inv_fifo : accepted b = consumed b ++ output b ++ held b ++ input b;
  inv_sent : omap sent_ok (senders b) ≡ₚ accepted b;
  inv_quit : quit b = true -> closed b = true;
  inv_drain : draining (run_pc b) = true -> quit b = true;
  inv_input_closed : input_closed b = true <-> run_pc b = RDone;
  inv_output_closed : output_closed b = true -> run_pc b = RDone;
  inv_cas : CQuit ∈ closers b -> closed b = true;
  inv_waited : COut ∈ closers b -> run_pc b = RDone;
  inv_input_cap : (length (input b) <= icap b)%nat;
  inv_output_cap : (length (output b) <= ocap b)%nat
}.

Lemma omap_insert_none {A B} (f : A -> option B) (l : list A) n x y :
  l !! n = Some x -> f x = None -> f y = None -> omap f (<[n := y]> l) = omap f l.
Proof.
  revert n. induction l as [|z l IH]; intros [|n] ? ? ?; simplify_eq/=; [|by rewrite IH].
  by repeat case_match; simplify_eq.
Qed.

Lemma omap_insert_some {A B} (f : A -> option B) (l : list A) n x y m :
  l !! n = Some x -> f x = None -> f y = Some m -> omap f (<[n := y]> l) ≡ₚ omap f l ++ [m].
Proof.
  revert n. induction l as [|z l IH]; intros [|n] ? ? ?; simplify_eq/=.
  - repeat case_match; simplify_eq. by rewrite Permutation_app_comm.
  - case_match; by rewrite IH.
Qed.

Lemma elem_of_insert_inv {A} (l : list A) n (x y : A) : x ∈ <[n := y]> l -> x = y \/ x ∈ l.
Proof.
  intros [i Hi]%list_elem_of_lookup. destruct (decide (i = n)) as [->|Hne].
  - apply list_lookup_insert_Some in Hi as [(? & ? & ?)|[? ?]]; [auto|done].
  - rewrite list_lookup_insert_ne in Hi by done. right. apply list_elem_of_lookup. eauto.
Qed.

(** Every way an action succeeds, with the resulting state computed. *)
Ltac step_cases H :=
  unfold bstep, Send_step, run_step, Close_step, env_step in H;
  repeat case_match; simplify_eq/=.

Lemma inv_new oc ic : broker_inv (NewNotificationBroker oc ic).
Proof. split; simpl; try done; try lia; set_solver. Qed.

(** Close a goal about the fields an action did not touch, or use a field of
    the invariant. *)
Ltac inv_easy :=
  try done; try (intros; congruence); try (rewrite ?length_app; simpl; lia);
  try (intuition congruence).

Lemma inv_step a b b' : bstep a b = Some b' -> broker_inv b -> broker_inv b'.
Proof.
  intros H [I1 I2 I3 I4 I5 I6 I7 I8 I9 I10].
  step_cases H; split; unfold held in *; simpl in *;
    repeat match goal with E : run_pc _ = _ |- _ => rewrite ?E in *; clear E end;
    simpl in *; inv_easy.
  all: try match goal with H : ?l !! _ = Some _ |- _ => pose proof (list_elem_of_lookup_2 _ _ _ H) end.
  all: try (intros [?|?]%elem_of_insert_inv; [discriminate|auto]; fail).
  all: try (intros [?|?%list_elem_of_singleton]%elem_of_app; [auto|discriminate]; fail).
  all: try (erewrite omap_insert_none; done).
  all: try (rewrite I1, <-!app_assoc; done).
  all: try (intros _; auto; fail).
  - rewrite omap_app. simpl. by rewrite app_nil_r.
  - by erewrite omap_insert_some, I2.
  - match goal with E : input b = [] |- _ => rewrite E end. simpl. lia.
Qed.

Lemma inv_reachable oc ic b : reachable oc ic b -> broker_inv b.
Proof.
  apply rtc_invariant; [|apply inv_new]. intros b1 b2 [a Ha]. by eapply inv_step.
Qed.

(** ** Delivery *)


(** ** Panics *)

(** A panic is a [Send] that selects its send case after [run] closed [input],
    or a [close(output)] by a second [Close]; the relay goroutine itself never
    panics. *)
Lemma panic_cause a b b' :
  broker_inv b -> bstep a b = Some b' -> panicked b' = true ->
  (exists n m, a = ASendInput n /\ senders b !! n = Some (SSelect m) /\ run_pc b = RDone) \/
  (exists n, a = ACloseOutput n /\ closers b !! n = Some COut /\ output_closed b = true).
Proof.
  intros Hi H Hp. pose proof (inv_input_closed _ Hi) as I5. pose proof (inv_output_closed _ Hi) as I6.
  step_cases H; try congruence; [left|exfalso; intuition congruence|right].
  - do 2 eexists. repeat split; try done. by apply I5.
  - eauto.
Qed.

(** ** Orderly shutdown *)

Definition in_select (s : sender) : bool := match s with SSelect _ => true | _ => false end.

(** [Close] has won its compare-and-swap and no [Send] is past its check. *)
Definition shutting_down (b : NotificationBroker) : Prop :=
  closed b = true /\ Forall (fun s => in_select s = false) (senders b) /\
  (run_pc b = RClosing \/ run_pc b = RDone -> input b = []).

Lemma shutting_down_step a b b' :
  shutting_down b -> bstep a b = Some b' ->
  shutting_down b' /\ accepted b' = accepted b.
Proof.
  intros (Hc & Hs & Hr) H. unfold shutting_down.
  step_cases H; repeat split; try done; try congruence;
    try (intros [?|?]; congruence); try (intuition congruence).
  all: try (eapply Forall_lookup_1 in Hs; [|done]; discriminate).
  all: try (apply Forall_insert; done).
  all: try (apply Forall_app_2; [done|by constructor]).
Qed.

(** C18: orderly shutdown loses nothing and cannot panic in [Send]. Take a
    reachable state in which a [Close] has won its compare-and-swap but has not
    closed [quit] yet, and no [Send] is between its check and its result. In
    every later state nothing more has been accepted, once the relay goroutine
    is done every accepted message has been received or is in the output
    channel, and the only step that can panic is a second [close(output)]. *)
Theorem broker_shutdown oc ic b b' :
  reachable oc ic b -> closed b = true -> quit b = false ->
  Forall (fun s => in_select s = false) (senders b) ->
  rtc broker_step b b' ->
  accepted b' = accepted b /\
  (run_pc b' = RDone -> accepted b' = consumed b' ++ output b') /\
  (forall a b'', bstep a b' = Some b'' -> panicked b'' = true -> exists n, a = ACloseOutput n).
Proof.
  intros Hr Hc Hq Hs Hb.
  assert (shutting_down b) as Hsd.
  { repeat split; try done. intros Hpc. apply inv_reachable in Hr.
    rewrite (inv_drain _ Hr) in Hq; [done|]. by destruct Hpc as [-> | ->]. }
  assert (shutting_down b' /\ accepted b' = accepted b) as [Hsd' Hacc].
  { apply (rtc_invariant broker_step (fun x => shutting_down x /\ accepted x = accepted b) b); [|done..].
    intros b1 b2 [a Ha] [H1 H2].
    destruct (shutting_down_step _ _ _ H1 Ha) as [? ->]. done. }
  assert (broker_inv b') as Hi by (apply (inv_reachable oc ic); unfold reachable in *; by etrans).
  destruct Hsd' as (_ & Hs' & Hin). split; [done|split].
  - intros Hd. rewrite (inv_fifo _ Hi), Hin by auto. unfold held. rewrite Hd.
    by rewrite !app_nil_r.
  - intros a b'' Ha Hp. destruct (panic_cause _ _ _ Hi Ha Hp) as [(n & m & -> & Hn & _)|(n & -> & _)]; [|eauto].
    eapply Forall_lookup_1 in Hs'; [|exact Hn]. done.
Qed.

(** ** The relay goroutine always finishes its drain *)

(** The actions of the relay goroutine and of a client that keeps receiving. *)
Definition relay_action (a : action) : bool :=
  match a with
  | ARunQuit | ARunRecv | ARunRelay | ARunDrainRecv | ARunDrainDefault | ARunCloseInput | AConsume => true
  | _ => false
  end.

Definition pc_work (r : runner) : nat :=
  match r with RSelect => 3 | RHold _ false => 5 | RHold _ true => 4 | RDrain => 2 | RClosing => 1 | RDone => 0 end.

Definition work (b : NotificationBroker) : nat :=
  4 * length (input b) + pc_work (run_pc b) + length (output b).

Lemma relay_decreases a b b' :
  relay_action a = true -> bstep a b = Some b' -> panicked b' = false -> (work b' < work b)%nat.
Proof.
  intros Ha H Hp. unfold work. step_cases H; try done;
    repeat match goal with E : ?f ?b = _ |- context [?f ?b] => rewrite E end;
    rewrite ?length_app; simpl; lia.
Qed.

Lemma relay_enabled b :
  broker_inv b -> panicked b = false -> (0 < ocap b)%nat -> quit b = true -> run_pc b <> RDone ->
  exists a b', relay_action a = true /\ bstep a b = Some b' /\
    panicked b' = false /\ ocap b' = ocap b /\ quit b' = true.
Proof.
  intros Hi Hp Ho Hq Hr. unfold bstep. destruct (run_pc b) as [|m d| | |] eqn:E; [| | | |done].
  - exists ARunQuit. eexists. unfold run_step. rewrite Hp, E, Hq. by repeat split.
  - assert (output_closed b = false) as Hoc.
    { apply not_true_is_false. intros Ht. apply (inv_output_closed _ Hi) in Ht. congruence. }
    destruct (decide (length (output b) < ocap b)%nat) as [Hl|Hl].
    + exists ARunRelay. eexists. unfold run_step. rewrite Hp, E, Hoc.
      rewrite decide_True by done. by repeat split.
    + exists AConsume. unfold env_step. rewrite Hp.
      destruct (output b) as [|m' rest]; [simpl in Hl; lia|]. eexists. by repeat split.
  - destruct (input b) as [|m rest] eqn:Ei.
    + exists ARunDrainDefault. eexists. unfold run_step. rewrite Hp, E, Ei. by repeat split.
    + exists ARunDrainRecv. eexists. unfold run_step. rewrite Hp, E, Ei. by repeat split.
  - exists ARunCloseInput. eexists. unfold run_step. rewrite Hp, E. by repeat split.
Qed.

(** Every run of the relay goroutine and a receiving client is bounded by the
    work there is, and stays in states where the goroutine is not stuck. *)
Lemma relay_run l b b' :
  Forall (fun a => relay_action a = true) l ->
  broker_inv b -> panicked b = false -> (0 < ocap b)%nat -> quit b = true -> bexec l b = Some b' ->
  (length l + work b' <= work b)%nat /\
  broker_inv b' /\ panicked b' = false /\ (0 < ocap b')%nat /\ quit b' = true.
Proof.
  intros Hl. revert b. induction Hl as [|a l Ha Hl IH]; intros b Hi Hp Ho Hq; simpl; [intros [= <-]; auto with lia|].
  destruct (bstep a b) as [b1|] eqn:E; [|done]. intros He.
  assert (panicked b1 = false) as Hp1.
  { apply not_true_is_false. intros Ht. destruct (panic_cause _ _ _ Hi E Ht) as [(n & m & -> & _)|(n & -> & _)]; done. }
  assert (ocap b1 = ocap b /\ quit b1 = true) as [Ho1 Hq1] by (clear -E Ha Hq; step_cases E; done).
  pose proof (relay_decreases _ _ _ Ha E Hp1). rewrite <-Ho1 in Ho.
  destruct (IH b1 ltac:(by eapply inv_step) Hp1 Ho Hq1 He) as [? ?]. split; [lia|done].
Qed.

(** C19: the wait in [Close] ends. Once [quit] is closed, take any run of the
    relay goroutine and of a client that receives: it has at most [work] steps
    (a bound by what is buffered), and unless the relay goroutine has returned
    (so that [wg.Wait] does) it or the client has a next step. *)
Theorem broker_drain_terminates b l b' :
  broker_inv b -> panicked b = false -> (0 < ocap b)%nat -> quit b = true ->
  Forall (fun a => relay_action a = true) l -> bexec l b = Some b' ->
  (length l + work b' <= work b)%nat /\
  (run_pc b' = RDone \/ exists a b'', relay_action a = true /\ bstep a b' = Some b'').
Proof.
  intros Hi Hp Ho Hq Hl He. destruct (relay_run _ _ _ Hl Hi Hp Ho Hq He) as (Hw & Hi' & Hp' & Ho' & Hq').
  split; [done|]. assert (run_pc b' = RDone \/ run_pc b' <> RDone) as [|Hr] by (destruct (run_pc b'); auto; by right); [by left|right].
  destruct (relay_enabled b' Hi' Hp' Ho' Hq' Hr) as (a & b'' & Ha & Hs & _). eauto.
Qed.

End broker.

(** ** Concrete runs *)

Definition note (id : string) : RecoverableRedisNotification :=
  Make StreamAdded (mkLBSInfo "s" id) None.

(** Two messages are sent and one received before [Close] wins its swap. *)
Definition open_run : list action :=
  [ACallSend (note "1"); ASendCheck 0; ASendInput 0; ARunRecv;
   ACallSend (note "2"); ASendCheck 1; ASendInput 1; ARunRelay; AConsume;
   ACallClose; ACloseCas 0].

(** The rest of [Close]. *)
Definition close_run : list action :=
  [ACloseQuit 0; ARunQuit; ARunDrainRecv; ARunRelay; ARunDrainDefault; ARunCloseInput;
   ACloseWait 0; ACloseOutput 0].

Definition state_after (l : list action) : NotificationBroker :=
  default (NewNotificationBroker 1 1) (bexec l (NewNotificationBroker 1 1)).


Lemma broker_shutdown_witness :
  accepted (state_after (open_run ++ close_run)) =
    consumed (state_after (open_run ++ close_run)) ++ output (state_after (open_run ++ close_run)) /\
  length (accepted (state_after (open_run ++ close_run))) = 2%nat.
Proof.
  split; [|reflexivity].
  refine (proj1 (proj2 (broker_shutdown 1 1 (state_after open_run) _ _ _ _ _ _)) _);
    [apply (bexec_rtc open_run)| | | |apply (bexec_rtc close_run)|]; vm_compute; try reflexivity.
  repeat constructor.
Defined.

(** One message is buffered when [quit] closes: drained, relayed, received. *)
Definition drain_run : list action :=
  [ARunQuit; ARunDrainRecv; ARunRelay; AConsume; ARunDrainDefault; ARunCloseInput].

Lemma broker_drain_terminates_witness :
  let b := state_after (open_run ++ [ACloseQuit 0]) in
  let b' := state_after (open_run ++ [ACloseQuit 0] ++ drain_run) in
  (length drain_run + work b' <= work b)%nat /\ run_pc b' = RDone.
Proof.
  split; [|vm_compute; reflexivity].
  apply (broker_drain_terminates (state_after (open_run ++ [ACloseQuit 0])) drain_run).
  - apply (inv_reachable 1 1), (bexec_rtc (open_run ++ [ACloseQuit 0])). vm_compute. reflexivity.
  - reflexivity.
  - simpl. lia.
  - reflexivity.
  - repeat constructor.
  - vm_compute. reflexivity.
Defined.

(** A [Send] passes its check, [Close] runs to its end, and the [Send] selects
    its send case on the closed channel. *)
Definition panic_run : list action :=
  [ACallSend (note "1"); ASendCheck 0; ACallClose; ACloseCas 0; ACloseQuit 0; ARunQuit;
   ARunDrainDefault; ARunCloseInput; ACloseWait 0; ACloseOutput 0; ASendInput 0].

(** A [Send] puts its message into the channel after the drain saw it empty. *)
Definition lossy_run : list action :=
  [ACallSend (note "1"); ASendCheck 0; ACallClose; ACloseCas 0; ACloseQuit 0; ARunQuit;
   ARunDrainDefault; ASendInput 0; ARunCloseInput; ACloseWait 0; ACloseOutput 0].

(** A [Send] that races with a single [Close] can panic, and a message whose
    [Send] returned true can be lost. The documented guarantees, no panic on
    send and drain of what was accepted, hold only under the hypotheses of
    [broker_shutdown]. *)
Theorem broker_send_close_race :
  (exists b, bexec panic_run (NewNotificationBroker 500 500) = Some b /\
     panicked b = true /\ length (closers b) = 1%nat) /\
  (exists b, bexec lossy_run (NewNotificationBroker 500 500) = Some b /\
     closers b = [CRet] /\ senders b = [SRet (note "1") true] /\
     consumed b = [] /\ output b = []).
Proof.
  split.
  - exists (default (NewNotificationBroker 500 500) (bexec panic_run (NewNotificationBroker 500 500))).
    vm_compute. repeat split.
  - exists (default (NewNotificationBroker 500 500) (bexec lossy_run (NewNotificationBroker 500 500))).
    vm_compute. repeat split.
Qed.
