(* ===== verification/Effects.v ===== *)
(** * Programs and their environment

    The client's functions interleave their own computation with calls whose
    outcome the environment decides: Redis commands (go-redis), lock operations
    (redsync), context, time and randomness, the client's shared state behind
    its mutex, notifications and metrics. A [cmd] is one such call, [resp c] the
    type of its outcome, and a [prog] a function body as a tree of calls.

    - [wp p Q]: on every run of [p], whatever the environment answers, the
      trace of calls and answers and the result satisfy [Q];
    - [always p P]: every prefix of every run satisfies [P];
    - [run p s]: [p] executed against a concrete environment ([Handler]);
    - [pool_step]: several programs interleaved call by call against one
      environment, which may also take steps of its own.

    Nothing is assumed of the environment here: an answer is any value of its
    type. Logging is not modelled; the durations and times metrics carry are
    supplied where a trace is replayed into a recorder (Recorder.v). *)

From Stdlib Require Import ZArith String Lia.
From stdpp Require Import base gmap strings list relations.
From S2P Require Import Prelude GoStrings Json Configs Errs Notifs.

(** ** Values the calls carry *)

(** A stream entry's field/value map ([map[string]interface{}]). *)
Abbreviation values := (gmap string any).

(** redsync.Mutex, as NewMutex configures it. *)
Record Mutex := mkMutex {
  mutex_name : string;
  mutex_expiry : Z;
  mutex_failFast : bool;
  mutex_retryDelay : Z;
  mutex_setNXOnExtend : bool;
  mutex_value : string      (* what genValueFunc returns *)
}.

(** impl/relredis.go: StreamLocksInfo. *)
Record StreamLocksInfo := mkStreamLocksInfo {
  lock_LBSInfo : LBSInfo;
  RedsyncMutex : Mutex;
  lock_AdditionalInfo : option (gmap string any)
}.

(** A Redis endpoint: the client itself, or one node of the cluster. *)
Inductive endpoint :=
| Default
| Node (addr : string).

(** metrics/recorder.go: the Recorder interface, without time arguments. *)
Inductive metric :=
| RecordStartupRecovery (success : bool) (unackedCount : Z)
| RecordClaimAttempt (streamName : string) (success : bool)
| RecordLockAcquisitionAttempt (streamName : string) (success : bool)
| RecordLockExtensionAttempt (streamName : string) (success : bool)
| RecordLockReleaseAttempt (streamName : string) (success : bool)
| RecordStreamProcessingStart (streamName : string)
| RecordStreamProcessingEnd (streamName : string)
| RecordKspNotification (streamName : string)
| RecordKspNotificationDropped
| RecordReconciliationScan (requeued skippedAlive dlqRouted : Z)
| RecordReQueue (streamName : string) (success : bool)
| RecordDLQRouting (streamName : string)
| RecordMutexAliveSkip (streamName : string)
| RecordAckAddGap (streamName : string)
| RecordTopologyReinit (success : bool)
| RecordMasterKeyspaceSetup (success : bool).

(** ** Calls *)

Inductive cmd :=
(* go-redis: streams, keys *)
| XAck (stream group id : string)
| XAdd (stream : string) (maxLen : Z) (approx : bool) (vals : values)
| XDel (stream id : string)
| XRange (stream start stop : string)
| Exists (key : string)
| XPendingExt (stream group : string) (idle : Z) (start stop : string) (count : Z)
| XReadGroup (group consumer stream id : string) (block : Z)
| XGroupCreateMkStream (stream group start : string)
(* go-redis: configuration, pub/sub, cluster *)
| ConfigGet (ep : endpoint) (param : string)
| ConfigSet (ep : endpoint) (param value : string)
| PSubscribe (ep : endpoint) (pattern : string)
| PubSubClose (ps : nat)
| ClusterMasters
| ClusterShards
| ClusterInfo (addr : string)
| ClusterNodes (addr : string)
| ReloadState
(* redsync *)
| MutexLock (m : Mutex)
| MutexExtend (m : Mutex)
| MutexUnlock (m : Mutex)
(* context, time, math/rand; [SleepOrDone] is true when the context ended first *)
| CtxDone
| Sleep (d : Z)
| SleepOrDone (d : Z)
| Int63n (n : Z)
(* the client's streamLocks map, each call one critical section *)
| LocksGet (name : string)
| LocksPut (name : string) (info : StreamLocksInfo)
| LocksDelete (name : string)
| LocksPop (name : string)
| LocksNames
(* the client's subscriptions, channels and goroutines; [KspRecv] is the select of
   listenKsp: [None] when the context is done, else the message, which may be nil *)
| SetPubSub (ps : nat)
| GetPubSub
| OssAdd (ps : nat)
| OssTakeAll
| FanIn (ps : nat)
| KspRecv
| KspDrain
| BrokerSend (n : RecoverableRedisNotification)
| BrokerClose
| SetCancelLBS
| CancelLBS
| GoReadLBS
| GoListenKsp
| GoReconcile
| GoExtend (m : Mutex) (info : LBSInfo) (extra : option (gmap string any))
(* metrics.Recorder *)
| Metric (m : metric)
(* an application: its connection, clock, signals, the client's output channel ([None]
   when closed), its goroutines, and the variables they share, one call per access;
   [TickOrDone] is true when the context ended before the next tick *)
| NewUniversalClient (addr : string)
| Ping
| RedisClose
| AwaitSignal
| CancelCtx
| Now
| NowRFC3339
| OutputRecv
| TickOrDone (d : Z)
| GoConsume
| GoStatistics
| GoHandleStreamAdded (n : RecoverableRedisNotification)
| ProcessedStore (streamName : string) (at_ : Z)
| ProcessedRange
| CountLoad
| CountStore (n : Z).

(** The type of a call's outcome. *)
Definition resp (c : cmd) : Type :=
  match c with
  | XAck _ _ _ | XDel _ _ | Exists _ => result Z
  | XAdd _ _ _ _ => result string
  | XRange _ _ _ => result (list (string * values))
  | XPendingExt _ _ _ _ _ _ => result (list string)
  | XReadGroup _ _ _ _ _ => result (list (string * list (string * values)))
  | XGroupCreateMkStream _ _ _ | ConfigSet _ _ _ => result unit
  | ConfigGet _ _ => result (gmap string string)
  | PSubscribe _ _ => nat
  | PubSubClose _ => option error
  | ClusterMasters | ClusterShards => result (list string)
  | ClusterInfo _ | ClusterNodes _ => result string
  | MutexLock _ => option error
  | MutexExtend _ | MutexUnlock _ => bool * option error
  | CtxDone | SleepOrDone _ | BrokerSend _ => bool
  | Int63n _ | Now | CountLoad => Z
  | NowRFC3339 => string
  | Ping => option error
  | TickOrDone _ => bool
  | OutputRecv => option RecoverableRedisNotification
  | ProcessedRange => list (string * Z)
  | LocksGet _ | LocksPop _ => option StreamLocksInfo
  | LocksNames => list string
  | GetPubSub => option nat
  | OssTakeAll => list nat
  | KspRecv => option (option (string * string))
  | _ => unit
  end.

(** ** Programs *)

Inductive prog (A : Type) : Type :=
| Ret (a : A)
| Call (c : cmd) (k : resp c -> prog A).
Arguments Ret {A} a.
Arguments Call {A} c k.

#[export] Instance prog_ret : MRet prog := fun A a => Ret a.

#[export] Instance prog_bind : MBind prog :=
  fix go A B f p {struct p} :=
    match p with
    | Ret a => f a
    | Call c k => Call c (fun r => @go A B f (k r))
    end.

(** A single call. *)
Definition call (c : cmd) : prog (resp c) := Call c (fun r => Ret r).

(** ** Traces *)

Definition event : Type := { c : cmd & resp c }.
Definition ev (c : cmd) (r : resp c) : event := existT c r.
Abbreviation trace := (list event).

(** ** All runs *)

Fixpoint wp {A} (p : prog A) (Q : trace -> A -> Prop) : Prop :=
  match p with
  | Ret a => Q [] a
  | Call c k => forall r, wp (k r) (fun t a => Q (ev c r :: t) a)
  end.

Fixpoint always {A} (p : prog A) (P : trace -> Prop) : Prop :=
  P [] /\
  match p with
  | Ret _ => True
  | Call c k => forall r, always (k r) (fun t => P (ev c r :: t))
  end.

Lemma wp_mono {A} (p : prog A) (Q Q' : trace -> A -> Prop) :
  (forall t a, Q t a -> Q' t a) -> wp p Q -> wp p Q'.
Proof. revert Q Q'. induction p as [a|c k IH]; simpl; intros Q Q' HQ; [auto|]. intros H r. eapply IH; [|apply H]. auto. Qed.

Lemma wp_true {A} (p : prog A) : wp p (fun _ _ => True).
Proof. induction p; simpl; auto. Qed.

Lemma wp_bind {A B} (p : prog A) (f : A -> prog B) (Q : trace -> B -> Prop) :
  wp (p ≫= f) Q <-> wp p (fun t a => wp (f a) (fun t' b => Q (t ++ t') b)).
Proof.
  revert Q. induction p as [a|c k IH]; simpl; intros Q; [done|].
  split; intros H r; apply (IH r (fun t b => Q (ev c r :: t) b)), H.
Qed.

Lemma wp_and {A} (p : prog A) (Q1 Q2 : trace -> A -> Prop) :
  wp p Q1 -> wp p Q2 -> wp p (fun t a => Q1 t a /\ Q2 t a).
Proof. revert Q1 Q2. induction p as [a|c k IH]; simpl; intros; auto. Qed.

Lemma always_mono {A} (p : prog A) (P P' : trace -> Prop) :
  (forall t, P t -> P' t) -> always p P -> always p P'.
Proof.
  revert P P'. induction p as [a|c k IH]; simpl; intros P P' HP [H0 H]; split; auto.
  intros r. eapply IH; [|apply H]. auto.
Qed.

Lemma always_and {A} (p : prog A) (P1 P2 : trace -> Prop) :
  always p P1 -> always p P2 -> always p (fun t => P1 t /\ P2 t).
Proof. revert P1 P2. induction p as [a|c k IH]; simpl; intros P1 P2 [? ?] [? ?]; auto. Qed.

Lemma always_bind {A B} (p : prog A) (f : A -> prog B) (P : trace -> Prop) :
  always p P -> wp p (fun t a => always (f a) (fun t' => P (t ++ t'))) -> always (p ≫= f) P.
Proof.
  revert P. induction p as [a|c k IH]; simpl; intros P [H0 H] Hw; [done|].
  split; [done|]. intros r. apply IH; [apply H|apply Hw].
Qed.

(** All calls of a program satisfy a test. *)
Definition calls_only {A} (f : event -> bool) (p : prog A) : Prop := always p (fun t => forallb f t = true).

Lemma calls_only_ret {A} f (a : A) : calls_only f (mret a).
Proof. by split. Qed.

Lemma calls_only_call {A} f c (k : resp c -> prog A) :
  (forall r, f (ev c r) = true /\ calls_only f (k r)) -> calls_only f (Call c k).
Proof.
  intros Hk. split; [done|]. intros r. destruct (Hk r) as [Hf Hr].
  eapply always_mono; [|exact Hr]. intros t Ht. simpl. by rewrite Hf, Ht.
Qed.

Lemma always_wp {A} (p : prog A) P : always p P -> wp p (fun t _ => P t).
Proof. revert P. induction p as [a|c k IH]; simpl; intros P [H0 H]; [done|]. intros r. by apply IH. Qed.

Lemma calls_only_bind {A B} f (p : prog A) (g : A -> prog B) :
  calls_only f p -> (forall a, calls_only f (g a)) -> calls_only f (p ≫= g).
Proof.
  intros Hp Hg. apply always_bind; [done|]. eapply wp_mono; [|apply (always_wp _ _ Hp)].
  intros t a Ht. eapply always_mono; [|apply Hg]. intros t' Ht'. by rewrite forallb_app, Ht, Ht'.
Qed.

Lemma calls_only_mono {A} (f g : event -> bool) (p : prog A) :
  (forall e, f e = true -> g e = true) -> calls_only f p -> calls_only g p.
Proof.
  intros Hfg. apply always_mono. intros t Ht. rewrite forallb_forall in *. eauto.
Qed.

Lemma calls_only_wp {A} f (p : prog A) : calls_only f p -> wp p (fun t _ => forallb f t = true).
Proof. apply always_wp. Qed.

(** A projection of the calls that none of them has. *)
Lemma calls_only_omap {B} f (g : event -> option B) t :
  (forall e, f e = true -> g e = None) -> forallb f t = true -> omap g t = [].
Proof.
  intros Hfg. induction t as [|e t IH]; [done|]. intros [He Ht]%andb_true_iff.
  simpl. rewrite (Hfg e He). by apply IH.
Qed.

(** [runs p t a]: one possible run of [p] makes the calls [t] and returns [a]. *)
Fixpoint runs {A} (p : prog A) (t : trace) (a : A) : Prop :=
  match p, t with
  | Ret a', [] => a' = a
  | Call c k, e :: t' => exists r, e = ev c r /\ runs (k r) t' a
  | _, _ => False
  end.

Lemma wp_runs {A} (p : prog A) (Q : trace -> A -> Prop) t a : wp p Q -> runs p t a -> Q t a.
Proof.
  revert Q t. induction p as [a'|c k IH]; simpl; intros Q t Hw Hr.
  - destruct t; [by subst|done].
  - destruct t as [|e t]; [done|]. destruct Hr as (r & -> & Hr). by apply (IH r _ _ (Hw r)).
Qed.

Lemma runs_bind {C D} (p : prog C) (g : C -> prog D) t1 t2 c d :
  runs p t1 c -> runs (g c) t2 d -> runs (p ≫= g) (t1 ++ t2) d.
Proof.
  revert t1. induction p as [c'|x k IH]; intros t1 H1 H2; simpl in *.
  - destruct t1; [by subst|done].
  - destruct t1 as [|e t1]; [done|]. destruct H1 as (a & -> & H1). exists a. split; [done|]. by apply IH.
Qed.

Lemma runs_bind_inv {C D} (p : prog C) (g : C -> prog D) t d :
  runs (p ≫= g) t d -> exists t1 t2 c, t = t1 ++ t2 /\ runs p t1 c /\ runs (g c) t2 d.
Proof.
  revert t. induction p as [c|x k IH]; intros t Hr; simpl in *.
  - by exists [], t, c.
  - destruct t as [|e t]; [done|]. destruct Hr as (a & -> & Hr).
    destruct (IH _ _ Hr) as (t1 & t2 & c & -> & H1 & H2). exists (ev x a :: t1), t2, c. simpl. eauto 10.
Qed.

Lemma wp_self {A} (p : prog A) : wp p (runs p).
Proof.
  induction p as [a|c k IH]; simpl; [done|]. intros r. eapply wp_mono; [|apply IH]. eauto.
Qed.

Lemma always_nil {A} (p : prog A) P : always p P -> P [].
Proof. destruct p; by intros [? ?]. Qed.

(** ** Running against an environment *)

Class Handler (W : Type) := handle : forall c : cmd, W -> resp c * W.

Fixpoint run {W} `{Handler W} {A} (p : prog A) (s : W) : A * W * trace :=
  match p with
  | Ret a => (a, s, [])
  | Call c k =>
    let '(r, s1) := handle c s in
    let '(a, s2, t) := run (k r) s1 in
    (a, s2, ev c r :: t)
  end.

Lemma run_bind {W} `{Handler W} {A B} (p : prog A) (f : A -> prog B) (s : W) :
  run (p ≫= f) s =
  let '(a, s1, t1) := run p s in
  let '(b, s2, t2) := run (f a) s1 in (b, s2, t1 ++ t2).
Proof.
  revert s. induction p as [a|c k IH]; simpl; intros s.
  - by destruct (run (f a) s) as [[b s2] t].
  - destruct (handle c s) as [r s1]. fold (@mbind prog _ A B f). rewrite IH.
    destruct (run (k r) s1) as [[a s2] t]. by destruct (run (f a) s2) as [[b s3] t2].
Qed.

(** What holds of every run holds of the run against an environment. *)
Lemma wp_run {W} `{Handler W} {A} (p : prog A) (Q : trace -> A -> Prop) (s : W) :
  wp p Q -> Q (run p s).2 (run p s).1.1.
Proof.
  revert Q s. induction p as [a|c k IH]; simpl; intros Q s Hw; [done|].
  destruct (handle c s) as [r s1]. specialize (IH r _ s1 (Hw r)). by destruct (run (k r) s1) as [[a s2] t].
Qed.

(** An uneventful answer to any call: commands succeed, reads find nothing. *)
Definition default_resp (c : cmd) : resp c :=
  match c with
  | XAck _ _ _ | XDel _ _ | Exists _ => Ok 0
  | XAdd _ _ _ _ => Ok EmptyString
  | XRange _ _ _ | XPendingExt _ _ _ _ _ _ | XReadGroup _ _ _ _ _ => Ok []
  | XGroupCreateMkStream _ _ _ | ConfigSet _ _ _ => Ok tt
  | ConfigGet _ _ => Ok ∅
  | PSubscribe _ _ => 0%nat
  | PubSubClose _ | MutexLock _ => None
  | ClusterMasters | ClusterShards => Ok []
  | ClusterInfo _ | ClusterNodes _ => Ok EmptyString
  | MutexExtend _ | MutexUnlock _ => (true, None)
  | CtxDone | SleepOrDone _ => false
  | BrokerSend _ => true
  | Int63n _ | Now | CountLoad => 0
  | NowRFC3339 => EmptyString
  | Ping | OutputRecv => None
  | TickOrDone _ => false
  | ProcessedRange => []
  | LocksGet _ | LocksPop _ | GetPubSub | KspRecv => None
  | LocksNames | OssTakeAll => []
  | _ => tt
  end.

(** ** Interleaving several programs

    [phandle i c w] is the environment's answer to call [c] of thread [i]
    (threads of different clients have different local state); [env] are the
    steps the environment takes by itself. *)

Section pool.
Context {W A : Type} (phandle : nat -> forall c : cmd, W -> resp c * W) (env : W -> W -> Prop).

Record pool := mkPool {
  threads : list (prog A);
  world : W;
  hist : list (nat * event)
}.

Inductive pool_step : pool -> pool -> Prop :=
| pool_step_call ts w h i c k r w' :
    ts !! i = Some (Call c k) -> phandle i c w = (r, w') ->
    pool_step (mkPool ts w h) (mkPool (<[i := k r]> ts) w' (h ++ [(i, ev c r)]))
| pool_step_env ts w h w' :
    env w w' -> pool_step (mkPool ts w h) (mkPool ts w' h).

(** The calls of one thread. *)
Definition proj (i : nat) (h : list (nat * event)) : trace :=
  omap (fun x => if decide (x.1 = i) then Some x.2 else None) h.

Lemma proj_snoc i j e h :
  proj i (h ++ [(j, e)]) = proj i h ++ (if decide (j = i) then [e] else []).
Proof. unfold proj. rewrite omap_app. simpl. by case_decide. Qed.

(** If every thread always satisfies [P], and every call preserves [I] given
    the calling thread's [P], then [I] holds throughout and every thread still
    always satisfies [P], its calls so far included. *)
Lemma pool_inv (P : nat -> trace -> Prop) (I : W -> list (nat * event) -> Prop) ts0 w0 x :
  (forall w w' h, env w w' -> I w h -> I w' h) ->
  (forall i c r w w' h, phandle i c w = (r, w') -> P i (proj i h ++ [ev c r]) ->
     I w h -> I w' (h ++ [(i, ev c r)])) ->
  I w0 [] ->
  (forall i p, ts0 !! i = Some p -> always p (P i)) ->
  rtc pool_step (mkPool ts0 w0 []) x ->
  I (world x) (hist x) /\
  (forall i p, threads x !! i = Some p -> always p (fun t => P i (proj i (hist x) ++ t))).
Proof.
  intros Henv Hcall HI HP Hr.
  refine (rtc_invariant pool_step (fun x => I (world x) (hist x) /\ forall i p, threads x !! i = Some p ->
            always p (fun t => P i (proj i (hist x) ++ t))) _ x _ _ Hr); [|done].
  intros a b Hab [HIa HPa]. destruct Hab as [ts w h i c k r w' Hi Hc|ts w h w' He]; simpl in *.
  - pose proof (HPa _ _ Hi) as [_ Hk]. split.
    + eapply Hcall; [done| |done]. by apply (always_nil _ _ (Hk r)).
    + intros j p Hj. rewrite proj_snoc. destruct (decide (i = j)) as [<-|Hne].
      * rewrite list_lookup_insert_eq in Hj by (by eapply lookup_lt_Some). simplify_eq.
        eapply always_mono; [|apply (Hk r)]. intros t. by rewrite <-app_assoc.
      * rewrite list_lookup_insert_ne in Hj by done. rewrite app_nil_r. auto.
  - split; [by eapply Henv|done].
Qed.

(** What holds of all runs of a thread holds of its calls and what is left. *)
Lemma pool_wp (Q : nat -> trace -> A -> Prop) ts0 w0 x :
  (forall i p, ts0 !! i = Some p -> wp p (Q i)) ->
  rtc pool_step (mkPool ts0 w0 []) x ->
  forall i p, threads x !! i = Some p -> wp p (fun t => Q i (proj i (hist x) ++ t)).
Proof.
  intros HQ Hr.
  refine (rtc_invariant pool_step (fun x => forall i p, threads x !! i = Some p ->
            wp p (fun t => Q i (proj i (hist x) ++ t))) _ x _ _ Hr); [|exact HQ].
  intros a b Hab Ha. destruct Hab as [ts w h i c k r w' Hi Hc|ts w h w' He]; simpl in *; [|done].
  intros j p Hj. rewrite proj_snoc. destruct (decide (i = j)) as [<-|Hne].
  - rewrite list_lookup_insert_eq in Hj by (by eapply lookup_lt_Some). simplify_eq.
    eapply wp_mono; [|apply (Ha _ _ Hi)]. intros t a. by rewrite <-app_assoc.
  - rewrite list_lookup_insert_ne in Hj by done. rewrite app_nil_r. auto.
Qed.

(** The pool after the threads named by a schedule each make a call in turn. *)
Fixpoint pool_exec (schedule : list nat) (x : pool) : pool :=
  match schedule with
  | [] => x
  | i :: schedule' =>
    match threads x !! i with
    | Some (Call c k) =>
      let '(r, w') := phandle i c (world x) in
      pool_exec schedule' (mkPool (<[i := k r]> (threads x)) w' (hist x ++ [(i, ev c r)]))
    | _ => pool_exec schedule' x
    end
  end.

Lemma pool_exec_rtc schedule x : rtc pool_step x (pool_exec schedule x).
Proof.
  revert x. induction schedule as [|i l IH]; intros [ts w h]; simpl; [done|].
  destruct (ts !! i) as [[a|c k]|] eqn:Hi; try apply IH.
  destruct (phandle i c w) as [r w'] eqn:Hc. eapply rtc_l; [|apply IH]. by econstructor.
Qed.

(** Every call in the history is by one of the threads. *)
Lemma hist_tids ts0 w0 x :
  rtc pool_step (mkPool ts0 w0 []) x ->
  length (threads x) = length ts0 /\ forall y, y ∈ hist x -> (y.1 < length ts0)%nat.
Proof.
  intros Hr. refine (rtc_invariant pool_step (fun x => length (threads x) = length ts0 /\
    forall y, y ∈ hist x -> (y.1 < length ts0)%nat) _ x _ _ Hr); [|simpl; set_solver].
  intros a b Hab [Hl Hh]. destruct Hab as [ts w h i c k r w' Hi Hc|]; simpl in *; [|done].
  rewrite length_insert. split; [done|]. intros y [Hy|Hy]%elem_of_app; [auto|].
  apply list_elem_of_singleton in Hy as ->. apply lookup_lt_Some in Hi. simpl. lia.
Qed.
End pool.

Arguments pool : clear implicits.
Arguments mkPool {W A} _ _ _.

(** ** Counting events over threads *)

Lemma sum_list_with_plus {A} (f g : A -> nat) l :
  sum_list_with (fun i => f i + g i)%nat l = (sum_list_with f l + sum_list_with g l)%nat.
Proof. induction l; simpl; lia. Qed.

Lemma sum_list_with_le {A} (f g : A -> nat) l :
  (forall i, f i <= g i)%nat -> (sum_list_with f l <= sum_list_with g l)%nat.
Proof. intros H. induction l as [|x l IH]; simpl; [lia|]. specialize (H x). lia. Qed.

Lemma sum_indicator n i v :
  (i < n)%nat -> sum_list_with (fun j => if decide (i = j) then v else 0)%nat (seq 0 n) = v.
Proof.
  intros Hi. assert (forall k, sum_list_with (fun j => if decide (i = j) then v else 0)%nat (seq k n)
    = if decide (k <= i < k + n)%nat then v else 0%nat) as Hg; [|rewrite Hg; case_decide; lia].
  clear Hi. induction n as [|n IH]; intros k; simpl; [case_decide; lia|].
  rewrite IH. repeat case_decide; lia.
Qed.

Lemma count_proj (f : event -> bool) n h :
  (forall y, y ∈ h -> (y.1 < n)%nat) ->
  count (fun y => f y.2) h = sum_list_with (fun i => count f (proj i h)) (seq 0 n).
Proof.
  induction h as [|[j e] h IH] using rev_ind; intros Hh.
  - simpl. induction (seq 0 n); simpl; lia.
  - rewrite count_app, IH by set_solver. simpl.
    rewrite <-(sum_indicator n j (if f e then 1 else 0)%nat) by (apply (Hh (j, e)); set_solver).
    rewrite Nat.add_0_r, <-sum_list_with_plus. clear IH Hh.
    induction (seq 0 n) as [|i l IHl]; simpl; [done|]. rewrite IHl, proj_snoc, count_app. f_equal.
    case_decide; simpl; lia.
Qed.

(** A bound of every thread's count by another count is a bound of the totals. *)
Lemma count_threads_le (f g : event -> bool) n h :
  (forall y, y ∈ h -> (y.1 < n)%nat) ->
  (forall i, count f (proj i h) <= count g (proj i h))%nat ->
  (count (fun y => f y.2) h <= count (fun y => g y.2) h)%nat.
Proof. intros Hh Hfg. rewrite !(count_proj _ n) by done. by apply sum_list_with_le. Qed.

Lemma sum_two (f : nat -> nat) n i j :
  (i < n)%nat -> (j < n)%nat -> i <> j -> (f i + f j <= sum_list_with f (seq 0 n))%nat.
Proof.
  intros Hi Hj Hne. rewrite <-(sum_indicator n i (f i) Hi), <-(sum_indicator n j (f j) Hj), <-sum_list_with_plus.
  apply sum_list_with_le. intros k. repeat case_decide; subst; simplify_eq; lia.
Qed.

(** An event of the history is in the projection to its thread. *)
Lemma elem_of_proj i (e : event) h : (i, e) ∈ h -> e ∈ proj i h.
Proof. intros Hin. apply list_elem_of_omap. exists (i, e). split; [done|]. simpl. by case_decide. Qed.

Lemma proj_elem_of i (e : event) h : e ∈ proj i h -> (i, e) ∈ h.
Proof. intros ([j e'] & Hin & He)%list_elem_of_omap. simpl in He. case_decide; simplify_eq. done. Qed.

(** ** Tests on events *)

Definition is_xadd (e : event) : bool :=
  match projT1 e with XAdd _ _ _ _ => true | _ => false end.

(** A call that changes the load-balancer stream or its pending list. *)
Definition is_mutation (e : event) : bool :=
  match projT1 e with XAdd _ _ _ _ | XAck _ _ _ | XDel _ _ => true | _ => false end.

(** An XACK of the entry that removed it from the pending list. *)
Definition won_ack (stream group id : string) (e : event) : bool :=
  let '(existT c r) := e in
  match c return resp c -> bool with
  | XAck s g i => fun r =>
    bool_decide (s = stream) && bool_decide (g = group) && bool_decide (i = id) &&
    match r with Ok n => negb (n =? 0)%Z | Err _ => false end
  | _ => fun _ => false
  end r.

(** An EXISTS that found no lock. *)
Definition dead_check (key : string) (e : event) : bool :=
  let '(existT c r) := e in
  match c return resp c -> bool with
  | Exists k => fun r =>
    bool_decide (k = key) && match r with Ok n => negb (0 <? n)%Z | Err _ => false end
  | _ => fun _ => false
  end r.

(** A successful XADD to a stream. *)
Definition added_to (stream : string) (e : event) : bool :=
  let '(existT c r) := e in
  match c return resp c -> bool with
  | XAdd s _ _ _ => fun r => bool_decide (s = stream) && match r with Ok _ => true | Err _ => false end
  | _ => fun _ => false
  end r.

Definition is_metric (m : metric -> bool) (e : event) : bool :=
  match projT1 e with Metric x => m x | _ => false end.

Definition is_gap (m : metric) : bool := match m with RecordAckAddGap _ => true | _ => false end.

(** No [f]-event before the first [g]-event: every [f] is preceded by a [g]. *)
Fixpoint preceded (g f : event -> bool) (t : trace) : bool :=
  match t with
  | [] => true
  | e :: t' => if f e then false else if g e then true else preceded g f t'
  end.

(** [t] has an event that satisfies [f]. *)
Definition occurs (f : event -> bool) (t : trace) : bool := existsb f t.

Lemma occurs_count f t : occurs f t = true <-> (0 < count f t)%nat.
Proof.
  unfold occurs. induction t as [|e t IH]; simpl; [done || lia|].
  destruct (f e); simpl; [|done]. split; [lia|done].
Qed.

Lemma preceded_occurs g f t : preceded g f t = true -> occurs f t = true -> occurs g t = true.
Proof.
  unfold occurs. induction t as [|e t IH]; simpl; [done|].
  destruct (f e), (g e); simpl; auto; done.
Qed.

(** ** Walking through a program

    [walk tac] follows every run of the program in an [always] or [wp] goal:
    each call is answered arbitrarily, each branch on an answer is taken both
    ways, and [tac] is left to prove what is claimed of the events so far. *)

Ltac walk_branch p k :=
  match p with context [match ?x with _ => _ end] => destruct x eqn:?; simplify_eq; k end.

Ltac walk tac :=
  simpl;
  lazymatch goal with
  | |- always ?p _ => walk_branch p ltac:(walk tac)
  | |- wp ?p _ => walk_branch p ltac:(walk tac)
  | |- _ /\ (forall _, always _ _) => split; [tac|]; intro; walk tac
  | |- _ /\ True => split; [tac|exact I]
  | |- forall x : ?T, _ => lazymatch type of T with Prop => tac | _ => intro; walk tac end
  | |- _ => tac
  end.

(** Decide the tests on the events of a concrete trace. *)
Ltac events :=
  intros; simpl; rewrite ?bool_decide_true by done; simpl;
  repeat match goal with
  | H : (_ =? 0)%Z = _ |- _ => rewrite ?H; clear H
  | H : (0 <? _)%Z = _ |- _ => rewrite ?H; clear H
  end; simpl;
  try (repeat case_match; done); try (repeat split; repeat case_match; simplify_eq; done || lia).

