(* ===== verification/LbsEntry.v ===== *)
(** * impl/lbsentry.go: one entry of the load-balancer stream *)

From Stdlib Require Import ZArith String Lia.
From stdpp Require Import base gmap strings list.
From S2P Require Import Prelude GoStrings Json Configs Errs Notifs Effects.

#[local] Open Scope string_scope.

(** ** The entry and its accessors *)

Record lbsEntry := mkEntry {
  entry_id : string;
  entry_values : values
}.

Definition retryCount (e : lbsEntry) : Z :=
  match entry_values e !! RetryCountField with
  | None => 0
  | Some (AString s) =>
    match Atoi s with
    | Some n => if n <? 0 then 0 else n
    | None => 0
    end
  | Some _ => 0
  end%Z.

Definition dataStreamName (e : lbsEntry) : result string :=
  match entry_values e !! LBSInput with
  | None => Err (ESentinel ErrInvalidKeyForLBSMessage)
  | Some (AString s) =>
    match Unmarshal s with
    | None => Err (NewRedisError OpUnmarshalLBSMessage (EJson s))
    | Some msg =>
      if String.eqb (DataStreamName msg) ε then Err (ESentinel ErrNoDatastreamInLBSMessage)
      else Ok (DataStreamName msg)
    end
  | Some _ => Err (ESentinel ErrInvalidLBSMessage)
  end.

(** A fresh map filled by ranging over the original, in the map's order. *)
Definition cloneValues (e : lbsEntry) : values :=
  fold_left (fun out kv => <[kv.1 := kv.2]> out) (map_to_list (entry_values e)) ∅.

(** ** Lemmas *)

Lemma fold_insert_lookup (l : list (string * any)) (m : values) k :
  NoDup l.*1 ->
  fold_left (fun out kv => <[kv.1 := kv.2]> out) l m !! k =
  match list_to_map (M := values) l !! k with Some v => Some v | None => m !! k end.
Proof.
  revert m. induction l as [|[k' v] l IH]; intros m; simpl; [by rewrite lookup_empty|].
  intros [Hk Hl]%NoDup_cons. rewrite (IH _ Hl).
  destruct (decide (k' = k)) as [->|Hne].
  - rewrite lookup_insert_eq, (not_elem_of_list_to_map_1 l k Hk). by rewrite lookup_insert_eq.
  - by rewrite !lookup_insert_ne.
Qed.

Lemma cloneValues_eq e : cloneValues e = entry_values e.
Proof.
  apply map_eq. intros k. unfold cloneValues.
  rewrite fold_insert_lookup by apply NoDup_fst_map_to_list.
  rewrite list_to_map_to_list, lookup_empty. by destruct (entry_values e !! k).
Qed.

Lemma Atoi_range s n : Atoi s = Some n -> in_int64 n.
Proof. unfold Atoi, in_int64. repeat case_match; intros; simplify_eq; zbool; simpl in *; lia || done. Qed.

Lemma retryCount_range e : 0 <= retryCount e <= max_int64.
Proof.
  unfold retryCount. repeat case_match; try (unfold max_int64; lia).
  destruct (Atoi_range _ _ ltac:(eassumption)). zbool; [done|lia].
Qed.

(** A re-queued entry carries the count it was re-queued with. *)
Lemma retryCount_set i (vs : values) n :
  0 <= n <= max_int64 -> retryCount (mkEntry i (<[RetryCountField := AString (Itoa n)]> vs)) = n.
Proof.
  intros Hn. unfold retryCount. simpl. rewrite lookup_insert_eq, Atoi_Itoa.
  - zbool; lia.
  - unfold in_int64, min_int64. lia.
Qed.

(** Recovery fields do not change what the entry is about. *)
Lemma dataStreamName_set i j (vs : values) k v :
  k <> LBSInput -> dataStreamName (mkEntry i (<[k := v]> vs)) = dataStreamName (mkEntry j vs).
Proof. intros Hk. unfold dataStreamName. simpl. by rewrite lookup_insert_ne. Qed.

Lemma dataStreamName_nonempty e name : dataStreamName e = Ok name -> name <> ε.
Proof.
  unfold dataStreamName. repeat case_match; intros; simplify_eq. by apply String.eqb_neq.
Qed.

(** An entry as a producer writes it. *)
Definition produced (name : string) : values := {[LBSInput := AString (marshal_name name)]}.

Lemma dataStreamName_produced i name :
  plain name = true -> name <> ε -> dataStreamName (mkEntry i (produced name)) = Ok name.
Proof.
  intros Hp Hne. unfold dataStreamName, produced. simpl.
  rewrite lookup_singleton_eq, Unmarshal_marshal_name by done. simpl.
  by apply String.eqb_neq in Hne as ->.
Qed.
