(* ===== verification/Options.v ===== *)
(** * impl/recovery_config.go, impl/opts.go, NewRedisStreamClient

    The client's configuration: the record the constructor fills, the
    functional options in the order they are applied, their validation, and
    the recovery configuration with its builder. Mutable run-time state (the
    lock map, subscriptions, channels' contents) is not here but behind the
    calls of [Effects]; of a channel only its capacity is configuration. *)

From Stdlib Require Import ZArith String Lia.
From stdpp Require Import base gmap strings list.
From S2P Require Import Prelude GoStrings Configs Errs.

#[local] Open Scope string_scope.
#[local] Open Scope Z_scope.

(** ** recovery_config.go *)

Record RecoveryConfig := mkRecoveryConfig {
  ReconciliationInterval : Z;
  MinIdleTime : Z;
  BatchSize : Z;
  MaxRetries : Z;
  DLQStream : string;
  DLQMaxLen : Z
}.

Definition DefaultRecoveryConfig : RecoveryConfig :=
  mkRecoveryConfig DefaultReconciliationInterval DefaultMinIdleTime DefaultReconciliationBatchSize
    DefaultMaxReQueueRetries ε DefaultDLQMaxLen.

Definition recovery_error (text : string) : option error :=
  Some (EErrorfW ε (ESentinel ErrInvalidRecoveryConfig) text).

Definition RecoveryConfig_Validate (rc : RecoveryConfig) : option error :=
  if ReconciliationInterval rc <=? 0 then recovery_error ": reconciliationInterval must be greater than 0"
  else if MinIdleTime rc <=? 0 then recovery_error ": minIdleTime must be greater than 0"
  else if BatchSize rc <=? 0 then recovery_error ": batchSize must be greater than 0"
  else if MaxRetries rc <? 0 then recovery_error ": maxRetries must be >= 0"
  else if DLQMaxLen rc <? 0 then recovery_error ": dlqMaxLen must be >= 0 (0 disables the cap)"
  else None.

(** The builder wraps a configuration; its methods update it in place. *)
Record RecoveryConfigBuilder := mkBuilder { cfg : RecoveryConfig }.

Definition NewRecoveryConfigBuilder : RecoveryConfigBuilder := mkBuilder DefaultRecoveryConfig.

Definition WithReconciliationInterval (d : Z) (b : RecoveryConfigBuilder) : RecoveryConfigBuilder :=
  let c := cfg b in
  mkBuilder (mkRecoveryConfig d (MinIdleTime c) (BatchSize c) (MaxRetries c) (DLQStream c) (DLQMaxLen c)).
Definition WithMinIdleTime (d : Z) (b : RecoveryConfigBuilder) : RecoveryConfigBuilder :=
  let c := cfg b in
  mkBuilder (mkRecoveryConfig (ReconciliationInterval c) d (BatchSize c) (MaxRetries c) (DLQStream c) (DLQMaxLen c)).
Definition WithBatchSize (n : Z) (b : RecoveryConfigBuilder) : RecoveryConfigBuilder :=
  let c := cfg b in
  mkBuilder (mkRecoveryConfig (ReconciliationInterval c) (MinIdleTime c) n (MaxRetries c) (DLQStream c) (DLQMaxLen c)).
Definition WithMaxRetries (n : Z) (b : RecoveryConfigBuilder) : RecoveryConfigBuilder :=
  let c := cfg b in
  mkBuilder (mkRecoveryConfig (ReconciliationInterval c) (MinIdleTime c) (BatchSize c) n (DLQStream c) (DLQMaxLen c)).
Definition WithDLQStream (name : string) (b : RecoveryConfigBuilder) : RecoveryConfigBuilder :=
  let c := cfg b in
  mkBuilder (mkRecoveryConfig (ReconciliationInterval c) (MinIdleTime c) (BatchSize c) (MaxRetries c) name (DLQMaxLen c)).
Definition WithDLQMaxLen (n : Z) (b : RecoveryConfigBuilder) : RecoveryConfigBuilder :=
  let c := cfg b in
  mkBuilder (mkRecoveryConfig (ReconciliationInterval c) (MinIdleTime c) (BatchSize c) (MaxRetries c) (DLQStream c) n).

Definition Build (b : RecoveryConfigBuilder) : result RecoveryConfig :=
  match RecoveryConfig_Validate (cfg b) with
  | Some err => Err err
  | None => Ok (cfg b)
  end.

(** Built from its six setters, a configuration is returned as it was set, or
    rejected by its validation. *)
Lemma Build_setters i d b m s l :
  Build (WithDLQMaxLen l (WithDLQStream s (WithMaxRetries m (WithBatchSize b (WithMinIdleTime d
    (WithReconciliationInterval i NewRecoveryConfigBuilder)))))) =
  let rc := mkRecoveryConfig i d b m s l in
  match RecoveryConfig_Validate rc with None => Ok rc | Some e => Err e end.
Proof. unfold Build. simpl. by case_match. Qed.

(** ** opts.go: RetryConfig *)

Inductive ClusterMode := ClusterModeSingleShard | ClusterModeOSS.

#[export] Instance ClusterMode_eq_dec : EqDecision ClusterMode.
Proof. solve_decision. Defined.

Record RetryConfig := mkRetryConfig {
  retry_MaxRetries : Z;
  InitialRetryDelay : Z;
  MaxRetryDelay : Z
}.

Definition DefaultRetryConfig : RetryConfig :=
  mkRetryConfig DefaultMaxRetries DefaultInitialRetryDelay DefaultMaxRetryDelay.

Definition RetryConfig_Validate (rc : RetryConfig) : option error :=
  if retry_MaxRetries rc <? -1 then Some (EErrorf "maxRetries must be -1 (unlimited) or >= 0")
  else if InitialRetryDelay rc <=? 0 then Some (EErrorf "initialRetryDelay must be greater than 0")
  else if MaxRetryDelay rc <=? 0 then Some (EErrorf "maxRetryDelay must be greater than 0")
  else if MaxRetryDelay rc <? InitialRetryDelay rc
  then Some (EErrorf "initialRetryDelay cannot be greater than maxRetryDelay")
  else None.

(** ** relredis.go: the client

    [isCluster]: the given [redis.UniversalClient] is a [*redis.ClusterClient].
    [logger] and [metricsRecorder] stand for the objects' identities, 0 being
    the defaults. *)

Record Client := mkClient {
  isCluster : bool;
  consumerID : string;
  kspChan_cap : Z;
  hbInterval : Z;
  serviceName : string;
  outputChan_cap : Z;
  lbsIdleTime : Z;
  lbsRecoveryCount : Z;
  kspChanSize : Z;
  kspChanTimeout : Z;
  logger : nat;
  forceOverrideConfig : bool;
  broker_bufferSize : Z;
  maxRetries : Z;
  initialRetryDelay : Z;
  maxRetryDelay : Z;
  metricsRecorder : nat;
  clusterMode : ClusterMode;
  recoveryConfig : RecoveryConfig
}.

(** helpers.go: lbsGroupName, lbsName. *)
Definition lbsGroupName (r : Client) : string := serviceName r +:+ GroupSuffix.
Definition lbsName (r : Client) : string := serviceName r +:+ InputSuffix.

Definition RecoverableRedisOption := Client -> result Client.

Definition set_recoveryConfig (c : RecoveryConfig) (r : Client) : Client :=
  mkClient (isCluster r) (consumerID r) (kspChan_cap r) (hbInterval r) (serviceName r) (outputChan_cap r)
    (lbsIdleTime r) (lbsRecoveryCount r) (kspChanSize r) (kspChanTimeout r) (logger r)
    (forceOverrideConfig r) (broker_bufferSize r) (maxRetries r) (initialRetryDelay r) (maxRetryDelay r)
    (metricsRecorder r) (clusterMode r) c.

Definition WithLBSIdleTime (idleTime : Z) : RecoverableRedisOption := fun r =>
  if (idleTime =? 0) || (idleTime <? mul64 2 (hbInterval r)) then Err (ESentinel ErrInvalidIdleTime)
  else Ok (mkClient (isCluster r) (consumerID r) (kspChan_cap r) (hbInterval r) (serviceName r)
    (outputChan_cap r) idleTime (lbsRecoveryCount r) (kspChanSize r) (kspChanTimeout r) (logger r)
    (forceOverrideConfig r) (broker_bufferSize r) (maxRetries r) (initialRetryDelay r) (maxRetryDelay r)
    (metricsRecorder r) (clusterMode r) (recoveryConfig r)).

Definition WithLBSRecoveryCount (count : Z) : RecoverableRedisOption := fun r =>
  if count <=? 0 then Err (ESentinel ErrInvalidRecoveryCount)
  else Ok (mkClient (isCluster r) (consumerID r) (kspChan_cap r) (hbInterval r) (serviceName r)
    (outputChan_cap r) (lbsIdleTime r) count (kspChanSize r) (kspChanTimeout r) (logger r)
    (forceOverrideConfig r) (broker_bufferSize r) (maxRetries r) (initialRetryDelay r) (maxRetryDelay r)
    (metricsRecorder r) (clusterMode r) (recoveryConfig r)).

Definition WithKspChanSize (size : Z) : RecoverableRedisOption := fun r =>
  if size <=? 0 then Err (ESentinel ErrInvalidKspChanSize)
  else Ok (mkClient (isCluster r) (consumerID r) (kspChan_cap r) (hbInterval r) (serviceName r)
    (outputChan_cap r) (lbsIdleTime r) (lbsRecoveryCount r) size (kspChanTimeout r) (logger r)
    (forceOverrideConfig r) (broker_bufferSize r) (maxRetries r) (initialRetryDelay r) (maxRetryDelay r)
    (metricsRecorder r) (clusterMode r) (recoveryConfig r)).

Definition WithKspChanTimeout (timeout : Z) : RecoverableRedisOption := fun r =>
  if timeout <? Minute then Err (ESentinel ErrInvalidKspChanTimeout)
  else Ok (mkClient (isCluster r) (consumerID r) (kspChan_cap r) (hbInterval r) (serviceName r)
    (outputChan_cap r) (lbsIdleTime r) (lbsRecoveryCount r) (kspChanSize r) timeout (logger r)
    (forceOverrideConfig r) (broker_bufferSize r) (maxRetries r) (initialRetryDelay r) (maxRetryDelay r)
    (metricsRecorder r) (clusterMode r) (recoveryConfig r)).

Definition WithForceConfigOverride : RecoverableRedisOption := fun r =>
  Ok (mkClient (isCluster r) (consumerID r) (kspChan_cap r) (hbInterval r) (serviceName r)
    (outputChan_cap r) (lbsIdleTime r) (lbsRecoveryCount r) (kspChanSize r) (kspChanTimeout r) (logger r)
    true (broker_bufferSize r) (maxRetries r) (initialRetryDelay r) (maxRetryDelay r)
    (metricsRecorder r) (clusterMode r) (recoveryConfig r)).

Definition WithOutputChanSize (size : Z) : RecoverableRedisOption := fun r =>
  if size <=? 0 then Err (ESentinel ErrInvalidOutputChanSize)
  else Ok (mkClient (isCluster r) (consumerID r) (kspChan_cap r) (hbInterval r) (serviceName r)
    size (lbsIdleTime r) (lbsRecoveryCount r) (kspChanSize r) (kspChanTimeout r) (logger r)
    (forceOverrideConfig r) (broker_bufferSize r) (maxRetries r) (initialRetryDelay r) (maxRetryDelay r)
    (metricsRecorder r) (clusterMode r) (recoveryConfig r)).

Definition WithRetryConfig (config : RetryConfig) : RecoverableRedisOption := fun r =>
  match RetryConfig_Validate config with
  | Some err => Err err
  | None => Ok (mkClient (isCluster r) (consumerID r) (kspChan_cap r) (hbInterval r) (serviceName r)
    (outputChan_cap r) (lbsIdleTime r) (lbsRecoveryCount r) (kspChanSize r) (kspChanTimeout r) (logger r)
    (forceOverrideConfig r) (broker_bufferSize r) (retry_MaxRetries config) (InitialRetryDelay config)
    (MaxRetryDelay config) (metricsRecorder r) (clusterMode r) (recoveryConfig r))
  end.

Definition WithLogger (l : nat) : RecoverableRedisOption := fun r =>
  Ok (mkClient (isCluster r) (consumerID r) (kspChan_cap r) (hbInterval r) (serviceName r)
    (outputChan_cap r) (lbsIdleTime r) (lbsRecoveryCount r) (kspChanSize r) (kspChanTimeout r) l
    (forceOverrideConfig r) (broker_bufferSize r) (maxRetries r) (initialRetryDelay r) (maxRetryDelay r)
    (metricsRecorder r) (clusterMode r) (recoveryConfig r)).

Definition WithMetricsRecorder (recorder : nat) : RecoverableRedisOption := fun r =>
  Ok (mkClient (isCluster r) (consumerID r) (kspChan_cap r) (hbInterval r) (serviceName r)
    (outputChan_cap r) (lbsIdleTime r) (lbsRecoveryCount r) (kspChanSize r) (kspChanTimeout r) (logger r)
    (forceOverrideConfig r) (broker_bufferSize r) (maxRetries r) (initialRetryDelay r) (maxRetryDelay r)
    recorder (clusterMode r) (recoveryConfig r)).

Definition WithClusterMode (mode : ClusterMode) : RecoverableRedisOption := fun r =>
  Ok (mkClient (isCluster r) (consumerID r) (kspChan_cap r) (hbInterval r) (serviceName r)
    (outputChan_cap r) (lbsIdleTime r) (lbsRecoveryCount r) (kspChanSize r) (kspChanTimeout r) (logger r)
    (forceOverrideConfig r) (broker_bufferSize r) (maxRetries r) (initialRetryDelay r) (maxRetryDelay r)
    (metricsRecorder r) mode (recoveryConfig r)).

Definition WithRecoveryConfig (config : RecoveryConfig) : RecoverableRedisOption := fun r =>
  match RecoveryConfig_Validate config with
  | Some err => Err err
  | None => Ok (set_recoveryConfig config r)
  end.

(** The options, as values: a caller applies a list of these. *)
Inductive Opt :=
| OLBSIdleTime (d : Z) | OLBSRecoveryCount (n : Z) | OKspChanSize (n : Z) | OKspChanTimeout (d : Z)
| OForceConfigOverride | OOutputChanSize (n : Z) | ORetryConfig (c : RetryConfig) | OLogger (l : nat)
| OMetricsRecorder (m : nat) | OClusterMode (m : ClusterMode) | ORecoveryConfig (c : RecoveryConfig).

Definition opt_fun (o : Opt) : RecoverableRedisOption :=
  match o with
  | OLBSIdleTime d => WithLBSIdleTime d
  | OLBSRecoveryCount n => WithLBSRecoveryCount n
  | OKspChanSize n => WithKspChanSize n
  | OKspChanTimeout d => WithKspChanTimeout d
  | OForceConfigOverride => WithForceConfigOverride
  | OOutputChanSize n => WithOutputChanSize n
  | ORetryConfig c => WithRetryConfig c
  | OLogger l => WithLogger l
  | OMetricsRecorder m => WithMetricsRecorder m
  | OClusterMode m => WithClusterMode m
  | ORecoveryConfig c => WithRecoveryConfig c
  end.

(** [for _, opt := range opts]: the first error is returned. *)
Fixpoint apply_opts (opts : list Opt) (r : Client) : result Client :=
  match opts with
  | [] => Ok r
  | o :: opts' => match opt_fun o r with Ok r' => apply_opts opts' r' | Err e => Err e end
  end.

(** The client before its options. *)
Definition base_client (redisIsCluster : bool) (consumer service : string) : Client :=
  mkClient redisIsCluster consumer DefaultKspChanSize DefaultHBInterval service DefaultOutputChanSize
    DefaultLBSIdleTime DefaultLBSRecoveryCount DefaultKspChanSize DefaultKspChanTimeout 0
    false DefaultOutputChanSize DefaultMaxRetries DefaultInitialRetryDelay DefaultMaxRetryDelay 0
    ClusterModeSingleShard DefaultRecoveryConfig.

Definition default_DLQ (r : Client) : Client :=
  let c := recoveryConfig r in
  if String.eqb (DLQStream c) ε then
    set_recoveryConfig (mkRecoveryConfig (ReconciliationInterval c) (MinIdleTime c) (BatchSize c)
      (MaxRetries c) (lbsName r +:+ DLQSuffix) (DLQMaxLen c)) r
  else r.

Definition NewRedisStreamClient (getenv : string -> string) (redisIsCluster : bool) (service : string)
    (opts : list Opt) : result Client :=
  let podName := getenv PodName in
  let podIP := getenv PodIP in
  if String.eqb podName ε && String.eqb podIP ε then Err (ESentinel ErrPodConfigMissing)
  else
    let consumer := RedisConsumerPrefix +:+ (if Nat.ltb 0 (String.length podName) then podName else podIP) in
    match apply_opts opts (base_client redisIsCluster consumer service) with
    | Err e => Err e
    | Ok r => Ok (default_DLQ r)
    end.

(** [ID]. *)
Definition ID (r : Client) : string := consumerID r.

(** ** Well-formed clients *)

Definition retry_of (r : Client) : RetryConfig :=
  mkRetryConfig (maxRetries r) (initialRetryDelay r) (maxRetryDelay r).

Record client_wf (r : Client) : Prop := {
  wf_hb : hbInterval r = DefaultHBInterval;
  wf_idle : 2 * hbInterval r <= lbsIdleTime r;
  wf_count : 0 < lbsRecoveryCount r;
  wf_kspChan : kspChan_cap r = DefaultKspChanSize;
  wf_kspSize : 0 < kspChanSize r;
  wf_kspTimeout : Minute <= kspChanTimeout r;
  wf_output : 0 < outputChan_cap r;
  wf_retry : RetryConfig_Validate (retry_of r) = None;
  wf_recovery : RecoveryConfig_Validate (recoveryConfig r) = None
}.

(** When is an option accepted? *)
Definition opt_valid (o : Opt) : bool :=
  match o with
  | OLBSIdleTime d => 2 * DefaultHBInterval <=? d
  | OLBSRecoveryCount n | OKspChanSize n | OOutputChanSize n => 0 <? n
  | OKspChanTimeout d => Minute <=? d
  | ORetryConfig c => match RetryConfig_Validate c with None => true | Some _ => false end
  | ORecoveryConfig c => match RecoveryConfig_Validate c with None => true | Some _ => false end
  | OForceConfigOverride | OLogger _ | OMetricsRecorder _ | OClusterMode _ => true
  end.

Lemma base_client_wf b c s : client_wf (base_client b c s).
Proof. by split. Qed.

(** The fields no option changes. *)
Definition identity (r : Client) : bool * string * string := (isCluster r, consumerID r, serviceName r).

Lemma opt_fun_spec o r :
  client_wf r ->
  match opt_fun o r with
  | Ok r' => opt_valid o = true /\ client_wf r' /\ identity r' = identity r
  | Err _ => opt_valid o = false
  end.
Proof.
  intros Hwf. destruct o; simpl.
  1: { unfold WithLBSIdleTime. rewrite (wf_hb _ Hwf).
       change (mul64 2 DefaultHBInterval) with (2 * DefaultHBInterval).
       destruct (Z.eqb_spec d 0) as [->|]; simpl; [done|].
       destruct (Z.ltb_spec d (2 * DefaultHBInterval)); [by apply Z.leb_gt|].
       split; [by apply Z.leb_le|]. destruct Hwf as [Hhb]. by split; [split; simpl; rewrite ?Hhb|]. }
  all: unfold WithLBSRecoveryCount, WithKspChanSize, WithKspChanTimeout, WithOutputChanSize,
    WithRetryConfig, WithRecoveryConfig in *.
  all: repeat case_match; simplify_eq; zbool; try done; try lia.
  all: split; [done|]; destruct Hwf; split; [by split|done].
Qed.

Lemma apply_opts_spec opts r :
  client_wf r ->
  match apply_opts opts r with
  | Ok r' => forallb opt_valid opts = true /\ client_wf r' /\ identity r' = identity r
  | Err _ => forallb opt_valid opts = false
  end.
Proof.
  revert r. induction opts as [|o opts IH]; intros r Hwf; simpl; [done|].
  pose proof (opt_fun_spec o r Hwf) as Ho. destruct (opt_fun o r) as [r'|e]; [|by rewrite Ho].
  destruct Ho as (-> & Hwf' & Hid). specialize (IH r' Hwf').
  destruct (apply_opts opts r') as [r''|e]; [|done]. rewrite Hid in IH. done.
Qed.



(** ** Concrete clients *)

Definition pod_env (k : string) : string := if String.eqb k PodName then "pod-1" else ε.

Definition demo_client : Client :=
  default_DLQ (base_client false "redis-consumer-pod-1" "orders").

