(* ===== verification/Requeue.v ===== *)
(** * impl/requeue.go: the recovery primitive

    [reQueue] decides what happens to one pending entry of the load-balancer
    stream: leave it to its live owner, put it back as a new message, or move it
    to the dead-letter stream. This file holds the programs and the properties
    of all their runs, whatever Redis answers; Server.v relates them to
    a server. *)

From Stdlib Require Import ZArith String Lia.
From stdpp Require Import base gmap strings list.
From S2P Require Import Prelude GoStrings Json Configs Errs Notifs Effects LbsEntry Options.

#[local] Open Scope string_scope.

Definition unknownDataStream : string := "unknown".

Inductive reQueueOutcome :=
| reQueueError
| reQueueLostRace
| reQueueSkippedAlive
| reQueueRequeued
| reQueueDLQ.

#[export] Instance reQueueOutcome_eq_dec : EqDecision reQueueOutcome.
Proof. solve_decision. Defined.

Section requeue.
Context (r : Client).

(** The entry, if it is still in the stream. *)
Definition readLBSEntry (idInLBS : string) : prog (result (option lbsEntry)) :=
  msgs ← call (XRange (lbsName r) idInLBS idInLBS);
  match msgs with
  | Err err => mret (Err (NewRedisError OpReQueue err))
  | Ok [] => mret (Ok None)
  | Ok ((_, vs) :: _) => mret (Ok (Some (mkEntry idInLBS vs)))
  end.

Definition ownerAlive (lbsInfo : LBSInfo) : prog (result bool) :=
  exists_ ← call (Exists (FormMutexKey lbsInfo));
  match exists_ with
  | Err err => mret (Err (NewRedisError OpReQueue err))
  | Ok n => mret (Ok (0 <? n)%Z)
  end.

(** The values of a dead-letter entry. *)
Definition dlqValues (entry : lbsEntry) (retries : Z) (reason : string) : values :=
  <[DLQReasonField := AString reason]> (<[RetryCountField := AString (Itoa retries)]> (cloneValues entry)).

(** The values of a re-queued entry. *)
Definition newValues (entry : lbsEntry) (next : Z) : values :=
  <[RetryCountField := AString (Itoa next)]> (cloneValues entry).

Definition routeToDLQ (name : string) (entry : lbsEntry) (retries : Z) (reason : string) :
    prog (reQueueOutcome * option error) :=
  acked ← call (XAck (lbsName r) (lbsGroupName r) (entry_id entry));
  match acked with
  | Err err => mret (reQueueError, Some (NewRedisError OpRouteDLQ err))
  | Ok n =>
    if (n =? 0)%Z then mret (reQueueLostRace, None)
    else
      gap ← (if String.eqb (DLQStream (recoveryConfig r)) ε then mret None
             else
               added ← call (XAdd (DLQStream (recoveryConfig r)) (DLQMaxLen (recoveryConfig r)) true
                               (dlqValues entry retries reason));
               match added with
               | Err err =>
                 call (Metric (RecordAckAddGap name));;
                 mret (Some (NewRedisError OpRouteDLQ err))
               | Ok _ => call (Metric (RecordDLQRouting name));; mret None
               end);
      match gap with
      | Some err => mret (reQueueDLQ, Some err)
      | None => call (XDel (lbsName r) (entry_id entry));; mret (reQueueDLQ, None)
      end
  end.

(** The branch that re-adds the task. *)
Definition reAdd (name : string) (entry : lbsEntry) (next : Z) :
    prog (reQueueOutcome * string * option error) :=
  acked ← call (XAck (lbsName r) (lbsGroupName r) (entry_id entry));
  match acked with
  | Err err =>
    call (Metric (RecordReQueue name false));;
    mret (reQueueError, name, Some (NewRedisError OpReQueue err))
  | Ok n =>
    if (n =? 0)%Z then mret (reQueueLostRace, name, None)
    else
      added ← call (XAdd (lbsName r) 0 false (newValues entry next));
      match added with
      | Err err =>
        call (Metric (RecordAckAddGap name));;
        call (Metric (RecordReQueue name false));;
        mret (reQueueError, name, Some (NewRedisError OpReQueue err))
      | Ok _ =>
        call (XDel (lbsName r) (entry_id entry));;
        call (Metric (RecordReQueue name true));;
        mret (reQueueRequeued, name, None)
      end
  end.

Definition reQueue (idInLBS : string) : prog (reQueueOutcome * string * option error) :=
  read ← readLBSEntry idInLBS;
  match read with
  | Err err => mret (reQueueError, ε, Some err)
  | Ok None =>
    call (XAck (lbsName r) (lbsGroupName r) idInLBS);;
    mret (reQueueLostRace, ε, None)
  | Ok (Some entry) =>
    match dataStreamName entry with
    | Err _ =>
      '(out, dlqErr) ← routeToDLQ unknownDataStream entry (retryCount entry) DLQReasonUnparseable;
      mret (out, unknownDataStream, dlqErr)
    | Ok name =>
      match CreateByParts name idInLBS with
      | Err err => mret (reQueueError, name, Some (NewRedisError OpReQueue err))
      | Ok lbsInfo =>
        alive ← ownerAlive lbsInfo;
        match alive with
        | Err err => mret (reQueueError, name, Some err)
        | Ok true =>
          call (Metric (RecordMutexAliveSkip name));;
          mret (reQueueSkippedAlive, name, None)
        | Ok false =>
          let next := add64 (retryCount entry) 1 in
          if (MaxRetries (recoveryConfig r) <? next)%Z then
            '(out, dlqErr) ← routeToDLQ name entry next DLQReasonMaxRetries;
            mret (out, name, dlqErr)
          else reAdd name entry next
        end
      end
    end
  end.

(** relredis.go: Claim. *)
Definition Claim (lbsInfo : LBSInfo) : prog (option error) :=
  '(outcome, _, err) ← reQueue (IDInLBS lbsInfo);
  match err with
  | Some e => mret (Some e)
  | None =>
    if bool_decide (outcome ≠ reQueueRequeued) && bool_decide (outcome ≠ reQueueDLQ)
    then mret (Some (ESentinel ErrAlreadyClaimed))
    else mret None
  end.

(** ** What every run does *)

Abbreviation won id := (won_ack (lbsName r) (lbsGroupName r) id).

Ltac explore :=
  unfold Claim, reQueue, reAdd, routeToDLQ, readLBSEntry, ownerAlive, CreateByParts; walk ltac:(try solve [events]).

(** XACK comes first and is claimed once. In every prefix of every run of
    [reQueue], whatever Redis answers, the number of XADDs is at most the
    number of XACKs that removed this very entry, at most one such XACK is
    made, and no XADD precedes it. *)
Theorem requeue_ack_first id :
  always (reQueue id) (fun t =>
    (count is_xadd t <= count (won id) t)%nat /\ (count (won id) t <= 1)%nat /\
    preceded (won id) is_xadd t = true).
Proof. explore. Qed.

(** The name of the stream an entry's values are about, if they parse. *)
Definition named (id : string) (vs : values) : option string :=
  match dataStreamName (mkEntry id vs) with Ok name => Some name | Err _ => None end.

(** The values XRANGE returned, if it returned an entry. *)
Definition read_values (e : event) : option values :=
  let '(existT c a) := e in
  match c return resp c -> option values with
  | XRange _ _ _ => fun a => match a with Ok ((_, vs) :: _) => Some vs | _ => None end
  | _ => fun _ => None
  end a.

(** Applies when the first call of [t] read an entry that parses. *)
Definition read_named (id : string) (t : trace) (P : values -> string -> Prop) : Prop :=
  match t with
  | e :: _ =>
    match read_values e with
    | Some vs => match named id vs with Some name => P vs name | None => True end
    | None => True
    end
  | [] => True
  end.

(** C5: a live owner is never disturbed. If the entry [reQueue] reads parses to
    the stream [name], then in every prefix of every run no XACK, XADD or XDEL
    precedes an EXISTS that reported the owner's lock key absent. *)
Theorem requeue_respects_owner id :
  always (reQueue id) (fun t => read_named id t (fun _ name =>
    preceded (dead_check (FormMutexKey (mkLBSInfo name id))) is_mutation t = true)).
Proof. unfold read_named, named. explore. Qed.

(** ** Outcomes *)

(** The values of the entry [reQueue] read. *)
Definition orig (t : trace) : option values :=
  match t with e :: _ => read_values e | [] => None end.

Definition outcome_ok (id : string) (t : trace) (out : reQueueOutcome) (err : option error) : Prop :=
  match out, err with
  | reQueueRequeued, None => occurs (won id) t = true /\ occurs (added_to (lbsName r)) t = true
  | reQueueDLQ, None =>
    occurs (won id) t = true /\
    (DLQStream (recoveryConfig r) = ε \/ occurs (added_to (DLQStream (recoveryConfig r))) t = true)
  | reQueueDLQ, Some _ => occurs (won id) t = true /\ occurs (is_metric is_gap) t = true
  | reQueueSkippedAlive, None => occurs is_mutation t = false
  | reQueueLostRace, None => occurs is_xadd t = false
  | reQueueError, Some _ =>
    occurs (won id) t = true -> occurs is_xadd t = true /\ occurs (is_metric is_gap) t = true
  | _, _ => False
  end.


(** A lost race is not recorded as a failed re-queue, nor as anything else. *)
Lemma lost_race_unrecorded id :
  wp (reQueue id) (fun t res => res.1.1 = reQueueLostRace -> occurs (is_metric (fun _ => true)) t = false).
Proof.
  unfold reQueue, reAdd, routeToDLQ, readLBSEntry, ownerAlive, CreateByParts. walk ltac:(done).
Qed.

(** ** Payload and retry count *)

(** The stream and values of an XADD. *)
Definition xadd_values (e : event) : option (string * values) :=
  match projT1 e with XAdd s _ _ vs => Some (s, vs) | _ => None end.

(** The values without the two fields recovery owns. *)
Definition payload (vs : values) : values := delete DLQReasonField (delete RetryCountField vs).

Lemma payload_newValues e n : payload (newValues e n) = payload (entry_values e).
Proof. unfold payload, newValues. by rewrite cloneValues_eq, delete_insert_eq. Qed.

Lemma payload_dlqValues e n reason : payload (dlqValues e n reason) = payload (entry_values e).
Proof.
  unfold payload, dlqValues. rewrite cloneValues_eq.
  rewrite (delete_insert_ne _ RetryCountField DLQReasonField) by done.
  by rewrite !delete_insert_eq.
Qed.

(** C10: recovery never changes the task. Every XADD of every run of [reQueue]
    carries exactly the fields of the entry that was read, except
    [_retry_count] and [_dlq_reason]; and a run that read no entry makes none. *)
Theorem requeue_payload id :
  wp (reQueue id) (fun t _ => Forall (fun e =>
    match xadd_values e with
    | Some (_, vs') => payload <$> orig t = Some (payload vs')
    | None => True
    end) t).
Proof.
  unfold reQueue, reAdd, routeToDLQ, readLBSEntry, ownerAlive, CreateByParts.
  walk ltac:(intros; repeat constructor; simpl; by rewrite ?payload_newValues, ?payload_dlqValues).
Qed.

(** One re-queue: a run that read an entry with values [vs], reported re-queued,
    and added a new entry with values [vs']. *)
Definition requeues_to (vs vs' : values) : Prop :=
  exists id t name m a rep, runs (reQueue id) t (reQueueRequeued, name, None) /\
    orig t = Some vs /\ ev (XAdd (lbsName r) m a vs') rep ∈ t.

Definition retries (vs : values) : Z := retryCount (mkEntry ε vs).

Lemma requeue_next id :
  wp (reQueue id) (fun t res => res.1.1 = reQueueRequeued ->
    exists vs, orig t = Some vs /\ (add64 (retries vs) 1 <= MaxRetries (recoveryConfig r))%Z /\
    Forall (fun e => match xadd_values e with
      | Some (_, vs') => vs' = newValues (mkEntry id vs) (add64 (retries vs) 1)
      | None => True end) t).
Proof.
  unfold reQueue, reAdd, routeToDLQ, readLBSEntry, ownerAlive, CreateByParts.
  walk ltac:(try discriminate).
  all: intros; eexists; split; [done|]; split; [by apply Z.ltb_ge|]; by repeat constructor.
Qed.

Lemma requeues_to_next vs vs' :
  requeues_to vs vs' ->
  exists id, vs' = newValues (mkEntry id vs) (add64 (retries vs) 1) /\
    (add64 (retries vs) 1 <= MaxRetries (recoveryConfig r))%Z.
Proof.
  intros (id & t & name & m & a & rep & Hr & Ho & Hin).
  destruct (wp_runs _ _ _ _ (requeue_next id) Hr eq_refl) as (vs0 & Ho' & Hle & Hall).
  rewrite Ho in Ho'. injection Ho' as <-. exists id. split; [|done].
  rewrite Forall_forall in Hall. apply (Hall _ Hin).
Qed.

Lemma retries_newValues id vs n :
  (0 <= n <= max_int64)%Z -> retries (newValues (mkEntry id vs) n) = n.
Proof. intros. unfold retries, newValues. by apply retryCount_set. Qed.

Lemma requeues_to_count vs vs' :
  requeues_to vs vs' -> (retries vs < max_int64)%Z ->
  retries vs' = (retries vs + 1)%Z /\ (retries vs' <= MaxRetries (recoveryConfig r))%Z.
Proof.
  intros (id & -> & Hle)%requeues_to_next Hlt.
  pose proof (retryCount_range (mkEntry ε vs)) as Hr. fold (retries vs) in Hr.
  assert (add64 (retries vs) 1 = retries vs + 1)%Z as Ha.
  { apply add64_id. unfold in_int64, min_int64 in *. lia. }
  rewrite Ha in *. rewrite retries_newValues by lia. done.
Qed.

(** The run in which every command succeeds and the lock is gone. *)
Lemma requeues_to_intro id vs name :
  dataStreamName (mkEntry id vs) = Ok name -> id <> ε ->
  (add64 (retries vs) 1 <= MaxRetries (recoveryConfig r))%Z ->
  requeues_to vs (newValues (mkEntry id vs) (add64 (retries vs) 1)).
Proof.
  intros Hn Hid Hle. pose proof (dataStreamName_nonempty _ _ Hn) as Hne.
  exists id, [ev (XRange (lbsName r) id id) (Ok [(id, vs)]);
    ev (Exists (FormMutexKey (mkLBSInfo name id))) (Ok 0%Z);
    ev (XAck (lbsName r) (lbsGroupName r) id) (Ok 1%Z);
    ev (XAdd (lbsName r) 0 false (newValues (mkEntry id vs) (add64 (retries vs) 1))) (Ok ε);
    ev (XDel (lbsName r) id) (Ok 1%Z); ev (Metric (RecordReQueue name true)) tt], name.
  exists 0%Z, false, (Ok ε). split; [|split; [done|set_solver]].
  unfold reQueue, readLBSEntry. simpl. eexists. split; [done|]. simpl. rewrite Hn.
  unfold CreateByParts. destruct name as [|c1 name], id as [|c2 id]; try done. simpl.
  eexists. split; [done|]. simpl. change (retryCount _) with (retries vs).
  apply Z.ltb_ge in Hle as ->. unfold reAdd. simpl.
  repeat (eexists; split; [done|]; simpl). done.
Qed.


End requeue.

(** ** A concrete task *)

(** Values as after [n] re-queues. *)
Definition requeued_values (n : Z) : values :=
  <[RetryCountField := AString (Itoa n)]> (produced "s1").

Lemma demo_requeue n :
  (0 <= n <= max_int64)%Z -> (add64 n 1 <= 3)%Z ->
  requeues_to demo_client (requeued_values n) (requeued_values (add64 n 1)).
Proof.
  intros Hn Hle. assert (retries (requeued_values n) = n) as Hr by by apply retryCount_set.
  pose proof (requeues_to_intro demo_client "1-0" (requeued_values n) "s1") as H.
  rewrite Hr in H. unfold newValues in H. rewrite cloneValues_eq in H. simpl in H.
  unfold requeued_values in H at 3. rewrite insert_insert_eq in H. apply H; [|done|done].
  unfold requeued_values. rewrite (dataStreamName_set _ "1-0") by done.
  by apply dataStreamName_produced.
Qed.


(** The retry limit is bypassed at the integer's edge. An entry that
    carries the largest 64-bit integer as its [_retry_count] is re-queued,
    because the incremented count wraps around below [MaxRetries], and the new
    entry counts as never retried. *)
Theorem requeue_retry_overflow :
  exists vs', requeues_to demo_client (requeued_values max_int64) vs' /\
    retries (requeued_values max_int64) = max_int64 /\ retries vs' = 0%Z.
Proof.
  exists (requeued_values (add64 max_int64 1)). split_and!; [|reflexivity..].
  apply demo_requeue; done.
Qed.
