(* ===== verification/Streams.v ===== *)
(** * The life of a data stream in a client

    impl/init.go: [processLBSMessages] (a message read from the load-balancer
    stream becomes a locked, tracked stream and a StreamAdded notification) and
    [startExtendingKey] (the heartbeat that keeps its lock); impl/relredis.go:
    [DoneStream] and [Done]; impl/helpers.go: the lock map and [cleanup].

    The heartbeat goroutine loops until it decides to stop, so its model takes
    the number of iterations it is observed for; [None] means it is still
    running after that many. *)

From Stdlib Require Import ZArith String Lia.
From stdpp Require Import base gmap strings list.
From S2P Require Import Prelude GoStrings Json Configs Errs Notifs Effects LbsEntry Options.

#[local] Open Scope string_scope.
#[local] Open Scope list_scope.

#[local] Arguments Z.quot : simpl never.

Section streams.
Context (r : Client).

(** ** helpers.go: the lock map *)

Definition popStreamLocksInfo (name : string) : prog (result StreamLocksInfo) :=
  o ← call (LocksPop name);
  match o with
  | None => mret (Err (ESentinel ErrDataStreamNotFound))
  | Some info => mret (Ok info)
  end.

Definition isStreamProcessingDone (name : string) : prog bool :=
  o ← call (LocksGet name);
  mret (match o with None => true | Some _ => false end).

Definition isContextDone : prog bool := call CtxDone.

(** ** init.go: processLBSMessages *)

(** The checks on one message, up to a message with a stream name. *)
Definition parse_message (vs : values) : result LBSInputMessage :=
  match vs !! LBSInput with
  | None => Err (ESentinel ErrInvalidKeyForLBSMessage)
  | Some (AString val) =>
    match Unmarshal val with
    | None => Err (NewRedisError OpUnmarshalLBSMessage (EJson val))
    | Some msg =>
      if String.eqb (DataStreamName msg) ε then Err (ESentinel ErrNoDatastreamInLBSMessage)
      else Ok msg
    end
  | Some _ => Err (ESentinel ErrInvalidLBSMessage)
  end.

(** [rs.NewMutex] with the client's options. *)
Definition newMutex (info : LBSInfo) : Mutex :=
  mkMutex (FormMutexKey info) (hbInterval r) true (10 * Millisecond) true (consumerID r).

Definition process_message (m : string * values) : prog (option error) :=
  let '(id, vs) := m in
  match parse_message vs with
  | Err e => mret (Some e)
  | Ok msg =>
    match CreateByParts (DataStreamName msg) id with
    | Err e => mret (Some e)
    | Ok lbsInfo =>
      let mutex := newMutex lbsInfo in
      locked ← call (MutexLock mutex);
      match locked with
      | Some e =>
        call (Metric (RecordLockAcquisitionAttempt (DataStreamName msg) false));;
        mret (Some (NewMutexError OpLockMutex (Some e)))
      | None =>
        call (Metric (RecordLockAcquisitionAttempt (DataStreamName msg) true));;
        call (LocksPut (info_DataStreamName lbsInfo) (mkStreamLocksInfo lbsInfo mutex (Info msg)));;
        call (BrokerSend (Make StreamAdded lbsInfo (Info msg)));;
        call (Metric (RecordStreamProcessingStart (info_DataStreamName lbsInfo)));;
        call (GoExtend mutex lbsInfo (Info msg));;
        mret None
      end
    end
  end.

(** The messages of one stream, then the streams; the first error stops. *)
Fixpoint process_messages (ms : list (string * values)) : prog (option error) :=
  match ms with
  | [] => mret None
  | m :: ms' =>
    err ← process_message m;
    match err with
    | Some e => mret (Some e)
    | None => process_messages ms'
    end
  end.

Fixpoint processLBSMessages (streams : list (string * list (string * values))) : prog (option error) :=
  match streams with
  | [] => mret None
  | (_, ms) :: streams' =>
    err ← process_messages ms;
    match err with
    | Some e => mret (Some e)
    | None => processLBSMessages streams'
    end
  end.

(** ** init.go: startExtendingKey *)

(** One iteration: [None] to go on, or whether the extension failed and what
    is returned. *)
Definition extend_iteration (m : Mutex) (info : LBSInfo) : prog (option (bool * option error)) :=
  ctx ← isContextDone;
  if (ctx : bool) then mret (Some (false, None))
  else
    done ← isStreamProcessingDone (info_DataStreamName info);
    if (done : bool) then mret (Some (false, None))
    else
      '(ok, err) ← call (MutexExtend m);
      if negb ok || (match err with Some _ => true | None => false end) then
        call (Metric (RecordLockExtensionAttempt (info_DataStreamName info) false));;
        mret (Some (true, Some (NewMutexError OpExtendMutex err)))
      else
        call (Metric (RecordLockExtensionAttempt (info_DataStreamName info) true));;
        call (Sleep (Z.quot (hbInterval r) 2));;
        mret None.

(** The deferred function. *)
Definition extend_defer (failed : bool) (info : LBSInfo) (extra : option (gmap string any)) : prog unit :=
  (if failed then call (BrokerSend (Make StreamDisowned info extra));; mret tt else mret tt);;
  done ← isStreamProcessingDone (info_DataStreamName info);
  if (done : bool) then mret tt
  else popStreamLocksInfo (info_DataStreamName info);; mret tt.

Fixpoint startExtendingKey (iterations : nat) (m : Mutex) (info : LBSInfo)
    (extra : option (gmap string any)) : prog (option (option error)) :=
  match iterations with
  | O => mret None
  | S n =>
    o ← extend_iteration m info;
    match o with
    | None => startExtendingKey n m info extra
    | Some (failed, res) => extend_defer failed info extra;; mret (Some res)
    end
  end.

(** ** relredis.go: DoneStream and Done *)

Definition DoneStream (name : string) : prog (option error) :=
  popped ← popStreamLocksInfo name;
  match popped with
  | Err err => mret (Some err)
  | Ok info =>
    let id := IDInLBS (lock_LBSInfo info) in
    acked ← call (XAck (lbsName r) (lbsGroupName r) id);
    match acked with
    | Err err => mret (Some (NewRedisError OpAckStream err))
    | Ok _ =>
      deleted ← call (XDel (lbsName r) id);
      match deleted with
      | Err err => mret (Some (NewRedisError OpDelStream err))
      | Ok _ =>
        '(_, err) ← call (MutexUnlock (RedsyncMutex info));
        match err with
        | Some e =>
          if errors_Is_opt (Unwrap e) ErrLockAlreadyExpired then
            call (Metric (RecordLockReleaseAttempt name true));;
            call (Metric (RecordStreamProcessingEnd name));; mret None
          else
            call (Metric (RecordLockReleaseAttempt name false));;
            mret (Some (NewMutexError OpUnlockMutex (Some e)))
        | None =>
          call (Metric (RecordLockReleaseAttempt name true));;
          call (Metric (RecordStreamProcessingEnd name));; mret None
        end
      end
    end
  end.

Fixpoint done_all (names : list string) : prog (option error) :=
  match names with
  | [] => mret None
  | n :: names' =>
    err ← DoneStream n;
    match err with
    | Some e => mret (Some e)
    | None => done_all names'
    end
  end.

(** oss.go: closeAll; errors are logged. *)
Fixpoint close_each (l : list nat) : prog unit :=
  match l with
  | [] => mret tt
  | ps :: l' => call (PubSubClose ps);; close_each l'
  end.

Definition closeAll : prog unit := l ← call OssTakeAll; close_each l.

(** helpers.go: cleanup. *)
Definition cleanup : prog (option error) :=
  call KspDrain;;
  call BrokerClose;;
  call CancelLBS;;
  ps ← call GetPubSub;
  match ps with
  | Some p =>
    err ← call (PubSubClose p);
    match err with
    | Some e => mret (Some (NewRedisError OpClosePubSub e))
    | None => closeAll;; mret None
    end
  | None => closeAll;; mret None
  end.

Definition Done : prog (option error) :=
  names ← call LocksNames;
  err ← done_all names;
  match err with
  | Some e => mret (Some e)
  | None => cleanup
  end.

(** ** DoneStream: properties *)

(** The lock information the first call took out of the map. *)
Definition popped (t : trace) : option StreamLocksInfo :=
  match t with
  | existT c a :: _ =>
    match c return resp c -> option StreamLocksInfo with LocksPop _ => fun a => a | _ => fun _ => None end a
  | [] => None
  end.

(** XACK of the entry without an error (whether or not it was pending). *)
Definition acked (id : string) (e : event) : bool :=
  let '(existT c a) := e in
  match c return resp c -> bool with
  | XAck s g i => fun a => bool_decide (s = lbsName r) && bool_decide (g = lbsGroupName r) &&
                           bool_decide (i = id) && is_ok a
  | _ => fun _ => false
  end a.

(** XDEL of the entry without an error. *)
Definition deleted (id : string) (e : event) : bool :=
  let '(existT c a) := e in
  match c return resp c -> bool with
  | XDel s i => fun a => bool_decide (s = lbsName r) && bool_decide (i = id) && is_ok a
  | _ => fun _ => false
  end a.

Definition is_unlock (e : event) : bool := match projT1 e with MutexUnlock _ => true | _ => false end.
Definition is_xdel (e : event) : bool := match projT1 e with XDel _ _ => true | _ => false end.

(** UNLOCK that succeeded or found the lock already expired. *)
Definition released (e : event) : bool :=
  let '(existT c a) := e in
  match c return resp c -> bool with
  | MutexUnlock _ => fun a =>
    match a.2 with Some err => errors_Is_opt (Unwrap err) ErrLockAlreadyExpired | None => true end
  | _ => fun _ => false
  end a.

(** A call to Redis or to the lock service. *)
Definition is_remote (e : event) : bool :=
  match projT1 e with
  | XAck _ _ _ | XAdd _ _ _ _ | XDel _ _ | MutexUnlock _ | MutexExtend _ | MutexLock _ | Exists _ => true
  | _ => false
  end.

Ltac finish := unfold occurs, popped in *; simpl; rewrite ?bool_decide_true by done; simpl; repeat case_match; simplify_eq/=; try done.

(** C7: the lock outlives the entry. In every prefix of every run of
    [DoneStream], the lock is not released before an XACK of the tracked entry
    succeeded and an XDEL of it succeeded, in this order; so the entry is no
    longer pending when its lock key disappears. *)
Theorem done_stream_order name :
  always (DoneStream name) (fun t =>
    match popped t with
    | Some info =>
      let id := IDInLBS (lock_LBSInfo info) in
      preceded (acked id) is_xdel t = true /\ preceded (acked id) is_unlock t = true /\
      preceded (deleted id) is_unlock t = true
    | None => occurs is_remote t = false
    end).
Proof. unfold DoneStream, popStreamLocksInfo. walk ltac:(try solve [finish]). Qed.

(** What [DoneStream] reports. It returns nil exactly when the stream was
    tracked, its entry was acknowledged and deleted, and its lock was released
    or had already expired; for an untracked stream it returns
    [ErrDataStreamNotFound] and calls no server. *)
Theorem done_stream_result name :
  wp (DoneStream name) (fun t res =>
    match popped t with
    | None => res = Some (ESentinel ErrDataStreamNotFound) /\ occurs is_remote t = false
    | Some info =>
      let id := IDInLBS (lock_LBSInfo info) in
      res = None <->
        occurs (acked id) t = true /\ occurs (deleted id) t = true /\ occurs released t = true
    end).
Proof.
  unfold DoneStream, popStreamLocksInfo. walk ltac:(try solve [finish]).
  all: finish; unfold errors_Is_opt in *; split; intros; destruct_and?; simplify_eq/=; try done.
Qed.

(** ** Done: properties *)

(** A call that shuts the client down. *)
Definition is_teardown (e : event) : bool :=
  match projT1 e with KspDrain | BrokerClose | CancelLBS | PubSubClose _ | OssTakeAll => true | _ => false end.

Lemma DoneStream_no_teardown name : wp (DoneStream name) (fun t _ => occurs is_teardown t = false).
Proof. unfold DoneStream, popStreamLocksInfo. walk ltac:(done). Qed.

(** A run of [DoneStream] over a list of streams: those finished, and the one
    that failed, if any. *)
Definition finished (names : list string) (t : trace) (res : option error) : Prop :=
  exists done rest ts t2, names = done ++ rest /\ t = concat ts ++ t2 /\
    Forall2 (fun n t => runs (DoneStream n) t None) done ts /\
    match rest with
    | [] => t2 = [] /\ res = None
    | n :: _ => exists e, res = Some e /\ runs (DoneStream n) t2 (Some e)
    end.

Lemma done_all_finished names : forall t res, runs (done_all names) t res -> finished names t res.
Proof.
  induction names as [|n names IH]; intros t res Hr.
  - exists [], [], [], []. simpl in Hr. destruct t; [|done]. by subst.
  - apply runs_bind_inv in Hr as (t1 & t2 & [e|] & -> & H1 & H2).
    + destruct t2; [|done]. simpl in H2. subst res. exists [], (n :: names), [], t1. rewrite app_nil_r. eauto 10.
    + destruct (IH _ _ H2) as (done & rest & ts & t3 & -> & -> & Hts & Hrest).
      exists (n :: done), rest, (t1 :: ts), t3. simpl. rewrite <-app_assoc. split_and!; [done..|by constructor|done].
Qed.

Lemma finished_no_teardown names t res : finished names t res -> occurs is_teardown t = false.
Proof.
  intros (done & rest & ts & t2 & -> & -> & Hts & Hrest).
  assert (forall n t o, runs (DoneStream n) t o -> occurs is_teardown t = false) as Hone
    by (intros n t o Hr; apply (wp_runs _ _ _ _ (DoneStream_no_teardown n) Hr)).
  unfold occurs in *. rewrite existsb_app. apply orb_false_iff. split.
  - induction Hts as [|n t done' ts' Hn _ IH]; simpl; [done|]. rewrite existsb_app, (Hone _ _ _ Hn). exact IH.
  - destruct rest; [by destruct Hrest as [-> _]|]. destruct Hrest as (e & _ & Hr). by eapply Hone.
Qed.

Lemma cleanup_ok : wp cleanup (fun t2 _ => exists t3,
  t2 = ev KspDrain tt :: ev BrokerClose tt :: ev CancelLBS tt :: t3 /\
  forallb (fun e => negb (is_mutation e) && negb (is_unlock e)) t3 = true).
Proof.
  assert (forall l, wp (close_each l) (fun t _ => forallb (fun e => negb (is_mutation e) && negb (is_unlock e)) t = true)) as Hc.
  { induction l as [|ps l IH]; [done|]. intros err. eapply wp_mono; [|exact IH]. done. }
  assert (wp (closeAll;; mret None) (fun t (_ : option error) =>
    forallb (fun e => negb (is_mutation e) && negb (is_unlock e)) t = true)) as Ha.
  { intros l. refine (proj2 (wp_bind _ _ _) _). eapply wp_mono; [|apply Hc]. intros t [] Ht. simpl. by rewrite app_nil_r. }
  intros [] [] [] [p|].
  - intros [e|]; [by eexists|]. eapply wp_mono; [|exact Ha]. intros t a Ht. by eexists.
  - eapply wp_mono; [|exact Ha]. intros t a Ht. by eexists.
Qed.

(** C15: [Done] releases the client only after every stream is finished. Every
    run of [Done] finishes the tracked streams one by one with [DoneStream]; if
    one fails, [Done] returns its error, the streams after it are not touched,
    and nothing is torn down; otherwise the rest of the run is that of
    [cleanup], which drains the expiry channel, closes the broker, cancels the
    reader and then closes the subscriptions. *)
Theorem done_all_or_nothing :
  wp Done (fun t res => exists names t1 t2 err,
    t = ev LocksNames names :: t1 ++ t2 /\ finished names t1 err /\ occurs is_teardown t1 = false /\
    match err with
    | Some e => res = Some e /\ t2 = []
    | None => runs cleanup t2 res /\
        exists t3, t2 = ev KspDrain tt :: ev BrokerClose tt :: ev CancelLBS tt :: t3 /\
          forallb (fun e => negb (is_mutation e) && negb (is_unlock e)) t3 = true
    end).
Proof.
  eapply wp_mono; [|apply wp_self]. intros t res Hr. destruct t as [|e t]; [done|].
  destruct Hr as (names & -> & Hr).
  apply (runs_bind_inv (done_all names) (fun err => match err with Some e => mret (Some e) | None => cleanup end)) in Hr as (t1 & t2 & err & -> & H1 & H2).
  apply done_all_finished in H1 as Hf. exists names, t1, t2, err.
  split; [done|]. split; [done|]. split; [by eapply finished_no_teardown|].
  destruct err as [e|]; [destruct t2; [|done]; simpl in H2; by subst|]. split; [done|].
  exact (wp_runs cleanup _ t2 res cleanup_ok H2).
Qed.

(** ** Messages: properties *)

(** The reader and the recoverer agree on what an entry says. The checks
    [processLBSMessages] makes and [lbsEntry.dataStreamName] accept the same
    values, find the same stream name in them, and reject the rest with the
    same error; so a poison message is poison for both. *)
Theorem parse_message_agrees id vs :
  dataStreamName (mkEntry id vs) =
  match parse_message vs with Ok msg => Ok (DataStreamName msg) | Err e => Err e end.
Proof. unfold parse_message, dataStreamName. simpl. by repeat case_match. Qed.

(** The notification an event sends. *)
Definition sent (e : event) : option RecoverableRedisNotification :=
  match projT1 e with BrokerSend n => Some n | _ => None end.

(** A lock acquired by an event. *)
Definition locks (e : event) : list string :=
  let '(existT c a) := e in
  match c return resp c -> list string with
  | MutexLock m => fun a => match a with None => [mutex_name m] | Some _ => [] end
  | _ => fun _ => []
  end a.

(** The lock key an event relies on: tracking, announcing or extending. *)
Definition needs (e : event) : option string :=
  match projT1 e with
  | LocksPut _ info => Some (mutex_name (RedsyncMutex info))
  | BrokerSend n => Some (FormMutexKey (Payload n))
  | GoExtend m _ _ => Some (mutex_name m)
  | _ => None
  end.

(** Every event that relies on a lock key comes after the key was locked. *)
Fixpoint guarded (held : list string) (t : trace) : bool :=
  match t with
  | [] => true
  | e :: t' =>
    match needs e with Some k => bool_decide (k ∈ held) | None => true end &&
    guarded (locks e ++ held) t'
  end.

Lemma guarded_mono held held' t : held ⊆ held' -> guarded held t = true -> guarded held' t = true.
Proof.
  revert held held'. induction t as [|e t IH]; intros held held' Hs; simpl; [done|].
  intros [Hn Hg]%andb_true_iff. apply andb_true_iff. split.
  - destruct (needs e); [|done]. apply bool_decide_eq_true in Hn. apply bool_decide_eq_true. auto.
  - eapply IH; [|done]. by apply list_subseteq_app_iff_r || set_solver.
Qed.

Lemma guarded_app held t1 t2 :
  guarded held t1 = true -> guarded [] t2 = true -> guarded held (t1 ++ t2) = true.
Proof.
  revert held. induction t1 as [|e t1 IH]; intros held; simpl.
  - intros _. apply guarded_mono. set_solver.
  - intros [Hn Hg]%andb_true_iff H2. apply andb_true_iff. auto.
Qed.

Lemma always_guarded_bind {A B} (p : prog A) (f : A -> prog B) :
  always p (fun t => guarded [] t = true) ->
  (forall a, always (f a) (fun t => guarded [] t = true)) ->
  always (p ≫= f) (fun t => guarded [] t = true).
Proof.
  intros Hp Hf. apply always_bind; [done|].
  eapply wp_mono; [|apply (always_wp _ _ Hp)]. intros t a Ht.
  eapply always_mono; [|apply Hf]. intros t' Ht'. by apply guarded_app.
Qed.

Lemma process_message_guarded m : always (process_message m) (fun t => guarded [] t = true).
Proof.
  destruct m as [id vs]. unfold process_message, CreateByParts.
  walk ltac:(simpl; rewrite ?bool_decide_true by set_solver; done).
Qed.

(** C12: a stream is announced only while locked. In every prefix of every run
    of [processLBSMessages], a stream is tracked, announced with StreamAdded
    and given a heartbeat only after this run locked the key of that entry. *)
Theorem process_locks_first streams :
  always (processLBSMessages streams) (fun t => guarded [] t = true).
Proof.
  induction streams as [|[s ms] streams IH]; simpl; [done|].
  apply always_guarded_bind; [|by intros [e|]].
  induction ms as [|m ms IHm]; simpl; [done|].
  apply always_guarded_bind; [apply process_message_guarded|by intros [e|]].
Qed.

(** The calls made while processing messages; notifications are StreamAdded. *)
Definition is_processing (e : event) : bool :=
  match projT1 e with
  | MutexLock _ | LocksPut _ _ | GoExtend _ _ _ | Metric _ => true
  | BrokerSend n => bool_decide (Type_ n = StreamAdded)
  | _ => false
  end.

Lemma processing_seq (p q : prog (option error)) :
  wp p (fun t _ => forallb is_processing t = true) -> wp q (fun t _ => forallb is_processing t = true) ->
  wp (err ← p; match err with Some e => mret (Some e) | None => q end)
    (fun t _ => forallb is_processing t = true).
Proof.
  intros Hp Hq. apply wp_bind. eapply wp_mono; [|exact Hp]. intros t [e|] Ht; simpl.
  - by rewrite app_nil_r.
  - eapply wp_mono; [|exact Hq]. intros t' ? Ht'. by rewrite forallb_app, Ht, Ht'.
Qed.

Lemma processLBSMessages_calls streams :
  wp (processLBSMessages streams) (fun t _ => forallb is_processing t = true).
Proof.
  induction streams as [|[s ms] streams IH]; [done|]. apply processing_seq; [|done].
  induction ms as [|[id vs] ms IHm]; [done|]. apply processing_seq; [|done].
  unfold process_message, CreateByParts. walk ltac:(done).
Qed.

(** The entries announced in a trace. *)
Definition announced (t : trace) : list (NotificationType * LBSInfo) :=
  omap (fun e => (fun n => (Type_ n, Payload n)) <$> sent e) t.

(** The announcements due for messages that parse. *)
Definition due (ms : list (string * values)) : list (NotificationType * LBSInfo) :=
  omap (fun '(id, vs) => match parse_message vs with
    | Ok msg => Some (StreamAdded, mkLBSInfo (DataStreamName msg) id) | Err _ => None end) ms.

(** The outcome of processing [ms]: [None] when everything due was announced,
    an error when a message failed and exactly those before it were. *)
Definition processed (ms : list (string * values)) (t : trace) (res : option error) : Prop :=
  match res with
  | None => announced t = due ms /\ length (due ms) = length ms
  | Some _ => exists ms1 m ms2, ms = ms1 ++ m :: ms2 /\ announced t = due ms1 /\
      length (due ms1) = length ms1
  end.

Lemma announced_app t1 t2 : announced (t1 ++ t2) = announced t1 ++ announced t2.
Proof. apply omap_app. Qed.

Lemma due_app l1 l2 : due (l1 ++ l2) = due l1 ++ due l2.
Proof. apply omap_app. Qed.

Lemma process_message_processed m : wp (process_message m) (processed [m]).
Proof.
  destruct m as [id vs]. unfold process_message, CreateByParts.
  walk ltac:(unfold processed, due; simpl;
    repeat match goal with H : parse_message _ = _ |- _ => rewrite H end; simpl;
    first [by exists [], (id, vs), [] | done]).
Qed.

(** Sequencing: the second part runs if the first succeeded. *)
Lemma processed_seq (p : prog (option error)) (q : prog (option error)) l1 l2 :
  wp p (processed l1) -> wp q (processed l2) ->
  wp (err ← p; match err with Some e => mret (Some e) | None => q end) (processed (l1 ++ l2)).
Proof.
  intros Hp Hq. apply wp_bind. eapply wp_mono; [|exact Hp]. intros t [e|]; simpl.
  - intros (ms1 & m & ms2 & -> & Ha & Hl). rewrite app_nil_r.
    exists ms1, m, (ms2 ++ l2). by rewrite <-app_assoc.
  - intros [Ha Hl]. eapply wp_mono; [|exact Hq]. intros t' [e|]; simpl.
    + intros (ms1 & m & ms2 & -> & Ha' & Hl'). exists (l1 ++ ms1), m, ms2.
      rewrite announced_app, due_app, !length_app, Ha, Ha', Hl, Hl', <-app_assoc. done.
    + intros [Ha' Hl']. by rewrite announced_app, due_app, !length_app, Ha, Ha', Hl, Hl'.
Qed.

Lemma process_messages_processed ms : wp (process_messages ms) (processed ms).
Proof.
  induction ms as [|m ms IH]; [done|]. apply (processed_seq _ _ [m]); [apply process_message_processed|done].
Qed.

(** C13: every message delivered is announced once and in order. A run of
    [processLBSMessages] that returns nil has sent exactly one StreamAdded per
    message, with the message's stream name and ID, in delivery order; one that
    returns an error has done so for exactly the messages before the one that
    failed, and has sent nothing after it. *)
Theorem process_announces streams :
  wp (processLBSMessages streams) (processed (concat streams.*2)).
Proof.
  induction streams as [|[s ms] streams IH]; [done|].
  apply (processed_seq _ _ ms); [apply process_messages_processed|done].
Qed.

(** ** The heartbeat: properties *)

(** A successful extension of the lock. *)
Definition extended (m : Mutex) (e : event) : bool :=
  let '(existT c a) := e in
  match c return resp c -> bool with
  | MutexExtend m' => fun a =>
    bool_decide (mutex_name m' = mutex_name m) && a.1 && match a.2 with None => true | Some _ => false end
  | _ => fun _ => false
  end a.

Definition is_extend (e : event) : bool := match projT1 e with MutexExtend _ => true | _ => false end.

(** Any pause is half the expiry the client's locks are created with. *)
Definition pause_ok (e : event) : bool :=
  match projT1 e with Sleep d => bool_decide (d = Z.quot (hbInterval r) 2) | _ => true end.

(** What a heartbeat observed for [n] iterations has done. *)
Definition heartbeat_ok (n : nat) (m : Mutex) (info : LBSInfo) (extra : option (gmap string any))
    (t : trace) (res : option (option error)) : Prop :=
  forallb pause_ok t = true /\
  match res with
  | None => count (extended m) t = n /\ count is_extend t = n /\ omap sent t = []
  | Some None => count (extended m) t = count is_extend t /\ omap sent t = []
  | Some (Some e) => count is_extend t = S (count (extended m) t) /\
      omap sent t = [Make StreamDisowned info extra]
  end.

Lemma heartbeat_cons n m info extra t1 t res :
  forallb pause_ok t1 = true -> count (extended m) t1 = 1%nat -> count is_extend t1 = 1%nat ->
  omap sent t1 = [] ->
  heartbeat_ok n m info extra t res -> heartbeat_ok (S n) m info extra (t1 ++ t) res.
Proof.
  intros H1 H2 H3 H4 [Hp H]. split; [rewrite forallb_app, H1; done|].
  rewrite !count_app, omap_app, H2, H3, H4. destruct res as [[e|]|]; simpl; naive_solver.
Qed.

(** One iteration: it extends the lock and goes on, or says why it stops. *)
Lemma extend_iteration_ok m info :
  wp (extend_iteration m info) (fun t o =>
    forallb pause_ok t = true /\ omap sent t = [] /\
    match o with
    | None => count (extended m) t = 1%nat /\ count is_extend t = 1%nat
    | Some (false, res) => res = None /\ count (extended m) t = 0%nat /\ count is_extend t = 0%nat
    | Some (true, res) => is_Some res /\ count (extended m) t = 0%nat /\ count is_extend t = 1%nat
    end).
Proof.
  unfold extend_iteration, isContextDone, isStreamProcessingDone.
  walk ltac:(intros; unfold pause_ok; simpl; rewrite ?bool_decide_true by done; simpl).
  all: repeat match goal with x : option error |- _ => destruct x | x : bool |- _ => destruct x end;
    simpl in *; simplify_eq; eauto 10.
Qed.

Lemma extend_defer_ok m failed info extra :
  wp (extend_defer failed info extra) (fun t _ =>
    forallb pause_ok t = true /\ count (extended m) t = 0%nat /\ count is_extend t = 0%nat /\
    omap sent t = if failed then [Make StreamDisowned info extra] else []).
Proof.
  unfold extend_defer, popStreamLocksInfo, isStreamProcessingDone. walk ltac:(by intros).
Qed.

(** C14: the heartbeat disowns exactly when the lock is lost. Observed for [n]
    iterations, the extender has slept only half the lock's expiry between
    extensions; while it runs, every iteration extended the lock; it stops
    without an error, and without a notification, only with every extension
    successful; and it stops with an error exactly after one failed extension,
    having sent exactly one StreamDisowned, for its entry. *)
Theorem heartbeat_disowns n m info extra :
  wp (startExtendingKey n m info extra) (heartbeat_ok n m info extra).
Proof.
  induction n as [|n IH]; [done|]. refine (proj2 (wp_bind _ _ _) _).
  eapply wp_mono; [|apply extend_iteration_ok]. intros t1 [[failed res]|] (Hp & Hs & H).
  - refine (proj2 (wp_bind _ _ _) _). eapply wp_mono; [|apply (extend_defer_ok m)].
    intros t2 [] (Hp2 & He2 & Hx2 & Hs2). simpl. rewrite app_nil_r. split; [by rewrite forallb_app, Hp, Hp2|].
    rewrite !count_app, omap_app, He2, Hx2, Hs, Hs2. destruct failed; destruct H as (Hres & -> & ->).
    + by destruct Hres as [e ->].
    + by subst.
  - destruct H as [He Hx]. eapply wp_mono; [|exact IH]. intros t2 res2. by apply heartbeat_cons.
Qed.
End streams.
