(* ===== verification/Reader.v ===== *)
(** * impl/init.go: the goroutines that feed the client

    [readLBSStream] reads the load-balancer stream, retrying with exponential
    backoff, and hands what it reads to [processLBSMessages]; [listenKsp] turns
    lock expiries into StreamExpired notifications. Both loop until they decide
    to return, so they are observed for a number of iterations. *)

From Stdlib Require Import ZArith String Lia.
From stdpp Require Import base gmap strings list.
From S2P Require Import Prelude GoStrings Json Configs Errs Notifs Effects LbsEntry Options Streams.

#[local] Open Scope string_scope.
#[local] Open Scope list_scope.
#[local] Open Scope Z_scope.

(** Where a goroutine is after the iterations it is observed for. *)
Inductive status := Running | Returned | Panicked.

#[export] Instance status_eq_dec : EqDecision status.
Proof. solve_decision. Defined.

Section reader.
Context `{JsonText} (r : Client).

(** ** readLBSStream *)

Definition next_delay (current : Z) : Z :=
  let d := mul64 current 2 in
  if maxRetryDelay r <? d then maxRetryDelay r else d.

Definition terminate (info : string) : prog status :=
  call (BrokerSend (MakeStreamTerminatedNotif info));; mret Returned.

Fixpoint readLBSStream_loop (iterations : nat) (consecutiveErrors currentRetryDelay : Z) : prog status :=
  match iterations with
  | O => mret Running
  | S n =>
    ctx ← isContextDone;
    if (ctx : bool) then terminate "context done"
    else
      res ← call (XReadGroup (lbsGroupName r) (consumerID r) (lbsName r) PendingMsgID 0);
      match res with
      | Err err =>
        if errors_Is err ContextCanceled then terminate ContextCanceled_Error
        else
          let errors := add64 consecutiveErrors 1 in
          if (0 <=? maxRetries r) && (maxRetries r <? errors) then terminate (Error err)
          else
            done ← call (SleepOrDone currentRetryDelay);
            if (done : bool) then terminate ContextCanceled_Error
            else readLBSStream_loop n errors (next_delay currentRetryDelay)
      | Ok streams =>
        let '(errors, delay) :=
          if 0 <? consecutiveErrors then (0, initialRetryDelay r)
          else (consecutiveErrors, currentRetryDelay) in
        err ← processLBSMessages r streams;
        match err with
        | Some e => terminate (Error e)
        | None => readLBSStream_loop n errors delay
        end
      end
  end.

Definition readLBSStream (iterations : nat) : prog status :=
  readLBSStream_loop iterations 0 (initialRetryDelay r).

(** ** listenKsp *)

Fixpoint listenKsp (iterations : nat) : prog status :=
  match iterations with
  | O => mret Running
  | S n =>
    o ← call KspRecv;
    match o with
    | None => mret Returned
    | Some None => listenKsp n
    | Some (Some (channel, payload)) =>
      match extractStreamnameFromKspChannel channel with
      | Err _ => listenKsp n
      | Ok streamName =>
        call (Metric (RecordKspNotification streamName));;
        match CreateByKspNotification streamName payload with
        | Err _ => listenKsp n
        | Ok lbsInfo =>
          lock ← call (LocksGet (info_DataStreamName lbsInfo));
          let additionalInfo := match lock with Some l => lock_AdditionalInfo l | None => None end in
          call (BrokerSend (Make StreamExpired lbsInfo additionalInfo));;
          listenKsp n
        end
      end
    end
  end.

(** ** Termination notice *)

Definition is_terminated (e : event) : bool :=
  match sent e with Some n => bool_decide (Type_ n = StreamTerminated) | None => false end.

Lemma processing_quiet t : forallb is_processing t = true -> count is_terminated t = 0%nat.
Proof.
  induction t as [|[c a] t IH]; simpl; [done|]. intros [Hc Ht]%andb_true_iff. rewrite IH by done.
  unfold is_terminated, sent, is_processing in *. simpl in *. destruct c; try done.
  apply bool_decide_eq_true in Hc. by rewrite Hc.
Qed.

(** Terminated is the last event and the only such event, or there is none. *)
Definition closing (t : trace) (res : status) : Prop :=
  match res with
  | Running => count is_terminated t = 0%nat
  | Returned => exists t' e, t = t' ++ [e] /\ is_terminated e = true /\ count is_terminated t' = 0%nat
  | Panicked => False
  end.

Lemma closing_app t1 t res : count is_terminated t1 = 0%nat -> closing t res -> closing (t1 ++ t) res.
Proof.
  intros H1. destruct res; simpl; [by rewrite count_app, H1| |done].
  intros (t' & e & -> & He & Ht). exists (t1 ++ t'), e. by rewrite app_assoc, count_app, H1, Ht.
Qed.

Lemma closing_terminate info : wp (terminate info) closing.
Proof. simpl. intros b. exists [], (ev (BrokerSend (MakeStreamTerminatedNotif info)) b). done. Qed.


(** ** Backoff and giving up *)

(** Did a read fail? [None] for other events. *)
Definition read_failed (e : event) : option bool :=
  let '(existT c a) := e in
  match c return resp c -> option bool with
  | XReadGroup _ _ _ _ _ => fun a => Some (negb (is_ok a))
  | _ => fun _ => None
  end a.

Definition is_read (e : event) : bool := match read_failed e with Some _ => true | None => false end.

(** Consecutive failed reads after an event, given those before it. *)
Definition bump (k : nat) (e : event) : nat :=
  match read_failed e with Some true => S k | Some false => 0 | None => k end.

(** ... at the end of a trace, and at worst within it. *)
Fixpoint failing (k : nat) (t : trace) : nat :=
  match t with [] => k | e :: t' => failing (bump k e) t' end.
Fixpoint worst (k : nat) (t : trace) : nat :=
  match t with [] => k | e :: t' => Nat.max k (worst (bump k e) t') end.

(** The pause due after [k + 1] consecutive failed reads. *)
Definition backoff (k : nat) : Z := Z.min (initialRetryDelay r * 2 ^ Z.of_nat k) (maxRetryDelay r).

(** Every pause of a trace is the one due. *)
Fixpoint paced (k : nat) (t : trace) : bool :=
  match t with
  | [] => true
  | e :: t' =>
    match projT1 e with SleepOrDone d => bool_decide (d = backoff (pred k)) | _ => true end &&
    paced (bump k e) t'
  end.

(** A valid configuration, with delays that can be doubled in 64 bits. *)
Definition retry_ok : Prop := RetryConfig_Validate (retry_of r) = None /\ maxRetryDelay r < 2 ^ 62.

Lemma retry_ok_bounds :
  retry_ok -> -1 <= maxRetries r /\ 0 < initialRetryDelay r <= maxRetryDelay r /\ maxRetryDelay r < 2 ^ 62.
Proof.
  intros [Hv Hm]. unfold RetryConfig_Validate, retry_of in Hv. simpl in Hv.
  repeat case_match; simplify_eq. zbool; done || lia.
Qed.

Lemma backoff_0 : retry_ok -> backoff 0 = initialRetryDelay r.
Proof. intros H1%retry_ok_bounds. unfold backoff. simpl. lia. Qed.

(** Doubling with a cap is the capped power of two. *)
Lemma next_delay_backoff k : retry_ok -> next_delay (backoff k) = backoff (S k).
Proof.
  intros H1%retry_ok_bounds. unfold next_delay, backoff.
  assert (0 < 2 ^ Z.of_nat k) by (apply Z.pow_pos_nonneg; lia).
  rewrite Nat2Z.inj_succ, Z.pow_succ_r by lia. set (p := 2 ^ Z.of_nat k) in *.
  rewrite mul64_id by (unfold in_int64, min_int64, max_int64; nia).
  zbool; nia.
Qed.

Lemma processing_bump k e : is_processing e = true -> bump k e = k.
Proof. destruct e as [c a]. unfold is_processing, bump. simpl. by destruct c. Qed.

Lemma processing_skip k t1 t :
  forallb is_processing t1 = true ->
  failing k (t1 ++ t) = failing k t /\ worst k (t1 ++ t) = worst k t /\ paced k (t1 ++ t) = paced k t /\
  count is_read (t1 ++ t) = count is_read t.
Proof.
  induction t1 as [|e t1 IH]; [done|]. intros [He Ht]%andb_true_iff.
  destruct (IH Ht) as (H1 & H2 & H3 & H4). simpl. rewrite (processing_bump _ _ He), H1, H2, H3, H4.
  split_and!; [done| | |].
  - assert (k <= worst k t)%nat by (destruct t; simpl; lia). lia.
  - destruct e as [c a]. unfold is_processing in He. simpl in *. by destruct c.
  - destruct e as [c a]. unfold is_processing in He. simpl in *. by destruct c.
Qed.

(** What holds of a run that starts after [k] consecutive failures. *)
Definition reader_inv (n k : nat) (t : trace) (res : status) : Prop :=
  paced k t = true /\
  (0 <= maxRetries r -> Z.of_nat (worst k t) <= maxRetries r + 1) /\
  (res = Running -> count is_read t = n /\ (0 <= maxRetries r -> Z.of_nat (failing k t) <= maxRetries r)).

(** Glue: one event, or processing, in front of such a run. *)
Lemma reader_inv_cons n k k' e t res :
  k' = bump k e -> match projT1 e with SleepOrDone d => d = backoff (pred k) | _ => True end ->
  (0 <= maxRetries r -> Z.of_nat k <= maxRetries r + 1) ->
  reader_inv n k' t res -> reader_inv ((if is_read e then 1 else 0) + n)%nat k (e :: t) res.
Proof.
  intros -> He Hk (Hp & Hw & Hr). split_and!; simpl.
  - rewrite Hp, andb_true_r. destruct e as [c a]. simpl in *. destruct c; try done. by apply bool_decide_eq_true.
  - lia.
  - intros [Hn Hf]%Hr. by rewrite Hn.
Qed.

Lemma reader_inv_processing n k t1 t res :
  forallb is_processing t1 = true -> reader_inv n k t res -> reader_inv n k (t1 ++ t) res.
Proof.
  intros H1 H2. destruct (processing_skip k t1 t H1) as (Hf & Hw & Hp & Hc).
  unfold reader_inv. by rewrite Hf, Hw, Hp, Hc.
Qed.

Lemma reader_inv_end k n info :
  (0 <= maxRetries r -> Z.of_nat k <= maxRetries r + 1) -> wp (terminate info) (reader_inv n k).
Proof. intros Hk b. unfold reader_inv. simpl. rewrite Nat.max_id. done. Qed.

(** Descend below one event of the run. *)
Ltac below n k' := (apply (wp_mono _ (reader_inv n k')); [intros ?t ?a; apply (reader_inv_cons n _ k'); [done|done|lia]|]).

Lemma reader_loop_inv n k :
  retry_ok -> Z.of_nat k + Z.of_nat n < max_int64 -> (0 <= maxRetries r -> Z.of_nat k <= maxRetries r) ->
  wp (readLBSStream_loop n (Z.of_nat k) (backoff k)) (reader_inv n k).
Proof.
  intros Hok. revert k. induction n as [|n IH]; intros k Hlt Hk; [split_and!; simpl; auto; lia|].
  intros ctx. below (S n) k. destruct ctx; simpl; [apply reader_inv_end; lia|].
  intros [streams|err].
  - below n 0%nat.
    assert ((if 0 <? Z.of_nat k then (0, initialRetryDelay r) else (Z.of_nat k, backoff k)) =
      (Z.of_nat 0, backoff 0)) as ->.
    { rewrite backoff_0 by done. zbool; [done|]. assert (k = 0%nat) as -> by lia. by rewrite backoff_0. }
    refine (proj2 (wp_bind _ _ _) _). eapply wp_mono; [|apply processLBSMessages_calls].
    intros t [e|] Ht; eapply wp_mono; try (intros t' a; by apply reader_inv_processing).
    + apply reader_inv_end. lia.
    + apply IH; lia.
  - below n (S k). destruct (errors_Is err ContextCanceled); [apply reader_inv_end; lia|].
    assert (add64 (Z.of_nat k) 1 = Z.of_nat (S k)) as ->.
    { rewrite add64_id; unfold in_int64, min_int64; lia. }
    destruct ((0 <=? maxRetries r) && _) eqn:E; [apply reader_inv_end; lia|].
    apply andb_false_iff in E. rewrite Z.leb_gt, Z.ltb_ge in E.
    intros done. below n (S k). destruct done; [apply reader_inv_end; lia|].
    rewrite next_delay_backoff by done. apply IH; lia.
Qed.

(** C20: reading is given up after [maxRetries] retries. With a valid retry
    configuration (delays below 2^62ns) that has a limit, a reader observed for
    fewer than 2^63 - 1 iterations never makes more than [maxRetries + 1] consecutive failing reads;
    observed for [iterations] reads it has returned, unless it made them all
    and the last [maxRetries + 1] did not all fail. *)
Theorem reader_gives_up iterations :
  retry_ok -> Z.of_nat iterations < max_int64 -> 0 <= maxRetries r ->
  wp (readLBSStream iterations) (fun t res =>
    Z.of_nat (worst 0 t) <= maxRetries r + 1 /\
    (res = Running -> count is_read t = iterations /\ Z.of_nat (failing 0 t) <= maxRetries r)).
Proof.
  intros Hok Hi Hm. unfold readLBSStream. rewrite <-backoff_0 by done.
  eapply wp_mono; [|apply (reader_loop_inv iterations 0); try done; lia].
  intros t res (_ & Hw & Hr). split; [auto|]. intros [??]%Hr. auto.
Qed.

(** C21: the pauses double up to the limit. Every pause of the reader, after
    [k + 1] consecutive failing reads, lasts exactly
    [min (initialRetryDelay * 2^k) maxRetryDelay], and a successful read starts
    the sequence again. (For a valid retry configuration with delays below
    2^62ns; doubling a larger one would overflow.) *)
Theorem reader_backoff iterations :
  retry_ok -> Z.of_nat iterations < max_int64 ->
  wp (readLBSStream iterations) (fun t _ => paced 0 t = true).
Proof.
  intros Hok Hi. unfold readLBSStream. rewrite <-backoff_0 by done.
  eapply wp_mono; [|apply (reader_loop_inv iterations 0); try done; lia].
  by intros t res (Hp & _).
Qed.

(** ** listenKsp *)

(** The lock expiries received, decoded; other messages are ignored. *)
Definition received (e : event) : option LBSInfo :=
  let '(existT c a) := e in
  match c return resp c -> option LBSInfo with
  | KspRecv => fun a =>
    match a with
    | Some (Some (channel, payload)) =>
      match decode_ksp channel payload with Ok l => Some l | Err _ => None end
    | _ => None
    end
  | _ => fun _ => None
  end a.

(** C23: each lock expiry is notified once, in order. [listenKsp] sends one
    StreamExpired per pub/sub message that decodes to an entry, for that entry,
    in the order received, and nothing for any other message. *)
Theorem listen_notifies iterations :
  wp (listenKsp iterations) (fun t _ => announced t = (fun l => (StreamExpired, l)) <$> omap received t).
Proof.
  induction iterations as [|n IH]; [done|]. intros [[[channel payload]|]|]; simpl; [|done..].
  unfold decode_ksp. destruct (extractStreamnameFromKspChannel channel) as [name|e]; simpl; [|done].
  intros _. destruct (CreateByKspNotification name payload) as [l|e]; simpl; [|done].
  intros o b. eapply wp_mono; [|exact IH]. intros t st Ht. by f_equal/=.
Qed.
End reader.

(** ** Witnesses *)

#[local] Instance demo_JsonText : JsonText := fun _ => "invalid character".

Lemma reader_gives_up_witness :
  wp (readLBSStream demo_client 7) (fun t res =>
    Z.of_nat (worst 0 t) <= 6 /\ (res = Running -> count is_read t = 7%nat /\ Z.of_nat (failing 0 t) <= 5)).
Proof. apply (reader_gives_up demo_client 7); [split; reflexivity|reflexivity|done]. Defined.

Lemma reader_backoff_witness :
  wp (readLBSStream demo_client 7) (fun t _ => paced demo_client 0 t = true) /\
  map (backoff demo_client) [0; 1; 9]%nat = [100 * Millisecond; 200 * Millisecond; 30 * Second].
Proof. split; [apply (reader_backoff demo_client 7); [split; reflexivity|reflexivity]|reflexivity]. Defined.
