(* ===== verification/Reconcile.v ===== *)
(** * impl/init.go and impl/requeue.go: the periodic reconciliation scan

    [reconcileLBS] is one pass over the pending entries, [runReconciliationLoop]
    the goroutine that repeats it, [nextReconciliationDelay] its jittered
    period. The jitter is computed in float64; its two roundings are written
    out on integers ([round53]). *)

From Stdlib Require Import ZArith String Lia.
From stdpp Require Import base gmap strings list.
From S2P Require Import Prelude GoStrings Json Configs Errs Notifs Effects LbsEntry Options Requeue Streams Reader.

#[local] Open Scope string_scope.
#[local] Open Scope list_scope.
#[local] Open Scope Z_scope.

(** ** float64 *)

(** The integer [n > 0] rounded to 53 significant bits, ties to even. *)
Definition round53 (n : Z) : Z :=
  let k := Z.log2 n - 52 in
  if k <=? 0 then n
  else
    let q := n / 2 ^ k in
    let rem := n mod 2 ^ k in
    let half := 2 ^ (k - 1) in
    if (half <? rem) || ((rem =? half) && Z.odd q) then (q + 1) * 2 ^ k else q * 2 ^ k.

(** [int64(float64(interval) * DefaultJitterFraction)], for [interval > 0]: the
    product is [round53 (...) / 2^55], never subnormal, and the conversion
    truncates. *)
Definition max_jitter (interval : Z) : Z :=
  round53 (round53 interval * DefaultJitterFraction_num) / 2 ^ DefaultJitterFraction_exp.

(** ** nextReconciliationDelay

    [None] is the panic of [rand.Int63n] on an argument that is not positive.
    The source's [maxJitter <= 0] test is on the float64, which is positive for
    every positive interval. *)
Definition nextReconciliationDelay (interval : Z) : prog (option Z) :=
  let interval := if interval <=? 0 then DefaultReconciliationInterval else interval in
  if round53 (round53 interval * DefaultJitterFraction_num) <=? 0 then mret (Some interval)
  else if max_jitter interval <=? 0 then mret None
  else
    jitter ← call (Int63n (max_jitter interval));
    mret (Some (add64 interval jitter)).

Section reconcile.
Context (r : Client).

(** ** reconcileLBS *)

(** The scan's counters: requeued, skippedAlive, dlqRouted. *)
Record counters := mkCounters { requeued : Z; skippedAlive : Z; dlqRouted : Z }.

Definition tally (c : counters) (outcome : reQueueOutcome) : counters :=
  match outcome with
  | reQueueRequeued => mkCounters (add64 (requeued c) 1) (skippedAlive c) (dlqRouted c)
  | reQueueSkippedAlive => mkCounters (requeued c) (add64 (skippedAlive c) 1) (dlqRouted c)
  | reQueueDLQ => mkCounters (requeued c) (skippedAlive c) (add64 (dlqRouted c) 1)
  | reQueueError | reQueueLostRace => c
  end.

(** The loop over the pending IDs; [None] when the context ended. *)
Fixpoint scan (pending : list string) (c : counters) : prog (option counters) :=
  match pending with
  | [] => mret (Some c)
  | id :: pending' =>
    ctx ← isContextDone;
    if (ctx : bool) then mret None
    else
      '(outcome, _, err) ← reQueue r id;
      match err with
      | Some _ => scan pending' c
      | None => scan pending' (tally c outcome)
      end
  end.

Definition reconcileLBS (startup : bool) : prog unit :=
  res ← call (XPendingExt (lbsName r) (lbsGroupName r) (MinIdleTime (recoveryConfig r))
                MinimalRangeID MaximalRangeID (BatchSize (recoveryConfig r)));
  match res with
  | Err _ =>
    call (Metric (RecordReconciliationScan 0 0 0));;
    if startup then call (Metric (RecordStartupRecovery false 0));; mret tt else mret tt
  | Ok pending =>
    o ← scan pending (mkCounters 0 0 0);
    match o with
    | None => mret tt
    | Some c =>
      call (Metric (RecordReconciliationScan (requeued c) (skippedAlive c) (dlqRouted c)));;
      if startup then call (Metric (RecordStartupRecovery true (add64 (requeued c) (dlqRouted c))));; mret tt
      else mret tt
    end
  end.

(** ** runReconciliationLoop *)

Fixpoint reconciliation_passes (iterations : nat) : prog status :=
  match iterations with
  | O => mret Running
  | S n =>
    delay ← nextReconciliationDelay (ReconciliationInterval (recoveryConfig r));
    match delay with
    | None => mret Panicked
    | Some d =>
      done ← call (SleepOrDone d);
      if (done : bool) then mret Returned
      else reconcileLBS false;; reconciliation_passes n
    end
  end.

Definition runReconciliationLoop (iterations : nat) : prog status :=
  reconcileLBS true;; reconciliation_passes iterations.
End reconcile.

(** ** The jitter *)

Lemma round53_bounds n : 0 < n -> 2 ^ Z.log2 n <= round53 n /\ 2 ^ 52 * round53 n <= (2 ^ 52 + 1) * n.
Proof.
  intros Hn. pose proof (Z.log2_spec n Hn) as [Hlo Hhi]. unfold round53.
  destruct (Z.leb_spec (Z.log2 n - 52) 0) as [Hk|Hk]; [lia|].
  set (k := Z.log2 n - 52) in *.
  assert (2 ^ Z.log2 n = 2 ^ 52 * 2 ^ k) as Hp by (rewrite <-Z.pow_add_r by lia; f_equal; lia).
  assert (0 < 2 ^ k) as Hk0 by (apply Z.pow_pos_nonneg; lia).
  pose proof (Z.div_mod n (2 ^ k) ltac:(lia)) as Hdm.
  pose proof (Z.mod_pos_bound n (2 ^ k) Hk0) as Hm.
  assert (2 ^ 52 <= n / 2 ^ k) as Hq by (apply Z.div_le_lower_bound; lia).
  assert (2 ^ k = 2 * 2 ^ (k - 1)) as Hh by (rewrite <-Z.pow_succ_r by lia; f_equal; lia).
  set (q := n / 2 ^ k) in *. set (m := n mod 2 ^ k) in *. set (P := 2 ^ k) in *. set (h := 2 ^ (k - 1)) in *.
  rewrite Hp in *. clearbody q m P h. clear k Hk Hhi.
  destruct (_ || _) eqn:E.
  - assert (h <= m) by (apply orb_true_iff in E as [E|E]; [apply Z.ltb_lt in E|
      apply andb_true_iff in E as [E _]; apply Z.eqb_eq in E]; lia).
    split; nia.
  - split; nia.
Qed.

Lemma round53_small n : 0 < n < 2 ^ 53 -> round53 n = n.
Proof.
  intros Hn. unfold round53. assert (Z.log2 n < 53) by (apply Z.log2_lt_pow2; lia).
  destruct (Z.leb_spec (Z.log2 n - 52) 0); lia.
Qed.

Lemma product_pos i : 0 < i -> 0 < round53 (round53 i * DefaultJitterFraction_num).
Proof.
  intros Hi. destruct (round53_bounds i Hi) as [Hl _].
  assert (0 < 2 ^ Z.log2 i) by (apply Z.pow_pos_nonneg; [lia|apply Z.log2_nonneg]).
  unfold DefaultJitterFraction_num. set (n := round53 i * 3602879701896397).
  destruct (round53_bounds n ltac:(unfold n; lia)) as [Hl' _].
  assert (0 < 2 ^ Z.log2 n) by (apply Z.pow_pos_nonneg; [lia|apply Z.log2_nonneg]). lia.
Qed.

Lemma max_jitter_pos i : 10 <= i -> 0 < max_jitter i.
Proof.
  intros Hi. unfold max_jitter, DefaultJitterFraction_num, DefaultJitterFraction_exp.
  assert (10 <= round53 i) as H10.
  { destruct (Z.ltb_spec i (2 ^ 53)); [rewrite round53_small; lia|].
    destruct (round53_bounds i ltac:(lia)) as [Hl _].
    assert (2 ^ 53 <= 2 ^ Z.log2 i) by (apply Z.pow_le_mono_r; [lia|]; apply Z.log2_le_pow2; lia). lia. }
  set (n := round53 i * 3602879701896397).
  destruct (round53_bounds n ltac:(unfold n; lia)) as [Hl _].
  assert (2 ^ 55 <= 2 ^ Z.log2 n) by (apply Z.pow_le_mono_r; [lia|]; apply Z.log2_le_pow2; unfold n; lia).
  apply Z.lt_le_trans with 1; [lia|]. apply Z.div_le_lower_bound; lia.
Qed.

(** The jitter is at most a ninth of the interval (a tenth, up to rounding). *)
Lemma max_jitter_le i : 0 < i -> 9 * max_jitter i <= i.
Proof.
  intros Hi. unfold max_jitter, DefaultJitterFraction_num, DefaultJitterFraction_exp.
  destruct (round53_bounds i Hi) as [Hl Hu].
  assert (0 < 2 ^ Z.log2 i) by (apply Z.pow_pos_nonneg; [lia|apply Z.log2_nonneg]).
  set (a := round53 i) in *. destruct (round53_bounds (a * 3602879701896397) ltac:(lia)) as [_ Hu2].
  set (b := round53 (a * 3602879701896397)) in *.
  pose proof (Z.mul_div_le b (2 ^ 55) ltac:(lia)). lia.
Qed.

(** What [rand.Int63n n] documents of its answer: [0 <= v < n]. *)
Definition rand_ok (e : event) : Prop :=
  let '(existT c a) := e in
  match c return resp c -> Prop with Int63n n => fun v => 0 <= v < n | _ => fun _ => True end a.



(** A tiny interval crashes the client. Every interval from 1ns to 9ns
    passes [RecoveryConfig.Validate], but the reconciliation goroutine panics
    after its first pass, whatever Redis answers, since [rand.Int63n] is called
    with 0. *)
Theorem reconciliation_panics interval :
  1 <= interval <= 9 ->
  let rc := mkRecoveryConfig interval DefaultMinIdleTime DefaultReconciliationBatchSize
              DefaultMaxReQueueRetries ε DefaultDLQMaxLen in
  RecoveryConfig_Validate rc = None /\
  forall n, wp (runReconciliationLoop (set_recoveryConfig rc demo_client) (S n)) (fun _ st => st = Panicked).
Proof.
  intros Hi rc.
  assert (nextReconciliationDelay interval = mret None) as Hd.
  { unfold nextReconciliationDelay. assert (interval = 1 \/ interval = 2 \/ interval = 3 \/ interval = 4 \/
      interval = 5 \/ interval = 6 \/ interval = 7 \/ interval = 8 \/ interval = 9) as Hc by lia.
    destruct_or! Hc; subst; reflexivity. }
  split; [unfold RecoveryConfig_Validate; simpl; destruct (Z.leb_spec interval 0); [lia|done]|].
  intros n. unfold runReconciliationLoop. apply wp_bind.
  assert (forall A (p : prog A), wp p (fun _ _ => True)) as Htriv
    by (intros A p; induction p; simpl; auto).
  eapply wp_mono; [|apply Htriv]. intros t a _. simpl. by rewrite Hd.
Qed.

Lemma reconciliation_panics_witness :
  RecoveryConfig_Validate (mkRecoveryConfig 5 DefaultMinIdleTime DefaultReconciliationBatchSize
    DefaultMaxReQueueRetries ε DefaultDLQMaxLen) = None.
Proof. apply (reconciliation_panics 5). split; vm_compute; discriminate. Defined.

(** ** The scan *)

Section scan.
Context (r : Client).

(** The entries an event starts to recover, and those a scan was given. *)
Definition attempt (e : event) : option string :=
  match projT1 e with XRange _ start _ => Some start | _ => None end.

Definition listed (e : event) : list string :=
  let '(existT c a) := e in
  match c return resp c -> list string with
  | XPendingExt _ _ _ _ _ _ => fun a => match a with Ok l => l | Err _ => [] end
  | _ => fun _ => []
  end a.

(** The context was found done. *)
Definition cancelled (e : event) : bool :=
  let '(existT c a) := e in
  match c return resp c -> bool with CtxDone => fun a => a | _ => fun _ => false end a.

(** The metrics of single entries. *)
Definition is_requeued (m : metric) : bool := match m with RecordReQueue _ ok => ok | _ => false end.
Definition is_skip (m : metric) : bool := match m with RecordMutexAliveSkip _ => true | _ => false end.
Definition is_dlq (m : metric) : bool := match m with RecordDLQRouting _ => true | _ => false end.

Definition counted (f : metric -> bool) (t : trace) : Z := Z.of_nat (count (is_metric f) t).

(** What a scan has counted. *)
Definition scan_metric (e : event) : option counters :=
  match projT1 e with Metric (RecordReconciliationScan a b c) => Some (mkCounters a b c) | _ => None end.

(** The calls of one [reQueue], as a scan sees them. *)
Definition entry_calls (id : string) (t : trace) (out : reQueueOutcome) (err : option error) : Prop :=
  omap attempt t = [id] /\ mbind listed t = [] /\ count cancelled t = 0%nat /\ omap scan_metric t = [] /\
  (DLQStream (recoveryConfig r) <> ε ->
    let c := match err with None => tally (mkCounters 0 0 0) out | Some _ => mkCounters 0 0 0 end in
    counted is_requeued t = requeued c /\ counted is_skip t = skippedAlive c /\ counted is_dlq t = dlqRouted c).

Lemma reQueue_calls id : wp (reQueue r id) (fun t res => entry_calls id t res.1.1 res.2).
Proof.
  unfold reQueue, reAdd, routeToDLQ, readLBSEntry, ownerAlive, CreateByParts, entry_calls, counted.
  walk ltac:(split_and!; try done).
  all: intros Hd; match goal with H : String.eqb _ _ = true |- _ => apply String.eqb_eq in H end; congruence.
Qed.

Lemma counted_app f t1 t2 : counted f (t1 ++ t2) = counted f t1 + counted f t2.
Proof. unfold counted. rewrite count_app. lia. Qed.

(** Counters within reach of the machine's integers. *)
Definition total (c : counters) : Z := requeued c + skippedAlive c + dlqRouted c.
Definition counters_ok (c : counters) : Prop := 0 <= requeued c /\ 0 <= skippedAlive c /\ 0 <= dlqRouted c.

Lemma tally_plus c out :
  counters_ok c -> total c < max_int64 ->
  let d := tally (mkCounters 0 0 0) out in
  tally c out = mkCounters (requeued c + requeued d) (skippedAlive c + skippedAlive d) (dlqRouted c + dlqRouted d) /\
  counters_ok d /\ total d <= 1.
Proof.
  intros Hok Ht. destruct c as [a b e], Hok as (? & ? & ?). unfold total, counters_ok in *. simpl in *.
  destruct out; simpl; rewrite ?add64_id by (unfold in_int64, min_int64; lia);
    (split_and!; [f_equal; lia|lia..]).
Qed.

(** A scan of [ids] from counters [c]. *)
Definition scanned (ids : list string) (c : counters) (t : trace) (o : option counters) : Prop :=
  mbind listed t = [] /\ omap scan_metric t = [] /\
  match o with
  | None => omap attempt t `prefix_of` ids /\ (0 < count cancelled t)%nat
  | Some c' => omap attempt t = ids /\
    (DLQStream (recoveryConfig r) <> ε -> counters_ok c -> total c + Z.of_nat (length ids) < max_int64 ->
     c' = mkCounters (requeued c + counted is_requeued t) (skippedAlive c + counted is_skip t)
            (dlqRouted c + counted is_dlq t) /\ total c' <= total c + Z.of_nat (length ids))
  end.

(** One more entry in front: [c1] are the counters after it. *)
Lemma scanned_cons id ids c c1 out err t1 t o :
  entry_calls id t1 out err -> c1 = match err with None => tally c out | Some _ => c end ->
  scanned ids c1 t o -> scanned (id :: ids) c (ev CtxDone false :: t1 ++ t) o.
Proof.
  intros (Ha & Hl & Hc & Hs & Hm) -> (Hl' & Hs' & H). unfold scanned. simpl.
  rewrite bind_app, omap_app, Hl, Hl', Hs, Hs'. split_and!; [done..|].
  rewrite omap_app, Ha. destruct o as [c'|]; simpl.
  - destruct H as [-> H]. split; [done|]. intros Hd Hok Ht.
    destruct (Hm Hd) as (H1 & H2 & H3).
    unfold counted at 1 2 3. simpl. fold (counted is_requeued (t1 ++ t)) (counted is_skip (t1 ++ t)) (counted is_dlq (t1 ++ t)).
    rewrite !counted_app, H1, H2, H3. destruct err as [e|]; simpl in *.
    + destruct (H Hd Hok ltac:(lia)) as [-> ?]. split; [f_equal; lia|lia].
    + destruct (tally_plus c out Hok ltac:(lia)) as (Hp & Hdok & Hdt). rewrite Hp in H.
      set (d := tally (mkCounters 0 0 0) out) in *. unfold total, counters_ok in *. simpl in *.
      destruct (H Hd ltac:(lia) ltac:(lia)) as [-> ?]. simpl in *. split; [f_equal; lia|lia].
  - destruct H as [Hp Hx]. split; [by apply prefix_cons|]. rewrite count_app. lia.
Qed.

Lemma scan_ok ids c : wp (scan r ids c) (scanned ids c).
Proof.
  revert c. induction ids as [|id ids IH]; intros c.
  { unfold scanned, counted. split_and!; [done..|]. intros. destruct c; simpl in *. split; [f_equal; lia|lia]. }
  intros [|]; [unfold scanned; simpl; split_and!; [done..|by apply prefix_nil|lia]|].
  refine (proj2 (wp_bind _ _ _) _). eapply wp_mono; [|apply reQueue_calls].
  intros t1 [[out name] err] He. simpl in He.
  destruct err as [e|]; eapply wp_mono; try apply IH; intros t o; by eapply scanned_cons.
Qed.

(** C25: one failing entry never stops a scan. The entries a pass of
    [reconcileLBS] tries to recover are those XPENDING listed, in that order and
    each once, whatever becomes of each; only the end of the context cuts the
    pass short. *)
Theorem reconcile_attempts_all startup :
  wp (reconcileLBS r startup) (fun t _ =>
    omap attempt t `prefix_of` mbind listed t /\
    (count cancelled t = 0%nat -> omap attempt t = mbind listed t)).
Proof.
  intros [pending|e]; [|by destruct startup].
  refine (proj2 (wp_bind _ _ _) _). eapply wp_mono; [|apply scan_ok].
  intros t [c|] (Hl & _ & H); simpl.
  - destruct H as [Ha _]. intros []. destruct startup; simpl; [intros []|];
      rewrite bind_app, !omap_app, Hl, Ha; simpl; rewrite !app_nil_r; done.
  - destruct H as [Ha Hc]. rewrite bind_app, omap_app, Hl, count_app. simpl. rewrite !app_nil_r. split; [done|lia].
Qed.

(** XPENDING returns at most as many entries as its COUNT argument. *)
Definition pending_ok (e : event) : Prop :=
  let '(existT c a) := e in
  match c return resp c -> Prop with
  | XPendingExt _ _ _ _ _ n => fun a => match a with Ok l => Z.of_nat (length l) <= n | Err _ => True end
  | _ => fun _ => True
  end a.

(** What a pass reports: nothing when it was cancelled, else one scan with the
    entries' individual records as totals. *)
Lemma reconcile_scan_metric startup :
  DLQStream (recoveryConfig r) <> ε -> 0 < BatchSize (recoveryConfig r) < max_int64 ->
  wp (reconcileLBS r startup) (fun t _ => Forall pending_ok t ->
    omap scan_metric t = [] /\ (0 < count cancelled t)%nat \/
    exists c, omap scan_metric t = [c] /\ c = mkCounters (counted is_requeued t) (counted is_skip t) (counted is_dlq t) /\
      total c <= BatchSize (recoveryConfig r)).
Proof.
  intros Hd Hb. intros [pending|e];
    [|destruct startup; simpl; intros; right; eexists; (split_and!; [done..|unfold total; simpl; lia])].
  refine (proj2 (wp_bind _ _ _) _). eapply wp_mono; [|apply scan_ok].
  intros t [c|] (_ & Hs & H); simpl.
  - destruct H as [_ H]. intros []. destruct startup; simpl; [intros []|].
    all: intros [Hp _]%Forall_cons; simpl in Hp.
    all: destruct (H Hd ltac:(done) ltac:(unfold total; simpl; lia)) as [-> Ht]; simpl in *.
    all: right; eexists; rewrite omap_app, Hs; split; [done|].
    all: unfold counted; simpl; rewrite !count_app; simpl; unfold counted, total in *; simpl in *.
    all: split; [f_equal; lia|lia].
  - destruct H as [_ Hc]. intros _. left. rewrite omap_app, Hs, count_app. split; [done|lia].
Qed.

(** The totals a scan reports are what happened. In every pass of
    [reconcileLBS] with a DLQ configured, the RecordReconciliationScan metric
    carries exactly the number of entries whose re-queue, live-owner skip and
    DLQ routing was recorded individually, and together they do not exceed the
    batch size. *)
Theorem reconcile_totals startup :
  DLQStream (recoveryConfig r) <> ε -> 0 < BatchSize (recoveryConfig r) < max_int64 ->
  wp (reconcileLBS r startup) (fun t _ => Forall pending_ok t ->
    Forall (fun c => c = mkCounters (counted is_requeued t) (counted is_skip t) (counted is_dlq t) /\
      total c <= BatchSize (recoveryConfig r)) (omap scan_metric t)).
Proof.
  intros Hd Hb. eapply wp_mono; [|by apply reconcile_scan_metric]. intros t a H Hp.
  destruct (H Hp) as [[-> _]|(c & -> & Hc)]; [constructor|]. constructor; [done|constructor].
Qed.

(** Without overflow the counters are never negative, DLQ or not. *)
Lemma scan_nonneg ids c :
  counters_ok c -> total c + Z.of_nat (length ids) < max_int64 ->
  wp (scan r ids c) (fun t o => omap scan_metric t = [] /\ match o with Some c' => counters_ok c' | None => True end).
Proof.
  revert c. induction ids as [|id ids IH]; intros c Hok Ht; [done|]. simpl length in Ht.
  intros [|]; [done|]. refine (proj2 (wp_bind _ _ _) _). eapply wp_mono; [|apply reQueue_calls].
  intros t1 [[out name] err] (_ & _ & _ & Hs & _). simpl.
  pose proof (tally_plus c out Hok ltac:(lia)) as Hp. cbv zeta in Hp. destruct Hp as (Hp & Hdok & Hdt).
  unfold counters_ok in Hok, Hdok.
  destruct err as [e|]; (eapply wp_mono; [|apply IH]; [intros t o [Ho ?]; by rewrite omap_app, Hs, Ho|..]).
  1,3: rewrite ?Hp; by unfold counters_ok; simpl; lia.
  all: rewrite ?Hp; unfold total in *; simpl in *; lia.
Qed.

(** The scans a pass records carry no negative total. *)
Lemma reconcile_nonneg startup :
  0 < BatchSize (recoveryConfig r) < max_int64 ->
  wp (reconcileLBS r startup) (fun t _ => Forall pending_ok t -> Forall counters_ok (omap scan_metric t)).
Proof.
  intros Hb. intros [pending|e]; [|by destruct startup; simpl; intros; repeat constructor].
  destruct (decide (Z.of_nat (length pending) <= BatchSize (recoveryConfig r))) as [Hl|Hl].
  - refine (proj2 (wp_bind _ _ _) _).
    eapply wp_mono; [|apply scan_nonneg; [done|unfold total; simpl; lia]].
    intros t [c|] [Hs Hc]; simpl; [intros []; destruct startup; simpl; [intros []|]|];
      intros _; rewrite omap_app, Hs; simpl; repeat (done || constructor).
  - eapply wp_mono; [|apply wp_true].
    intros t a _ [Hp _]%Forall_cons. done.
Qed.
End scan.

Lemma reconcile_totals_witness :
  wp (reconcileLBS demo_client true) (fun t _ => Forall pending_ok t ->
    Forall (fun c => c = mkCounters (counted is_requeued t) (counted is_skip t) (counted is_dlq t) /\
      total c <= 50) (omap scan_metric t)).
Proof. apply (reconcile_totals demo_client true); [discriminate|split; reflexivity]. Defined.
