(* ===== verification/Server.v ===== *)
(** * Recovery against a Redis server

    What recovery relies on of Redis is an interface: observers of a server's
    state ([RedisServer]) and the documented behaviour of its commands
    ([RedisLaws]). The theorems interleave any number of recoverers, and the
    owner finishing its stream, call by call against any server that satisfies
    the laws, which may answer any command with an error. RefServer.v has a
    concrete server that does. *)

From Stdlib Require Import ZArith String Lia.
From stdpp Require Import base gmap strings list relations.
From S2P Require Import Prelude GoStrings Json Configs Errs Notifs Effects LbsEntry Options Requeue Streams.

#[local] Open Scope string_scope.
#[local] Open Scope list_scope.

(** ** The interface *)

(** [answer i c w]: the answer to call [c] of thread [i] and the state after.
    [tracks] observes the client's lock map, which is part of the state. *)
Class RedisServer (W : Type) := {
  answer : nat -> forall c : cmd, W -> resp c * W;
  pending : W -> string -> string -> string -> Prop;
  delivered : W -> string -> string -> string -> Prop;
  entry_at : W -> string -> string -> option values;
  locked : W -> string -> Prop;
  tracks : W -> string -> option StreamLocksInfo
}.

(** A step of the server: a call, or something in the background. *)
Definition server_step {W} `{RedisServer W} (background : W -> W -> Prop) (w w' : W) : Prop :=
  (exists i c a, answer i c w = (a, w')) \/ background w w'.

Class RedisLaws (W : Type) `{RedisServer W} (background : W -> W -> Prop) := {
  (* XACK reports that it removed an entry only if the entry was pending; after it, it is not *)
  ack_won i s g id w n w' :
    answer i (XAck s g id) w = (Ok n, w') -> n <> 0%Z -> pending w s g id;
  ack_clears i s g id w n w' :
    answer i (XAck s g id) w = (Ok n, w') -> ~ pending w' s g id;
  (* a group delivers an entry once: acknowledged entries do not become pending again *)
  pending_once w w' s g id :
    server_step background w w' -> delivered w s g id -> pending w' s g id -> pending w s g id;
  delivered_stays w w' s g id :
    server_step background w w' -> delivered w s g id -> delivered w' s g id;
  (* entries do not change, and IDs are not used again *)
  range_entry i s id w l w' :
    answer i (XRange s id id) w = (Ok l, w') ->
    l = match entry_at w s id with Some vs => [(id, vs)] | None => [] end;
  entry_immutable w w' s g id vs :
    server_step background w w' -> delivered w s g id -> entry_at w' s id = Some vs -> entry_at w s id = Some vs;
  (* EXISTS counts the key; a call removes a lock's key only by unlocking it *)
  exists_locked i k w n w' :
    answer i (Exists k) w = (Ok n, w') -> (0 < n)%Z <-> locked w k;
  lock_kept i c w a w' k :
    answer i c w = (a, w') -> locked w k ->
    locked w' k \/ exists m, c = MutexUnlock m /\ mutex_name m = k;
  (* the lock map: popping reads it; only LocksPut adds to it *)
  pop_tracks i n w o w' : answer i (LocksPop n) w = (o, w') -> o = tracks w n;
  tracks_kept i c w a w' n info :
    answer i c w = (a, w') -> tracks w' n = Some info -> tracks w n = Some info \/ exists n' info', c = LocksPut n' info';
  tracks_background w w' n : background w w' -> tracks w' n = tracks w n
}.

(** ** Recoverers *)

(** A call that recovers the entry: a client's [Claim], or its scan's [reQueue]. *)
Inductive recoverer :=
| ByClaim (c : Client) (name : string)
| ByScan (c : Client).

Definition client_of (x : recoverer) : Client := match x with ByClaim c _ | ByScan c => c end.

Definition recover (id : string) (x : recoverer) : prog (option error) :=
  match x with
  | ByClaim c name => Claim c (mkLBSInfo name id)
  | ByScan c => res ← reQueue c id; mret res.2
  end.

Definition is_put (e : event) : bool := match projT1 e with LocksPut _ _ => true | _ => false end.

(** What holds of every prefix of a recoverer's calls. *)
Definition recoverer_ok (c : Client) (id : string) (t : trace) : Prop :=
  let won := won_ack (lbsName c) (lbsGroupName c) id in
  (count is_xadd t <= count won t)%nat /\ preceded won is_xadd t = true /\
  (occurs is_xadd t = true -> is_Some (orig t)) /\ occurs is_unlock t = false /\
  occurs is_put t = false /\
  match t with e :: _ => projT1 e = XRange (lbsName c) id id | [] => True end /\
  read_named id t (fun _ name =>
    preceded (dead_check (FormMutexKey (mkLBSInfo name id))) is_mutation t = true).

Lemma reQueue_ok c id : always (reQueue c id) (recoverer_ok c id).
Proof.
  unfold recoverer_ok, read_named, named, orig.
  unfold reQueue, reAdd, routeToDLQ, readLBSEntry, ownerAlive, CreateByParts.
  walk ltac:(split_and!; try solve [events]; try (simpl; eauto)).
Qed.

Lemma recover_ok id x : always (recover id x) (recoverer_ok (client_of x) id).
Proof.
  destruct x as [c name|c]; unfold recover, Claim; (apply always_bind; [apply reQueue_ok|]);
    (eapply wp_mono; [|apply always_wp, reQueue_ok]); intros t [[out nm] err] Ht; simpl;
    repeat case_match; simpl; rewrite app_nil_r; done.
Qed.

(** A [Claim] that returns nil won the acknowledgement. *)
Lemma claim_won c name id :
  wp (Claim c (mkLBSInfo name id)) (fun t res => res = None ->
    occurs (won_ack (lbsName c) (lbsGroupName c) id) t = true).
Proof.
  unfold Claim, reQueue, reAdd, routeToDLQ, readLBSEntry, ownerAlive, CreateByParts.
  walk ltac:(try solve [events]).
Qed.

Section server.
Context {W : Type} {HS : RedisServer W} {background : W -> W -> Prop} {HL : RedisLaws W background}.
Context (service id : string).

Abbreviation lbs := (service +:+ InputSuffix).
Abbreviation group := (service +:+ GroupSuffix).
Abbreviation won := (won_ack lbs group id).
Abbreviation step := (pool_step answer background).

(** A call answered so that it counts as won: what it says of the server. *)
Lemma won_answer i c w a w' :
  answer i c w = (a, w') -> won (ev c a) = true -> pending w lbs group id /\ ~ pending w' lbs group id.
Proof.
  destruct c; try done. simpl. intros Ha Hw.
  apply andb_true_iff in Hw as [Hw Hn]. rewrite !andb_true_iff, !bool_decide_eq_true in Hw.
  destruct Hw as [[-> ->] ->]. destruct a as [n|e]; [|done].
  split; [|by eapply ack_clears]. eapply ack_won; [done|]. by intros ->.
Qed.

(** ** At most one acknowledgement is won *)

(** The invariant: how many were won, and that none can be won afterwards. *)
Definition won_inv (pend0 : Prop) (w : W) (h : list (nat * event)) : Prop :=
  delivered w lbs group id /\
  (count (fun y => won y.2) h <= 1)%nat /\
  ((0 < count (fun y => won y.2) h)%nat \/ ~ pend0 -> ~ pending w lbs group id) /\
  (~ pend0 -> count (fun y => won y.2) h = 0%nat).

Lemma won_bound {A} (ts : list (prog A)) w x :
  delivered w lbs group id -> rtc step (mkPool ts w []) x ->
  won_inv (pending w lbs group id) (world x) (hist x).
Proof.
  intros Hd Hr. set (pend0 := pending w lbs group id).
  apply (pool_inv answer background (fun _ _ => True) (won_inv pend0) ts w x); try done.
  - intros w1 w2 h Hb (Hd1 & Hc & Hp & H0). split_and!; try done.
    + eapply delivered_stays; [by right|done].
    + intros Hx Hp2. apply (Hp Hx). eapply pending_once; [by right|done..].
  - intros i c a w1 w2 h Ha _ (Hd1 & Hc & Hp & H0).
    assert (server_step background w1 w2) as Hs by (left; eauto).
    unfold won_inv. rewrite count_app. cbn [count fst snd]. destruct (won (ev c a)) eqn:Hw.
    + destruct (won_answer _ _ _ _ _ Ha Hw) as [Hp1 Hp2].
      assert (count (fun y => won y.2) h = 0%nat) as Hz.
      { destruct (count (fun y => won y.2) h); [done|]. exfalso. apply Hp; [left; lia|done]. }
      rewrite Hz. split_and!; [by eapply delivered_stays|lia|done|].
      intros Hn. exfalso. apply Hp; auto.
    + rewrite !Nat.add_0_r. split_and!; [by eapply delivered_stays|lia| |done].
      intros Hx Hp2. apply (Hp Hx). by eapply pending_once.
  - split_and!; simpl; [done|lia| |done]. intros [?|?]; [lia|done].
  - intros i p _. clear. induction p as [a|c k IH]; simpl; auto.
Qed.

(** Recoverers of this service, all after the same entry. *)
Definition same_service (xs : list recoverer) : Prop :=
  Forall (fun x => serviceName (client_of x) = service) xs.

Lemma service_names c : serviceName c = service -> lbsName c = lbs /\ lbsGroupName c = group.
Proof. unfold lbsName, lbsGroupName. by intros ->. Qed.

Lemma recover_threads xs i p :
  same_service xs -> (recover id <$> xs) !! i = Some p ->
  always p (fun t => (count is_xadd t <= count won t)%nat).
Proof.
  intros Hxs Hi. apply list_lookup_fmap_Some in Hi as (x & -> & Hx).
  pose proof (Forall_lookup_1 _ _ _ _ Hxs Hx) as [Hn Hg]%service_names.
  eapply always_mono; [|apply recover_ok]. intros t (Ht & _). by rewrite Hn, Hg in Ht.
Qed.

(** C1: a task is recovered at most once. Let any number of recoverers, scans
    and claims of any clients of the service, work on the same entry at the
    same time, their calls interleaved in any order, locks expiring and Redis
    failing at any point: together they make at most one XADD, to the stream or
    to the DLQ, and none if the entry was no longer pending when they began. *)
Theorem recover_at_most_once xs w x :
  same_service xs -> delivered w lbs group id ->
  rtc step (mkPool (recover id <$> xs) w []) x ->
  (count (fun y => is_xadd y.2) (hist x) <= 1)%nat /\
  (~ pending w lbs group id -> count (fun y => is_xadd y.2) (hist x) = 0%nat).
Proof.
  intros Hxs Hd Hr. destruct (won_bound _ _ _ Hd Hr) as (_ & H1 & _ & H0).
  assert (count (fun y => is_xadd y.2) (hist x) <= count (fun y => won y.2) (hist x))%nat as Hle.
  { destruct (hist_tids _ _ _ _ _ Hr) as [Hlen Ht].
    apply (count_threads_le is_xadd won _ _ Ht). intros i.
    destruct (threads x !! i) as [p|] eqn:Hi.
    - destruct (pool_inv answer background (fun _ t => (count is_xadd t <= count won t)%nat) (fun _ _ => True)
        _ _ _ ltac:(done) ltac:(done) I (fun i p => recover_threads xs i p Hxs) Hr) as [_ HP].
      pose proof (always_nil _ _ (HP _ _ Hi)) as Hc. simpl in Hc. by rewrite app_nil_r in Hc.
    - assert (proj i (hist x) = []) as ->; [|done]. apply elem_of_nil_inv. intros e He%proj_elem_of.
      apply Ht in He. simpl in He. apply lookup_ge_None in Hi. lia. }
  split; [lia|]. intros Hn. rewrite (H0 Hn) in Hle. lia.
Qed.

(** C9: at most one [Claim] succeeds. Of any number of concurrent [Claim] calls
    for the same expired entry, at most one returns nil; every other one that
    returns reports an error. *)
Theorem claim_at_most_once (cs : list (Client * string)) w x i j :
  same_service ((fun c => ByClaim c.1 c.2) <$> cs) -> delivered w lbs group id ->
  rtc step (mkPool ((fun c => recover id (ByClaim c.1 c.2)) <$> cs) w []) x ->
  threads x !! i = Some (Ret None) -> threads x !! j = Some (Ret None) -> i = j.
Proof.
  intros Hcs Hd Hr Hi Hj. destruct (won_bound _ _ _ Hd Hr) as (_ & H1 & _).
  destruct (hist_tids _ _ _ _ _ Hr) as [Hlen Ht].
  assert (forall k, threads x !! k = Some (Ret None) -> (0 < count won (proj k (hist x)))%nat) as Hwin.
  { intros k Hk. apply occurs_count.
    unshelve epose proof (pool_wp answer background (fun _ t (res : option error) => res = None -> occurs won t = true)
      _ _ x _ Hr k _ Hk) as Hp; [|simpl in Hp; rewrite app_nil_r in Hp; by apply Hp].
    intros l p Hl. apply list_lookup_fmap_Some in Hl as ([c n] & -> & Hc).
    pose proof (proj1 (Forall_fmap _ _ _) Hcs) as Hcs'.
    pose proof (Forall_lookup_1 _ _ _ _ Hcs' Hc) as [Hn Hg]%service_names. simpl in Hn, Hg.
    rewrite <-Hn, <-Hg. apply claim_won. }
  destruct (decide (i = j)) as [|Hne]; [done|exfalso].
  pose proof (Hwin i Hi). pose proof (Hwin j Hj). rewrite (count_proj _ _ _ Ht) in H1.
  apply lookup_lt_Some in Hi, Hj. rewrite Hlen in *.
  pose proof (sum_two (fun k => count won (proj k (hist x))) _ _ _ Hi Hj Hne). simpl in *. lia.
Qed.

(** ** Finishing a stream while it is being recovered *)

(** The owner, and the entry and lock it holds. *)
Context (owner : Client) (name : string) (vs : values).
Abbreviation key := (FormMutexKey (mkLBSInfo name id)).

(** What the owner's lock map tracks: each mutex is the one of its entry. *)
Definition tracked_ok (w : W) : Prop :=
  forall n info, tracks w n = Some info ->
    mutex_name (RedsyncMutex info) = FormMutexKey (lock_LBSInfo info) /\
    has_byte sep_head (IDInLBS (lock_LBSInfo info)) = false.

(** The owner's calls: no XADD, and the lock outlives the acknowledgement. *)
Definition owner_ok (t : trace) : Prop :=
  count is_xadd t = 0%nat /\ occurs is_put t = false /\
  match popped t with
  | Some info => preceded (acked owner (IDInLBS (lock_LBSInfo info))) is_unlock t = true /\
      Forall (fun e => match projT1 e with MutexUnlock m => m = RedsyncMutex info | _ => True end) t
  | None => occurs is_unlock t = false
  end.

Lemma DoneStream_ok n : always (DoneStream owner n) owner_ok.
Proof.
  unfold DoneStream, popStreamLocksInfo, owner_ok, popped, occurs.
  walk ltac:(simpl; rewrite ?bool_decide_true by done; simpl; repeat case_match; simplify_eq/=; try done;
             split_and!; try done; repeat constructor; done).
Qed.

(** The owner is thread 0. *)
Definition thread_ok (xs : list recoverer) (i : nat) (t : trace) : Prop :=
  match i with
  | O => owner_ok t
  | S j => match xs !! j with Some x => recoverer_ok (client_of x) id t | None => False end
  end.

Definition has (f : event -> bool) (h : list (nat * event)) : Prop := exists y, y ∈ h /\ f y.2 = true.

(** The invariant of the race: the lock is there while the entry is pending;
    whoever saw it gone, or saw the XACK, knows that it is not pending; and a
    recoverer that read the entry has won nothing. *)
Record race_inv (w : W) (h : list (nat * event)) : Prop := {
  race_delivered : delivered w lbs group id;
  race_entry : forall vs', entry_at w lbs id = Some vs' -> vs' = vs;
  race_locked : pending w lbs group id -> locked w key;
  race_acked : has (acked owner id) h \/ has (dead_check key) h -> ~ pending w lbs group id;
  race_tracked_ok : tracked_ok w;
  race_tracked : forall info, popped (proj 0 h) = Some info ->
    mutex_name (RedsyncMutex info) = FormMutexKey (lock_LBSInfo info) /\
    has_byte sep_head (IDInLBS (lock_LBSInfo info)) = false;
  race_read : forall j vs', orig (proj (S j) h) = Some vs' -> vs' = vs /\ count won (proj (S j) h) = 0%nat
}.

Lemma has_snoc f h i e : has f (h ++ [(i, e)]) <-> has f h \/ f e = true.
Proof.
  unfold has. setoid_rewrite elem_of_app. setoid_rewrite list_elem_of_singleton. split.
  - intros (y & [Hy| ->] & Hf); eauto.
  - intros [(y & Hy & Hf)|Hf]; [eauto|]. exists (i, e). auto.
Qed.

Lemma has_proj f h i : occurs f (proj i h) = true -> has f h.
Proof.
  intros (e & He%proj_elem_of & Hf)%occurs_count%count_pos_elem. by exists (i, e).
Qed.

Lemma preceded_snoc g f t e : preceded g f (t ++ [e]) = true -> f e = true -> occurs g t = true.
Proof.
  unfold occurs. induction t as [|e' t IH]; simpl; [by destruct (f e)|].
  destruct (f e'), (g e'); simpl; auto; done.
Qed.

Lemma popped_snoc t e : popped (t ++ [e]) = match t with [] => popped [e] | _ => popped t end.
Proof. by destruct t. Qed.

Lemma orig_snoc t e : orig (t ++ [e]) = match t with [] => orig [e] | _ => orig t end.
Proof. by destruct t. Qed.

Lemma acked_answer i c w a w' :
  serviceName owner = service -> answer i c w = (a, w') -> acked owner id (ev c a) = true ->
  ~ pending w' lbs group id.
Proof.
  intros [Hn Hg]%service_names Ha. unfold acked. rewrite Hn, Hg. destruct c; try done. simpl in *.
  rewrite !andb_true_iff, !bool_decide_eq_true. intros [[[-> ->] ->] Hok].
  destruct a as [n|e]; [|done]. by eapply ack_clears.
Qed.

Lemma dead_answer i c w a w' k :
  answer i c w = (a, w') -> dead_check k (ev c a) = true -> ~ locked w k.
Proof.
  destruct c; try done. simpl in *. intros Ha. rewrite andb_true_iff, bool_decide_eq_true.
  intros [-> Hn]. destruct a as [n|e]; [|done]. rewrite <-(exists_locked _ _ _ _ _ Ha).
  rewrite negb_true_iff in Hn. apply Z.ltb_ge in Hn. lia.
Qed.

Section race.
Context (xs : list recoverer).
Hypothesis owner_service : serviceName owner = service.
Hypothesis recoverers_service : same_service xs.
Hypothesis id_plain : has_byte sep_head id = false.
Hypothesis entry_named : dataStreamName (mkEntry id vs) = Ok name.

(** The owner unlocks the key of the entry only once it is not pending. *)
Lemma race_unlock i m a w h :
  thread_ok xs i (proj i h ++ [ev (MutexUnlock m) a]) -> race_inv w h -> mutex_name m = key ->
  ~ pending w lbs group id.
Proof.
  intros Ht Hinv Hm. destruct i as [|j]; simpl in Ht.
  - destruct Ht as (_ & _ & Ht). rewrite popped_snoc in Ht.
    destruct (proj 0 h) as [|e t] eqn:Hp; [done|]. rewrite <-Hp in *.
    destruct (popped (proj 0 h)) as [info|] eqn:Hpop.
    + destruct Ht as [Hpre Hall].
      assert (m = RedsyncMutex info) as -> by (rewrite Forall_app in Hall; by destruct Hall as [_ [? _]%Forall_cons]).
      destruct (race_tracked _ _ Hinv _ Hpop) as [Hk Hb]. rewrite Hk in Hm.
      apply FormMutexKey_inj in Hm; [|done..]. rewrite Hm in Hpre. simpl in Hpre.
      apply (race_acked _ _ Hinv). left. eapply has_proj, preceded_snoc; [exact Hpre|done].
    + unfold occurs in Ht. rewrite existsb_app in Ht. simpl in Ht. by rewrite orb_true_r in Ht.
  - destruct (xs !! j) as [x|]; [|done]. destruct Ht as (_ & _ & _ & Ht & _).
    unfold occurs in Ht. rewrite existsb_app in Ht. simpl in Ht. by rewrite orb_true_r in Ht.
Qed.

(** A recoverer that read the entry never wins it. *)
Lemma race_no_win j c a w w' h :
  answer (S j) c w = (a, w') -> thread_ok xs (S j) (proj (S j) h ++ [ev c a]) -> race_inv w h ->
  orig (proj (S j) h) = Some vs -> won (ev c a) = false.
Proof.
  intros Ha Ht Hinv Ho. destruct (won (ev c a)) eqn:Hw; [exfalso|done].
  destruct (won_answer _ _ _ _ _ Ha Hw) as [Hp _]. revert Hp.
  simpl in Ht. destruct (xs !! j) as [x|]; [|done]. destruct Ht as (_ & _ & _ & _ & _ & _ & Ht).
  apply (race_acked _ _ Hinv). right. apply (has_proj _ _ (S j)), (preceded_snoc _ is_mutation _ (ev c a)).
  - unfold orig in Ho. destruct (proj (S j) h) as [|e t]; [done|]. simpl in *. rewrite Ho in Ht.
    unfold named in Ht. rewrite entry_named in Ht. exact Ht.
  - clear -Hw. destruct c; try done.
Qed.

(** No thread adds to the lock map. *)
Lemma race_no_put i t n info a : ~ thread_ok xs i (t ++ [ev (LocksPut n info) a]).
Proof.
  assert (occurs is_put (t ++ [ev (LocksPut n info) a]) = true) as Hp.
  { unfold occurs. rewrite existsb_app. simpl. by rewrite orb_true_r. }
  destruct i as [|j]; simpl; [intros (_ & Hn & _)|destruct (xs !! j); [intros (_ & _ & _ & _ & Hn & _)|intros []]]; congruence.
Qed.

Lemma race_call i c a w w' h :
  answer i c w = (a, w') -> thread_ok xs i (proj i h ++ [ev c a]) -> race_inv w h ->
  race_inv w' (h ++ [(i, ev c a)]).
Proof.
  intros Ha Ht Hinv. assert (server_step background w w') as Hs by (left; eauto).
  pose proof (race_delivered _ _ Hinv) as Hd. split.
  - by eapply delivered_stays.
  - intros vs' He. apply (race_entry _ _ Hinv). by eapply entry_immutable.
  - intros Hp. pose proof (pending_once _ _ _ _ _ Hs Hd Hp) as Hp0.
    destruct (lock_kept _ _ _ _ _ key Ha (race_locked _ _ Hinv Hp0)) as [|(m & -> & Hm)]; [done|].
    by destruct (race_unlock _ _ _ _ _ Ht Hinv Hm).
  - rewrite !has_snoc. intros Hx Hp. pose proof (pending_once _ _ _ _ _ Hs Hd Hp) as Hp0.
    destruct Hx as [[Hx|Hx]|[Hx|Hx]].
    + eapply (race_acked _ _ Hinv); eauto.
    + by eapply acked_answer.
    + eapply (race_acked _ _ Hinv); eauto.
    + eapply dead_answer; [exact Ha|exact Hx|]. by apply (race_locked _ _ Hinv).
  - intros n info Hn. destruct (tracks_kept _ _ _ _ _ _ _ Ha Hn) as [|(n' & info' & ->)]; [by apply (race_tracked_ok _ _ Hinv n)|].
    by apply race_no_put in Ht.
  - intros info. rewrite proj_snoc. destruct (decide (i = 0%nat)) as [->|]; [|rewrite app_nil_r; apply (race_tracked _ _ Hinv)].
    rewrite popped_snoc. destruct (proj 0 h) as [|e t] eqn:Hp; [|rewrite <-Hp; apply (race_tracked _ _ Hinv)].
    destruct c; try done. simpl. intros ->. eapply (race_tracked_ok _ _ Hinv). symmetry. by eapply pop_tracks.
  - intros j vs'. rewrite proj_snoc. destruct (decide (i = S j)) as [->|]; [|rewrite app_nil_r; apply (race_read _ _ Hinv)].
    rewrite orig_snoc, count_app. destruct (proj (S j) h) as [|e t] eqn:Hp.
    + simpl in Ht. destruct (xs !! j) as [x|] eqn:Hx; [|done]. destruct Ht as (_ & _ & _ & _ & _ & Hc & _).
      simpl in Hc. subst c. simpl. intros Ho. split; [|done]. apply (race_entry _ _ Hinv).
      pose proof (Forall_lookup_1 _ _ _ _ recoverers_service Hx) as [Hn _]%service_names. rewrite Hn in Ha.
      destruct a as [l|err]; [|done]. rewrite (range_entry _ _ _ _ _ _ Ha) in Ho.
      destruct (entry_at w lbs id); simpl in Ho; congruence.
    + rewrite <-Hp in *. intros Ho. destruct (race_read _ _ Hinv _ _ Ho) as [-> Hc]. split; [done|].
      rewrite Hc. cbn [count]. by rewrite (race_no_win j c a w w' h Ha Ht Hinv Ho).
Qed.

Lemma race_threads n i p :
  (DoneStream owner n :: (recover id <$> xs)) !! i = Some p -> always p (thread_ok xs i).
Proof.
  destruct i as [|j]; simpl; [intros [= <-]; apply DoneStream_ok|].
  intros (x & -> & Hx)%list_lookup_fmap_Some. eapply always_mono; [|apply recover_ok].
  intros t Ht. unfold thread_ok. by rewrite Hx.
Qed.

(** A background step that keeps the lock. *)
Lemma race_background w w' h :
  background w w' -> (locked w key -> locked w' key) -> race_inv w h -> race_inv w' h.
Proof.
  intros Hb Hkeep Hinv. assert (server_step background w w') as Hs by by right.
  pose proof (race_delivered _ _ Hinv) as Hd. split; try apply Hinv.
  - by eapply delivered_stays.
  - intros vs' He. apply (race_entry _ _ Hinv). by eapply entry_immutable.
  - intros Hp. apply Hkeep, (race_locked _ _ Hinv). by eapply pending_once.
  - intros Hx Hp. eapply (race_acked _ _ Hinv Hx). by eapply pending_once.
  - intros n info. rewrite (tracks_background _ _ _ Hb). apply (race_tracked_ok _ _ Hinv).
Qed.

(** In the invariant no thread has made an XADD. *)
Lemma race_no_xadd i w h :
  thread_ok xs i (proj i h) -> race_inv w h -> occurs is_xadd (proj i h) = false.
Proof.
  intros Hok Hinv. apply not_true_is_false. intros Ho. destruct i as [|j]; simpl in Hok.
  - apply occurs_count in Ho. destruct Hok as [Hok _]. lia.
  - destruct (xs !! j) as [y|] eqn:Hy; [|done]. destruct Hok as (_ & Hw & Hs & _).
    pose proof (Forall_lookup_1 _ _ _ _ recoverers_service Hy) as [Hn Hg]%service_names. rewrite Hn, Hg in Hw.
    pose proof (preceded_occurs _ _ _ Hw Ho) as Hwon%occurs_count.
    destruct (Hs Ho) as [vs' Hv]. destruct (race_read _ _ Hinv _ _ Hv). lia.
Qed.

(** C3: finishing a stream never races with its recovery. Let the owner run
    [DoneStream] while any number of recoverers work on the same entry, calls
    interleaved in any order and Redis failing at any point. As long as the
    entry's lock was held while it was pending, and does not expire by itself
    (the owner's heartbeat extends it), nobody re-adds the finished task. *)
Theorem done_recover_race n w x :
  (forall w w', background w w' -> locked w key -> locked w' key) ->
  delivered w lbs group id -> entry_at w lbs id = Some vs -> tracked_ok w ->
  (pending w lbs group id -> locked w key) ->
  rtc step (mkPool (DoneStream owner n :: (recover id <$> xs)) w []) x ->
  count (fun y => is_xadd y.2) (hist x) = 0%nat.
Proof.
  intros Hkeep Hd He Htr Hl Hr.
  destruct (pool_inv answer background (thread_ok xs) race_inv
    (DoneStream owner n :: (recover id <$> xs)) w x) as [Hinv HP]; try done.
  - intros. eapply race_background; eauto.
  - intros. by eapply race_call.
  - split; try done; simpl; [congruence|]. intros [(y & Hy & _)|(y & Hy & _)]; by apply elem_of_nil in Hy.
  - intros i p. apply race_threads.
  - apply count_0. intros [i e] Hin. destruct (hist_tids _ _ _ _ _ Hr) as [Hlen Ht].
    destruct (lookup_lt_is_Some_2 (threads x) i) as [p Hp]; [rewrite Hlen; apply (Ht _ Hin)|].
    pose proof (always_nil _ _ (HP _ _ Hp)) as Hok. simpl in Hok; rewrite app_nil_r in Hok.
    pose proof (race_no_xadd _ _ _ Hok Hinv) as Hno. apply elem_of_proj in Hin. simpl.
    apply not_true_is_false. intros Hx. assert (occurs is_xadd (proj i (hist x)) = true) as Ho; [|congruence].
    apply occurs_count, count_pos_elem. eauto.
Qed.
End race.
End server.
