(* ===== verification/RefServer.v ===== *)
(** * A reference Redis server

    An executable server for the commands of recovery and of a stream's life:
    streams with consumer-group bookkeeping, lock keys as redsync uses them, and
    the client's own lock map. It satisfies [RedisLaws] (so the laws can hold),
    and runs the programs for witnesses. A list of booleans says which of the
    next remote calls fail; a failing call changes nothing.

    Also here: [reQueue] against this server refines a specification on states
    in one step. *)

From Stdlib Require Import ZArith String Lia.
From stdpp Require Import base gmap strings list relations.
From S2P Require Import Prelude GoStrings Json Configs Errs Notifs Effects LbsEntry Options Requeue Streams Server.

#[local] Open Scope string_scope.
#[local] Open Scope list_scope.

(** ** State *)

Record world := mkWorld {
  entries : gmap (string * string) values;            (* stream, ID *)
  delivs : gset (string * string * string);           (* stream, group, ID *)
  pel : gset (string * string * string);
  keys : gmap string string;                          (* lock key, value *)
  locals : gmap string StreamLocksInfo;               (* the client's streamLocks *)
  next_id : Z;
  faults : list bool
}.

Definition set_entries f w := mkWorld (f (entries w)) (delivs w) (pel w) (keys w) (locals w) (next_id w) (faults w).
Definition set_pel f w := mkWorld (entries w) (delivs w) (f (pel w)) (keys w) (locals w) (next_id w) (faults w).
Definition set_keys f w := mkWorld (entries w) (delivs w) (pel w) (f (keys w)) (locals w) (next_id w) (faults w).
Definition set_locals f w := mkWorld (entries w) (delivs w) (pel w) (keys w) (f (locals w)) (next_id w) (faults w).

(** ** Commands *)

Definition new_id (w : world) : string := Itoa (next_id w) +:+ "-0".

Definition known_id (s i : string) (w : world) : bool :=
  bool_decide (is_Some (entries w !! (s, i))) || bool_decide (set_Exists (fun x => x.1.1 = s /\ x.2 = i) (delivs w)).

(** XADD refuses an ID that is not new, as Redis does. *)
Definition do_xadd (s : string) (vs : values) (w : world) : result string * world :=
  if known_id s (new_id w) w then (Err (EExt "ERR The ID specified in XADD is equal or smaller" [] None), w)
  else (Ok (new_id w), mkWorld (<[(s, new_id w) := vs]> (entries w)) (delivs w) (pel w) (keys w) (locals w)
                         (next_id w + 1) (faults w)).

(** XREADGROUP with ID [>]: entries the group has not been given. *)
Definition undelivered (s g : string) (w : world) : list (string * values) :=
  omap (fun '((s', i), vs) =>
    if bool_decide (s' = s) && negb (bool_decide ((s, g, i) ∈ delivs w)) then Some (i, vs) else None)
  (map_to_list (entries w)).

Definition do_xreadgroup (g s : string) (w : world) : result (list (string * list (string * values))) * world :=
  let ms := undelivered s g w in
  let ids : gset (string * string * string) := list_to_set ((fun m => (s, g, m.1)) <$> ms) in
  (Ok [(s, ms)], mkWorld (entries w) (ids ∪ delivs w) (ids ∪ pel w) (keys w) (locals w) (next_id w) (faults w)).

Definition lock_taken : error := EExt "lock already taken" [] None.
Definition lock_expired : error :=
  EExt "failed to unlock lock" [] (Some (EExt "lock already expired" [ErrLockAlreadyExpired] None)).

Definition do_lock (m : Mutex) (w : world) : option error * world :=
  match keys w !! mutex_name m with
  | Some _ => (Some lock_taken, w)
  | None => (None, set_keys <[mutex_name m := mutex_value m]> w)
  end.

Definition do_extend (m : Mutex) (w : world) : bool * option error * world :=
  match keys w !! mutex_name m with
  | Some v => if bool_decide (v = mutex_value m) then (true, None, w) else (false, Some lock_taken, w)
  | None => if mutex_setNXOnExtend m then (true, None, set_keys <[mutex_name m := mutex_value m]> w)
            else (false, Some lock_expired, w)
  end.

Definition do_unlock (m : Mutex) (w : world) : bool * option error * world :=
  match keys w !! mutex_name m with
  | Some v => if bool_decide (v = mutex_value m) then (true, None, set_keys (delete (mutex_name m)) w)
              else (false, Some lock_taken, w)
  | None => (false, Some lock_expired, w)
  end.

(** The answer of a call that does not fail. *)
Definition respond (c : cmd) (w : world) : resp c * world :=
  match c return resp c * world with
  | XAck s g i =>
    if bool_decide ((s, g, i) ∈ pel w) then (Ok 1%Z, set_pel (fun p => p ∖ {[(s, g, i)]}) w) else (Ok 0%Z, w)
  | XAdd s _ _ vs => do_xadd s vs w
  | XDel s i =>
    match entries w !! (s, i) with
    | Some _ => (Ok 1%Z, set_entries (delete (s, i)) w)
    | None => (Ok 0%Z, w)
    end
  | XRange s a b =>
    if String.eqb a b then
      (Ok (match entries w !! (s, a) with Some vs => [(a, vs)] | None => [] end), w)
    else (Err (EExt "ERR unsupported range" [] None), w)
  | Exists k => (Ok (match keys w !! k with Some _ => 1%Z | None => 0%Z end), w)
  | XPendingExt s g _ _ _ n =>
    (Ok (take (Z.to_nat n)
      (omap (fun x => if bool_decide (x.1 = (s, g)) then Some x.2 else None) (elements (pel w)))), w)
  | XReadGroup g _ s _ _ => do_xreadgroup g s w
  | MutexLock m => do_lock m w
  | MutexExtend m => do_extend m w
  | MutexUnlock m => do_unlock m w
  | LocksGet n => (locals w !! n, w)
  | LocksPut n i => (tt, set_locals <[n := i]> w)
  | LocksDelete n => (tt, set_locals (delete n) w)
  | LocksPop n => (locals w !! n, set_locals (delete n) w)
  | LocksNames => ((map_to_list (locals w)).*1, w)
  | c => (default_resp c, w)
  end.

Definition timeout : error := EExt "i/o timeout" [] None.

(** The answer of a remote call that fails; local calls do not fail. *)
Definition failure (c : cmd) : option (resp c) :=
  match c return option (resp c) with
  | XAck _ _ _ | XAdd _ _ _ _ | XDel _ _ | XRange _ _ _ | Exists _ | XPendingExt _ _ _ _ _ _
  | XReadGroup _ _ _ _ _ => Some (Err timeout)
  | MutexLock _ => Some (Some timeout)
  | MutexExtend _ | MutexUnlock _ => Some (false, Some timeout)
  | _ => None
  end.

Definition set_faults f w := mkWorld (entries w) (delivs w) (pel w) (keys w) (locals w) (next_id w) f.

Definition serve (c : cmd) (w : world) : resp c * world :=
  match failure c, faults w with
  | Some e, true :: fs => (e, set_faults fs w)
  | Some _, false :: fs => respond c (set_faults fs w)
  | _, _ => respond c w
  end.

#[export] Instance world_handler : Handler world := serve.

#[export] Instance reference_server : RedisServer world := {|
  answer := fun _ c w => serve c w;
  pending := fun w s g i => (s, g, i) ∈ pel w;
  delivered := fun w s g i => (s, g, i) ∈ delivs w;
  entry_at := fun w s i => entries w !! (s, i);
  locked := fun w k => is_Some (keys w !! k);
  tracks := fun w n => locals w !! n
|}.

(** In the background, lock keys expire. *)
Definition expiry (w w' : world) : Prop := exists k, w' = set_keys (delete k) w.

(** ** The laws *)

(** A law about a call's answer needs to be proved of [respond] only. *)
Lemma serve_cases c w a w' :
  serve c w = (a, w') ->
  (exists fs, respond c (set_faults fs w) = (a, w')) \/ (failure c = Some a /\ exists fs, w' = set_faults fs w).
Proof.
  assert (set_faults (faults w) w = w) as Hw by by destruct w.
  unfold serve. destruct (failure c) as [e|] eqn:E; [|intros; left; exists (faults w); by rewrite Hw].
  destruct (faults w) as [|[] fs] eqn:Ef; intros Ha.
  - left. exists []. by rewrite Hw.
  - right. simplify_eq. eauto.
  - left. eauto.
Qed.

(** How a call may change the state. *)
Record evolves (c : cmd) (w w' : world) : Prop := {
  ev_delivs : delivs w ⊆ delivs w';
  ev_pel x : x ∈ delivs w -> x ∈ pel w' -> x ∈ pel w;
  ev_entries s g i vs : (s, g, i) ∈ delivs w -> entries w' !! (s, i) = Some vs -> entries w !! (s, i) = Some vs;
  ev_keys k : is_Some (keys w !! k) -> is_Some (keys w' !! k) \/ exists m, c = MutexUnlock m /\ mutex_name m = k;
  ev_locals n info : locals w' !! n = Some info -> locals w !! n = Some info \/ exists n' info', c = LocksPut n' info'
}.

Lemma evolves_refl c w : evolves c w w.
Proof. split; auto. Qed.

Lemma evolves_keys c w k v : evolves c w (set_keys <[k := v]> w).
Proof. split; auto. intros k' Hk. left. simpl. rewrite lookup_insert_is_Some'. auto. Qed.

Lemma evolves_xadd c s vs w a w' : do_xadd s vs w = (a, w') -> evolves c w w'.
Proof.
  unfold do_xadd, known_id. destruct (_ || _) eqn:E; intros [= <- <-]; [apply evolves_refl|].
  apply orb_false_iff in E as [_ E%bool_decide_eq_false]. split; simpl; auto.
  intros s' g i vs' Hd. rewrite lookup_insert_ne; [done|].
  intros [= <- <-]. apply E. by exists (s, g, new_id w).
Qed.

Lemma undelivered_fresh s g w x :
  x ∈ (fun m : string * values => (s, g, m.1)) <$> undelivered s g w -> x ∉ delivs w.
Proof.
  intros ([i vs] & -> & Hin)%list_elem_of_fmap. unfold undelivered in Hin.
  apply list_elem_of_omap in Hin as ([[s' i'] vs'] & _ & Hx). case_match eqn:E; simplify_eq.
  apply andb_true_iff in E as [_ E%negb_true_iff%bool_decide_eq_false]. done.
Qed.

Lemma respond_evolves c w a w' : respond c w = (a, w') -> evolves c w w'.
Proof.
  destruct c; simpl; intros Ha; try (simplify_eq; apply evolves_refl); try (simplify_eq; split; simpl; by auto).
  - case_bool_decide; simplify_eq; split; simpl; auto; set_solver.
  - by eapply evolves_xadd.
  - destruct (entries w !! (stream, id)); simplify_eq; [|apply evolves_refl].
    split; simpl; auto. intros s1 g1 i1 vs1 _ [_ ?]%lookup_delete_Some. done.
  - case_match; simplify_eq; apply evolves_refl.
  - unfold do_xreadgroup in Ha. simplify_eq. split; simpl; auto; [set_solver|].
    intros x Hd [Hx|Hx]%elem_of_union; [|done]. apply elem_of_list_to_set, undelivered_fresh in Hx. done.
  - unfold do_lock in Ha. case_match; simplify_eq; [apply evolves_refl|apply evolves_keys].
  - unfold do_extend in Ha. repeat case_match; simplify_eq; (apply evolves_refl || apply evolves_keys).
  - unfold do_unlock in Ha. repeat case_match; simplify_eq; try apply evolves_refl.
    split; simpl; auto. intros k Hk. destruct (decide (mutex_name m = k)); [eauto|].
    left. by rewrite lookup_delete_ne.
  - simplify_eq. split; simpl; eauto.
  - simplify_eq. split; simpl; auto. intros n i1 [_ ?]%lookup_delete_Some. auto.
  - simplify_eq. split; simpl; auto. intros n i1 [_ ?]%lookup_delete_Some. auto.
Qed.

Lemma evolves_faults c w fs w' : evolves c (set_faults fs w) w' -> evolves c w w'.
Proof. by intros [H1 H2 H3 H4 H5]. Qed.

Lemma serve_evolves c w a w' : serve c w = (a, w') -> evolves c w w'.
Proof.
  intros [[fs Ha]|[_ [fs ->]]]%serve_cases; [|by apply (evolves_faults c w fs), evolves_refl].
  by eapply evolves_faults, respond_evolves.
Qed.

(** For any background that only expires keys. *)
Lemma step_evolves (bg : world -> world -> Prop) w w' :
  (forall w w', bg w w' -> expiry w w') -> server_step bg w w' ->
  delivs w ⊆ delivs w' /\ (forall x, x ∈ delivs w -> x ∈ pel w' -> x ∈ pel w) /\
  (forall s g i vs, (s, g, i) ∈ delivs w -> entries w' !! (s, i) = Some vs -> entries w !! (s, i) = Some vs).
Proof.
  intros Hbg [(i & c & a & Ha)|Hb].
  - destruct (serve_evolves _ _ _ _ Ha). auto.
  - destruct (Hbg _ _ Hb) as [k ->]. auto.
Qed.

Lemma reference_laws (bg : world -> world -> Prop) :
  (forall w w', bg w w' -> expiry w w') -> RedisLaws world bg.
Proof.
  intros Hbg. split; simpl.
  - intros _ s g id w n w' H. destruct (serve_cases (XAck s g id) _ _ _ H) as [[fs Ha]|[Hf _]]; [|done].
    simpl in Ha. by case_bool_decide; simplify_eq.
  - intros _ s g id w n w' H. destruct (serve_cases (XAck s g id) _ _ _ H) as [[fs Ha]|[Hf _]]; [|done].
    simpl in Ha. case_bool_decide; simplify_eq; simpl; set_solver.
  - intros w w' s g id Hs. destruct (step_evolves bg w w' Hbg Hs) as (_ & Hp & _). apply Hp.
  - intros w w' s g id Hs. destruct (step_evolves bg w w' Hbg Hs) as (Hd & _). apply Hd.
  - intros _ s id w l w' H. destruct (serve_cases (XRange s id id) _ _ _ H) as [[fs Ha]|[Hf _]]; [|done].
    simpl in Ha. rewrite String.eqb_refl in Ha. by simplify_eq.
  - intros w w' s g id vs Hs. destruct (step_evolves bg w w' Hbg Hs) as (_ & _ & He). apply He.
  - intros _ k w n w' H. destruct (serve_cases (Exists k) _ _ _ H) as [[fs Ha]|[Hf _]]; [|done].
    simpl in Ha. destruct (keys w !! k) as [v|]; simplify_eq; split; intros Hx; lia || (by destruct Hx) || by eexists.
  - intros _ c w a w' k Ha. destruct (serve_evolves _ _ _ _ Ha) as [_ _ _ Hk _]. apply Hk.
  - intros _ n w o w' H. destruct (serve_cases (LocksPop n) _ _ _ H) as [[fs Ha]|[Hf _]]; [|done].
    simpl in Ha. by simplify_eq.
  - intros _ c w a w' n info Ha. destruct (serve_evolves _ _ _ _ Ha) as [_ _ _ _ Hl]. apply Hl.
  - intros w w' n Hb. by destruct (Hbg _ _ Hb) as [k ->].
Qed.

#[export] Instance reference_laws_expiry : RedisLaws world expiry.
Proof. by apply reference_laws. Qed.

(** ** Recovery as one step on states *)

Section refinement.
Context (r : Client).

Abbreviation pend id := (lbsName r, lbsGroupName r, id).

(** The entry leaves the pending list. *)
Definition release (id : string) (w : world) : world := set_pel (fun p => p ∖ {[pend id]}) w.

(** The entry moves to a stream, as a new entry with the given values. *)
Definition move (id dst : string) (vs : values) (w : world) : world :=
  mkWorld (delete (lbsName r, id) (<[(dst, new_id w) := vs]> (entries w))) (delivs w) (pel w ∖ {[pend id]})
    (keys w) (locals w) (next_id w + 1) (faults w).

(** What recovering an entry should do to the server. *)
Definition recover_spec (id : string) (w : world) : reQueueOutcome * world :=
  match entries w !! (lbsName r, id) with
  | None => (reQueueLostRace, release id w)
  | Some vs =>
    let e := mkEntry id vs in
    let dlq n reason := (reQueueDLQ, move id (DLQStream (recoveryConfig r)) (dlqValues e n reason) w) in
    match dataStreamName e with
    | Err _ =>
      if bool_decide (pend id ∈ pel w) then dlq (retryCount e) DLQReasonUnparseable else (reQueueLostRace, w)
    | Ok name =>
      if bool_decide (is_Some (keys w !! FormMutexKey (mkLBSInfo name id))) then (reQueueSkippedAlive, w)
      else if negb (bool_decide (pend id ∈ pel w)) then (reQueueLostRace, w)
      else if (MaxRetries (recoveryConfig r) <? add64 (retryCount e) 1)%Z
      then dlq (add64 (retryCount e) 1) DLQReasonMaxRetries
      else (reQueueRequeued, move id (lbsName r) (newValues e (add64 (retryCount e) 1)) w)
    end
  end.

End refinement.

(** ** Running without failures *)

(** Result and final state of a run. *)
Definition exec {A} (p : prog A) (w : world) : A * world := (run p w).1.
#[local] Arguments exec : simpl never.

Lemma exec_call {A} c (k : resp c -> prog A) w :
  faults w = [] -> exec (Call c k) w = let '(a, w') := respond c w in exec (k a) w'.
Proof.
  intros Hf. unfold exec. simpl. unfold handle, world_handler, serve. rewrite Hf.
  assert (match failure c with Some _ | _ => respond c w end = respond c w) as -> by by destruct (failure c).
  destruct (respond c w) as [a w']. by destruct (run (k a) w') as [[b w''] t].
Qed.

Section refined.
Context (r : Client).

Abbreviation pend id := (lbsName r, lbsGroupName r, id).

Lemma release_absent id w : pend id ∉ pel w -> release r id w = w.
Proof.
  intros Hn. destruct w as [E D P K L N F]. unfold release, set_pel. simpl in *. f_equal. set_solver.
Qed.

(** XACK in a state without failures. *)
Lemma exec_xack {A} id (k : result Z -> prog A) w :
  faults w = [] ->
  exec (Call (XAck (lbsName r) (lbsGroupName r) id) k) w =
  exec (k (Ok (if bool_decide (pend id ∈ pel w) then 1 else 0)%Z)) (release r id w).
Proof.
  intros Hf. rewrite exec_call by done. simpl. case_bool_decide; [done|]. by rewrite release_absent.
Qed.

(** XADD of a new entry, then XDEL of the released one. *)
Lemma exec_xadd {A} id dst maxlen approx vs (k : result string -> prog A) w :
  faults w = [] -> known_id dst (new_id w) w = false ->
  exec (Call (XAdd dst maxlen approx vs) k) (release r id w) =
  exec (k (Ok (new_id w))) (release r id (mkWorld (<[(dst, new_id w) := vs]> (entries w)) (delivs w) (pel w)
    (keys w) (locals w) (next_id w + 1) (faults w))).
Proof.
  intros Hf Hk. rewrite exec_call by done. simpl. unfold do_xadd.
  change (known_id dst (new_id (release r id w)) (release r id w)) with (known_id dst (new_id w) w).
  by rewrite Hk.
Qed.

Lemma exec_xdel {A} id dst vs vs0 (k : result Z -> prog A) w :
  faults w = [] -> entries w !! (lbsName r, id) = Some vs0 -> known_id dst (new_id w) w = false ->
  exec (Call (XDel (lbsName r) id) k)
    (release r id (mkWorld (<[(dst, new_id w) := vs]> (entries w)) (delivs w) (pel w)
      (keys w) (locals w) (next_id w + 1) (faults w))) =
  exec (k (Ok 1%Z)) (move r id dst vs w).
Proof.
  intros Hf He Hk. rewrite exec_call by done. simpl.
  rewrite lookup_insert_ne, He; [done|]. intros [= -> <-]. unfold known_id in Hk. rewrite He in Hk. done.
Qed.

Lemma exec_metric {A} m (k : unit -> prog A) w : faults w = [] -> exec (Call (Metric m) k) w = exec (k tt) w.
Proof. intros Hf. by rewrite exec_call. Qed.

Lemma exec_routeToDLQ name id vs0 n reason w :
  faults w = [] -> DLQStream (recoveryConfig r) <> ε -> entries w !! (lbsName r, id) = Some vs0 ->
  known_id (DLQStream (recoveryConfig r)) (new_id w) w = false ->
  exec (routeToDLQ r name (mkEntry id vs0) n reason) w =
  if bool_decide (pend id ∈ pel w)
  then (reQueueDLQ, None, move r id (DLQStream (recoveryConfig r)) (dlqValues (mkEntry id vs0) n reason) w)
  else (reQueueLostRace, None, w).
Proof.
  intros Hf Hd He Hk. unfold routeToDLQ. apply String.eqb_neq in Hd. rewrite Hd.
  simpl mbind. rewrite exec_xack by done. case_bool_decide.
  - simpl. rewrite exec_xadd by done. simpl. rewrite exec_metric by done. simpl.
    by rewrite (exec_xdel _ _ _ vs0) by done.
  - simpl. by rewrite release_absent.
Qed.

Lemma exec_reAdd name id vs0 n w :
  faults w = [] -> entries w !! (lbsName r, id) = Some vs0 -> known_id (lbsName r) (new_id w) w = false ->
  exec (reAdd r name (mkEntry id vs0) n) w =
  if bool_decide (pend id ∈ pel w)
  then (reQueueRequeued, name, None, move r id (lbsName r) (newValues (mkEntry id vs0) n) w)
  else (reQueueLostRace, name, None, w).
Proof.
  intros Hf He Hk. unfold reAdd. simpl mbind. rewrite exec_xack by done. case_bool_decide.
  - simpl. rewrite exec_xadd by done. simpl. rewrite (exec_xdel _ _ _ vs0) by done. simpl.
    by rewrite exec_metric.
  - simpl. by rewrite release_absent.
Qed.

Lemma exec_bind {A B} (p : prog A) (f : A -> prog B) w :
  exec (prog_bind A B f p) w = let '(a, w') := exec p w in exec (f a) w'.
Proof.
  unfold exec. change (prog_bind A B f p) with (p ≫= f). rewrite run_bind. destruct (run p w) as [[a w1] t1]. simpl.
  by destruct (run (f a) w1) as [[b w2] t2].
Qed.

#[local] Opaque routeToDLQ reAdd.

(** A recovery without failures, as a step on states. *)
Lemma exec_reQueue id w :
  faults w = [] -> id <> ε -> DLQStream (recoveryConfig r) <> ε ->
  known_id (lbsName r) (new_id w) w = false -> known_id (DLQStream (recoveryConfig r)) (new_id w) w = false ->
  let '(out, _, err, w') := exec (reQueue r id) w in
  err = None /\ (out, w') = recover_spec r id w.
Proof.
  intros Hf Hid Hd Hk1 Hk2. unfold reQueue, readLBSEntry, recover_spec.
  simpl mbind. rewrite exec_call by done. simpl. rewrite String.eqb_refl.
  destruct (entries w !! (lbsName r, id)) as [vs|] eqn:He; simpl; [|by rewrite exec_xack].
  destruct (dataStreamName (mkEntry id vs)) as [name|e] eqn:Hn.
  - unfold CreateByParts. pose proof (dataStreamName_nonempty _ _ Hn) as Hne.
    destruct name as [|c1 name]; [done|]. destruct id as [|c2 id]; [done|].
    simpl. rewrite exec_call by done. simpl.
    set (key := FormMutexKey _). destruct (keys w !! key) as [v|]; simpl; [done|].
    destruct (_ <? _)%Z.
    + rewrite exec_bind, (exec_routeToDLQ _ _ vs) by done. by case_bool_decide.
    + rewrite exec_reAdd by done. by case_bool_decide.
  - rewrite exec_bind, (exec_routeToDLQ _ _ vs) by done. by case_bool_decide.
Qed.

End refined.

#[local] Transparent routeToDLQ reAdd.

(** ** A concrete server and its witnesses *)

(** Task [s1] was delivered as [1-0] to a consumer that died: still pending. *)
Definition orphan_world : world :=
  mkWorld {[("orders-input", "1-0") := produced "s1"]} {[("orders-input", "orders-group", "1-0")]}
    {[("orders-input", "orders-group", "1-0")]} ∅ ∅ 2 [].

Definition other_client : Client := default_DLQ (base_client false "redis-consumer-pod-2" "orders").

(** Two clients recover it at the same time, step by step. *)
Definition two_recoverers : pool world (option error) :=
  pool_exec answer [0; 1; 0; 1; 0; 1; 0; 1; 0; 0; 0; 1; 1]%nat
    (mkPool (recover "1-0" <$> [ByClaim demo_client "s1"; ByScan other_client]) orphan_world []).

Lemma demo_delivered (w : world) :
  delivs w = {[("orders-input", "orders-group", "1-0")]} -> delivered w "orders-input" "orders-group" "1-0".
Proof. intros Hw. simpl. rewrite Hw. by apply elem_of_singleton. Qed.

Lemma recover_at_most_once_witness :
  (count (fun y => is_xadd y.2) (hist two_recoverers) <= 1)%nat /\
  count (fun y => is_xadd y.2) (hist two_recoverers) = 1%nat.
Proof.
  split; [|vm_compute; reflexivity].
  apply (recover_at_most_once (background := expiry) "orders" "1-0"
    [ByClaim demo_client "s1"; ByScan other_client] orphan_world).
  - repeat constructor.
  - by apply demo_delivered.
  - apply pool_exec_rtc.
Defined.

(** Two [Claim]s of it; the second loses. *)
Definition two_claims : pool world (option error) :=
  pool_exec answer [0; 1; 0; 1; 0; 1; 0; 0; 0; 1; 1]%nat
    (mkPool ((fun c => recover "1-0" (ByClaim c.1 c.2)) <$> [(demo_client, "s1"); (other_client, "s1")]) orphan_world []).

Lemma claim_at_most_once_witness :
  threads two_claims !! 0%nat = Some (Ret None) /\
  threads two_claims !! 1%nat = Some (Ret (Some (ESentinel ErrAlreadyClaimed))) /\ 0%nat = 0%nat.
Proof.
  split; [vm_compute; reflexivity|]. split; [vm_compute; reflexivity|].
  apply (claim_at_most_once (background := expiry) "orders" "1-0" [(demo_client, "s1"); (other_client, "s1")]
    orphan_world two_claims).
  - repeat constructor.
  - by apply demo_delivered.
  - apply pool_exec_rtc.
  - vm_compute. reflexivity.
  - vm_compute. reflexivity.
Defined.


(** ** The owner at work: [s1] as [1-0], tracked and locked by the client *)

Definition s1_info : LBSInfo := mkLBSInfo "s1" "1-0".
Definition s1_mutex : Mutex := newMutex demo_client s1_info.

Definition owned_world : world :=
  mkWorld {[("orders-input", "1-0") := produced "s1"]} {[("orders-input", "orders-group", "1-0")]}
    {[("orders-input", "orders-group", "1-0")]} {[FormMutexKey s1_info := consumerID demo_client]}
    {["s1" := mkStreamLocksInfo s1_info s1_mutex None]} 2 [].

(** Locks other than the owner's expire. *)
Definition other_expiry (w w' : world) : Prop := exists k, k <> FormMutexKey s1_info /\ w' = set_keys (delete k) w.

Definition finishing : pool world (option error) :=
  pool_exec answer [0; 1; 1; 0; 0; 2; 0; 2; 2; 1; 2; 0; 0; 0]%nat
    (mkPool (DoneStream demo_client "s1" :: (recover "1-0" <$> [ByScan other_client; ByClaim other_client "s1"]))
      owned_world []).

Lemma done_recover_race_witness :
  threads finishing !! 0%nat = Some (Ret None) /\ count (fun y => is_xadd y.2) (hist finishing) = 0%nat.
Proof.
  split; [vm_compute; reflexivity|].
  unshelve eapply (done_recover_race (HL := reference_laws other_expiry _) "orders" "1-0" demo_client "s1" (produced "s1")
    [ByScan other_client; ByClaim other_client "s1"] _ _ _ _ "s1" owned_world finishing).
  - intros w w' (k & _ & ->). by exists k.
  - reflexivity.
  - repeat constructor.
  - reflexivity.
  - by apply dataStreamName_produced.
  - intros w w' (k & Hk & ->) Hl. simpl in *. by rewrite lookup_delete_ne.
  - by apply demo_delivered.
  - reflexivity.
  - intros n info. simpl. intros [<- <-]%lookup_singleton_Some. done.
  - intros _. by eexists.
  - apply pool_exec_rtc.
Defined.

(** ** The heartbeat of a finished entry *)

(** [s1] was produced twice; the client processes [1-0], finishes it, and then
    processes [2-0], all before the heartbeat of [1-0] wakes up. *)
Definition twice_world : world :=
  mkWorld {[("orders-input", "1-0") := produced "s1"; ("orders-input", "2-0") := produced "s1"]}
    {[("orders-input", "orders-group", "1-0"); ("orders-input", "orders-group", "2-0")]}
    {[("orders-input", "orders-group", "1-0"); ("orders-input", "orders-group", "2-0")]} ∅ ∅ 3 [].

Definition done_then_again : option error * world :=
  exec (err1 ← process_message demo_client ("1-0", produced "s1");
        err2 ← DoneStream demo_client "s1";
        err3 ← process_message demo_client ("2-0", produced "s1");
        mret (match err1, err2 with None, None => err3 | Some e, _ | _, Some e => Some e end)) twice_world.

Definition second_info : LBSInfo := mkLBSInfo "s1" "2-0".

(** A finished stream's heartbeat can disown its successor. The heartbeat
    asks whether its stream is done by name only. If the same stream name is
    delivered again before the heartbeat of the finished entry wakes up, then it
    (a) goes on, and sets the lock key of the finished entry again; or (b), if
    its extension fails, removes the successor from the lock map, so that
    [DoneStream] of a stream the client holds and still has pending answers
    [ErrDataStreamNotFound]. *)
Theorem heartbeat_disowns_successor :
  let w := done_then_again.2 in
  done_then_again.1 = None /\ keys w !! FormMutexKey s1_info = None /\
  (let '(res, w1) := exec (startExtendingKey demo_client 1 s1_mutex s1_info None) w in
   res = None /\ is_Some (keys w1 !! FormMutexKey s1_info)) /\
  (let '(res, w1) := exec (startExtendingKey demo_client 1 s1_mutex s1_info None) (set_faults [true] w) in
   is_Some res /\ lock_LBSInfo <$> locals w !! "s1" = Some second_info /\ locals w1 !! "s1" = None /\
   ("orders-input", "orders-group", "2-0") ∈ pel w1 /\ is_Some (keys w1 !! FormMutexKey second_info) /\
   (exec (DoneStream demo_client "s1") w1).1 = Some (ESentinel ErrDataStreamNotFound)).
Proof.
  vm_compute. repeat split; try reflexivity; eexists; reflexivity.
Qed.

(** ** Shutting down while a stream is being finished *)

(** The client shuts down; before it comes to [s1], the application has finished
    it by itself. *)
Definition shutdown_race : pool world (option error) :=
  pool_exec answer [0; 1; 1; 1; 1; 1; 1; 0]%nat
    (mkPool [Done demo_client; DoneStream demo_client "s1"] owned_world []).

(** A stream that finishes during shutdown stops the shutdown. [Done] takes
    the names of the tracked streams first and then finishes them one by one; if
    the application finishes one of them in between, successfully, [Done]
    returns [ErrDataStreamNotFound] and releases nothing: the broker stays open,
    the reader is not cancelled and no subscription is closed, although nothing
    is left to finish. *)
Theorem done_aborts_on_finished_stream :
  threads shutdown_race = [Ret (Some (ESentinel ErrDataStreamNotFound)); Ret None] /\
  locals (Effects.world shutdown_race) = ∅ /\ pel (Effects.world shutdown_race) = ∅ /\
  keys (Effects.world shutdown_race) = ∅ /\ existsb (fun y => is_teardown y.2) (hist shutdown_race) = false.
Proof. vm_compute. repeat split; reflexivity. Qed.
