(* ===== verification/Recorder.v ===== *)
(** * Implementations of metrics.Recorder

    metrics/recorder.go is an interface; this file gives it as a class of its
    sixteen methods, with the no-op recorder of metrics/noop_recorder.go and
    the Prometheus recorder of examples/prometheus/recorder.go as instances.

    The Prometheus collectors belong to client_golang. A method of the recorder
    is therefore modelled by the operations it performs on them, in order
    ([prom_op]), next to the recorder's own state, the map [streamStarts].
    Of client_golang the file uses three documented facts, as the predicate
    [op_ok] on operations: an operation panics when the number of label values
    differs from the number of labels the collector was declared with, and a
    counter panics when it is asked to decrease.

    Times are nanoseconds; [Seconds] is Go's float64 computation. *)

From Stdlib Require Import ZArith String Lia SpecFloat.
From stdpp Require Import base gmap strings list.
From S2P Require Import Prelude GoStrings Json Configs Errs Notifs Effects LbsEntry Options Requeue Streams Reader Reconcile Server RefServer.

#[local] Open Scope string_scope.
#[local] Open Scope list_scope.
#[local] Open Scope Z_scope.

(** ** metrics/recorder.go: the interface *)

Class Recorder (R : Type) := {
  recordStartupRecovery : bool -> Z -> Z -> R -> R;
  recordClaimAttempt : string -> bool -> Z -> R -> R;
  recordLockAcquisitionAttempt : string -> bool -> Z -> R -> R;
  recordLockExtensionAttempt : string -> bool -> R -> R;
  recordLockReleaseAttempt : string -> bool -> R -> R;
  recordStreamProcessingStart : string -> Z -> R -> R;
  recordStreamProcessingEnd : string -> Z -> R -> R;
  recordKspNotification : string -> R -> R;
  recordKspNotificationDropped : R -> R;
  recordReconciliationScan : Z -> Z -> Z -> Z -> R -> R;
  recordReQueue : string -> bool -> R -> R;
  recordDLQRouting : string -> R -> R;
  recordMutexAliveSkip : string -> R -> R;
  recordAckAddGap : string -> R -> R;
  recordTopologyReinit : bool -> R -> R;
  recordMasterKeyspaceSetup : bool -> R -> R
}.

(** A call of the interface: what the client's programs record, with the
    duration or the time it carries (ignored by the methods that have none). *)
Definition record {R} `{Recorder R} (x : metric * Z) : R -> R :=
  let '(m, d) := x in
  match m with
  | RecordStartupRecovery ok n => recordStartupRecovery ok n d
  | RecordClaimAttempt s ok => recordClaimAttempt s ok d
  | RecordLockAcquisitionAttempt s ok => recordLockAcquisitionAttempt s ok d
  | RecordLockExtensionAttempt s ok => recordLockExtensionAttempt s ok
  | RecordLockReleaseAttempt s ok => recordLockReleaseAttempt s ok
  | RecordStreamProcessingStart s => recordStreamProcessingStart s d
  | RecordStreamProcessingEnd s => recordStreamProcessingEnd s d
  | RecordKspNotification s => recordKspNotification s
  | RecordKspNotificationDropped => recordKspNotificationDropped
  | RecordReconciliationScan a b c => recordReconciliationScan a b c d
  | RecordReQueue s ok => recordReQueue s ok
  | RecordDLQRouting s => recordDLQRouting s
  | RecordMutexAliveSkip s => recordMutexAliveSkip s
  | RecordAckAddGap s => recordAckAddGap s
  | RecordTopologyReinit ok => recordTopologyReinit ok
  | RecordMasterKeyspaceSetup ok => recordMasterKeyspaceSetup ok
  end.

Definition record_all {R} `{Recorder R} (ms : list (metric * Z)) (p : R) : R :=
  fold_left (fun p x => record x p) ms p.

(** The metrics of a run, in order. *)
Definition metric_of (e : event) : option metric :=
  match projT1 e with Metric m => Some m | _ => None end.

Definition metrics (t : trace) : list metric := omap metric_of t.

(** The metrics of a run with the times they carry. *)
Definition timed (times : nat -> Z) (t : trace) : list (metric * Z) :=
  imap (fun i m => (m, times i)) (metrics t).

Lemma timed_fst times t : (timed times t).*1 = metrics t.
Proof. unfold timed. rewrite fmap_imap. generalize (metrics t). intros l. induction l as [|m l IH] using rev_ind; [done|].
  rewrite imap_app, IH. done. Qed.

(** ** metrics/noop_recorder.go *)

Module Noop.
Inductive NoopRecorder := mkNoopRecorder.

#[export] Instance NoopRecorder_Recorder : Recorder NoopRecorder := {|
  recordStartupRecovery := fun _ _ _ n => n;
  recordClaimAttempt := fun _ _ _ n => n;
  recordLockAcquisitionAttempt := fun _ _ _ n => n;
  recordLockExtensionAttempt := fun _ _ n => n;
  recordLockReleaseAttempt := fun _ _ n => n;
  recordStreamProcessingStart := fun _ _ n => n;
  recordStreamProcessingEnd := fun _ _ n => n;
  recordKspNotification := fun _ n => n;
  recordKspNotificationDropped := fun n => n;
  recordReconciliationScan := fun _ _ _ _ n => n;
  recordReQueue := fun _ _ n => n;
  recordDLQRouting := fun _ n => n;
  recordMutexAliveSkip := fun _ n => n;
  recordAckAddGap := fun _ n => n;
  recordTopologyReinit := fun _ n => n;
  recordMasterKeyspaceSetup := fun _ n => n
|}.
End Noop.

(** ** time.Duration and time.Time *)

Definition float64_of_int (z : Z) : spec_float := binary_normalize 53 1024 z 0 false.

(** [Duration.Seconds]. *)
Definition Seconds (d : Z) : spec_float :=
  SFadd 53 1024 (float64_of_int (Z.quot d Second))
    (SFdiv 53 1024 (float64_of_int (Z.rem d Second)) (float64_of_int 1000000000)).

(** [Time.Sub] saturates at the ends of a Duration. *)
Definition Sub (t u : Z) : Z := Z.max min_int64 (Z.min max_int64 (t - u)).

(** [strconv.FormatBool]. *)
Definition FormatBool (b : bool) : string := if b then "true" else "false".

(** ** examples/prometheus/recorder.go *)

Module Prometheus.

(** The collectors of the struct, under their field names. *)
Inductive collector :=
| claimTotal | claimDurationSeconds | lockExtensionTotal | lockReleaseTotal
| startupRecoveryTotal | startupRecoveryDurationSeconds | streamProcessingDurationSeconds
| kspNotificationTotal | kspNotificationDroppedTotal
| reconciliationScanTotal | reconciliationScanDuration | reconciliationRequeuedTotal
| reconciliationSkippedAliveTotal | reconciliationDLQRoutedTotal
| requeueTotal | dlqRoutingTotal | mutexAliveSkipTotal | ackAddGapTotal
| topologyReinitTotal | masterKeyspaceSetupTotal.

#[export] Instance collector_eq_dec : EqDecision collector.
Proof. solve_decision. Defined.

Inductive collector_kind := KCounter | KHistogram.

#[export] Instance collector_kind_eq_dec : EqDecision collector_kind.
Proof. solve_decision. Defined.

(** What a collector is declared with; a plain Counter or Histogram has no labels. *)
Record desc := mkDesc { d_kind : collector_kind; d_name : string; d_labels : list string }.

(** An operation on a collector's child for some label values. *)
Inductive prom_op :=
| Inc (c : collector) (lvs : list string)
| Add (c : collector) (lvs : list string) (v : Z)              (* Add(float64(v)) *)
| Observe (c : collector) (lvs : list string) (v : spec_float).

(** The recorder: its own map (nil until first written) and what it has done to
    its collectors. *)
Record PrometheusRecorder := mkRecorder {
  streamStarts : option (gmap string Z);
  ops : list prom_op
}.

Definition perform (l : list prom_op) (p : PrometheusRecorder) : PrometheusRecorder :=
  mkRecorder (streamStarts p) (ops p ++ l).

(** The declarations, in the order they are registered. *)
Definition declarations : list (collector * desc) := [
  (claimTotal, mkDesc KCounter "redis_mutex_claim_total" ["stream"; "success"]);
  (claimDurationSeconds, mkDesc KHistogram "redis_mutex_claim_duration_seconds" ["stream"]);
  (lockExtensionTotal, mkDesc KCounter "redis_mutex_lock_extension_total" ["stream"; "success"]);
  (lockReleaseTotal, mkDesc KCounter "redis_mutex_lock_release_total" ["stream"; "success"]);
  (startupRecoveryTotal, mkDesc KCounter "redis_mutex_startup_recovery_total" ["success"]);
  (startupRecoveryDurationSeconds, mkDesc KHistogram "redis_mutex_startup_recovery_duration_seconds" ["stream"]);
  (streamProcessingDurationSeconds, mkDesc KHistogram "redis_mutex_stream_processing_duration_seconds" ["stream"]);
  (kspNotificationTotal, mkDesc KCounter "redis_mutex_ksp_notification_total" ["stream"]);
  (kspNotificationDroppedTotal, mkDesc KCounter "redis_mutex_ksp_notification_dropped_total" []);
  (reconciliationScanTotal, mkDesc KCounter "redis_reconciliation_scan_total" []);
  (reconciliationScanDuration, mkDesc KHistogram "redis_reconciliation_scan_duration_seconds" []);
  (reconciliationRequeuedTotal, mkDesc KCounter "redis_reconciliation_requeued_total" []);
  (reconciliationSkippedAliveTotal, mkDesc KCounter "redis_reconciliation_skipped_alive_total" []);
  (reconciliationDLQRoutedTotal, mkDesc KCounter "redis_reconciliation_dlq_routed_total" []);
  (requeueTotal, mkDesc KCounter "redis_requeue_total" ["stream"; "success"]);
  (dlqRoutingTotal, mkDesc KCounter "redis_dlq_routing_total" ["stream"]);
  (mutexAliveSkipTotal, mkDesc KCounter "redis_mutex_alive_skip_total" ["stream"]);
  (ackAddGapTotal, mkDesc KCounter "redis_ack_add_gap_total" ["stream"]);
  (topologyReinitTotal, mkDesc KCounter "redis_topology_reinit_total" ["success"]);
  (masterKeyspaceSetupTotal, mkDesc KCounter "redis_master_keyspace_setup_total" ["success"])].

(** [NewPrometheusRecorder] against a registerer that knows the names [reg]:
    registering a name twice panics ([None]). *)
Definition NewPrometheusRecorder (reg : list string) : option (PrometheusRecorder * list string) :=
  let register o cd := match o with
    | None => None
    | Some names => if decide (d_name (snd cd : desc) ∈ names) then None else Some (names ++ [d_name cd.2])
    end in
  match fold_left register declarations (Some reg) with
  | None => None
  | Some names => Some (mkRecorder None [], names)
  end.

Definition RecordClaimAttempt (streamName : string) (success : bool) (duration : Z) :=
  perform [Inc claimTotal [streamName; FormatBool success];
           Observe claimDurationSeconds [streamName] (Seconds duration)].

Definition RecordLockAcquisitionAttempt (streamName : string) (success : bool) (duration : Z) :=
  perform [Inc startupRecoveryTotal [FormatBool success];
           Observe startupRecoveryDurationSeconds [streamName] (Seconds duration)].

Definition RecordLockExtensionAttempt (streamName : string) (success : bool) :=
  perform [Inc lockExtensionTotal [streamName; FormatBool success]].

Definition RecordLockReleaseAttempt (streamName : string) (success : bool) :=
  perform [Inc lockReleaseTotal [streamName; FormatBool success]].

Definition RecordStartupRecovery (success : bool) (unackedCount : Z) (duration : Z) :=
  perform [Inc startupRecoveryTotal [FormatBool success];
           Observe startupRecoveryDurationSeconds [ε] (Seconds duration)].

Definition RecordStreamProcessingStart (streamName : string) (start : Z)
    (p : PrometheusRecorder) : PrometheusRecorder :=
  let starts := match streamStarts p with None => ∅ | Some m => m end in
  mkRecorder (Some (<[streamName := start]> starts)) (ops p).

Definition RecordStreamProcessingEnd (streamName : string) (end_ : Z)
    (p : PrometheusRecorder) : PrometheusRecorder :=
  match streamStarts p ≫= (.!! streamName) with
  | Some start =>
    let duration := Sub end_ start in
    mkRecorder (delete streamName <$> streamStarts p)
      (ops p ++ [Observe streamProcessingDurationSeconds [streamName] (Seconds duration)])
  | None => p
  end.

Definition RecordKspNotification (streamName : string) :=
  perform [Inc kspNotificationTotal [streamName]].

Definition RecordKspNotificationDropped :=
  perform [Inc kspNotificationDroppedTotal []].

Definition RecordReconciliationScan (requeued skippedAlive dlqRouted : Z) (duration : Z) :=
  perform [Inc reconciliationScanTotal [];
           Observe reconciliationScanDuration [] (Seconds duration);
           Add reconciliationRequeuedTotal [] requeued;
           Add reconciliationSkippedAliveTotal [] skippedAlive;
           Add reconciliationDLQRoutedTotal [] dlqRouted].

Definition RecordReQueue (streamName : string) (success : bool) :=
  perform [Inc requeueTotal [streamName; FormatBool success]].

Definition RecordDLQRouting (streamName : string) :=
  perform [Inc dlqRoutingTotal [streamName]].

Definition RecordMutexAliveSkip (streamName : string) :=
  perform [Inc mutexAliveSkipTotal [streamName]].

Definition RecordAckAddGap (streamName : string) :=
  perform [Inc ackAddGapTotal [streamName]].

Definition RecordTopologyReinit (success : bool) :=
  perform [Inc topologyReinitTotal [FormatBool success]].

Definition RecordMasterKeyspaceSetup (success : bool) :=
  perform [Inc masterKeyspaceSetupTotal [FormatBool success]].

#[export] Instance PrometheusRecorder_Recorder : Recorder PrometheusRecorder := {|
  recordStartupRecovery := RecordStartupRecovery;
  recordClaimAttempt := RecordClaimAttempt;
  recordLockAcquisitionAttempt := RecordLockAcquisitionAttempt;
  recordLockExtensionAttempt := RecordLockExtensionAttempt;
  recordLockReleaseAttempt := RecordLockReleaseAttempt;
  recordStreamProcessingStart := RecordStreamProcessingStart;
  recordStreamProcessingEnd := RecordStreamProcessingEnd;
  recordKspNotification := RecordKspNotification;
  recordKspNotificationDropped := RecordKspNotificationDropped;
  recordReconciliationScan := RecordReconciliationScan;
  recordReQueue := RecordReQueue;
  recordDLQRouting := RecordDLQRouting;
  recordMutexAliveSkip := RecordMutexAliveSkip;
  recordAckAddGap := RecordAckAddGap;
  recordTopologyReinit := RecordTopologyReinit;
  recordMasterKeyspaceSetup := RecordMasterKeyspaceSetup
|}.

(** ** What a recorder has told Prometheus *)

(** How much the children of [c] whose label values pass a test have grown. *)
Definition growth (c : collector) (f : list string -> bool) (o : prom_op) : Z :=
  match o with
  | Inc c' lvs => if decide (c' = c) then if f lvs then 1 else 0 else 0
  | Add c' lvs v => if decide (c' = c) then if f lvs then v else 0 else 0
  | Observe _ _ _ => 0
  end.

Definition value (c : collector) (f : list string -> bool) (p : PrometheusRecorder) : Z :=
  foldr (fun o n => growth c f o + n) 0 (ops p).

Definition any_labels (lvs : list string) : bool := true.

(** The children with [success="true"]. *)
Definition success_true (lvs : list string) : bool := bool_decide (last lvs = Some "true").

(** An operation that does not panic: its collector was declared with its kind
    and its number of labels, and no counter decreases. *)
Definition op_ok (o : prom_op) : Prop :=
  let declared c k lvs := exists d, (c, d) ∈ declarations /\ d_kind d = k /\ length (d_labels d) = length (lvs : list string) in
  match o with
  | Inc c lvs => declared c KCounter lvs
  | Add c lvs v => declared c KCounter lvs /\ 0 <= v
  | Observe c lvs _ => declared c KHistogram lvs
  end.

(** The totals of a recorded scan, if any. *)
Definition totals_of (m : metric) : option counters :=
  match m with Effects.RecordReconciliationScan a b c => Some (mkCounters a b c) | _ => None end.

Ltac declared := eexists; split; [repeat (apply list_elem_of_here || apply list_elem_of_further)|done].

Lemma record_ok x p :
  (forall c, totals_of x.1 = Some c -> counters_ok c) ->
  Forall op_ok (ops p) -> Forall op_ok (ops (record x p)).
Proof.
  intros Hx Hp. destruct x as [m d]. destruct m; simpl in *;
    unfold RecordStreamProcessingEnd; try case_match; try done;
    apply Forall_app_2; try done; repeat (constructor; [try declared|]); try constructor.
  all: by destruct (Hx _ eq_refl) as (? & ? & ?).
Qed.

Lemma record_all_ok ms p :
  Forall counters_ok (omap totals_of ms.*1) ->
  Forall op_ok (ops p) -> Forall op_ok (ops (record_all ms p)).
Proof.
  revert p. induction ms as [|x ms IH]; intros p; simpl; [done|]. intros Hms Hp. apply IH.
  - destruct (totals_of x.1); [by inversion Hms|done].
  - apply record_ok; [|done]. intros c Hc. rewrite Hc in Hms. by inversion Hms.
Qed.

(** A metric's part in a counter. *)
Lemma record_value c f h ms p :
  (forall x p, value c f (record x p) = value c f p + h x.1) ->
  value c f (record_all ms p) = value c f p + foldr (fun m n => h m + n) 0 ms.*1.
Proof.
  intros Hh. revert p. induction ms as [|x ms IH]; intros p; [simpl; lia|].
  change (record_all (x :: ms) p) with (record_all ms (record x p)). rewrite IH, Hh, fmap_cons. cbn [foldr]. lia.
Qed.

Lemma growth_app c f l1 l2 :
  foldr (fun o n => growth c f o + n) 0 (l1 ++ l2) =
  foldr (fun o n => growth c f o + n) 0 l1 + foldr (fun o n => growth c f o + n) 0 l2.
Proof. induction l1 as [|o l1 IH]; simpl; lia. Qed.

(** Sums over the metrics of a run. *)
Definition summed (h : metric -> Z) (t : trace) : Z := foldr (fun m n => h m + n) 0 (metrics t).

Lemma summed_test f t : summed (fun m => if f m : bool then 1 else 0) t = counted f t.
Proof.
  unfold summed, counted, metrics. induction t as [|[c a] t IH]; [done|].
  destruct c; csimpl; try done. rewrite IH. unfold is_metric. simpl. destruct (f m); lia.
Qed.

Definition scans (g : counters -> Z) (m : metric) : Z :=
  match totals_of m with Some c => g c | None => 0 end.

Lemma summed_scans g t : summed (scans g) t = foldr (fun c n => g c + n) 0 (omap scan_metric t).
Proof.
  unfold summed, metrics. induction t as [|[c a] t IH]; [done|].
  destruct c; csimpl; try done. rewrite IH. unfold scan_metric at 2. simpl. by destruct m.
Qed.

Definition fresh : PrometheusRecorder := mkRecorder None [].

(** What the calls of a run, at the given times, do to a counter. *)
Lemma run_value c f h t times :
  (forall x p, value c f (record x p) = value c f p + h x.1) ->
  value c f (record_all (timed times t) fresh) = summed h t.
Proof. intros Hh. rewrite (record_value _ _ h) by done. by rewrite timed_fst. Qed.

Ltac part := intros [m d] [q l]; unfold value, scans; destruct m;
  repeat match goal with b : bool |- _ => destruct b end; simpl; unfold RecordStreamProcessingEnd;
  try case_match; simpl; rewrite ?growth_app; simpl; lia.

(** The counters of a run of the client's programs, from a fresh recorder. *)
Lemma run_counters t times :
  let p := record_all (timed times t) fresh in
  value requeueTotal success_true p = counted is_requeued t /\
  value mutexAliveSkipTotal any_labels p = counted is_skip t /\
  value dlqRoutingTotal any_labels p = counted is_dlq t /\
  value reconciliationRequeuedTotal any_labels p = summed (scans requeued) t /\
  value reconciliationSkippedAliveTotal any_labels p = summed (scans skippedAlive) t /\
  value reconciliationDLQRoutedTotal any_labels p = summed (scans dlqRouted) t.
Proof.
  intros p. unfold p. rewrite <-!summed_test. split_and!; apply run_value; try done; part.
Qed.

(** ** The recorder and the client *)

Lemma metrics_totals t : omap totals_of (metrics t) = omap scan_metric t.
Proof.
  unfold metrics. induction t as [|[c a] t IH]; [done|].
  destruct c; csimpl; try done. rewrite IH. unfold scan_metric at 2. by destruct m.
Qed.

(** The client never makes the Prometheus recorder panic. Whatever a pass of
    [reconcileLBS] records, every operation the recorder performs is on a
    collector declared with that kind and that number of labels, and no counter
    is asked to decrease. *)
Theorem prometheus_no_panic r startup :
  0 < BatchSize (recoveryConfig r) < max_int64 ->
  wp (reconcileLBS r startup) (fun t _ => Forall pending_ok t ->
    forall times,
    Forall op_ok (ops (record_all (timed times t) fresh))).
Proof.
  intros Hb. eapply wp_mono; [|by apply (reconcile_nonneg r startup)]. intros t a H Hp times.
  apply record_all_ok; [|constructor]. rewrite timed_fst, metrics_totals. by apply H.
Qed.


(** ** streamStarts *)

(** Since when a stream is being processed, read off the history backwards: the
    last start of it that no end followed. *)
Fixpoint open_since (s : string) (past : list (metric * Z)) : option Z :=
  match past with
  | [] => None
  | (Effects.RecordStreamProcessingStart s', d) :: past' => if decide (s' = s) then Some d else open_since s past'
  | (Effects.RecordStreamProcessingEnd s', _) :: past' => if decide (s' = s) then None else open_since s past'
  | _ :: past' => open_since s past'
  end.

(** The processing times of a stream that were completed by [ms], after [past]. *)
Fixpoint completed (s : string) (past ms : list (metric * Z)) : list Z :=
  match ms with
  | [] => []
  | x :: ms' =>
    match x with
    | (Effects.RecordStreamProcessingEnd s', d) =>
      if decide (s' = s) then match open_since s past with Some d0 => [Sub d d0] | None => [] end else []
    | _ => []
    end ++ completed s (x :: past) ms'
  end.

(** The processing durations observed for a stream. *)
Definition observed (s : string) (p : PrometheusRecorder) : list spec_float :=
  omap (fun o => match o with
    | Observe c lvs v => if decide (c = streamProcessingDurationSeconds /\ lvs = [s]) then Some v else None
    | _ => None end) (ops p).

Definition started (s : string) (p : PrometheusRecorder) : option Z := streamStarts p ≫= (.!! s).

(** One call, on what is open and what was observed. *)
Lemma record_starts s x past p :
  (forall s, started s p = open_since s past) ->
  started s (record x p) = open_since s (x :: past) /\
  observed s (record x p) = observed s p ++ (Seconds <$> completed s past [x]).
Proof.
  intros Hp. pose proof (Hp s) as Hs. unfold observed, started in *. destruct x as [m d]. destruct m; simpl;
    rewrite ?omap_app; simpl; try (split; [done|by rewrite ?app_nil_r]).
  - destruct (streamStarts p) as [st|]; simpl in *; rewrite app_nil_r; (split; [|done]);
      (case_decide; [subst; by rewrite lookup_insert_eq|rewrite lookup_insert_ne by done]); [done|].
    by rewrite lookup_empty.
  - unfold RecordStreamProcessingEnd. rewrite Hp. destruct (decide (streamName = s)) as [->|Hne].
    + destruct (open_since s past) as [d0|] eqn:E; simpl; [|by rewrite app_nil_r].
      rewrite omap_app. simpl. rewrite decide_True by done.
      destruct (streamStarts p); [|done]. simpl. by rewrite lookup_delete_eq.
    + destruct (open_since streamName past) as [d0|] eqn:E; simpl; [|by rewrite app_nil_r].
      rewrite omap_app. simpl. rewrite decide_False by naive_solver. split; [|done].
      rewrite <-Hs. destruct (streamStarts p); [|done]. simpl. by rewrite lookup_delete_ne.
Qed.

Lemma record_all_starts ms : forall past p,
  (forall s, started s p = open_since s past) -> forall s,
  started s (record_all ms p) = open_since s (rev ms ++ past) /\
  observed s (record_all ms p) = observed s p ++ (Seconds <$> completed s past ms).
Proof.
  induction ms as [|x ms IH]; intros past p Hp s; [by rewrite app_nil_r|].
  change (record_all (x :: ms) p) with (record_all ms (record x p)).
  pose proof (fun s => proj1 (record_starts s x past p Hp)) as Hx.
  destruct (IH _ _ Hx s) as [-> ->]. split; [simpl; by rewrite <-app_assoc|].
  rewrite (proj2 (record_starts s x past p Hp)), <-app_assoc, <-fmap_app. f_equal. f_equal.
  simpl. by rewrite app_nil_r.
Qed.

(** A pass that finds one orphan. *)
Definition scan_run : unit * world * trace := run (reconcileLBS demo_client false) orphan_world.

Definition within_count (e : event) : bool :=
  let '(existT c a) := e in
  match c return resp c -> bool with
  | XPendingExt _ _ _ _ _ n => fun a => match a with Ok l => Z.of_nat (length l) <=? n | Err _ => true end
  | _ => fun _ => true
  end a.

Lemma within_count_ok t : forallb within_count t = true -> Forall pending_ok t.
Proof.
  rewrite forallb_forall, Forall_forall. intros Hf e He. specialize (Hf e (proj1 (list_elem_of_In _ _) He)).
  destruct e as [c a]. destruct c; try done. destruct a; [by apply Z.leb_le|done].
Qed.

Lemma scan_run_listed : Forall pending_ok scan_run.2.
Proof. apply within_count_ok. vm_compute. reflexivity. Qed.

Lemma prometheus_no_panic_witness :
  Forall op_ok (ops (record_all (timed (fun _ => 7) scan_run.2) fresh)) /\
  length (ops (record_all (timed (fun _ => 7) scan_run.2) fresh)) = 6%nat.
Proof.
  split; [|vm_compute; reflexivity].
  pose proof (wp_run _ _ orphan_world (prometheus_no_panic demo_client false ltac:(split; reflexivity))) as Hw.
  cbv beta in Hw. fold scan_run in Hw. exact (Hw scan_run_listed (fun _ => 7)).
Defined.


(** C40: the recorder times every stream it was told about. After any sequence of
    recorded events, [streamStarts] holds for each stream exactly the last
    start that no end followed, and the durations observed for the stream are
    exactly those from each such start to the end that closed it, in order; an
    end without a start observes nothing. *)
Theorem prometheus_durations ms s :
  let p := record_all ms fresh in
  started s p = open_since s (rev ms) /\ observed s p = Seconds <$> completed s [] ms.
Proof. destruct (record_all_starts ms [] fresh (fun _ => eq_refl) s) as [H1 H2]. by rewrite app_nil_r in H1. Qed.

(** ** Two defects *)

Definition is_startup (b : bool) (m : metric) : bool :=
  match m with Effects.RecordStartupRecovery ok _ => Bool.eqb ok b | _ => false end.
Definition is_lock_attempt (b : bool) (m : metric) : bool :=
  match m with Effects.RecordLockAcquisitionAttempt _ ok => Bool.eqb ok b | _ => false end.

(** Lock attempts are reported as startup recoveries. In Prometheus, the
    counter of startup recoveries with a given success is the number of startup
    recoveries plus the number of lock acquisition attempts with that success;
    so the counter named for startup recovery grows with every stream the client
    is handed, and no collector counts lock acquisitions. *)
Theorem prometheus_startup_counts_locks b t times :
  value startupRecoveryTotal (fun lvs => bool_decide (lvs = [FormatBool b]))
    (record_all (timed times t) fresh) =
  counted (is_startup b) t + counted (is_lock_attempt b) t.
Proof.
  rewrite (run_value _ _ (fun m => (if is_startup b m then 1 else 0) +
    (if is_lock_attempt b m then 1 else 0))) by (done || part).
  rewrite <-!summed_test. unfold summed. induction (metrics t) as [|m l IH]; simpl in *; lia.
Qed.

(** A client is handed [s1] while its application, told of it, finishes it. *)
Definition quick_finish : pool world (option error) :=
  pool_exec answer [0; 0; 0; 0; 1; 1; 1; 1; 1; 1; 0; 0]%nat
    (mkPool [process_message demo_client ("1-0", produced "s1"); DoneStream demo_client "s1"] orphan_world []).

(** A stream that is finished quickly is never timed. The client announces a
    stream before it records the start of its processing; if the application
    finishes the stream in between, the end is recorded first: both calls
    succeed, nothing is observed, and the start stays in [streamStarts]
    although the stream is no longer processed. *)
Theorem prometheus_end_before_start :
  let p := record_all (timed (fun i => 10 * Z.of_nat i) (hist quick_finish).*2) fresh in
  threads quick_finish = [Ret None; Ret None] /\ locals (Effects.world quick_finish) = ∅ /\
  observed "s1" p = [] /\ started "s1" p = Some 30.
Proof. vm_compute. repeat split; reflexivity. Qed.
End Prometheus.
