(* ===== verification/Rescue.v ===== *)
(** * What a reconciliation pass achieves

    Against the reference server: a pass of [reconcileLBS] that is not disturbed
    (no failing call, the context not ended, a batch as large as the pending
    list) leaves no orphan, that is, no pending entry without a live owner, and
    keeps a copy of every task it moved. The pass is the composition of the
    steps [recover_spec] of RefServer.v; what one step does to a well-formed
    server state is stated on states, and the loop follows by induction. *)

From Stdlib Require Import ZArith String Lia DecimalN DecimalString.
From stdpp Require Import base gmap strings list.
From S2P Require Import Prelude GoStrings Json Configs Errs Notifs Effects LbsEntry Options Requeue Streams Reader Reconcile Server RefServer.

#[local] Open Scope string_scope.
#[local] Open Scope list_scope.
#[local] Open Scope Z_scope.

(** ** Well-formed server states *)

(** IDs from [next_id] on are unused, what is pending was delivered, and IDs are
    not empty. *)
Record server_wf (w : world) : Prop := {
  wf_next : 0 <= next_id w;
  wf_fresh s n : next_id w <= n -> known_id s (Itoa n +:+ "-0") w = false;
  wf_pel s g i : (s, g, i) ∈ pel w -> (s, g, i) ∈ delivs w;
  wf_ids s g i : (s, g, i) ∈ delivs w -> i <> ε
}.

Lemma Itoa_inj a b : 0 <= a -> 0 <= b -> Itoa a = Itoa b -> a = b.
Proof.
  intros Ha Hb. unfold Itoa. destruct (Z.ltb_spec a 0), (Z.ltb_spec b 0); try lia. intros Heq.
  assert (Some (N.to_uint (Z.to_N a)) = Some (N.to_uint (Z.to_N b))) as [= Hu]
    by (rewrite <-!NilEmpty.usu, Heq; done).
  assert (N.of_uint (N.to_uint (Z.to_N a)) = N.of_uint (N.to_uint (Z.to_N b))) as Hn by by rewrite Hu.
  rewrite !Unsigned.of_to in Hn. lia.
Qed.

Lemma append_inj_r a b c : a +:+ c = b +:+ c -> a = b.
Proof.
  revert b. induction a as [|x a IH]; intros [|y b] Heq; simpl in *; [done| | |].
  - apply (f_equal String.length) in Heq. simpl in Heq. rewrite length_append in Heq. lia.
  - apply (f_equal String.length) in Heq. simpl in Heq. rewrite length_append in Heq. lia.
  - injection Heq as -> Heq. f_equal. by apply IH.
Qed.

Lemma known_id_spec s i w :
  known_id s i w = true <-> is_Some (entries w !! (s, i)) \/ exists g, (s, g, i) ∈ delivs w.
Proof.
  unfold known_id. rewrite orb_true_iff, !bool_decide_eq_true. apply or_iff_compat_l. split.
  - intros ([[s' g] i'] & Hin & ?). simpl in *. destruct_and?; simplify_eq. eauto.
  - intros [g Hg]. by exists (s, g, i).
Qed.

Section rescue.
Context (r : Client).

Abbreviation lbs := (lbsName r).
Abbreviation pend id := (lbsName r, lbsGroupName r, id).

(** ** Orphans *)

(** The owner of the entry holds its lock. *)
Definition owner_alive (w : world) (id : string) : Prop :=
  exists vs name, entries w !! (lbs, id) = Some vs /\ dataStreamName (mkEntry id vs) = Ok name /\
    is_Some (keys w !! FormMutexKey (mkLBSInfo name id)).

Definition orphan (w : world) (id : string) : Prop := pend id ∈ pel w /\ ~ owner_alive w id.

(** A copy of a task: an entry with the same payload, in the stream or the DLQ. *)
Definition copy_of (vs : values) (w : world) (dst i : string) : Prop :=
  (dst = lbs \/ dst = DLQStream (recoveryConfig r)) /\
  exists vs', entries w !! (dst, i) = Some vs' /\ vs' !! LBSInput = vs !! LBSInput.

Lemma newValues_payload id vs n : newValues (mkEntry id vs) n !! LBSInput = vs !! LBSInput.
Proof. unfold newValues. rewrite lookup_insert_ne by done. by rewrite cloneValues_eq. Qed.

Lemma dlqValues_payload id vs n reason : dlqValues (mkEntry id vs) n reason !! LBSInput = vs !! LBSInput.
Proof. unfold dlqValues. rewrite !lookup_insert_ne by done. by rewrite cloneValues_eq. Qed.

(** ** One step *)

(** How [recover_spec] may change a state: the entry leaves the pending list,
    and possibly moves. *)
Inductive rescued (id : string) (w : world) : world -> Prop :=
| rescue_same : rescued id w w
| rescue_released : entries w !! (lbs, id) = None -> rescued id w (release r id w)
| rescue_moved dst vs vs' :
    (dst = lbs \/ dst = DLQStream (recoveryConfig r)) -> entries w !! (lbs, id) = Some vs ->
    vs' !! LBSInput = vs !! LBSInput -> rescued id w (move r id dst vs' w).

Lemma recover_spec_rescued id w :
  rescued id w (recover_spec r id w).2 /\ ~ orphan (recover_spec r id w).2 id.
Proof.
  unfold recover_spec, orphan, owner_alive.
  destruct (entries w !! (lbs, id)) as [vs|] eqn:He; [|split; [by constructor|simpl; set_solver]].
  assert (pend id ∉ pel w ∖ {[pend id]}) as Hout by set_solver.
  destruct (dataStreamName (mkEntry id vs)) as [name|e] eqn:Hn.
  - case_bool_decide as Hk; [split; [constructor|intros [_ Hno]; apply Hno; eauto 10]|].
    case_bool_decide as Hp; simpl; [|split; [constructor|naive_solver]].
    destruct (_ <? _); simpl; (split; [|by intros [Hx _]]); eapply (rescue_moved _ _ _ vs); eauto.
    + apply dlqValues_payload.
    + apply newValues_payload.
  - case_bool_decide as Hp; simpl; [|split; [constructor|naive_solver]].
    split; [|by intros [Hx _]]. eapply (rescue_moved _ _ _ vs); eauto. apply dlqValues_payload.
Qed.

(** What a step leaves as it was. *)
Lemma rescued_frame id w w' :
  rescued id w w' -> delivs w' = delivs w /\ keys w' = keys w /\ faults w' = faults w.
Proof. by intros []. Qed.

(** A new ID is used by no entry and by no delivery. *)
Lemma fresh_ne w s i : server_wf w -> known_id s i w = true -> i <> new_id w.
Proof. intros Hwf Hk ->. unfold new_id in Hk. by rewrite (wf_fresh w Hwf s (next_id w)) in Hk by lia. Qed.

Lemma rescued_wf id w w' : server_wf w -> rescued id w w' -> server_wf w'.
Proof.
  intros Hwf Hr. destruct Hr as [|Hn|dst vs vs' Hd He Hp]; [done| |].
  - destruct Hwf as [H1 H2 H3 H4]. split; [done|exact H2| |exact H4]. simpl. intros. apply H3. set_solver.
  - destruct Hwf as [H1 H2 H3 H4]. split; simpl; [lia| |intros; apply H3; set_solver|exact H4].
    intros s n Hle. specialize (H2 s n ltac:(lia)). apply not_true_iff_false in H2. apply not_true_iff_false.
    contradict H2. rewrite known_id_spec in *. simpl in H2. destruct H2 as [[v Hv]|]; [left|by right].
    apply lookup_delete_Some in Hv as [_ Hv]. apply lookup_insert_Some in Hv as [[Heq _]|[_ Hv]]; [|eauto].
    exfalso. injection Heq as _ Heq. apply append_inj_r, Itoa_inj in Heq; lia.
Qed.

(** Other known entries stay; those pending stay pending, with the same owner. *)
Lemma rescued_entry id w w' s i :
  server_wf w -> rescued id w w' -> known_id s i w = true -> (s, i) <> (lbs, id) ->
  entries w' !! (s, i) = entries w !! (s, i).
Proof.
  intros Hwf Hr Hk Hne. destruct Hr as [| |dst vs vs' Hd He Hp]; try done. simpl.
  rewrite lookup_delete_ne by done. apply lookup_insert_ne. intros [= _ Heq].
  by apply (fresh_ne _ _ _ Hwf Hk).
Qed.

Lemma delivered_known w j : pend j ∈ delivs w -> known_id lbs j w = true.
Proof. intros Hj. apply known_id_spec. eauto. Qed.

Lemma rescued_orphan id w w' j :
  server_wf w -> rescued id w w' -> j <> id -> pend j ∈ delivs w -> orphan w' j <-> orphan w j.
Proof.
  intros Hwf Hr Hne Hj. unfold orphan, owner_alive.
  rewrite (rescued_entry id w w' lbs j Hwf Hr (delivered_known _ _ Hj)) by congruence.
  destruct (rescued_frame _ _ _ Hr) as (_ & -> & _).
  assert (pend j ∈ pel w' <-> pend j ∈ pel w) as ->; [|done]. destruct Hr; simpl; set_solver.
Qed.

Lemma rescued_copy id w w' vs dst i :
  server_wf w -> rescued id w w' -> copy_of vs w dst i -> (dst, i) <> (lbs, id) -> copy_of vs w' dst i.
Proof.
  intros Hwf Hr [Hd (vs' & He & Hp)] Hne. split; [done|]. exists vs'. split; [|done].
  rewrite (rescued_entry id w w') by (done || apply known_id_spec; eauto). done.
Qed.

(** An orphan that is rescued has a copy, under an ID that was not in use. *)
Lemma rescued_orphan_copy id w w' vs :
  server_wf w -> rescued id w w' -> orphan w id -> ~ orphan w' id -> entries w !! (lbs, id) = Some vs ->
  exists dst, copy_of vs w' dst (new_id w).
Proof.
  intros Hwf Hr Ho Hno He. destruct Hr as [|Hn|dst vs0 vs' Hd He' Hp]; [done|congruence|].
  simplify_eq. exists dst. split; [done|]. exists vs'. split; [|done]. simpl.
  rewrite lookup_delete_ne; [by rewrite lookup_insert_eq|]. intros [= _ Heq].
  apply (fresh_ne w lbs id Hwf); [|congruence]. apply known_id_spec. eauto.
Qed.

(** Entries with a live owner stay as they are. *)
Definition kept_alive (w w' : world) : Prop :=
  forall j, pend j ∈ pel w -> owner_alive w j -> pend j ∈ pel w' /\ owner_alive w' j.

Lemma recover_spec_alive id w : server_wf w -> kept_alive w (recover_spec r id w).2.
Proof.
  intros Hwf j Hj Ha. destruct (decide (j = id)) as [->|Hne].
  - destruct Ha as (vs & name & He & Hn & Hk). unfold recover_spec. rewrite He, Hn, bool_decide_true by done.
    split; [done|]. by exists vs, name.
  - destruct (recover_spec_rescued id w) as [Hr _]. pose proof (wf_pel w Hwf _ _ _ Hj) as Hd.
    destruct Ha as (vs & name & He & Hn & Hk). split.
    + destruct Hr; simpl; set_solver.
    + exists vs, name. rewrite (rescued_entry id w _ lbs j Hwf Hr) by (congruence || by apply delivered_known).
      by destruct (rescued_frame _ _ _ Hr) as (_ & -> & _).
Qed.

(** ** The scan *)

Hypothesis has_DLQ : DLQStream (recoveryConfig r) <> ε.

(** What scanning [ids] has achieved in the state [w']. *)
Record scan_result (ids : list string) (w w' : world) : Prop := {
  sr_wf : server_wf w';
  sr_faults : faults w' = [];
  sr_delivs : delivs w' = delivs w;
  sr_pel : pel w' ⊆ pel w;
  sr_alive : kept_alive w w';
  sr_rescued id : id ∈ ids -> ~ orphan w' id;
  sr_others j : j ∉ ids -> pend j ∈ delivs w -> orphan w' j <-> orphan w j;
  sr_copies id vs : id ∈ ids -> orphan w id -> entries w !! (lbs, id) = Some vs -> exists dst i, copy_of vs w' dst i;
  sr_kept vs dst i : copy_of vs w dst i -> (forall id, id ∈ ids -> (dst, i) <> (lbs, id)) -> copy_of vs w' dst i
}.

Lemma scan_result_nil w : server_wf w -> faults w = [] -> scan_result [] w w.
Proof. intros Hwf Hf. split; try done; try (by intros j Hj Ha); set_solver. Qed.

Lemma scan_result_cons id ids w w1 w' :
  server_wf w -> NoDup (id :: ids) -> (forall j, j ∈ id :: ids -> pend j ∈ delivs w) ->
  rescued id w w1 -> ~ orphan w1 id -> kept_alive w w1 -> scan_result ids w1 w' -> scan_result (id :: ids) w w'.
Proof.
  intros Hwf [Hni Hnd]%NoDup_cons Hdel Hr Hno Hal [S1 S2 S3 Sp S0 S4 S5 S6 S7].
  destruct (rescued_frame _ _ _ Hr) as (Hd & Hk & Hf).
  assert (forall j, j ∈ ids -> j <> id) as Hjne by (intros j Hj ->; done).
  split; [done|done|congruence|..].
  - etrans; [exact Sp|]. destruct Hr; simpl; set_solver.
  - intros j Hj Ha. destruct (Hal j Hj Ha). by apply S0.
  - intros j [->|Hj]%elem_of_cons; [|by apply S4]. rewrite S5; [done|done|]. rewrite Hd. apply Hdel. set_solver.
  - intros j Hj Hjd. rewrite S5 by (rewrite ?Hd; set_solver). apply (rescued_orphan id); set_solver.
  - intros j vs [->|Hj]%elem_of_cons Ho He.
    + destruct (rescued_orphan_copy id w w1 vs Hwf Hr Ho Hno He) as [dst Hc]. exists dst, (new_id w).
      apply S7; [done|]. intros k Hk'. intros [= _ Heq]. apply (fresh_ne w lbs k Hwf); [|congruence].
      apply delivered_known, Hdel. set_solver.
    + assert (pend j ∈ delivs w) as Hjd by (apply Hdel; set_solver).
      apply (S6 j); [done|by apply (rescued_orphan id w w1 j Hwf Hr (Hjne j Hj) Hjd)|].
      rewrite (rescued_entry id w w1) by (done || (by apply delivered_known) || (specialize (Hjne j Hj); congruence)). done.
  - intros vs dst i Hc Hn. apply S7; [|set_solver]. apply (rescued_copy id w w1); [done..|]. apply Hn. set_solver.
Qed.

Lemma scan_rescues ids : forall c w,
  server_wf w -> faults w = [] -> NoDup ids -> (forall j, j ∈ ids -> j <> ε /\ pend j ∈ delivs w) ->
  exists c' w', exec (scan r ids c) w = (Some c', w') /\ scan_result ids w w'.
Proof.
  induction ids as [|id ids IH]; intros c w Hwf Hf Hnd Hids.
  { exists c, w. split; [done|by apply scan_result_nil]. }
  destruct (Hids id ltac:(set_solver)) as [Hne Hdel].
  cbn [scan]. unfold isContextDone. cbn [mbind prog_bind call]. rewrite exec_call by done. cbn [respond default_resp].
  cbn beta iota. change (prog_bind ?A ?B ?f (Ret ?x)) with (f x). cbn beta iota.
  pose proof (exec_reQueue r id w Hf Hne has_DLQ
    ltac:(apply (wf_fresh w Hwf); lia) ltac:(apply (wf_fresh w Hwf); lia)) as Hq.
  change (?p ≫= ?g) with (prog_bind _ _ g p). rewrite exec_bind.
  destruct (exec (reQueue r id) w) as [[[out nm] err] w1]. destruct Hq as [-> Hs].
  destruct (recover_spec_rescued id w) as [Hr Hno]. rewrite <-Hs in Hr, Hno. simpl in Hr, Hno.
  destruct (rescued_frame _ _ _ Hr) as (Hd & _ & Hf1).
  assert (NoDup ids) as Hnd' by by apply NoDup_cons in Hnd as [_ ?].
  destruct (IH (tally c out) w1) as (c' & w' & He & HR);
    [by eapply rescued_wf|congruence|done|rewrite Hd; intros; apply Hids; set_solver|].
  exists c', w'. split; [done|]. apply (scan_result_cons id ids w w1); try done; [intros j Hj; by apply Hids|].
  pose proof (recover_spec_alive id w Hwf) as Hal. by rewrite <-Hs in Hal.
Qed.

(** ** The pass *)

(** What XPENDING lists of the group, when the batch is large enough. *)
Definition group_pending (w : world) : list string :=
  omap (fun x => if bool_decide (x.1 = (lbs, lbsGroupName r)) then Some x.2 else None) (elements (pel w)).

Lemma group_pending_elem w id : id ∈ group_pending w <-> pend id ∈ pel w.
Proof.
  unfold group_pending. rewrite list_elem_of_omap. split.
  - intros ([[s g] i] & Hin & Hx). simpl in Hx. case_bool_decide as Hb; simplify_eq. by apply elem_of_elements.
  - intros Hp. exists (pend id). split; [by apply elem_of_elements|]. simpl. by rewrite bool_decide_true.
Qed.

Lemma group_pending_NoDup w : NoDup (group_pending w).
Proof.
  unfold group_pending. pose proof (NoDup_elements (pel w)) as Hnd.
  induction (elements (pel w)) as [|[[s g] i] l IH]; [constructor|]. apply NoDup_cons in Hnd as [Hn Hnd].
  csimpl. case_bool_decide as Hb; [|by apply IH]. simplify_eq. constructor; [|by apply IH].
  intros ([[s' g'] i'] & Hin & Hx)%list_elem_of_omap. simpl in Hx. by case_bool_decide; simplify_eq.
Qed.

Lemma group_pending_length w : (length (group_pending w) <= size (pel w))%nat.
Proof.
  unfold group_pending, size, set_size. simpl. induction (elements (pel w)) as [|x l IH]; [done|].
  csimpl. case_bool_decide; simpl in *; lia.
Qed.

(** A pass is the scan of what is pending; the rest only records metrics. *)
Lemma exec_reconcile_pass startup w c w1 :
  faults w = [] -> faults w1 = [] -> Z.of_nat (length (group_pending w)) <= BatchSize (recoveryConfig r) ->
  exec (scan r (group_pending w) (mkCounters 0 0 0)) w = (Some c, w1) ->
  (exec (reconcileLBS r startup) w).2 = w1.
Proof.
  intros Hf Hf1 Hb He. unfold reconcileLBS. cbn [mbind prog_bind call]. rewrite exec_call by done.
  cbn [respond]. fold (group_pending w). rewrite take_ge by lia. cbn beta iota.
  change (prog_bind ?A ?B ?f (Ret ?x)) with (f x). cbn beta iota. change (?p ≫= ?g) with (prog_bind _ _ g p).
  rewrite exec_bind, He. destruct startup; cbn [mbind prog_bind call]; by rewrite !exec_metric.
Qed.

End rescue.

(** ** A concrete pass *)

Lemma orphan_world_wf : server_wf orphan_world.
Proof.
  assert (forall n, 2 <= n -> Itoa n +:+ "-0" <> "1-0") as Hn.
  { intros n Hn Heq. change "1-0" with (Itoa 1 +:+ "-0") in Heq. apply append_inj_r, Itoa_inj in Heq; lia. }
  split; simpl.
  - lia.
  - intros s n Hle. apply not_true_iff_false. intros [[v Hv]|[g Hg]]%known_id_spec; simpl in *.
    + apply lookup_singleton_Some in Hv as [[= _ Heq] _]. by apply (Hn n Hle).
    + apply elem_of_singleton in Hg. injection Hg as _ _ Heq. by apply (Hn n Hle).
  - done.
  - intros s g i [= _ _ ->]%elem_of_singleton. done.
Qed.

