(* ===== verification/Conserve.v ===== *)
(** * No task is lost by recovery

    Concurrent recoveries against the reference server, with lock keys expiring
    and any calls failing (a failing call changes nothing there). Recovery
    acknowledges an entry before it adds the copy, so a task can be lost in one
    place only: between a won XACK and its XADD. This file shows that this is
    the only one. *)

From Stdlib Require Import ZArith String Lia.
From stdpp Require Import base gmap strings list relations.
From S2P Require Import Prelude GoStrings Json Configs Errs Notifs Effects LbsEntry Options Requeue Streams Server RefServer.

#[local] Open Scope string_scope.
#[local] Open Scope list_scope.

(** ** One recoverer *)

(** XRANGE of the entry found nothing. *)
Definition read_empty (stream id : string) (e : event) : bool :=
  let '(existT c a) := e in
  match c return resp c -> bool with
  | XRange s i j => fun a =>
    bool_decide (s = stream /\ i = id /\ j = id) && match a with Ok [] => true | _ => false end
  | _ => fun _ => false
  end a.

Definition xadd_failed (e : event) : bool :=
  let '(existT c a) := e in
  match c return resp c -> bool with
  | XAdd _ _ _ _ => fun a => match a with Err _ => true | Ok _ => false end
  | _ => fun _ => false
  end a.

(** A successful XADD of the task [vs] to the stream or to the DLQ. *)
Definition copied (c : Client) (vs : values) (e : event) : Prop :=
  exists s m a vs' id', e = ev (XAdd s m a vs') (Ok id') /\
    (s = lbsName c \/ s = DLQStream (recoveryConfig c)) /\ payload vs' = payload vs.

(** A recovery that has won the entry ends with a copy, or with a failed XADD. *)
Definition resolved (c : Client) (vs : values) (t : trace) : Prop :=
  List.Exists (copied c vs) t \/ occurs xadd_failed t = true.

Definition conserve_ok (c : Client) (id : string) (t : trace) : Prop :=
  let won := won_ack (lbsName c) (lbsGroupName c) id in
  (occurs is_xdel t = true -> occurs won t = true) /\
  (occurs won t = true -> occurs (read_empty (lbsName c) id) t = true \/ is_Some (orig t)).

Ltac conserve := unfold occurs, orig; simpl; rewrite ?bool_decide_true by done; simpl;
  repeat match goal with H : (_ =? 0)%Z = _ |- _ => rewrite ?H; clear H end; simpl;
  repeat case_match; simpl in *; try done; eauto.

Lemma reQueue_conserve c id : always (reQueue c id) (conserve_ok c id).
Proof.
  unfold conserve_ok, reQueue, reAdd, routeToDLQ, readLBSEntry, ownerAlive, CreateByParts.
  walk ltac:(split; conserve).
  all: repeat (split || intro); repeat case_match; simpl in *; try done; eauto.
Qed.

Ltac resolve :=
  let Ho := fresh in let Hw := fresh in intros Ho Hw; unfold orig, occurs in *; simpl in Ho, Hw;
  repeat match goal with H : (_ =? 0)%Z = _ |- _ => rewrite ?H in Hw; clear H end;
  rewrite ?andb_false_r in Hw; simplify_eq/=;
  first
  [ discriminate
  | right; unfold occurs; reflexivity
  | left; repeat first
      [ apply Exists_cons_hd; do 5 eexists; split; [reflexivity|]; split; [by auto|];
        by rewrite ?payload_newValues, ?payload_dlqValues
      | apply Exists_cons_tl ] ].

Lemma reQueue_resolves c id :
  DLQStream (recoveryConfig c) <> ε ->
  wp (reQueue c id) (fun t _ => forall vs, orig t = Some vs ->
    occurs (won_ack (lbsName c) (lbsGroupName c) id) t = true -> resolved c vs t).
Proof.
  intros Hd%String.eqb_neq.
  unfold resolved, reQueue, reAdd, routeToDLQ, readLBSEntry, ownerAlive, CreateByParts. rewrite Hd.
  walk ltac:(resolve).
Qed.

Lemma recover_conserve id x : always (recover id x) (conserve_ok (client_of x) id).
Proof.
  destruct x as [c name|c]; unfold recover, Claim; (apply always_bind; [apply reQueue_conserve|]);
    (eapply wp_mono; [|apply always_wp, reQueue_conserve]); intros t [[out nm] err] Ht; simpl;
    repeat case_match; simpl; rewrite app_nil_r; done.
Qed.

Lemma recover_resolves id x :
  DLQStream (recoveryConfig (client_of x)) <> ε ->
  wp (recover id x) (fun t _ => forall vs, orig t = Some vs ->
    occurs (won_ack (lbsName (client_of x)) (lbsGroupName (client_of x)) id) t = true -> resolved (client_of x) vs t).
Proof.
  intros Hd. destruct x as [c name|c]; unfold recover, Claim; simpl in Hd; refine (proj2 (wp_bind _ _ _) _);
    (eapply wp_mono; [|by apply reQueue_resolves]); intros t [[out nm] err] Ht; simpl;
    repeat case_match; simpl; rewrite app_nil_r; done.
Qed.

(** ** Many recoverers *)

Section conserve.
Context (service id : string) (vs : values).

Abbreviation lbs := (service +:+ InputSuffix).
Abbreviation group := (service +:+ GroupSuffix).
Abbreviation won := (won_ack lbs group id).
Abbreviation step := (pool_step (W := world) answer expiry).
Abbreviation missed := (read_empty lbs id).
Abbreviation the_pend := (lbs, group, id).

(** Before anyone has won, the entry is pending and in the stream, and nobody
    missed it; afterwards it is not pending, and the winner has read it. *)
Record conserve_inv (w : world) (h : list (nat * event)) : Prop := {
  ci_delivered : the_pend ∈ delivs w;
  ci_entry vs' : entries w !! (lbs, id) = Some vs' -> vs' = vs;
  ci_open : ~ has won h -> the_pend ∈ pel w /\ entries w !! (lbs, id) = Some vs /\ ~ has missed h;
  ci_won : has won h -> the_pend ∉ pel w;
  ci_read i vs' : orig (proj i h) = Some vs' -> vs' = vs;
  ci_winner i : occurs won (proj i h) = true -> is_Some (orig (proj i h))
}.

Lemma won_dec h : has won h \/ ~ has won h.
Proof.
  destruct (existsb (fun y => won y.2) h) eqn:E.
  - left. apply existsb_exists in E as (y & Hy & Hw). exists y. split; [by apply list_elem_of_In|done].
  - right. intros (y & Hy & Hw). apply not_true_iff_false in E. apply E. apply existsb_exists.
    exists y. split; [by apply list_elem_of_In|done].
Qed.

(** The pending mark goes only by a won XACK, the entry only by an XDEL. *)
Lemma serve_pel c w a w' :
  serve c w = (a, w') -> the_pend ∈ pel w -> won (ev c a) = false -> the_pend ∈ pel w'.
Proof.
  intros Hs Hp Hw. destruct (serve_cases _ _ _ _ Hs) as [[fs Hr]|[_ [fs ->]]]; [|done].
  destruct c; simpl in Hr; try (simplify_eq; done); try (unfold do_lock, do_extend, do_unlock, do_xadd in Hr;
    repeat case_match; simplify_eq; done).
  - case_bool_decide as Hb; simplify_eq; [|done]. simpl in *.
    match goal with |- _ ∈ _ ∖ {[?q]} => destruct (decide (q = the_pend)) as [[= -> -> ->]|Hne] end; [|set_solver].
    by rewrite !bool_decide_true in Hw by done.
  - unfold do_xreadgroup in Hr. simplify_eq. simpl. set_solver.
Qed.

Lemma serve_entry c w a w' :
  serve c w = (a, w') -> the_pend ∈ delivs w -> entries w !! (lbs, id) = Some vs -> is_xdel (ev c a) = false ->
  entries w' !! (lbs, id) = Some vs.
Proof.
  intros Hs Hd He Hx. destruct (serve_cases _ _ _ _ Hs) as [[fs Hr]|[_ [fs ->]]]; [|done].
  destruct c; try discriminate Hx; simpl in Hr; try (simplify_eq; done);
    try (unfold do_lock, do_extend, do_unlock in Hr; repeat case_match; simplify_eq; done).
  - unfold do_xadd in Hr. destruct (known_id _ _ _) eqn:Hk; simplify_eq; [done|]. simpl.
    rewrite lookup_insert_ne; [done|]. intros [= -> Heq]. unfold known_id in Hk. simpl in Hk.
    rewrite Heq, bool_decide_true in Hk by (rewrite He; eauto). done.
  - unfold do_xreadgroup in Hr. by simplify_eq.
Qed.

Lemma serve_missed c w a w' :
  serve c w = (a, w') -> entries w !! (lbs, id) = Some vs -> missed (ev c a) = false.
Proof.
  intros Hs He. apply not_true_iff_false. intros Hm. destruct c; try done. simpl in Hm.
  apply andb_true_iff in Hm as [(-> & -> & ->)%bool_decide_eq_true Hm].
  destruct (serve_cases (XRange lbs id id) _ _ _ Hs) as [[fs Hr]|[[= <-] _]]; [|done].
  simpl in Hr. rewrite String.eqb_refl, He in Hr. by simplify_eq.
Qed.

Lemma serve_read c w a w' vs' :
  serve c w = (a, w') -> projT1 (ev c a) = XRange lbs id id ->
  read_values (ev c a) = Some vs' -> entries w !! (lbs, id) = Some vs'.
Proof.
  intros Hs Hc. simpl in Hc. subst c.
  destruct (serve_cases (XRange lbs id id) _ _ _ Hs) as [[fs Hr]|[[= <-] _]]; [|done].
  simpl in Hr. rewrite String.eqb_refl in Hr. simplify_eq. simpl.
  destruct (entries w !! (lbs, id)); [|done]. by intros [= <-].
Qed.

(** What every recoverer's calls satisfy. *)
Definition recoverer_conserve (t : trace) : Prop :=
  (occurs is_xdel t = true -> occurs won t = true) /\
  (occurs won t = true -> occurs missed t = true \/ is_Some (orig t)) /\
  match t with e :: _ => projT1 e = XRange lbs id id | [] => True end.

Lemma recover_threads_conserve xs i p :
  same_service service xs -> (recover id <$> xs) !! i = Some p -> always p recoverer_conserve.
Proof.
  intros Hxs Hi. apply list_lookup_fmap_Some in Hi as (x & -> & Hx).
  pose proof (Forall_lookup_1 _ _ _ _ Hxs Hx) as Hn. apply service_names in Hn as [Hn Hg].
  eapply always_mono; [|apply always_and; [apply recover_conserve|apply recover_ok]].
  intros t [[H1 H2] (_ & _ & _ & _ & _ & H3 & _)]. unfold recoverer_conserve. rewrite Hn, Hg in *. done.
Qed.

Lemma occurs_snoc f t e : occurs f (t ++ [e]) = occurs f t || f e.
Proof. unfold occurs. rewrite existsb_app. simpl. by rewrite orb_false_r. Qed.

(** A call of a recoverer preserves the invariant. *)
Lemma conserve_call i c a w w' h :
  serve c w = (a, w') -> recoverer_conserve (proj i h ++ [ev c a]) -> conserve_inv w h ->
  conserve_inv w' (h ++ [(i, ev c a)]).
Proof.
  intros Hs (Hdel & Hwin & Hfirst) [I1 I2 I3 I4 I5 I6].
  destruct (serve_evolves _ _ _ _ Hs) as [E1 E2 E3 _ _].
  assert (won (ev c a) = true -> ~ has won h /\ the_pend ∉ pel w') as Hnew.
  { intros Hw. destruct (won_answer (HL := reference_laws_expiry) service id i c w a w' Hs Hw) as [Hp Hp'].
    split; [|done]. intros Hh. by apply (I4 Hh). }
  split.
  - set_solver.
  - intros vs' Hv. apply I2. by eapply E3.
  - rewrite has_snoc. intros Hn. destruct (I3 ltac:(naive_solver)) as (H1 & H2 & H3).
    assert (won (ev c a) = false) as Hw by (apply not_true_iff_false; naive_solver).
    assert (is_xdel (ev c a) = false) as Hx.
    { apply not_true_iff_false. intros Hx. apply Hn. rewrite occurs_snoc, Hx, orb_true_r in Hdel.
      specialize (Hdel eq_refl). rewrite occurs_snoc, Hw, orb_false_r in Hdel. left. by eapply has_proj. }
    split; [by eapply serve_pel|]. split; [by eapply serve_entry|]. rewrite has_snoc.
    intros [?|Hm]; [done|]. by rewrite (serve_missed _ _ _ _ Hs H2) in Hm.
  - rewrite has_snoc. intros [Hh|Hw]; [|by apply Hnew]. intros Hp. by apply (I4 Hh), E2.
  - intros j vs'. rewrite proj_snoc. case_decide; [subst j|rewrite app_nil_r; apply I5].
    rewrite orig_snoc. destruct (proj i h) eqn:Ep; [|rewrite <-Ep; apply I5].
    intros Hv. apply I2. by eapply serve_read.
  - intros j. rewrite proj_snoc. case_decide; [subst j|rewrite app_nil_r; apply I6].
    intros Hw. destruct (Hwin Hw) as [Hm|Ho]; [|done]. rewrite occurs_snoc in Hw.
    destruct (occurs won (proj i h)) eqn:Ew.
    { rewrite orig_snoc. destruct (proj i h) eqn:Ep; [done|]. rewrite <-Ep. by apply I6; rewrite Ep. }
    destruct (Hnew Hw) as [Hn _]. destruct (I3 Hn) as (_ & He & Hnm).
    rewrite occurs_snoc, (serve_missed _ _ _ _ Hs He), orb_false_r in Hm. by apply has_proj in Hm.
Qed.

Lemma conserve_reachable xs w x :
  same_service service xs -> the_pend ∈ pel w -> the_pend ∈ delivs w -> entries w !! (lbs, id) = Some vs ->
  rtc step (mkPool (recover id <$> xs) w []) x -> conserve_inv (Effects.world x) (hist x).
Proof.
  intros Hxs Hp Hd He Hr.
  refine (proj1 (pool_inv answer expiry (fun _ => recoverer_conserve) conserve_inv (recover id <$> xs) w x _ _ _ _ Hr)).
  - intros w1 w2 h (k & ->) [I1 I2 I3 I4 I5 I6]. by split.
  - intros i c a w1 w2 h Ha Ht Hi. by apply (conserve_call i c a w1 w2 h Ha).
  - assert (forall f, ~ has f []) as Hnil by (by intros f (y & ?%elem_of_nil & _)).
    split; [done|intros; congruence|by auto|by intros ?%Hnil|done|done].
  - intros i p Hi. by eapply recover_threads_conserve.
Qed.

End conserve.

