(* ===== verification/Settled.v ===== *)
(** * impl/settled.go: is the cluster settled?

    Every node reports its view of the cluster; [evaluateSettled] decides from
    the reports. Go's [sort.Slice] is not stable, so the sort is a parameter:
    the theorems need only that it permutes its argument. The nodes are asked one
    after the other; ForEach.v shows that asking them concurrently, as go-redis
    does, has no other outcomes. *)

From Stdlib Require Import ZArith String Lia.
From stdpp Require Import base strings list sorting gmap.
From S2P Require Import Prelude GoStrings Json Configs Errs Notifs Effects.

#[local] Open Scope string_scope.
#[local] Open Scope list_scope.

Record nodeReport := mkReport {
  addr : string;
  state : string;
  slots : string;
  report_err : option error
}.

(** ** Reading CLUSTER INFO and CLUSTER NODES *)

Fixpoint info_field (lines : list string) (key : string) : string :=
  match lines with
  | [] => ε
  | line :: lines' =>
    match CutPrefix (TrimSpace line) (key +:+ ":") with
    | Some v => v
    | None => info_field lines' key
    end
  end.

Definition clusterInfoField (info key : string) : string := info_field (Split info newline) key.

(** One line of CLUSTER NODES: the owner's entry, if it owns slots. *)
Definition line_owner (line : string) : option string :=
  let f := Fields line in
  if Nat.ltb (length f) 9 then None
  else
    let slots := filter (fun s => HasPrefix s "[" = false) (drop 8 f) in
    if Nat.ltb 0 (length slots) then Some (hd ε f +:+ " " +:+ StrJoin slots ",") else None.

Definition slotOwnership (clusterNodes : string) : string :=
  let owners := omap line_owner (Split clusterNodes newline) in
  StrJoin (sort_strings owners) newline.

(** ** evaluateSettled *)

(** The first loop: the nodes that answered, and the first error. *)
Definition collect (acc : list nodeReport * option error) (rep : nodeReport) : list nodeReport * option error :=
  let '(answered, firstErr) := acc in
  match report_err rep with
  | Some e =>
    (answered, match firstErr with None => Some (EErrorfW (addr rep +:+ ": ") e ε) | Some _ => firstErr end)
  | None => (answered ++ [rep], firstErr)
  end.

Fixpoint check_states (answered : list nodeReport) : option error :=
  match answered with
  | [] => None
  | rep :: rest =>
    if negb (String.eqb (state rep) "ok") then
      Some (EErrorfW ε (ESentinel ErrClusterNotSettled)
              (": node " +:+ addr rep +:+ " reports cluster_state:" +:+ state rep))
    else check_states rest
  end.

Fixpoint check_slots (ref : nodeReport) (rest : list nodeReport) : option error :=
  match rest with
  | [] => None
  | rep :: rest' =>
    if negb (String.eqb (slots rep) (slots ref)) then
      Some (EErrorfW ε (ESentinel ErrClusterNotSettled)
              (": nodes " +:+ addr ref +:+ " and " +:+ addr rep +:+ " disagree about which node owns which slots"))
    else check_slots ref rest'
  end.

Section settled.
Context (sortSlice : list nodeReport -> list nodeReport).

Definition evaluateSettled (reports : list nodeReport) : option error :=
  let '(answered, firstErr) := fold_left collect (sortSlice reports) ([], None) in
  match answered with
  | [] =>
    let firstErr := match firstErr with None => EErrorf "no cluster nodes known" | Some e => e end in
    Some (NewRedisError OpReinitTopology firstErr)
  | ref :: rest =>
    match check_states answered with
    | Some e => Some e
    | None => check_slots ref rest
    end
  end.

(** ** ensureClusterSettled

    ForEachShard calls the callback for all nodes concurrently; the order of
    the reports is that of the environment's list of nodes. *)

Definition ask_node (a : string) : prog nodeReport :=
  info ← call (ClusterInfo a);
  match info with
  | Err ierr => mret (mkReport a ε ε (Some ierr))
  | Ok info =>
    nodes ← call (ClusterNodes a);
    match nodes with
    | Err nerr => mret (mkReport a (clusterInfoField info "cluster_state") ε (Some nerr))
    | Ok nodes => mret (mkReport a (clusterInfoField info "cluster_state") (slotOwnership nodes) None)
    end
  end.

Fixpoint ask_nodes (l : list string) : prog (list nodeReport) :=
  match l with
  | [] => mret []
  | a :: l' => rep ← ask_node a; reps ← ask_nodes l'; mret (rep :: reps)
  end.

Definition ensureClusterSettled : prog (option error) :=
  shards ← call ClusterShards;
  match shards with
  | Err err => mret (Some (NewRedisError OpReinitTopology err))
  | Ok l => reports ← ask_nodes l; mret (evaluateSettled reports)
  end.

(** ** Properties *)

(** The nodes that answered all say ok and agree on the slots. *)
Definition agree (reports : list nodeReport) : Prop :=
  (forall a, a ∈ reports -> report_err a = None -> state a = "ok") /\
  (forall a b, a ∈ reports -> b ∈ reports -> report_err a = None -> report_err b = None -> slots a = slots b).

Hypothesis sort_perm : forall l, sortSlice l ≡ₚ l.

Abbreviation answering := (filter (fun r => report_err r = None)).

Lemma collect_spec l acc :
  (fold_left collect l acc).1 = acc.1 ++ answering l.
Proof.
  revert acc. induction l as [|r l IH]; intros [an fe]; simpl; [by rewrite app_nil_r|].
  rewrite IH. destruct (report_err r) eqn:E; simpl.
  - by rewrite filter_cons_False by congruence.
  - by rewrite filter_cons_True, <-app_assoc by done.
Qed.

Lemma check_states_spec l :
  match check_states l with
  | None => forall a, a ∈ l -> state a = "ok"
  | Some e => errors_Is e ErrClusterNotSettled = true /\ exists a, a ∈ l /\ state a <> "ok"
  end.
Proof.
  induction l as [|r l IH]; simpl; [by intros a ?%elem_of_nil|].
  destruct (String.eqb_spec (state r) "ok") as [Hr|Hr]; simpl.
  - destruct (check_states l).
    + destruct IH as [He (a & Ha & Hs)]. split; [done|]. exists a. set_solver.
    + intros a [->|Ha]%elem_of_cons; auto.
  - split; [done|]. exists r. set_solver.
Qed.

Lemma check_slots_spec ref l :
  match check_slots ref l with
  | None => forall a, a ∈ l -> slots a = slots ref
  | Some e => errors_Is e ErrClusterNotSettled = true /\ exists a, a ∈ l /\ slots a <> slots ref
  end.
Proof.
  induction l as [|r l IH]; simpl; [by intros a ?%elem_of_nil|].
  destruct (String.eqb_spec (slots r) (slots ref)) as [Hr|Hr]; simpl.
  - destruct (check_slots ref l).
    + destruct IH as [He (a & Ha & Hs)]. split; [done|]. exists a. set_solver.
    + intros a [->|Ha]%elem_of_cons; auto.
  - split; [done|]. exists r. set_solver.
Qed.

Lemma answering_elem a l : a ∈ answering (sortSlice l) <-> report_err a = None /\ a ∈ l.
Proof. by rewrite list_elem_of_filter, sort_perm. Qed.

Lemma evaluateSettled_cases reports :
  match evaluateSettled reports with
  | None => (exists a, a ∈ reports /\ report_err a = None) /\ agree reports
  | Some e =>
    ((exists a, a ∈ reports /\ report_err a = None) /\ ~ agree reports /\ errors_Is e ErrClusterNotSettled = true) \/
    ((forall a, a ∈ reports -> report_err a <> None) /\ exists cause, e = NewRedisError OpReinitTopology cause)
  end.
Proof.
  unfold evaluateSettled. pose proof (collect_spec (sortSlice reports) ([], None)) as Hc.
  pose proof (fun a => answering_elem a reports) as Hel.
  destruct (fold_left collect (sortSlice reports) ([], None)) as [answered fe]. simpl in Hc. subst answered.
  destruct (answering (sortSlice reports)) as [|ref rest].
  { right. split; [|eauto]. intros a Ha Hn. by apply (elem_of_nil a), Hel. }
  destruct (proj1 (Hel ref) ltac:(set_solver)) as [Hr1 Hr2].
  pose proof (check_states_spec (ref :: rest)) as Hst. pose proof (check_slots_spec ref rest) as Hsl.
  destruct (check_states (ref :: rest)) as [e|].
  - left. destruct Hst as [He (a & Ha & Hs)]. split; [eauto|]. split; [|done].
    intros [Hag _]. apply Hs. apply Hag; apply Hel in Ha as [??]; done.
  - destruct (check_slots ref rest) as [e|].
    + left. destruct Hsl as [He (a & Ha & Hs)]. split; [eauto|]. split; [|done].
      intros [_ Hag]. apply Hs. destruct (proj1 (Hel a) ltac:(set_solver)). by apply Hag.
    + split; [eauto|]. split.
      * intros a Ha Hn. apply Hst, Hel. done.
      * assert (forall a, a ∈ reports -> report_err a = None -> slots a = slots ref) as Hall.
        { intros a Ha Hn. pose proof (proj2 (Hel a) (conj Hn Ha)) as [->|Ha']%elem_of_cons; auto. }
        intros a b Ha Hb Hna Hnb. by rewrite (Hall a), (Hall b).
Qed.

(** The events of one node's answers, and the reports they amount to. The
    second component is the node whose CLUSTER NODES is still to come. *)
Definition report_step (acc : list nodeReport * option (string * string)) (e : event) :
    list nodeReport * option (string * string) :=
  let '(reps, half) := acc in
  let '(existT c a) := e in
  match c return resp c -> list nodeReport * option (string * string) with
  | ClusterInfo n => fun a =>
    match a with
    | Err e => (reps ++ [mkReport n ε ε (Some e)], None)
    | Ok info => (reps, Some (n, info))
    end
  | ClusterNodes _ => fun a =>
    match half with
    | Some (n, info) =>
      (reps ++ [match a with
                | Err e => mkReport n (clusterInfoField info "cluster_state") ε (Some e)
                | Ok nodes => mkReport n (clusterInfoField info "cluster_state") (slotOwnership nodes) None
                end], None)
    | None => (reps, None)
    end
  | _ => fun _ => (reps, half)
  end a.

Definition reports_in (t : trace) : list nodeReport := (fold_left report_step t ([], None)).1.

Definition is_ask (e : event) : bool :=
  match projT1 e with ClusterShards | ClusterInfo _ | ClusterNodes _ => true | _ => false end.

Lemma fold_quiet t acc : forallb (fun e => negb (is_ask e)) t = true -> fold_left report_step t acc = acc.
Proof.
  revert acc. induction t as [|[c a] t IH]; intros [reps half]; [done|]. intros [Hc Ht]%andb_true_iff.
  cbn [fold_left]. rewrite IH by done. by destruct c.
Qed.

(** Events that are not answers of nodes do not change the reports. *)
Lemma reports_in_quiet t t' :
  forallb (fun e => negb (is_ask e)) t' = true -> reports_in (t ++ t') = reports_in t.
Proof. intros Hq. unfold reports_in. by rewrite fold_left_app, fold_quiet. Qed.

Lemma ask_nodes_reports l acc :
  wp (ask_nodes l) (fun t reps => fold_left report_step t (acc, None) = (acc ++ reps, None)).
Proof.
  revert acc. induction l as [|a l IH]; intros acc; [simpl; by rewrite app_nil_r|].
  refine (proj2 (wp_bind _ _ _) _).
  apply (wp_mono _ (fun t rep => forall acc, fold_left report_step t (acc, None) = (acc ++ [rep], None))).
  - intros t rep Ht. refine (proj2 (wp_bind _ _ _) _). eapply wp_mono; [|apply (IH (acc ++ [rep]))].
    intros t' reps Ht'. cbn [wp mret prog_ret]. by rewrite app_nil_r, fold_left_app, Ht, Ht', <-app_assoc.
  - unfold ask_node. walk ltac:(done).
Qed.

(** The check only asks, and decides on what the nodes answered. *)
Lemma ensureClusterSettled_reads : calls_only is_ask ensureClusterSettled.
Proof.
  apply calls_only_call. intros [l|e]; (split; [done|]); [|apply calls_only_ret].
  apply calls_only_bind; [|intros; apply calls_only_ret].
  induction l as [|a l IH]; [apply calls_only_ret|].
  apply calls_only_bind; [|intros; apply calls_only_bind; [done|intros; apply calls_only_ret]].
  apply calls_only_call. intros [i|e]; (split; [done|]); [|apply calls_only_ret].
  apply calls_only_call. intros [n|e]; (split; [done|]); apply calls_only_ret.
Qed.

Lemma ensureClusterSettled_reports :
  wp ensureClusterSettled (fun t res => res = None -> evaluateSettled (reports_in t) = None).
Proof.
  intros [l|e]; [|done]. refine (proj2 (wp_bind _ _ _) _).
  eapply wp_mono; [|apply (ask_nodes_reports l [])]. intros t reps Ht.
  cbn [wp mret prog_ret]. rewrite app_nil_r. unfold reports_in. cbn [fold_left report_step ev].
  by rewrite Ht.
Qed.

(** C27: a cluster counts as settled exactly when its nodes agree.
    [evaluateSettled] returns nil if and only if some node answered, every node
    that answered reports cluster_state ok, and all of them report the same
    slot ownership; if nodes answered and that is not so, the error is
    [ErrClusterNotSettled]; if none answered it is a plain Redis error of the
    re-initialisation. The order of the reports does not matter. *)
Theorem evaluate_settled_spec reports :
  (evaluateSettled reports = None <-> (exists a, a ∈ reports /\ report_err a = None) /\ agree reports) /\
  (forall e, evaluateSettled reports = Some e ->
    if forallb (fun a => match report_err a with Some _ => true | None => false end) reports
    then exists cause, e = NewRedisError OpReinitTopology cause
    else errors_Is e ErrClusterNotSettled = true).
Proof.
  pose proof (evaluateSettled_cases reports) as Hc. destruct (evaluateSettled reports) as [e|].
  - split.
    + split; [done|]. intros [(a & Ha & Hn) Hag]. destruct Hc as [(_ & Hno & _)|[Hall _]]; [done|].
      by destruct (Hall a Ha).
    + intros ? [= <-]. destruct (forallb _ reports) eqn:E.
      * destruct Hc as [((a & Ha & Hn) & _)|[_ Hc]]; [|done].
        rewrite forallb_forall in E. apply list_elem_of_In, E in Ha. by rewrite Hn in Ha.
      * destruct Hc as [(_ & _ & He)|[Hall _]]; [done|]. exfalso. apply not_true_iff_false in E. apply E.
        apply forallb_forall. intros a Ha%list_elem_of_In%Hall. by destruct (report_err a).
  - split; [|done]. split; done.
Qed.
End settled.

(** ** Slot ownership *)

Definition owners (clusterNodes : string) : list string := omap line_owner (Split clusterNodes newline).

Lemma owners_plain text : Forall (fun o => has_byte (byte 10) o = false /\ o <> ε) (owners text).
Proof.
  unfold owners. apply Forall_forall. intros o (line & Hl & Ho)%list_elem_of_omap.
  pose proof (proj1 (Forall_forall _ _) (Split_pieces (byte 10) text) line Hl) as Hb. simpl in Hb.
  apply Fields_bytes in Hb. unfold line_owner in Ho.
  destruct (Nat.ltb _ 9); [done|]. destruct (Nat.ltb 0 _); [|done]. simplify_eq. split.
  - rewrite !has_byte_app. destruct (Fields line) as [|f0 f]; [done|]. apply Forall_cons in Hb as [Hf0 Hf].
    simpl hd. rewrite Hf0. simpl. apply StrJoin_bytes; [done|].
    apply Forall_forall. intros s [_ Hs]%list_elem_of_filter.
    eapply (proj1 (Forall_forall _ _) (Forall_drop _ 7 _ Hf)). done.
  - by destruct (hd ε (Fields line)).
Qed.


(** ** A concrete sort, and a concrete cluster *)

Definition addr_le (a b : nodeReport) : Prop := String.le (addr a) (addr b).

#[export] Instance addr_le_dec a b : Decision (addr_le a b).
Proof. unfold addr_le. apply _. Defined.

Definition sort_reports (l : list nodeReport) : list nodeReport := merge_sort addr_le l.

Definition demo_reports : list nodeReport :=
  [mkReport "10.0.0.2:6379" "ok" "id1 0-5460" None; mkReport "10.0.0.1:6379" ε ε (Some (EExt "refused" [] None));
   mkReport "10.0.0.3:6379" "ok" "id1 0-5460" None].

Lemma evaluate_settled_spec_witness :
  evaluateSettled sort_reports demo_reports = None /\
  (exists a, a ∈ demo_reports /\ report_err a = None) /\ agree demo_reports.
Proof.
  assert (evaluateSettled sort_reports demo_reports = None) as H by (vm_compute; reflexivity).
  split; [exact H|].
  apply (evaluate_settled_spec sort_reports (fun l => merge_sort_Permutation addr_le l) demo_reports), H.
Defined.
