(* ===== verification/Topology.v ===== *)
(** * Keyspace notifications, Init and ReinitTopology

    impl/init.go: enabling keyspace notifications and subscribing to them;
    impl/oss.go: the same on every master of a cluster; impl/relredis.go: Init
    and ReinitTopology. go-redis runs ForEachMaster's callback concurrently on
    all masters and returns the first error; here they run
    one after the other, over the masters in an order of the environment's
    choosing, and ForEach.v proves that interleaved callbacks have no other
    outcomes. *)

From Stdlib Require Import ZArith String Lia.
From stdpp Require Import base gmap strings list.
From S2P Require Import Prelude GoStrings Json Configs Errs Notifs Effects LbsEntry Options Streams Settled.

#[local] Open Scope string_scope.
#[local] Open Scope list_scope.
#[local] Open Scope Z_scope.

Section topology.
Context `{JsonText} (sortSlice : list nodeReport -> list nodeReport) (r : Client).

(** ** init.go *)

(** The loop over the existing configuration's values. *)
Fixpoint check_existing (reapply : bool) (vals : list string) : option error :=
  match vals with
  | [] => None
  | v :: vals' =>
    if Nat.ltb 0 (String.length v) then
      if forceOverrideConfig r then check_existing reapply vals'
      else if negb reapply then Some (ESentinel ErrExistingConfigWithoutOverride)
      else check_existing reapply vals'
    else check_existing reapply vals'
  end.

Definition enableKeyspaceNotifsOn (ep : endpoint) (reapply : bool) : prog (option error) :=
  existing ← call (ConfigGet ep NotifyKeyspaceEventsCmd);
  match existing with
  | Err err => mret (Some (NewRedisError OpEnableKeyspaceNotification err))
  | Ok configVals =>
    match check_existing reapply ((map_to_list configVals).*2) with
    | Some err => mret (Some err)
    | None =>
      res ← call (ConfigSet ep NotifyKeyspaceEventsCmd KeyspacePatternForExpiredEvents);
      match res with
      | Err err => mret (Some err)
      | Ok _ => mret None
      end
    end
  end.

(** ** oss.go *)

(** The callback on each master: counters, and the first error returned. *)
Fixpoint each_master (masters : list string) (reapply : bool) (succeeded failed : Z) (first : option error) :
    prog (Z * Z * option error) :=
  match masters with
  | [] => mret (succeeded, failed, first)
  | m :: masters' =>
    setup ← enableKeyspaceNotifsOn (Node m) reapply;
    match setup with
    | Some setupErr =>
      if errors_Is setupErr ErrExistingConfigWithoutOverride then
        each_master masters' reapply succeeded failed
          (match first with None => Some setupErr | Some _ => first end)
      else
        call (Metric (RecordMasterKeyspaceSetup false));;
        each_master masters' reapply succeeded (failed + 1) first
    | None =>
      call (Metric (RecordMasterKeyspaceSetup true));;
      each_master masters' reapply (succeeded + 1) failed first
    end
  end.

Definition enableKeyspaceNotifsOnMasters (reapply : bool) : prog (option error) :=
  masters ← call ClusterMasters;
  match masters with
  | Err err => mret (Some err)
  | Ok l =>
    '(succeeded, failed, err) ← each_master l reapply 0 0 None;
    match err with
    | Some e => mret (Some e)
    | None =>
      if succeeded =? 0 then mret (Some (ESentinel ErrKeyspaceNotifsAllMastersFailed)) else mret None
    end
  end.

Definition enableKeyspaceNotifsForExpiredEvents (reapply : bool) : prog (option error) :=
  if decide (clusterMode r = ClusterModeOSS) then
    if negb (isCluster r) then mret (Some (ESentinel ErrClusterClientRequired))
    else enableKeyspaceNotifsOnMasters reapply
  else enableKeyspaceNotifsOn Default reapply.

Fixpoint subscribe_each (masters : list string) : prog unit :=
  match masters with
  | [] => mret tt
  | m :: masters' =>
    ps ← call (PSubscribe (Node m) MutexKeySpacePattern);
    call (OssAdd ps);;
    call (FanIn ps);;
    subscribe_each masters'
  end.

Definition subscribeToExpiredEventsOSS : prog unit :=
  if negb (isCluster r) then mret tt
  else
    masters ← call ClusterMasters;
    match masters with
    | Err _ => mret tt
    | Ok l => subscribe_each l
    end.

Definition subscribeToExpiredEvents : prog unit :=
  if decide (clusterMode r = ClusterModeOSS) then subscribeToExpiredEventsOSS
  else
    ps ← call (PSubscribe Default MutexKeySpacePattern);
    call (SetPubSub ps);;
    call (FanIn ps);;
    mret tt.

(** ** relredis.go *)

Definition Init : prog (option error) :=
  if bool_decide (clusterMode r = ClusterModeOSS) && negb (isCluster r)
  then mret (Some (ESentinel ErrClusterClientRequired))
  else
    keyspaceErr ← enableKeyspaceNotifsForExpiredEvents false;
    match keyspaceErr with
    | Some e => mret (Some e)
    | None =>
      subscribeToExpiredEvents;;
      call SetCancelLBS;;
      res ← call (XGroupCreateMkStream (lbsName r) (lbsGroupName r) StartFromNow);
      match (match res with
             | Err err => if negb (Contains (Error err) "BUSYGROUP") then Some err else None
             | Ok _ => None
             end) with
      | Some err => mret (Some (NewRedisError OpCreateLBSStream err))
      | None => call GoReadLBS;; call GoListenKsp;; call GoReconcile;; mret None
      end
    end.

Definition reinit_failed (e : error) : prog (option error) :=
  call (Metric (RecordTopologyReinit false));; mret (Some e).

Definition ReinitTopology : prog (option error) :=
  if negb (bool_decide (clusterMode r = ClusterModeOSS)) then mret None
  else if negb (isCluster r) then reinit_failed (ESentinel ErrClusterClientRequired)
  else
    settled ← ensureClusterSettled sortSlice;
    match settled with
    | Some e => reinit_failed e
    | None =>
      call ReloadState;;
      enabled ← enableKeyspaceNotifsForExpiredEvents true;
      match enabled with
      | Some e => reinit_failed e
      | None =>
        closeAll;;
        subscribeToExpiredEvents;;
        call (Metric (RecordTopologyReinit true));;
        mret None
      end
    end.

(** ** Existing configuration *)

(** A configuration value read that is not empty. *)
Definition has_config (e : event) : bool :=
  let '(existT c a) := e in
  match c return resp c -> bool with
  | ConfigGet _ _ => fun a =>
    match a with Ok m => existsb (fun v => Nat.ltb 0 (String.length v)) (map_to_list m).*2 | Err _ => false end
  | _ => fun _ => false
  end a.

Definition set_ok (e : event) : bool :=
  let '(existT c a) := e in
  match c return resp c -> bool with ConfigSet _ _ _ => fun a => is_ok a | _ => fun _ => false end a.

Definition is_set (e : event) : bool := match projT1 e with ConfigSet _ _ _ => true | _ => false end.

Lemma check_existing_guard vals :
  forceOverrideConfig r = false ->
  check_existing false vals =
  if existsb (fun v => Nat.ltb 0 (String.length v)) vals
  then Some (ESentinel ErrExistingConfigWithoutOverride) else None.
Proof. intros Hf. induction vals as [|v vals IH]; simpl; [done|]. rewrite Hf, IH. by destruct (Nat.ltb _ _). Qed.

(** A foreign configuration is never overwritten silently. Without the
    force option, [enableKeyspaceNotifsOn] that finds a non-empty value returns
    [ErrExistingConfigWithoutOverride] and sets nothing; otherwise it succeeds
    exactly if the CONFIG SET did. *)
Theorem enable_guard ep :
  forceOverrideConfig r = false ->
  wp (enableKeyspaceNotifsOn ep false) (fun t res =>
    if occurs has_config t then res = Some (ESentinel ErrExistingConfigWithoutOverride) /\ count is_set t = 0%nat
    else res = None <-> occurs set_ok t = true).
Proof.
  intros Hf. unfold enableKeyspaceNotifsOn. intros [m|e]; [|done].
  cbn [mbind prog_bind call]. rewrite check_existing_guard by done. unfold occurs.
  destruct (existsb _ _) eqn:E; change (existsb _ _) with (has_config (ev (ConfigGet ep NotifyKeyspaceEventsCmd) (Ok m))) in E.
  - cbn [wp mret prog_ret existsb]. by rewrite E.
  - intros [[]|e]; cbn [wp mret prog_ret existsb]; by rewrite E.
Qed.

(** go-redis' errors are not the library's sentinel. *)
Definition plain_error (e : event) : Prop :=
  let '(existT c a) := e in
  match c return resp c -> Prop with
  | ConfigSet _ _ _ => fun a => match a with Err x => errors_Is x ErrExistingConfigWithoutOverride = false | Ok _ => True end
  | ConfigGet _ _ => fun a => match a with Err x => errors_Is x ErrExistingConfigWithoutOverride = false | Ok _ => True end
  | _ => fun _ => True
  end a.

Lemma enable_on_calls ep :
  forceOverrideConfig r = false ->
  wp (enableKeyspaceNotifsOn ep false) (fun t res => Forall plain_error t ->
    match res with
    | None => occurs set_ok t = true /\ occurs has_config t = false
    | Some e => occurs set_ok t = false /\ occurs has_config t = errors_Is e ErrExistingConfigWithoutOverride
    end).
Proof.
  intros Hf. unfold enableKeyspaceNotifsOn. intros [m|e].
  - cbn [mbind prog_bind call]. rewrite check_existing_guard by done. unfold occurs.
    destruct (existsb _ _) eqn:E; change (existsb _ _) with (has_config (ev (ConfigGet ep NotifyKeyspaceEventsCmd) (Ok m))) in E.
    + intros _. cbn [existsb]. by rewrite E.
    + intros [[]|e]; cbn [wp mret prog_ret existsb]; rewrite E; [done|].
      intros [_ [Hp _]%Forall_cons]%Forall_cons. simpl in Hp. by rewrite Hp.
  - intros [Hp _]%Forall_cons. simpl in *. by rewrite Hp.
Qed.

(** What the sweep over masters has seen, from given counters. *)
Definition swept (succeeded : Z) (first : option error) (t : trace) (res : Z * Z * option error) : Prop :=
  Forall plain_error t ->
  let '(s, _, err) := res in
  succeeded <= s /\ (s = succeeded <-> occurs set_ok t = false) /\
  (err = None <-> first = None /\ occurs has_config t = false).

Lemma occurs_app f t1 t2 : occurs f (t1 ++ t2) = occurs f t1 || occurs f t2.
Proof. apply existsb_app. Qed.

Lemma each_master_swept masters s f first :
  forceOverrideConfig r = false -> wp (each_master masters false s f first) (swept s first).
Proof.
  intros Hf. revert s f first. induction masters as [|m masters IH]; intros s f first.
  { intros _. split_and!; [lia|done|]. split; [auto|by intros []]. }
  refine (proj2 (wp_bind _ _ _) _). eapply wp_mono; [|by apply enable_on_calls].
  intros t [e|] He; [destruct (errors_Is e ErrExistingConfigWithoutOverride) eqn:Ee|].
  - eapply wp_mono; [|apply IH]. intros t' [[s' f'] err] Ht' [H1 H2]%Forall_app.
    destruct (He H1) as [Hs Hc], (Ht' H2) as (Hle & Hs' & Hc'). rewrite !occurs_app, Hs, Hc.
    split_and!; [done|done|]. rewrite Hc'. destruct first; naive_solver.
  - intros []. eapply wp_mono; [|apply IH]. intros t' [[s' f'] err] Ht' [H1 [_ H2]%Forall_cons]%Forall_app.
    destruct (He H1) as [Hs Hc], (Ht' H2) as (Hle & Hs' & Hc'). rewrite !occurs_app, Hs, Hc. done.
  - intros []. eapply wp_mono; [|apply IH]. intros t' [[s' f'] err] Ht' [H1 [_ H2]%Forall_cons]%Forall_app.
    destruct (He H1) as [Hs Hc], (Ht' H2) as (Hle & Hs' & Hc'). rewrite !occurs_app, Hs, Hc.
    split_and!; [lia| |done]. simpl. split; [lia|done].
Qed.

(** Init tolerates some masters failing, not all, and no conflict. Without
    the force option, [enableKeyspaceNotifsOnMasters] succeeds exactly if
    notifications were enabled on at least one master and no master had a
    configuration of its own. *)
Theorem masters_partial_failure :
  forceOverrideConfig r = false ->
  wp (enableKeyspaceNotifsOnMasters false) (fun t res => Forall plain_error t ->
    res = None <-> occurs set_ok t = true /\ occurs has_config t = false).
Proof.
  intros Hf. unfold enableKeyspaceNotifsOnMasters.
  intros [l|e]; [|by intros _; split; [|intros [? _]]].
  refine (proj2 (wp_bind _ _ _) _). eapply wp_mono; [|by apply each_master_swept].
  intros t [[s f] err] Hsw. assert (forall res : option error, (Forall plain_error (ev ClusterMasters (Ok l) :: t ++ []) ->
    res = None <-> occurs set_ok t = true /\ occurs has_config t = false) ->
    Forall plain_error (ev ClusterMasters (Ok l) :: t ++ []) ->
    res = None <-> occurs set_ok (ev ClusterMasters (Ok l) :: t ++ []) = true /\
      occurs has_config (ev ClusterMasters (Ok l) :: t ++ []) = false) as Hred by (intros res; by rewrite app_nil_r).
  destruct err as [e|]; simpl; [|destruct (Z.eqb_spec s 0)]; simpl; apply Hred; rewrite app_nil_r;
    intros [_ Hp]%Forall_cons; destruct (Hsw Hp) as (Hle & Hs & Hc); destruct (occurs set_ok t), (occurs has_config t);
    naive_solver lia.
Qed.

(** ** ReinitTopology *)

(** A call that changes the client's view, its subscriptions or a node. *)
Definition is_touch (e : event) : bool :=
  match projT1 e with
  | ReloadState | ConfigSet _ _ _ | PSubscribe _ _ | PubSubClose _ | OssTakeAll | OssAdd _ | SetPubSub _ | FanIn _ => true
  | _ => false
  end.

Definition not_ask (e : event) : bool := negb (is_ask e).

(** The calls of the three phases. *)
Definition is_enable (e : event) : bool :=
  match projT1 e with ConfigGet _ _ | ConfigSet _ _ _ | ClusterMasters | Metric _ => true | _ => false end.
Definition is_subscribe (e : event) : bool :=
  match projT1 e with ClusterMasters | PSubscribe _ _ | OssAdd _ | SetPubSub _ | FanIn _ => true | _ => false end.

Lemma enableOn_calls ep reapply : calls_only is_enable (enableKeyspaceNotifsOn ep reapply).
Proof.
  apply calls_only_call. intros [m|e]; (split; [done|]); [|apply calls_only_ret].
  destruct (check_existing reapply _); [apply calls_only_ret|].
  apply calls_only_call. intros [u|e]; (split; [done|apply calls_only_ret]).
Qed.

Lemma each_master_calls masters reapply s f first : calls_only is_enable (each_master masters reapply s f first).
Proof.
  revert s f first. induction masters as [|m masters IH]; intros; [apply calls_only_ret|].
  apply calls_only_bind; [apply enableOn_calls|]. intros [e|]; [case_match; [apply IH|]|];
    (apply calls_only_call; intros; split; [done|apply IH]).
Qed.

Lemma enable_calls reapply : calls_only is_enable (enableKeyspaceNotifsForExpiredEvents reapply).
Proof.
  unfold enableKeyspaceNotifsForExpiredEvents. case_decide; [|apply enableOn_calls].
  case_match; [apply calls_only_ret|]. apply calls_only_call. intros [l|e]; (split; [done|]); [|apply calls_only_ret].
  apply calls_only_bind; [apply each_master_calls|]. intros [[s f] [e|]]; [apply calls_only_ret|].
  case_match; apply calls_only_ret.
Qed.

Lemma enable_not_ask e : is_enable e = true -> not_ask e = true.
Proof. destruct e as [c a]. by destruct c. Qed.

Lemma subscribe_not_ask e : is_subscribe e = true -> not_ask e = true.
Proof. destruct e as [c a]. by destruct c. Qed.

Lemma closeAll_calls : calls_only not_ask closeAll.
Proof.
  apply calls_only_call. intros l. split; [done|].
  induction l as [|ps l IH]; [apply calls_only_ret|]. apply calls_only_call. by split.
Qed.

Lemma subscribe_calls : calls_only is_subscribe subscribeToExpiredEvents.
Proof.
  unfold subscribeToExpiredEvents, subscribeToExpiredEventsOSS. case_decide; [case_match; [apply calls_only_ret|]|].
  - apply calls_only_call. intros [l|e]; (split; [done|]); [|apply calls_only_ret].
    induction l as [|m l IH]; [apply calls_only_ret|].
    repeat (apply calls_only_call; intros; split; [done|]). exact IH.
  - repeat (apply calls_only_call; intros; split; [done|]). apply calls_only_ret.
Qed.

(** What follows the check asks no node any more. *)
Definition rebuild : prog (option error) :=
  call ReloadState;;
  enabled ← enableKeyspaceNotifsForExpiredEvents true;
  match enabled with
  | Some e => reinit_failed e
  | None =>
    closeAll;;
    subscribeToExpiredEvents;;
    call (Metric (RecordTopologyReinit true));;
    mret None
  end.

Lemma rebuild_calls : calls_only not_ask rebuild.
Proof.
  apply calls_only_call. intros. split; [done|]. apply calls_only_bind; [apply (calls_only_mono _ _ _ enable_not_ask), enable_calls|].
  intros [e|]; [apply calls_only_call; intros; split; [done|apply calls_only_ret]|].
  apply calls_only_bind; [apply closeAll_calls|]. intros.
  apply calls_only_bind; [apply (calls_only_mono _ _ _ subscribe_not_ask), subscribe_calls|]. intros.
  apply calls_only_call. intros. split; [done|apply calls_only_ret].
Qed.

Lemma ask_no_touch t : forallb is_ask t = true -> occurs is_touch t = false.
Proof.
  unfold occurs. induction t as [|[c a] t IH]; simpl; [done|]. intros [Hc Ht]%andb_true_iff.
  rewrite IH by done. by destruct c.
Qed.

(** ** Subscriptions are rebuilt *)

(** Subscriptions opened, tracked, relayed, closed and taken out. *)
Definition opened (e : event) : option nat :=
  let '(existT c a) := e in
  match c return resp c -> option nat with PSubscribe _ _ => fun a => Some a | _ => fun _ => None end a.
Definition tracked (e : event) : option nat := match projT1 e with OssAdd ps => Some ps | _ => None end.
Definition relayed (e : event) : option nat := match projT1 e with FanIn ps => Some ps | _ => None end.
Definition closed (e : event) : option nat := match projT1 e with PubSubClose ps => Some ps | _ => None end.
Definition taken (e : event) : list nat :=
  let '(existT c a) := e in
  match c return resp c -> list nat with OssTakeAll => fun a => a | _ => fun _ => [] end a.

(** Neither opens, tracks, relays nor closes subscriptions. *)
Definition no_subs (t : trace) : Prop :=
  omap opened t = [] /\ omap tracked t = [] /\ omap relayed t = [] /\ omap closed t = [] /\ mbind taken t = [].

Lemma no_subs_calls f t :
  (forall e, f e = true -> opened e = None /\ tracked e = None /\ relayed e = None /\ closed e = None /\ taken e = []) ->
  forallb f t = true -> no_subs t.
Proof.
  intros Hf Ht. unfold no_subs. split_and!; try (eapply calls_only_omap; [|exact Ht]; naive_solver).
  induction t as [|e t IH]; [done|]. apply andb_true_iff in Ht as [He Ht]. cbn [mbind list_bind].
  destruct (Hf e He) as (_ & _ & _ & _ & ->). by apply IH.
Qed.

Lemma enable_no_subs t : forallb is_enable t = true -> no_subs t.
Proof. apply no_subs_calls. intros [c a]. by destruct c. Qed.

Lemma ask_no_subs t : forallb is_ask t = true -> no_subs t.
Proof. apply no_subs_calls. intros [c a]. by destruct c. Qed.

Lemma closeAll_closes :
  wp closeAll (fun t _ => omap closed t = mbind taken t /\
    omap opened t = [] /\ omap tracked t = [] /\ omap relayed t = []).
Proof.
  intros l. apply (wp_mono _ (fun t _ => omap closed t = l /\ mbind taken t = [] /\ omap opened t = [] /\
    omap tracked t = [] /\ omap relayed t = [])).
  - intros t [] (H1 & H2 & H3 & H4 & H5). cbn [mbind list_bind taken ev omap list_omap closed opened tracked relayed projT1].
    change (list_bind _ _ taken t) with (mbind taken t). rewrite H2, app_nil_r. done.
  - induction l as [|ps l IH]; [done|]. intros o. eapply wp_mono; [|exact IH].
    intros t [] (H1 & H2 & H3 & H4 & H5). simpl. split_and!; try done. by f_equal.
Qed.

Lemma subscribe_opens :
  wp subscribeToExpiredEventsOSS (fun t _ => omap tracked t = omap opened t /\ omap relayed t = omap opened t /\
    omap closed t = [] /\ mbind taken t = []).
Proof.
  unfold subscribeToExpiredEventsOSS. destruct (negb (isCluster r)); [done|]. intros [l|e]; [|done]. cbn [mbind prog_bind call].
  induction l as [|m l IH]; [done|]. intros ps [] []. eapply wp_mono; [|exact IH].
  intros t [] (H1 & H2 & H3 & H4). simpl. split_and!; try done; by f_equal.
Qed.


Hypothesis sort_perm : forall l, sortSlice l ≡ₚ l.

(** C31: an unsettled cluster is not touched. In every prefix of every run of
    [ReinitTopology], if it has reloaded the topology, changed a node's
    configuration, or closed or opened a subscription, then in the answers the
    nodes gave it before, some node answered, and all that did report ok and
    the same slot ownership. *)
Theorem reinit_only_settled :
  always ReinitTopology (fun t => occurs is_touch t = true ->
    (exists a, a ∈ reports_in t /\ report_err a = None) /\ agree (reports_in t)).
Proof.
  unfold ReinitTopology. destruct (negb (bool_decide _)); [done|].
  destruct (negb (isCluster r)); [by split; [|split]|].
  apply always_bind.
  - eapply always_mono; [|apply ensureClusterSettled_reads]. intros t Ht Hx. by rewrite ask_no_touch in Hx.
  - eapply wp_mono; [|apply wp_and; [apply (always_wp _ _ (ensureClusterSettled_reads sortSlice))|
      apply ensureClusterSettled_reports]].
    intros t [e|] [Hq He]; cbv beta.
    + split; [|split; [|done]]; rewrite ?app_nil_r, ?occurs_app, ask_no_touch by done; done.
    + eapply always_mono; [|apply rebuild_calls]. intros t' Ht' _. rewrite reports_in_quiet by done.
      pose proof (evaluateSettled_cases sortSlice sort_perm (reports_in t)) as Hc. by rewrite He in Hc.
Qed.

(** ** Init *)

Inductive goroutine := ReadLBS | ListenKsp | Reconcile.

Definition started (e : event) : option goroutine :=
  match projT1 e with
  | GoReadLBS => Some ReadLBS | GoListenKsp => Some ListenKsp | GoReconcile => Some Reconcile | _ => None
  end.

(** The consumer group was created, or existed before. *)
Definition group_ready (e : event) : bool :=
  let '(existT c a) := e in
  match c return resp c -> bool with
  | XGroupCreateMkStream s g start => fun a =>
    bool_decide (s = lbsName r) && bool_decide (g = lbsGroupName r) && bool_decide (start = StartFromNow) &&
    match a with Ok _ => true | Err e => Contains (Error e) "BUSYGROUP" end
  | _ => fun _ => false
  end a.

Definition is_start (e : event) : bool := match started e with Some _ => true | None => false end.

Lemma enable_no_start e : is_enable e = true -> started e = None /\ is_start e = false.
Proof. destruct e as [c a]. by destruct c. Qed.
Lemma subscribe_no_start e : is_subscribe e = true -> started e = None /\ is_start e = false.
Proof. destruct e as [c a]. by destruct c. Qed.

Lemma preceded_app_skip g f t1 t2 :
  forallb (fun e => negb (f e)) t1 = true -> preceded g f t2 = true -> preceded g f (t1 ++ t2) = true.
Proof.
  induction t1 as [|e t1 IH]; [done|]. intros [He Ht]%andb_true_iff H2. simpl.
  apply negb_true_iff in He as ->. destruct (g e); auto.
Qed.

(** C33: a client starts completely or not at all. [Init] that returns nil has
    started exactly the reader, the expiry listener and the reconciliation
    loop, in this order, and only after the consumer group was created or found
    to exist; [Init] that returns an error has started none of them. *)
Theorem init_starts :
  wp Init (fun t res =>
    omap started t = (match res with None => [ReadLBS; ListenKsp; Reconcile] | Some _ => [] end) /\
    preceded group_ready is_start t = true).
Proof.
  unfold Init. destruct (bool_decide _ && _); [done|].
  assert (forall t, forallb is_enable t = true -> omap started t = [] /\ forallb (fun e => negb (is_start e)) t = true) as He.
  { intros t Ht. split; [eapply calls_only_omap; [|exact Ht]; apply enable_no_start|].
    rewrite forallb_forall in *. intros e Hin. by rewrite (proj2 (enable_no_start e (Ht e Hin))). }
  assert (forall t, forallb is_subscribe t = true -> omap started t = [] /\ forallb (fun e => negb (is_start e)) t = true) as Hs.
  { intros t Ht. split; [eapply calls_only_omap; [|exact Ht]; apply subscribe_no_start|].
    rewrite forallb_forall in *. intros e Hin. by rewrite (proj2 (subscribe_no_start e (Ht e Hin))). }
  refine (proj2 (wp_bind _ _ _) _). eapply wp_mono; [|apply calls_only_wp, enable_calls].
  intros t1 [e|] [E1 P1]%He; cbv beta iota.
  { cbn [wp mret prog_ret]. rewrite omap_app, E1. split; [done|]. by apply preceded_app_skip. }
  refine (proj2 (wp_bind _ _ _) _). eapply wp_mono; [|apply calls_only_wp, subscribe_calls].
  intros t2 [] [E2 P2]%Hs. intros [] res. cbv beta.
  destruct res as [[]|e]; simpl; [|destruct (Contains (Error e) "BUSYGROUP") eqn:Ec; simpl]; intros; rewrite !omap_app, E1, E2;
    (split; [done|]); (apply preceded_app_skip; [done|]); (apply preceded_app_skip; [done|]); simpl;
    rewrite ?bool_decide_true by done; rewrite ?Ec; done.
Qed.
End topology.

(** ** Witnesses *)

#[local] Instance demo_json : JsonText := fun _ => "invalid character".

Definition cluster_client : Client :=
  default_DLQ (match WithClusterMode ClusterModeOSS (base_client true "redis-consumer-pod-1" "orders") with
               | Ok c => c | Err _ => demo_client end).

Lemma enable_guard_witness :
  wp (enableKeyspaceNotifsOn demo_client Default false) (fun t res =>
    if occurs has_config t then res = Some (ESentinel ErrExistingConfigWithoutOverride) /\ count is_set t = 0%nat
    else res = None <-> occurs set_ok t = true).
Proof. apply (enable_guard demo_client Default). reflexivity. Defined.

Lemma masters_partial_failure_witness :
  wp (enableKeyspaceNotifsOnMasters cluster_client false) (fun t res => Forall plain_error t ->
    res = None <-> occurs set_ok t = true /\ occurs has_config t = false).
Proof. apply (masters_partial_failure cluster_client). reflexivity. Defined.


Lemma reinit_only_settled_witness :
  always (ReinitTopology sort_reports cluster_client) (fun t => occurs is_touch t = true ->
    (exists a, a ∈ reports_in t /\ report_err a = None) /\ agree (reports_in t)).
Proof.
  apply (reinit_only_settled sort_reports cluster_client). exact (fun l => sorting.merge_sort_Permutation addr_le l).
Defined.
