(* ===== verification/ForEach.v ===== *)
(** * Callbacks on all nodes of a cluster at once

    go-redis' ForEachShard and ForEachMaster run a callback on every node
    concurrently, wait for all of them, and return the first error a callback
    returned. Settled.v and Topology.v run the callbacks one after the other.
    This file justifies that: the callbacks of impl/settled.go and impl/oss.go
    are threads of a pool, interleaved call by call in any environment, whose
    results are collected in any order of completion (the callbacks append to a
    slice and count under a mutex); every such execution has the outcome of a
    sequential run that makes the same calls on each node. So whatever is proved
    of all sequential runs holds of the concurrent ones. *)

From Stdlib Require Import ZArith String Lia.
From stdpp Require Import base gmap strings list relations sorting.
From S2P Require Import Prelude GoStrings Json Configs Errs Notifs Effects LbsEntry Options Streams Settled Topology.

#[local] Open Scope string_scope.
#[local] Open Scope list_scope.
#[local] Open Scope Z_scope.

(** ** Concurrent and sequential runs *)

Section each.
Context {A B : Type} (f : A -> prog B).

(** One after the other. *)
Fixpoint each (l : list A) : prog (list B) :=
  match l with
  | [] => mret []
  | a :: l' => b ← f a; bs ← each l'; mret (b :: bs)
  end.

Lemma runs_each l ts outs :
  Forall3 (fun a t b => runs (f a) t b) l ts outs -> runs (each l) (concat ts) outs.
Proof.
  induction 1 as [|a t b l ts outs Hf _ IH]; [done|]. simpl.
  apply (runs_bind _ _ _ _ b); [done|]. rewrite <-(app_nil_r (concat ts)). by apply (runs_bind _ _ _ _ outs).
Qed.

(** The callbacks as threads: [x] is a state in which all of them returned, with
    results [outs], in the order of the nodes. *)
Context {W : Type} (phandle : nat -> forall c : cmd, W -> resp c * W) (env : W -> W -> Prop).

Definition all_done (l : list A) (w : W) (x : pool W B) (outs : list B) : Prop :=
  rtc (pool_step phandle env) (mkPool (f <$> l) w []) x /\ threads x = Ret <$> outs.

(** The calls on the [i]-th node. *)
Definition calls_of (x : pool W B) (i : nat) : trace := proj i (hist x).

Lemma all_done_runs l w x outs :
  all_done l w x outs -> length outs = length l /\
  forall i a b, l !! i = Some a -> outs !! i = Some b -> runs (f a) (calls_of x i) b.
Proof.
  intros [Hr Ht]. split.
  - destruct (hist_tids phandle env _ _ _ Hr) as [Hl _]. by rewrite Ht, !length_fmap in Hl.
  - intros i a b Ha Hb.
    pose proof (pool_wp phandle env (fun i t b => forall a, l !! i = Some a -> runs (f a) t b) (f <$> l) w x) as Hw.
    specialize (Hw ltac:(intros j p (a' & -> & Ha')%list_lookup_fmap_Some; eapply wp_mono; [|apply wp_self];
      intros t b' Hb' a'' Ha''; by simplify_eq) Hr i (Ret b)).
    rewrite Ht, list_lookup_fmap, Hb in Hw. specialize (Hw eq_refl a Ha). simpl in Hw. by rewrite app_nil_r in Hw.
Qed.

(** In the order in which the threads [order] completed. *)
Definition pick {T} (l : list T) (order : list nat) : list T := omap (l !!.) order.

Lemma all_done_sequential l w x outs order :
  all_done l w x outs -> order ≡ₚ seq 0 (length l) ->
  runs (each (pick l order)) (concat (calls_of x <$> order)) (pick outs order).
Proof.
  intros Hd Ho. destruct (all_done_runs _ _ _ _ Hd) as [Hl Hr]. apply runs_each.
  assert (forall i, i ∈ order -> (i < length l)%nat) as Hlt.
  { intros i. rewrite Ho, elem_of_seq. lia. }
  clear Ho. induction order as [|i order IH]; [constructor|]. unfold pick in *. csimpl.
  destruct (lookup_lt_is_Some_2 l i) as [a Ha]; [apply Hlt; set_solver|].
  destruct (lookup_lt_is_Some_2 outs i) as [b Hb]; [rewrite Hl; apply Hlt; set_solver|].
  rewrite Ha, Hb. constructor; [by apply Hr|]. apply IH. set_solver.
Qed.

Lemma pick_perm {T} (l : list T) order : order ≡ₚ seq 0 (length l) -> pick l order ≡ₚ l.
Proof.
  intros Ho. assert (pick l (seq 0 (length l)) = l) as Hl.
  { clear. unfold pick. induction l as [|a l IH]; [done|]. csimpl. f_equal. rewrite <-fmap_S_seq.
    assert (forall ns, omap ((a :: l) !!.) (S <$> ns) = omap (l !!.) ns) as -> by (induction ns as [|n ns IHn]; csimpl; [done|by rewrite IHn]).
    exact IH. }
  rewrite <-Hl at 2. unfold pick. by rewrite Ho.
Qed.

(** The sequential run makes the calls of the concurrent one. *)
Lemma calls_perm l w x outs order :
  all_done l w x outs -> order ≡ₚ seq 0 (length l) -> concat (calls_of x <$> order) ≡ₚ (hist x).*2.
Proof.
  intros [Hr _] Ho. destruct (hist_tids phandle env _ _ _ Hr) as [_ Ht]. rewrite length_fmap in Ht.
  assert (forall y, y ∈ hist x -> y.1 ∈ order) as Hin.
  { intros y Hy. rewrite Ho, elem_of_seq. split; [lia|]. by apply Ht. }
  assert (NoDup order) as Hd by (rewrite Ho; apply NoDup_seq). clear Ht Hr Ho. unfold calls_of.
  induction (hist x) as [|[j e] h IH] using rev_ind.
  - clear. induction order; [done|]. done.
  - rewrite fmap_app. csimpl. rewrite <-IH by (intros y Hy; apply Hin; set_solver).
    assert (j ∈ order) as Hj by (apply (Hin (j, e)); set_solver). clear IH Hin.
    apply list_elem_of_split in Hj as (o1 & o2 & ->). apply NoDup_app in Hd as (_ & Hn & [Hj _]%NoDup_cons).
    rewrite !fmap_app, !concat_app. csimpl. rewrite proj_snoc, decide_True by done.
    assert (forall o : list nat, j ∉ o -> (fun i => proj i (h ++ [(j, e)])) <$> o = (fun i => proj i h) <$> o) as Hne.
    { intros o Hjo. apply list_fmap_ext. intros k i Hi. rewrite proj_snoc, decide_False, app_nil_r; [done|].
      intros ->. apply Hjo. by eapply list_elem_of_lookup_2. }
    rewrite !Hne; [|done|intros Hj1; apply (Hn j Hj1); set_solver].
    rewrite <-!app_assoc. do 2 apply Permutation_app_head. apply Permutation_app_comm.
Qed.
End each.

(** ** ensureClusterSettled *)

Section settled.
Context (sortSlice : list nodeReport -> list nodeReport) (sort_perm : forall l, sortSlice l ≡ₚ l).
Context {W : Type} (phandle : nat -> forall c : cmd, W -> resp c * W) (env : W -> W -> Prop).

Lemma ask_nodes_each l : ask_nodes l = each ask_node l.
Proof. induction l as [|a l IH]; [done|]. simpl. by rewrite IH. Qed.

(** The reports' order decides at most which of several errors is returned. *)
Lemma evaluateSettled_perm r1 r2 :
  r1 ≡ₚ r2 -> evaluateSettled sortSlice r1 = None -> evaluateSettled sortSlice r2 = None.
Proof.
  intros Hp H1. pose proof (evaluateSettled_cases sortSlice sort_perm r1) as C1. rewrite H1 in C1.
  pose proof (evaluateSettled_cases sortSlice sort_perm r2) as C2.
  destruct (evaluateSettled sortSlice r2) as [e|]; [|done]. exfalso.
  destruct C1 as [(a & Ha & Hn) [Ho Hs]]. rewrite Hp in Ha.
  destruct C2 as [(_ & Hno & _)|[Hall _]]; [|by apply (Hall a)]. apply Hno. split.
  - intros b Hb. apply Ho. by rewrite Hp.
  - intros b c Hb Hc. apply Hs; by rewrite Hp.
Qed.

End settled.

(** ** enableKeyspaceNotifsOnMasters and subscribeToExpiredEventsOSS *)

(** What the callback on one master comes to: it counted a success or a
    failure, or returned an error. *)
Inductive master_outcome := Enabled | Failed | Aborted (e : error).

Section masters.
Context (r : Client) (reapply : bool).

Definition master_callback (master : string) : prog master_outcome :=
  setup ← enableKeyspaceNotifsOn r (Node master) reapply;
  match setup with
  | Some setupErr =>
    if errors_Is setupErr ErrExistingConfigWithoutOverride then mret (Aborted setupErr)
    else call (Metric (RecordMasterKeyspaceSetup false));; mret Failed
  | None => call (Metric (RecordMasterKeyspaceSetup true));; mret Enabled
  end.

(** The counters, and the first error returned. *)
Definition count_master (acc : Z * Z * option error) (o : master_outcome) : Z * Z * option error :=
  let '(succeeded, failed, first) := acc in
  match o with
  | Enabled => (succeeded + 1, failed, first)
  | Failed => (succeeded, failed + 1, first)
  | Aborted e => (succeeded, failed, match first with None => Some e | Some _ => first end)
  end.

Definition masters_result (outs : list master_outcome) : option error :=
  let '(succeeded, _, err) := fold_left count_master outs (0, 0, None) in
  match err with
  | Some e => Some e
  | None => if succeeded =? 0 then Some (ESentinel ErrKeyspaceNotifsAllMastersFailed) else None
  end.

Lemma each_master_each l : forall t outs s f first,
  runs (each master_callback l) t outs ->
  runs (each_master r l reapply s f first) t (fold_left count_master outs (s, f, first)).
Proof.
  induction l as [|m l IH]; intros t outs s f first Hr; [destruct t; by simplify_eq/=|].
  apply runs_bind_inv in Hr as (t1 & t2 & o & -> & H1 & H2).
  apply runs_bind_inv in H2 as (t3 & t4 & outs' & -> & H3 & H4). destruct t4; [simpl in H4; subst outs|done].
  rewrite app_nil_r. apply runs_bind_inv in H1 as (t5 & t6 & setup & -> & H5 & H6).
  rewrite <-app_assoc. apply (runs_bind _ _ _ _ setup); [done|].
  destruct setup as [e|]; [destruct (errors_Is e ErrExistingConfigWithoutOverride)|].
  - destruct t6; [|done]. simpl in H6. subst o. exact (IH _ _ _ _ _ H3).
  - destruct t6 as [|e6 [|]]; try done; destruct H6 as (a & -> & H6); [|done]. simpl in H6. subst o.
    exists a. split; [done|]. exact (IH _ _ _ _ _ H3).
  - destruct t6 as [|e6 [|]]; try done; destruct H6 as (a & -> & H6); [|done]. simpl in H6. subst o.
    exists a. split; [done|]. exact (IH _ _ _ _ _ H3).
Qed.

(** Success depends on the outcomes, not on their order. *)
Lemma count_master_spec outs : forall s f first,
  let '(s', _, err) := fold_left count_master outs (s, f, first) in
  s <= s' /\ (s' = s <-> Enabled ∉ outs) /\ (err = None <-> first = None /\ forall e, Aborted e ∉ outs).
Proof.
  induction outs as [|o outs IH]; intros s f first; simpl.
  { split_and!; [lia|split; [set_solver|done]|]. split; [|by intros [? _]]. intros. split; [done|set_solver]. }
  destruct o as [| |e].
  - specialize (IH (s + 1) f first). destruct (fold_left _ _ _) as [[s' f'] err]. destruct IH as (H1 & H2 & H3).
    split_and!; [lia|split; [lia|set_solver]|]. rewrite H3. set_solver.
  - specialize (IH s (f + 1) first). destruct (fold_left _ _ _) as [[s' f'] err]. destruct IH as (H1 & H2 & H3).
    split_and!; [lia|rewrite H2; set_solver|]. rewrite H3. set_solver.
  - specialize (IH s f (match first with None => Some e | Some _ => first end)).
    destruct (fold_left _ _ _) as [[s' f'] err]. destruct IH as (H1 & H2 & H3).
    split_and!; [lia|rewrite H2; set_solver|]. rewrite H3.
    split; [by destruct first; intros [? _]|]. intros [_ Hn]. by destruct (Hn e); left.
Qed.

Lemma masters_result_None outs :
  masters_result outs = None <-> Enabled ∈ outs /\ forall e, Aborted e ∉ outs.
Proof.
  unfold masters_result. pose proof (count_master_spec outs 0 0 None) as H.
  destruct (fold_left _ _ _) as [[s f] err]. destruct H as (H1 & H2 & H3).
  assert (Enabled ∈ outs \/ Enabled ∉ outs) as Hdec.
  { clear. induction outs as [|[] outs IH]; set_solver. }
  destruct err as [e|]; [naive_solver|]. destruct (Z.eqb_spec s 0); naive_solver.
Qed.
End masters.

Definition subscribe_callback (master : string) : prog unit :=
  ps ← call (PSubscribe (Node master) MutexKeySpacePattern);
  call (OssAdd ps);;
  call (FanIn ps);;
  mret tt.

Lemma subscribe_each_each l : forall t outs,
  runs (each subscribe_callback l) t outs -> runs (subscribe_each l) t tt.
Proof.
  induction l as [|m l IH]; intros t outs Hr; [by destruct t|].
  apply runs_bind_inv in Hr as (t1 & t2 & o & -> & H1 & H2).
  apply runs_bind_inv in H2 as (t3 & t4 & outs' & -> & H3 & H4). destruct t4; [|done]. rewrite app_nil_r.
  destruct t1 as [|e1 t1]; [done|]. destruct H1 as (ps & -> & H1).
  destruct t1 as [|e2 t1]; [done|]. destruct H1 as (a2 & -> & H1).
  destruct t1 as [|e3 t1]; [done|]. destruct H1 as (a3 & -> & H1). destruct t1; [|done].
  exists ps. split; [done|]. exists a2. split; [done|]. exists a3. split; [done|]. by eapply IH.
Qed.

Section concurrent_masters.
Context (r : Client) {W : Type} (phandle : nat -> forall c : cmd, W -> resp c * W) (env : W -> W -> Prop).


(** Subscribing on all masters concurrently opens, tracks and drains one
    subscription per master, as the sequential run does. *)
Lemma subscribe_concurrent l w x outs order :
  isCluster r = true -> all_done subscribe_callback phandle env l w x outs -> order ≡ₚ seq 0 (length l) ->
  runs (subscribeToExpiredEventsOSS r) (ev ClusterMasters (Ok (pick l order)) :: concat (calls_of x <$> order)) tt.
Proof.
  intros Hc Hd Ho. unfold subscribeToExpiredEventsOSS. rewrite Hc. exists (Ok (pick l order)). split; [done|].
  by eapply subscribe_each_each, all_done_sequential.
Qed.
End concurrent_masters.

(** ** A cluster of two nodes *)

(** Both nodes agree on the slots; the second cannot be configured. *)
Definition two_nodes (i : nat) (c : cmd) (w : unit) : resp c * unit :=
  match c return resp c * unit with
  | ClusterInfo _ => (Ok ("cluster_state:ok" +:+ newline), w)
  | ClusterNodes _ => (Ok "id1 10.0.0.1:6379@16379 master - 0 0 1 connected 0-16383", w)
  | ConfigGet (Node "m2") _ => (Err (EExt "connection refused" [] None), w)
  | c => (default_resp c, w)
  end.

Definition asking : pool unit nodeReport :=
  pool_exec two_nodes [0; 1; 1; 0]%nat (mkPool (ask_node <$> ["m1"; "m2"]) tt []).

Definition agreed : list nodeReport :=
  (fun a => mkReport a "ok" "id1 0-16383" None) <$> ["m1"; "m2"].


Definition configuring : pool unit master_outcome :=
  pool_exec two_nodes [0; 1; 1; 0; 0]%nat (mkPool (master_callback demo_client false <$> ["m1"; "m2"]) tt []).

