(* ===== verification/Relay.v ===== *)
(** * impl/init.go: fanInPubSub, and the channel between pub/sub and listenKsp

    Each subscription's goroutine offers its messages to the shared, bounded
    [kspChan] without blocking; [listenKsp] takes them out; [cleanup] empties
    the channel. The channel's history is a sequence of such actions. *)

From Stdlib Require Import ZArith String Lia.
From stdpp Require Import base strings list.
From S2P Require Import Prelude GoStrings.

(** A pub/sub message: channel and payload. *)
Definition Message : Type := string * string.

(** The channel, with what was taken out of it and what was dropped. *)
Record relay := mkRelay {
  kspChan : list Message;
  handled : list Message;
  discarded : list Message;    (* by cleanup *)
  droppedCount : nat           (* RecordKspNotificationDropped *)
}.

Section relay.
Context (cap : nat).

(** [fanInPubSub]'s select with a default branch. *)
Definition offer (msg : Message) (s : relay) : relay :=
  if Nat.ltb (length (kspChan s)) cap
  then mkRelay (kspChan s ++ [msg]) (handled s) (discarded s) (droppedCount s)
  else mkRelay (kspChan s) (handled s) (discarded s) (S (droppedCount s)).

(** [listenKsp]'s receive; it blocks on an empty channel. *)
Definition receive (s : relay) : relay :=
  match kspChan s with
  | [] => s
  | m :: q => mkRelay q (handled s ++ [m]) (discarded s) (droppedCount s)
  end.

(** [cleanup]'s loop: receive and ignore while the channel is not empty. *)
Fixpoint drain (q : list Message) (s : relay) : relay :=
  match q with
  | [] => mkRelay [] (handled s) (discarded s) (droppedCount s)
  | m :: q' => drain q' (mkRelay q' (handled s) (discarded s ++ [m]) (droppedCount s))
  end.

Inductive kaction := Offer (msg : Message) | Receive | Drain.

Definition kstep (s : relay) (a : kaction) : relay :=
  match a with Offer m => offer m s | Receive => receive s | Drain => drain (kspChan s) s end.

Definition empty_relay : relay := mkRelay [] [] [] 0.

Definition offered (l : list kaction) : list Message :=
  omap (fun a => match a with Offer m => Some m | _ => None end) l.

Lemma drain_spec q s :
  drain q s = mkRelay [] (handled s) (discarded s ++ q) (droppedCount s).
Proof.
  revert s. induction q as [|m q IH]; intros s; simpl; [by rewrite app_nil_r|].
  rewrite IH. simpl. by rewrite <-app_assoc.
Qed.

(** How much of [offered] a state accounts for. *)
Definition relay_inv (l : list Message) (s : relay) : Prop :=
  (length (kspChan s) <= cap)%nat /\
  length l = (length (kspChan s) + length (handled s) + length (discarded s) + droppedCount s)%nat /\
  (discarded s = [] -> sublist (handled s ++ kspChan s) l) /\
  (droppedCount s = 0%nat -> discarded s = [] -> handled s ++ kspChan s = l).

Lemma relay_step l s a :
  relay_inv l s -> relay_inv (l ++ match a with Offer m => [m] | _ => [] end) (kstep s a).
Proof.
  destruct s as [q h d n]. unfold relay_inv. simpl. intros (Hc & Hl & Hs & He).
  destruct a as [m| |]; simpl; rewrite ?app_nil_r.
  - unfold offer. simpl. destruct (Nat.ltb_spec (length q) cap); simpl; rewrite !length_app; simpl.
    + split_and!; [lia|lia| |].
      * intros Hd. rewrite app_assoc. apply sublist_app; [auto|done].
      * intros Hn Hd. by rewrite app_assoc, He.
    + split_and!; [lia|lia| |lia]. intros Hd. by apply sublist_inserts_r, Hs.
  - unfold receive. simpl. destruct q as [|m q]; simpl in *; [done|]. rewrite length_app, <-app_assoc. simpl.
    split_and!; [lia|lia|done|done].
  - rewrite drain_spec. simpl. rewrite length_app. split_and!; [lia|lia| |].
    + intros [-> ->]%app_nil. rewrite app_nil_r in *. auto.
    + intros Hn [-> ->]%app_nil. auto.
Qed.

End relay.
