(* ===== verification/ClientApi.v ===== *)
(** * types/types.go: the interface the library offers

    [RedisStreamClient] is the interface of types/types.go as a class of
    operations; the client of impl/ is its instance. *)

From Stdlib Require Import String.
From stdpp Require Import base strings.
From S2P Require Import Prelude GoStrings Errs Notifs Effects Options Requeue Streams Settled Topology.

(** [Init] also returns the output channel, which the broker of the client
    feeds; an operation returns Go's [error], [None] for nil. *)
Class RedisStreamClient (C : Type) := {
  api_ID : C -> string;
  api_Init : C -> prog (option error);
  api_Claim : C -> LBSInfo -> prog (option error);
  api_Done : C -> prog (option error);
  api_DoneStream : C -> string -> prog (option error);
  api_ReinitTopology : C -> prog (option error)
}.

#[export] Instance RecoverableRedisStreamClient `{JsonText} : RedisStreamClient Client := {|
  api_ID := ID;
  api_Init := Init;
  api_Claim := Claim;
  api_Done := Done;
  api_DoneStream := DoneStream;
  api_ReinitTopology := ReinitTopology sort_reports
|}.

