(* ===== verification/LoadBalancing.v ===== *)
(** * examples/load-balancing/main.go: an application of the library

    A producer that adds tasks to the load-balancer stream and a consumer that
    uses the client's interface: it starts a goroutine per StreamAdded, claims
    on StreamExpired, counts what it processed, and shuts the client down on a
    signal. [handleStreamAdded] and the notification loop are written against
    the class [RedisStreamClient]; [runConsumer] against the client of impl/.

    Loops without an end (the producer, the notification loop, the statistics)
    take the number of rounds they are observed for. What is only logged is the
    result of the program that logs it. *)

From Stdlib Require Import ZArith String Lia.
From stdpp Require Import base gmap strings list relations.
From S2P Require Import Prelude GoStrings Json Configs Errs Notifs Effects Options Streams Reader Settled Topology ClientApi Marshal Recorder LbsEntry Requeue Server RefServer.

#[local] Open Scope string_scope.
#[local] Open Scope list_scope.
#[local] Open Scope Z_scope.

(** Go's int32. *)
Definition wrap32 (z : Z) : Z := (z + 2 ^ 31) mod 2 ^ 32 - 2 ^ 31.

(** ** The consumer's goroutines *)

Section consumer.
Context {C : Type} `{RedisStreamClient C} (client : C).

Definition processingTime (notification : RecoverableRedisNotification) : Z :=
  match default ∅ (AdditionalInfo notification) !! "priority" with
  | Some (AString priority) =>
    if String.eqb priority "high" then 1 * Second
    else if String.eqb priority "low" then 4 * Second
    else 2 * Second
  | _ => 2 * Second
  end.

(** The result is the error that is logged. [*streamCount++] is a load and a
    store of a plain variable. *)
Definition handleStreamAdded (notification : RecoverableRedisNotification) : prog (option error) :=
  let streamName := info_DataStreamName (Payload notification) in
  call (Sleep (processingTime notification));;
  now ← call Now;
  call (ProcessedStore streamName now);;
  n ← call CountLoad;
  call (CountStore (wrap32 (n + 1)));;
  api_DoneStream client streamName.

(** The body of the notification loop; an error of [Claim] is logged. *)
Definition dispatch (notification : RecoverableRedisNotification) : prog unit :=
  match Type_ notification with
  | StreamAdded => call (GoHandleStreamAdded notification);; mret tt
  | StreamExpired => api_Claim client (Payload notification);; mret tt
  | StreamDisowned | StreamTerminated | Unknown => mret tt
  end.

Fixpoint consume (iterations : nat) : prog status :=
  match iterations with
  | O => mret Running
  | S n =>
    o ← call OutputRecv;
    match o with
    | None => mret Returned
    | Some notification => dispatch notification;; consume n
    end
  end.
End consumer.

(** Streams processed in the last ten seconds, each by its own clock reading. *)
Fixpoint recent (l : list (string * Z)) (recentCount : Z) : prog Z :=
  match l with
  | [] => mret recentCount
  | (_, processedTime) :: l' =>
    now ← call Now;
    recent l' (if Sub now processedTime <? 10 * Second then add64 recentCount 1 else recentCount)
  end.

(** The counts logged at each tick. *)
Fixpoint printStatistics (iterations : nat) : prog (list (Z * Z)) :=
  match iterations with
  | O => mret []
  | S n =>
    ended ← call (TickOrDone (10 * Second));
    if (ended : bool) then mret []
    else
      count ← call CountLoad;
      l ← call ProcessedRange;
      recentCount ← recent l 0;
      rest ← printStatistics n;
      mret ((count, recentCount) :: rest)
  end.

(** ** The consumer *)

(** How a process or a function ends. *)
Inductive exit_status := Exited (exit_code : Z) | FunctionReturned | NilDereference.

#[export] Instance exit_status_eq_dec : EqDecision exit_status.
Proof. solve_decision. Defined.

Definition redisAddr (getenv : string -> string) : string :=
  if String.eqb (getenv "REDIS_ADDR") ε then "localhost:6379" else getenv "REDIS_ADDR".

Definition example_options : list Opt :=
  [ORetryConfig (mkRetryConfig (-1) (100 * Millisecond) (30 * Second)); OForceConfigOverride].

(** The deferred calls; [os.Exit] skips them. *)
Definition deferred : prog unit := call RedisClose;; call CancelCtx;; mret tt.

(** [runConsumer] from the connection on, in the environment it has set up;
    [redisIsCluster] is what go-redis made of the address. *)
Definition connect_and_run `{JsonText} (getenv : string -> string) (redisIsCluster : bool) : prog exit_status :=
  call (NewUniversalClient (redisAddr getenv));;
  pinged ← call Ping;
  match pinged with
  | Some _ => mret (Exited 1)
  | None =>
    set ← call (ConfigSet Default "notify-keyspace-events" "KEx");
    match set with
    | Err _ => mret (Exited 1)
    | Ok _ =>
      match NewRedisStreamClient getenv redisIsCluster "load-balance-demo" example_options with
      | Err _ => deferred;; mret NilDereference
      | Ok client =>
        err ← api_Init client;
        match err with
        | Some _ => mret (Exited 1)
        | None =>
          call GoConsume;;
          call GoStatistics;;
          call AwaitSignal;;
          api_Done client;;
          deferred;;
          mret FunctionReturned
        end
      end
    end
  end.

(** [os.Setenv("POD_NAME", consumerID)]. *)
Definition with_pod (consumerID : string) (getenv : string -> string) : string -> string :=
  fun k => if String.eqb k "POD_NAME" then consumerID else getenv k.

(** [getenv] is the environment the process was started in. *)
Definition runConsumer `{JsonText} (getenv : string -> string) (redisIsCluster : bool) : prog exit_status :=
  let consumerID := getenv "POD_NAME" in
  if String.eqb consumerID ε then
    now ← call Now;
    connect_and_run (with_pod ("consumer-" +:+ Itoa (Z.quot now Second)) getenv) redisIsCluster
  else connect_and_run getenv redisIsCluster.

(** ** The producer *)

(** The message with number [messageID]; [None] is the panic of indexing the
    priorities with a negative remainder. *)
Definition lbsMessage (messageID : Z) (created_at : string) : option (string * gmap string scalar) :=
  let i := Z.rem messageID 3 in
  match (if i <? 0 then None else ["low"; "normal"; "high"] !! Z.to_nat i) with
  | None => None
  | Some priority =>
    Some ("order-stream-" +:+ Itoa messageID,
      {["order_id" := SString ("order-" +:+ Itoa messageID);
        "customer_id" := SString ("customer-" +:+ Itoa (Z.rem messageID 100));
        "amount" := SInt (add64 (Z.rem messageID 1000) 100);
        "created_at" := SString created_at;
        "status" := SString "pending";
        "priority" := SString priority]})
  end.

(** [n] messages of a batch, from number [messageID]; the next number, or
    [None] after a panic. Encoding such a message cannot fail; a failing XADD
    is logged. *)
Fixpoint produce (n : nat) (messageID : Z) : prog (option Z) :=
  match n with
  | O => mret (Some messageID)
  | S n' =>
    created_at ← call NowRFC3339;
    match lbsMessage messageID created_at with
    | None => mret None
    | Some (name, info) =>
      call (XAdd "load-balance-demo-input" 0 false {["lbs-input" := AString (Marshal name info)]});;
      produce n' (add64 messageID 1)
    end
  end.

Fixpoint produce_batches (batches : nat) (messageID : Z) : prog status :=
  match batches with
  | O => mret Running
  | S n =>
    next ← produce 5 messageID;
    match next with
    | None => mret Panicked
    | Some messageID' => call (Sleep (3 * Second));; produce_batches n messageID'
    end
  end.

Definition runProducer (getenv : string -> string) (batches : nat) : prog (exit_status + status) :=
  call (NewUniversalClient (redisAddr getenv));;
  pinged ← call Ping;
  match pinged with
  | Some _ => mret (inl (Exited 1))
  | None =>
    st ← produce_batches batches 0;
    match st with
    | Running => mret (inr st)
    | _ => call RedisClose;; mret (inr st)
    end
  end.

(** [main]: observed for a number of batches if it is the producer. *)
Definition main_ `{JsonText} (args : list string) (getenv : string -> string) (redisIsCluster : bool)
    (batches : nat) : prog (exit_status + status) :=
  if (1 <? Z.of_nat (length args)) && bool_decide (args !! 1%nat = Some "producer")
  then runProducer getenv batches
  else st ← runConsumer getenv redisIsCluster; mret (inl st).

(** ** The consumer: properties *)

(** The application's own calls; the client makes none of them. *)
Definition is_app (e : event) : bool :=
  match projT1 e with
  | NewUniversalClient _ | Ping | RedisClose | AwaitSignal | CancelCtx | Now | NowRFC3339 | OutputRecv
  | TickOrDone _ | GoConsume | GoStatistics | GoHandleStreamAdded _ | ProcessedStore _ _ | ProcessedRange
  | CountLoad | CountStore _ => true
  | _ => false
  end.

Definition by_client (e : event) : bool := negb (is_app e).

Lemma walk_calls {A} f (p : prog A) : always p (fun t => forallb f t = true) -> calls_only f p.
Proof. done. Qed.

Lemma DoneStream_by_client r name : calls_only by_client (DoneStream r name).
Proof. apply walk_calls. unfold DoneStream, popStreamLocksInfo. walk ltac:(done). Qed.

Lemma Claim_by_client r info : calls_only by_client (Claim r info).
Proof.
  apply walk_calls. unfold Claim, reQueue, reAdd, routeToDLQ, readLBSEntry, ownerAlive, CreateByParts.
  walk ltac:(done).
Qed.

Lemma Done_by_client r : calls_only by_client (Done r).
Proof.
  apply calls_only_call. intros names. split; [done|]. apply calls_only_bind.
  - induction names as [|n names IH]; [apply calls_only_ret|].
    apply calls_only_bind; [apply DoneStream_by_client|]. intros [e|]; [apply calls_only_ret|exact IH].
  - assert (calls_only by_client closeAll) as Hc.
    { apply calls_only_call. intros l. split; [done|].
      induction l as [|ps l IH]; [apply calls_only_ret|]. apply calls_only_call. by split. }
    intros [e|]; [apply calls_only_ret|]. do 3 (apply calls_only_call; intros; split; [done|]).
    apply calls_only_call. intros [p|]; (split; [done|]).
    + apply calls_only_call. intros [e|]; (split; [done|]); [apply calls_only_ret|].
      apply calls_only_bind; [done|]. intros. apply calls_only_ret.
    + apply calls_only_bind; [done|]. intros. apply calls_only_ret.
Qed.

Lemma Init_by_client `{JsonText} r : calls_only by_client (Init r).
Proof.
  unfold Init. case_match; [apply calls_only_ret|]. apply calls_only_bind.
  { eapply calls_only_mono; [|apply enable_calls]. intros [c a]. by destruct c. }
  intros [e|]; [apply calls_only_ret|]. apply calls_only_bind.
  { eapply calls_only_mono; [|apply subscribe_calls]. intros [c a]. by destruct c. }
  intros []. apply calls_only_call. intros. split; [done|]. apply calls_only_call. intros res. split; [done|].
  case_match; [apply calls_only_ret|]. do 3 (apply calls_only_call; intros; split; [done|]). apply calls_only_ret.
Qed.

(** The options of the example are valid: a pod name is all that is needed. *)
Lemma example_client getenv b :
  getenv "POD_NAME" <> ε ->
  exists r, NewRedisStreamClient getenv b "load-balance-demo" example_options = Ok r /\
    serviceName r = "load-balance-demo".
Proof.
  intros Hp. unfold NewRedisStreamClient. change PodName with "POD_NAME".
  destruct (getenv "POD_NAME") as [|c pod]; [done|]. simpl. eexists. split; reflexivity.
Qed.

(** Which of the application's own calls were made. *)
Definition app_calls (t : trace) : list cmd := omap (fun e => if is_app e then Some (projT1 e) else None) t.

Lemma app_calls_app t1 t2 : app_calls (t1 ++ t2) = app_calls t1 ++ app_calls t2.
Proof. apply omap_app. Qed.

Lemma app_calls_client t : forallb by_client t = true -> app_calls t = [].
Proof. apply calls_only_omap. unfold by_client. intros e He%negb_true_iff. by rewrite He. Qed.

(** The calls up to the connection test. *)
Definition startup_calls (getenv : string -> string) : list cmd :=
  (if String.eqb (getenv "POD_NAME") ε then [Now] else []) ++ [NewUniversalClient (redisAddr getenv); Ping].

(** How a consumer that was asked to stop has run: it started its goroutines
    after a successful [Init], and [Done] ran between the signal and the end. *)
Definition shut_down `{JsonText} (getenv : string -> string) (t : trace) : Prop :=
  exists (client : Client) t0 t1 err,
    t = t0 ++ ev AwaitSignal tt :: t1 ++ [ev RedisClose tt; ev CancelCtx tt] /\
    app_calls t0 = startup_calls getenv ++ [GoConsume; GoStatistics] /\
    serviceName client = "load-balance-demo" /\ runs (api_Done client) t1 err.

Definition consumer_ok `{JsonText} (getenv : string -> string) (t : trace) (st : exit_status) : Prop :=
  match st with
  | NilDereference => False
  | Exited n => n = 1 /\ app_calls t = startup_calls getenv
  | FunctionReturned => shut_down getenv t
  end.

#[local] Opaque Init Done.

Lemma connect_and_run_ok `{JsonText} env getenv b t0 :
  env "POD_NAME" <> ε -> redisAddr env = redisAddr getenv ->
  app_calls t0 = (if String.eqb (getenv "POD_NAME") ε then [Now] else []) ->
  wp (connect_and_run env b) (fun t st => consumer_ok getenv (t0 ++ t) st).
Proof.
  intros Hp Ha H0. destruct (example_client env b Hp) as (client & Hc & Hs).
  unfold connect_and_run. rewrite Hc, Ha. set (addr := redisAddr getenv). clear Hc Ha.
  assert (forall t, app_calls (t0 ++ ev (NewUniversalClient addr) tt :: t) =
    (if String.eqb (getenv "POD_NAME") ε then [Now] else []) ++ NewUniversalClient addr :: app_calls t) as Happ.
  { intros t. rewrite app_calls_app, H0. done. }
  intros []. intros [e|]; simpl; [split; [done|]; by rewrite Happ|].
  intros [[]|e]; [|split; [done|]; by rewrite Happ].
  refine (proj2 (wp_bind _ _ _) _). eapply wp_mono; [|apply calls_only_wp, Init_by_client].
  intros ti [e|] Hi; simpl.
  { split; [done|]. rewrite Happ, app_nil_r. simpl. rewrite (app_calls_client _ Hi). done. }
  intros [] [] []. refine (proj2 (wp_bind _ _ _) _). eapply wp_mono; [|apply wp_self].
  intros td err Hd. simpl. intros [] [].
  eexists client, (t0 ++ ev (NewUniversalClient addr) tt :: ev Ping None ::
    ev (ConfigSet Default "notify-keyspace-events" "KEx") (Ok tt) :: ti ++ [ev GoConsume tt; ev GoStatistics tt]), td, err.
  split_and!; [|rewrite Happ|done..].
  - rewrite <-app_assoc. simpl. by rewrite <-app_assoc.
  - simpl. rewrite app_calls_app. rewrite (app_calls_client _ Hi). unfold startup_calls.
    by rewrite <-app_assoc.
Qed.

(** C38: the life of the consumer process. [runConsumer] never dereferences the
    nil client of a failed construction, although it does not return on that
    error: the construction cannot fail, whatever the environment. It exits with
    code 1 before starting any goroutine when the connection, the configuration
    or [Init] fails; otherwise it runs [Done] of a client of its service after
    the signal, and then closes its connection and cancels its context. *)
Theorem consumer_lifecycle `{JsonText} getenv b : wp (runConsumer getenv b) (consumer_ok getenv).
Proof.
  unfold runConsumer. destruct (String.eqb_spec (getenv "POD_NAME") ε) as [E|E].
  - intros now. apply (connect_and_run_ok _ getenv b [ev Now now]); [done..|]. by rewrite E.
  - apply (connect_and_run_ok getenv getenv b []); [done..|]. by destruct (String.eqb_spec (getenv "POD_NAME") ε).
Qed.

(** ** The notification loop: properties *)

(** Notifications received, handlers started, entries a claim was tried for. *)
Definition received (e : event) : option RecoverableRedisNotification :=
  let '(existT c a) := e in
  match c return resp c -> option RecoverableRedisNotification with OutputRecv => fun a => a | _ => fun _ => None end a.

Definition handler_of (e : event) : option RecoverableRedisNotification :=
  match projT1 e with GoHandleStreamAdded n => Some n | _ => None end.

Definition of_type (ty : NotificationType) (n : RecoverableRedisNotification) : option RecoverableRedisNotification :=
  if decide (Type_ n = ty) then Some n else None.

(** What a loop that received [ns] has done. *)
Definition dispatched (t : trace) (ns : list RecoverableRedisNotification) : Prop :=
  omap received t = ns /\ omap handler_of t = omap (of_type StreamAdded) ns /\
  omap Reconcile.attempt t = (fun n => IDInLBS (Payload n)) <$> omap (of_type StreamExpired) ns.

Lemma dispatched_app t1 t2 ns1 ns2 :
  dispatched t1 ns1 -> dispatched t2 ns2 -> dispatched (t1 ++ t2) (ns1 ++ ns2).
Proof. intros (H1 & H2 & H3) (H4 & H5 & H6). unfold dispatched. rewrite !omap_app, fmap_app. by rewrite H1, H2, H3, H4, H5, H6. Qed.

Lemma Claim_attempt r info : wp (Claim r info) (fun t _ =>
  omap Reconcile.attempt t = [IDInLBS info] /\ omap received t = [] /\ omap handler_of t = []).
Proof.
  unfold Claim, reQueue, reAdd, routeToDLQ, readLBSEntry, ownerAlive, CreateByParts. walk ltac:(done).
Qed.

#[local] Opaque Claim.

Lemma dispatch_ok `{JsonText} (client : Client) n :
  wp (dispatch client n) (fun t _ => dispatched (ev OutputRecv (Some n) :: t) [n]).
Proof.
  unfold dispatch, dispatched, of_type. destruct n as [[] p info]; csimpl; try done.
  refine (proj2 (wp_bind _ _ _) _). eapply wp_mono; [|apply Claim_attempt].
  intros t o (Ha & Hr & Hh). csimpl. by rewrite app_nil_r, Ha, Hr, Hh.
Qed.

(** Every notification is acted on, in order. The consumer's loop starts one
    handler for each StreamAdded it receives and tries one claim, of that entry,
    for each StreamExpired, in the order received, and nothing for any other;
    a failed claim does not stop it; it ends when the channel is closed, and
    otherwise has received one notification per round. *)
Theorem consume_dispatches `{JsonText} (client : Client) iterations :
  wp (consume client iterations) (fun t st => exists ns, dispatched t ns /\
    match st with
    | Running => length ns = iterations
    | Returned => (length ns < iterations)%nat /\ last t = Some (ev OutputRecv None)
    | Panicked => False
    end).
Proof.
  induction iterations as [|k IH]; [by exists []|]. intros [n|]; [|exists []; simpl; split_and!; [done..|lia|done]].
  refine (proj2 (wp_bind _ _ _) _). eapply wp_mono; [|apply dispatch_ok]. intros t [] Ht.
  eapply wp_mono; [|exact IH]. intros t' st (ns & Hns & Hst). exists (n :: ns). split.
  - apply (dispatched_app (ev OutputRecv (Some n) :: t) t' [n] ns Ht Hns).
  - destruct st; simpl; [by rewrite Hst| |done]. destruct Hst as [Hl He]. split; [lia|].
    change (ev OutputRecv (Some n) :: t ++ t') with ((ev OutputRecv (Some n) :: t) ++ t').
    rewrite last_app, He. done.
Qed.

(** ** The producer: properties *)

(** ASCII strings are valid UTF-8. *)
Fixpoint is_ascii (s : string) : bool :=
  match s with ε => true | String c s' => N.ltb (code c) 128 && is_ascii s' end.

Lemma is_ascii_valid s : is_ascii s = true -> valid_string s = true.
Proof.
  unfold valid_string. induction s as [|c s IH]; [done|]. simpl. intros [-> Hs]%andb_true_iff. auto.
Qed.

Lemma is_ascii_app a b : is_ascii (a +:+ b) = is_ascii a && is_ascii b.
Proof. induction a as [|c a IH]; simpl; [done|]. by rewrite IH, andb_assoc. Qed.

Lemma is_ascii_Itoa z : is_ascii (Itoa z) = true.
Proof.
  assert (forall u, is_ascii (DecimalString.NilEmpty.string_of_uint u) = true) as Hu by (induction u; done).
  unfold Itoa. destruct (z <? 0); [apply (Hu _)|apply Hu].
Qed.

Lemma valid_numbered prefix z : is_ascii prefix = true -> valid_string (prefix +:+ Itoa z) = true.
Proof. intros Hp. apply is_ascii_valid. by rewrite is_ascii_app, Hp, is_ascii_Itoa. Qed.

Definition priorities : list string := ["low"; "normal"; "high"].

(** The priority of message [i >= 0]. *)
Definition priority_of (i : Z) : string := nth (Z.to_nat (i mod 3)) priorities ε.

(** What a message says, as the consumer's client reads it. *)
Definition task (vs : values) : option (string * option any) :=
  match parse_message vs with
  | Ok msg => Some (DataStreamName msg, default ∅ (Info msg) !! "priority")
  | Err _ => None
  end.

(** A message can be built for every number that is not negative, and can be
    written without loss. *)
Lemma lbsMessage_some i created :
  0 <= i -> valid_string created = true ->
  exists info, lbsMessage i created = Some ("order-stream-" +:+ Itoa i, info) /\
    message_ok ("order-stream-" +:+ Itoa i) info /\ info !! "priority" = Some (SString (priority_of i)).
Proof.
  intros Hi Hc. unfold lbsMessage, priority_of. rewrite Z.rem_mod_nonneg by lia.
  pose proof (Z.mod_pos_bound i 3 ltac:(lia)) as Hb.
  destruct (Z.ltb_spec (i mod 3) 0); [lia|].
  assert (["low"; "normal"; "high"] !! Z.to_nat (i mod 3) = Some (nth (Z.to_nat (i mod 3)) priorities ε) /\
    is_ascii (nth (Z.to_nat (i mod 3)) priorities ε) = true) as [-> Hp].
  { assert (i mod 3 = 0 \/ i mod 3 = 1 \/ i mod 3 = 2) as [->|[->| ->]] by lia; done. }
  set (p := nth _ _ _) in *. clearbody p. eexists. split; [done|]. split; [|rewrite !lookup_insert_ne by done; apply lookup_singleton_eq].
  split; [by apply valid_numbered|]. intros k v Hk.
  repeat (apply lookup_insert_Some in Hk as [[<- <-]|[_ Hk]]; [split; [done|]|]);
    [cbn [scalar_ok]; first [by apply valid_numbered|done|apply wrap64_range].. |].
  apply lookup_singleton_Some in Hk as [<- <-]. split; [done|]. cbn [scalar_ok]. by apply is_ascii_valid.
Qed.

(** What is produced is read back by the client. *)
Lemma task_Marshal name info :
  message_ok name info -> name <> ε ->
  parse_message {["lbs-input" := AString (Marshal name info)]} = Ok (mkLBSInputMessage name (Some (scalar_any <$> info))).
Proof.
  intros Hm Hn. unfold parse_message. change LBSInput with "lbs-input". rewrite lookup_singleton_eq.
  rewrite Unmarshal_Marshal_ok by done. simpl. by destruct (String.eqb_spec name ε).
Qed.

(** The entries added. *)
Definition xadded (e : event) : option (string * values) :=
  match projT1 e with XAdd s _ _ vs => Some (s, vs) | _ => None end.

(** The clock's text is valid UTF-8 (RFC 3339 is ASCII). *)
Definition clock_ok (e : event) : bool :=
  let '(existT c a) := e in
  match c return resp c -> bool with NowRFC3339 => fun a => valid_string a | _ => fun _ => true end a.

(** The tasks due: numbers [i], [i+1], ... *)
Definition due_tasks (i : Z) (n : nat) : list (string * option (string * option any)) :=
  (fun j => ("load-balance-demo-input",
    Some ("order-stream-" +:+ Itoa j, Some (AString (priority_of j))))) <$> seqZ i (Z.of_nat n).

Definition tasks_added (t : trace) : list (string * option (string * option any)) :=
  (fun x => (x.1, task x.2)) <$> omap xadded t.

Lemma due_tasks_S i n : due_tasks i (S n) =
  ("load-balance-demo-input", Some ("order-stream-" +:+ Itoa i, Some (AString (priority_of i)))) :: due_tasks (i + 1) n.
Proof. unfold due_tasks. rewrite seqZ_cons by lia. csimpl. f_equal. f_equal. f_equal; lia. Qed.

Lemma due_tasks_app i n m : due_tasks i (n + m) = due_tasks i n ++ due_tasks (i + Z.of_nat n) m.
Proof. unfold due_tasks. rewrite Nat2Z.inj_add, seqZ_app by lia. apply fmap_app. Qed.

Lemma produce_ok n : forall i, 0 <= i -> i + Z.of_nat n <= max_int64 ->
  wp (produce n i) (fun t res => forallb clock_ok t = true ->
    res = Some (i + Z.of_nat n) /\ tasks_added t = due_tasks i n).
Proof.
  induction n as [|n IH]; intros i Hi Hmax; [simpl; intros _; split; [f_equal; lia|done]|].
  cbn [produce mbind prog_bind call wp]. intros created. destruct (valid_string created) eqn:Hc.
  - destruct (lbsMessage_some i created Hi Hc) as (info & -> & Hok & Hp).
    intros added. rewrite add64_id by (unfold in_int64, min_int64; lia).
    eapply wp_mono; [|apply (IH (i + 1)); lia]. intros t res Ht Hclock.
    destruct Ht as [-> Ht]; [by destruct added; simpl in Hclock; rewrite Hc in Hclock|].
    split; [f_equal; lia|]. rewrite due_tasks_S, <-Ht. unfold tasks_added. csimpl.
    unfold task at 1. rewrite task_Marshal; [|done..]. simpl. by rewrite lookup_fmap, Hp.
  - eapply wp_mono; [|apply wp_true]. intros t res _. simpl. by rewrite Hc.
Qed.

Lemma produce_batches_ok batches : forall i, 0 <= i -> i + Z.of_nat (5 * batches) <= max_int64 ->
  wp (produce_batches batches i) (fun t st => forallb clock_ok t = true ->
    st = Running /\ tasks_added t = due_tasks i (5 * batches)).
Proof.
  induction batches as [|k IH]; intros i Hi Hmax; [done|].
  refine (proj2 (wp_bind _ _ _) _). eapply wp_mono; [|apply (produce_ok 5 i); lia].
  intros t res Ht. destruct res as [i'|].
  - intros []. destruct (decide (i' = i + 5)) as [->|Hne].
    + eapply wp_mono; [|apply IH; lia]. intros t' st Ht'. rewrite forallb_app, andb_true_iff. intros [H1 H2].
      destruct (Ht H1) as [_ Ht1]. destruct (Ht' H2) as [-> Ht2]. split; [done|].
      replace (5 * S k)%nat with (5 + 5 * k)%nat by lia. rewrite due_tasks_app. unfold tasks_added in *.
      rewrite omap_app, fmap_app, Ht1. f_equal. exact Ht2.
    + eapply wp_mono; [|apply wp_true]. intros t' st _. rewrite forallb_app, andb_true_iff. intros [H1 _].
      destruct (Ht H1) as [[= ->] _]. lia.
  - intros H1. rewrite app_nil_r in H1. by destruct (Ht H1).
Qed.

(** C37: what the producer adds is what its consumers read. Observed for any
    number of batches (short of 2^63 messages), with any failing XADDs, the
    producer has added to the example service's load-balancer stream exactly the
    tasks order-stream-0, order-stream-1, ... in order, five per batch; every
    one of them is accepted by the client's parser, with its stream name and its
    priority, through json.Marshal and json.Unmarshal. *)
Theorem producer_tasks getenv batches :
  5 * Z.of_nat batches <= max_int64 ->
  wp (runProducer getenv batches) (fun t res => forallb clock_ok t = true ->
    match res with
    | inl st => st = Exited 1 /\ tasks_added t = []
    | inr st => st = Running /\ tasks_added t = due_tasks 0 (5 * batches)
    end).
Proof.
  intros Hb. intros []. intros [e|]; [done|].
  refine (proj2 (wp_bind _ _ _) _). eapply wp_mono; [|apply (produce_batches_ok batches 0); lia].
  intros t st Ht. destruct st; simpl.
  1: { rewrite app_nil_r. exact Ht. }
  all: intros [] Hc; rewrite forallb_app, andb_true_iff in Hc; by destruct (Ht (proj1 Hc)).
Qed.

Lemma producer_tasks_witness :
  let r := run (runProducer pod_env 2) orphan_world in
  r.1.1 = inr Running /\ tasks_added r.2 = due_tasks 0 10.
Proof.
  pose proof (wp_run _ _ orphan_world (producer_tasks pod_env 2 ltac:(vm_compute; discriminate))) as Hw.
  assert ((run (runProducer pod_env 2) orphan_world).1.1 = inr Running) as E by (vm_compute; reflexivity).
  rewrite E in Hw. split; [exact E|]. apply Hw. vm_compute. reflexivity.
Defined.

(** ** From the producer to the end of a task *)

Definition empty_world : world := mkWorld ∅ ∅ ∅ ∅ ∅ 1 [].

(** A client of the example's service. *)
Definition example_service (client : Client) : Prop := serviceName client = "load-balance-demo".

(** The server after the producer added a task. *)
Definition task_world (vs : values) : world :=
  mkWorld {[("load-balance-demo-input", "1-0") := vs]} ∅ ∅ ∅ ∅ 2 [].

Lemma exec_add vs :
  exec (call (XAdd "load-balance-demo-input" 0 false vs)) empty_world = (Ok "1-0", task_world vs).
Proof. reflexivity. Qed.

Definition the_entry : string * string * string := ("load-balance-demo-input", "load-balance-demo-group", "1-0").

(** The task is delivered to the client. *)
Lemma exec_read (client : Client) vs :
  example_service client ->
  exec (call (XReadGroup (lbsGroupName client) (consumerID client) (lbsName client) ">" 0)) (task_world vs) =
  (Ok [("load-balance-demo-input", [("1-0", vs)])],
   mkWorld {[("load-balance-demo-input", "1-0") := vs]} {[the_entry]} {[the_entry]} ∅ ∅ 2 []).
Proof.
  intros Hs. unfold lbsName, lbsGroupName. rewrite Hs. unfold call. rewrite exec_call by done. simpl.
  unfold do_xreadgroup, undelivered. simpl. rewrite map_to_list_singleton. simpl.
  rewrite bool_decide_false by set_solver. simpl. unfold exec. simpl. f_equal.
Qed.

(** ... processed: locked, tracked and announced ... *)
Definition held_world (client : Client) (vs : values) (msg : LBSInputMessage) : world :=
  let info := mkLBSInfo (DataStreamName msg) "1-0" in
  mkWorld {[("load-balance-demo-input", "1-0") := vs]} {[the_entry]} {[the_entry]}
    {[FormMutexKey info := consumerID client]}
    {[DataStreamName msg := mkStreamLocksInfo info (newMutex client info) (Info msg)]} 2 [].

Lemma run_process (client : Client) vs msg :
  example_service client -> parse_message vs = Ok msg -> DataStreamName msg <> ε ->
  let '(err, w, t) := run (processLBSMessages client [("load-balance-demo-input", [("1-0", vs)])])
    (mkWorld {[("load-balance-demo-input", "1-0") := vs]} {[the_entry]} {[the_entry]} ∅ ∅ 2 []) in
  err = None /\ w = held_world client vs msg /\
  omap sent t = [Make StreamAdded (mkLBSInfo (DataStreamName msg) "1-0") (Info msg)].
Proof.
  intros Hs Hp Hn. unfold processLBSMessages, process_messages, process_message. rewrite Hp.
  unfold CreateByParts. destruct (DataStreamName msg) as [|c name] eqn:E; [done|]. simpl.
  unfold held_world. rewrite E. done.
Qed.

(** One call against the reference server. *)
Ltac serve_call :=
  cbn [mbind prog_bind call mret prog_ret]; rewrite exec_call by done;
  cbn [respond default_resp]; unfold do_unlock, set_entries, set_pel, set_keys, set_locals;
  cbn [mutex_name mutex_value newMutex RedsyncMutex lock_LBSInfo IDInLBS
       entries delivs pel keys locals next_id faults].

(** ... and finished by the application. *)
Lemma exec_handle `{JsonText} (client : Client) vs msg n :
  example_service client -> info_DataStreamName (Payload n) = DataStreamName msg ->
  exec (handleStreamAdded client n) (held_world client vs msg) =
  (None, mkWorld ∅ {[the_entry]} ∅ ∅ ∅ 2 []).
Proof.
  intros Hs Hn. unfold handleStreamAdded, held_world. rewrite Hn. do 5 serve_call.
  unfold api_DoneStream, RecoverableRedisStreamClient, DoneStream, popStreamLocksInfo, lbsName, lbsGroupName.
  rewrite Hs. change ("load-balance-demo" +:+ InputSuffix) with "load-balance-demo-input".
  change ("load-balance-demo" +:+ GroupSuffix) with "load-balance-demo-group".
  serve_call. rewrite lookup_singleton_eq. serve_call. rewrite bool_decide_true by set_solver.
  serve_call. rewrite lookup_singleton_eq. serve_call. rewrite lookup_singleton_eq, bool_decide_true by done.
  do 2 serve_call. unfold exec. simpl. rewrite !delete_singleton_eq. by do 2 f_equal.
Qed.


#[local] Instance example_json : JsonText := fun _ => "invalid character".

Definition example_demo : Client :=
  default_DLQ (base_client false "redis-consumer-pod-1" "load-balance-demo").


(** ** The statistics race *)

(** The reference server next to the variable [streamCount]. *)
Definition app_answer (i : nat) (c : cmd) (s : world * Z) : resp c * (world * Z) :=
  match c return resp c * (world * Z) with
  | CountLoad => (s.2, s)
  | CountStore n => (tt, (s.1, n))
  | c => let '(a, w) := serve c s.1 in (a, (w, s.2))
  end.

(** A client that holds two streams. *)
Definition two_held : world :=
  let info k := mkLBSInfo ("s" +:+ k) (k +:+ "-0") in
  let lock k := mkStreamLocksInfo (info k) (newMutex demo_client (info k)) None in
  mkWorld {[("orders-input", "1-0") := produced "s1"; ("orders-input", "2-0") := produced "s2"]}
    {[("orders-input", "orders-group", "1-0"); ("orders-input", "orders-group", "2-0")]}
    {[("orders-input", "orders-group", "1-0"); ("orders-input", "orders-group", "2-0")]}
    {[FormMutexKey (info "1") := consumerID demo_client; FormMutexKey (info "2") := consumerID demo_client]}
    {["s1" := lock "1"; "s2" := lock "2"]} 3 [].

Definition handlers : list (prog (option error)) :=
  (fun k => handleStreamAdded demo_client (Make StreamAdded (mkLBSInfo ("s" +:+ k) (k +:+ "-0")) None)) <$> ["1"; "2"].

(** The processed-streams statistic loses updates. Handlers run in parallel
    and increment [streamCount] without synchronisation: there is a schedule of
    two handlers in which both finish their streams successfully, nothing is
    pending or locked any more, and the count is 1; run one after the other they
    count 2. *)
Theorem count_lost_update :
  let finish schedule := pool_exec app_answer schedule (mkPool handlers (two_held, 0) []) in
  let raced := finish [0; 0; 0; 0; 1; 1; 1; 1; 0; 1; 0; 0; 0; 0; 0; 0; 1; 1; 1; 1; 1; 1]%nat in
  let sequential := finish (repeat 0 11 ++ repeat 1 11)%nat in
  threads raced = [Ret None; Ret None] /\ pel (Effects.world raced).1 = ∅ /\ keys (Effects.world raced).1 = ∅ /\
  (Effects.world raced).2 = 1 /\
  threads sequential = [Ret None; Ret None] /\ (Effects.world sequential).2 = 2.
Proof. vm_compute. repeat split; reflexivity. Qed.
